(** * The tape evaluator of libfive (ao/src/eval/evaluator.cpp)

    A shallow embedding of [Kernel::Evaluator]: the tape stack with its
    [push]/[pop] machinery, the forward kernels ([values], [derivs],
    [interval], [gradient]), feature enumeration and the free-variable
    interface, followed by the properties the specification states
    about them.

    Conventions.
    - [float] is IEEE-754 binary32, as [spec_float] with [prec = 24] and
      [emax = 128]; comparisons are the IEEE ones (false on NaN).
    - [Clause::Id], [Result::Index] and [Tree::Id] are unsigned machine
      integers used as indices and keys only; they are kept in [N].
    - A C++ function that may abort or run into undefined behaviour
      returns in [res]; the evaluator is passed explicitly as state. *)

From Stdlib Require Import ZArith NArith List Bool Lia.
From Stdlib Require Import Floats.SpecFloat.
From stdpp Require Import base option list gmap.

(** ** Abnormal outcomes *)

Inductive fault : Set :=
| OutOfRange       (* index outside a vector or a matrix *)
| BadOpcode        (* leaf or sentinel opcode in a clause: [assert(false)] *)
| AssertionFailed  (* any other failed [assert] *)
| KeyNotFound      (* [std::map::at] on a missing key *)
| OutOfFuel.       (* a loop still running after the allotted iterations *)

Inductive res (A : Type) : Type :=
| Ok (a : A)
| Err (e : fault).
Arguments Ok {A} a.
Arguments Err {A} e.

Definition bind {A B} (m : res A) (k : A -> res B) : res B :=
  match m with
  | Ok a => k a
  | Err e => Err e
  end.

Declare Scope res_scope.
Notation "x ← y ; z" := (bind y (fun x => z))
  (at level 20, y at level 100, z at level 200, only parsing) : res_scope.
Notation "' x ← y ; z" := (bind y (fun x => z))
  (at level 20, x pattern, y at level 100, z at level 200, only parsing)
  : res_scope.
Open Scope res_scope.

Definition is_Ok {A} (m : res A) : Prop := exists a, m = Ok a.

Definition assert (b : bool) : res unit :=
  if b then Ok tt else Err AssertionFailed.

(** ** binary32 *)

Abbreviation float := spec_float.

Module F32.
Definition prec : Z := 24.
Definition emax : Z := 128.

Definition zero : float := S754_zero false.
Definition nan : float := S754_nan.
Definition of_Z (z : Z) : float := binary_normalize prec emax z 0 false.
Definition one : float := of_Z 1.
Definition two : float := of_Z 2.

Definition lt (a b : float) : bool := SFltb a b.
Definition gt (a b : float) : bool := SFltb b a.
Definition le (a b : float) : bool := SFleb a b.
Definition ge (a b : float) : bool := SFleb b a.
Definition eq (a b : float) : bool := SFeqb a b.
Definition ne (a b : float) : bool := negb (SFeqb a b).
Definition isnan (a : float) : bool :=
  match a with S754_nan => true | _ => false end.

Definition add : float -> float -> float := SFadd prec emax.
Definition sub : float -> float -> float := SFsub prec emax.
Definition mul : float -> float -> float := SFmul prec emax.
Definition div : float -> float -> float := SFdiv prec emax.
Definition sqrt : float -> float := SFsqrt prec emax.
Definition neg : float -> float := SFopp.

(** The order of binary32 without NaN, as a lexicographic order on
    triples of integers. *)
Definition ord (x : float) : Z * Z * Z :=
  match x with
  | S754_infinity true => (-2, 0, 0)
  | S754_finite true m e => (-1, - e, - Zpos m)
  | S754_zero _ => (0, 0, 0)
  | S754_nan => (0, 0, 0)
  | S754_finite false m e => (1, e, Zpos m)
  | S754_infinity false => (2, 0, 0)
  end%Z.

Definition lex_lt (p q : Z * Z * Z) : Prop :=
  (p.1.1 < q.1.1 \/ (p.1.1 = q.1.1 /\
     (p.1.2 < q.1.2 \/ (p.1.2 = q.1.2 /\ p.2 < q.2))))%Z.
End F32.

(** ** Data model *)

Module Opcode.
Inductive Opcode : Set :=
| INVALID | CONST | VAR_X | VAR_Y | VAR_Z | VAR | CONST_VAR
| SQUARE | SQRT | NEG | SIN | COS | TAN | ASIN | ACOS | ATAN | EXP
| ADD | MUL | MIN | MAX | SUB | DIV | ATAN2 | POW | NTH_ROOT | MOD | NANFILL
| LAST_OP.

#[global] Instance eq_dec : EqDecision Opcode.
Proof. solve_decision. Defined.
End Opcode.

Module Tree.
(** [Tree::Id] is the address of a tree node. *)
Abbreviation Id := N (only parsing).
End Tree.

Module Clause.
Abbreviation Id := N (only parsing).

Record Clause : Set := mk {
  op : Opcode.Opcode;
  id : Id;
  a : Id;
  b : Id
}.
End Clause.

Module Interval.
(** [Interval::I], a [boost::numeric::interval<float>]. *)
Record I : Set := mk { lower : float; upper : float }.
End Interval.

Record Vector3f : Set := vec3f { vx : float; vy : float; vz : float }.

Module Tape.
Inductive Type_ : Set := ORIGINAL | INTERVAL | FEATURE | SPECIALIZED.

#[global] Instance type_eq_dec : EqDecision Type_.
Proof. solve_decision. Defined.

Record Tape : Set := mk {
  t : list Clause.Clause;   (* the clauses, root first *)
  i : Clause.Id;            (* root slot *)
  type : Type_;
  X : Interval.I;           (* the box of an INTERVAL tape *)
  Y : Interval.I;
  Z : Interval.I
}.

Definition empty_interval : Interval.I := Interval.mk F32.zero F32.zero.

(** [Tape()] *)
Definition new : Tape :=
  mk [] 0%N ORIGINAL empty_interval empty_interval empty_interval.
End Tape.

(** Checked access to a [std::vector] or to a matrix row. *)
Definition at_ {A} (l : list A) (k : N) : res A :=
  match l !! N.to_nat k with
  | Some x => Ok x
  | None => Err OutOfRange
  end.

Definition store {A} (l : list A) (k : N) (x : A) : res (list A) :=
  match l !! N.to_nat k with
  | Some _ => Ok (<[N.to_nat k := x]> l)
  | None => Err OutOfRange
  end.

Module Result.
Abbreviation Index := N (only parsing).

(** The result arena.  [f], [dx], [dy], [dz] are row-major matrices with
    one row per slot and one column per batch entry; [i] holds one
    interval and [j] one Jacobian row per slot. *)
Record Result : Type := mk {
  f : list (list float);
  dx : list (list float);
  dy : list (list float);
  dz : list (list float);
  i : list Interval.I;
  j : list (list float)
}.

Definition with_f (m : list (list float)) (r : Result) : Result :=
  mk m (dx r) (dy r) (dz r) (i r) (j r).
Definition with_dx (m : list (list float)) (r : Result) : Result :=
  mk (f r) m (dy r) (dz r) (i r) (j r).
Definition with_dy (m : list (list float)) (r : Result) : Result :=
  mk (f r) (dx r) m (dz r) (i r) (j r).
Definition with_dz (m : list (list float)) (r : Result) : Result :=
  mk (f r) (dx r) (dy r) m (i r) (j r).
Definition with_i (m : list Interval.I) (r : Result) : Result :=
  mk (f r) (dx r) (dy r) (dz r) m (j r).
Definition with_j (m : list (list float)) (r : Result) : Result :=
  mk (f r) (dx r) (dy r) (dz r) (i r) m.

(** [m(r, c)] *)
Definition coeff (m : list (list float)) (r : Clause.Id) (c : Index)
  : res float :=
  row ← at_ m r; at_ row c.

(** [m(r, c) = v] *)
Definition set_coeff (m : list (list float)) (r : Clause.Id) (c : Index)
    (v : float) : res (list (list float)) :=
  row ← at_ m r; row' ← store row c v; store m r row'.

(** Modelled from the spec: [Result::setValue] (ao/eval/result.hpp, not
    under src/).  Section 4.10: "setVar(id, v) writes v to the value row
    of that variable's slot": every column of row [i] of [f] becomes
    [v]. *)
Definition setValue (v : float) (i : Clause.Id) (r : Result) : res Result :=
  row ← at_ (f r) i;
  m ← store (f r) i (replicate (length row) v);
  Ok (with_f m r).
End Result.

(** ** binary64 and [Eigen::Vector3d] *)

Abbreviation double := spec_float (only parsing).

Module F64.
Definition prec : Z := 53.
Definition emax : Z := 1024.

Definition zero : double := S754_zero false.
Definition gt (a b : double) : bool := SFltb b a.
Definition ge (a b : double) : bool := SFleb b a.
Definition add : double -> double -> double := SFadd prec emax.
Definition sub : double -> double -> double := SFsub prec emax.
Definition mul : double -> double -> double := SFmul prec emax.
Definition sqrt : double -> double := SFsqrt prec emax.
Definition div : double -> double -> double := SFdiv prec emax.
Definition neg : double -> double := SFopp.

(** [double(n)] for a [size_t] *)
Definition of_nat (n : nat) : double :=
  binary_normalize prec emax (Z.of_nat n) 0 false.

(** The conversion from [float], which is exact. *)
Definition of_float (x : float) : double :=
  match x with
  | S754_finite s m e => binary_normalize prec emax (cond_Zopp s (Zpos m)) e s
  | _ => x
  end.

(** [double(z)] for an [int] *)
Definition of_Z (z : Z) : double := binary_normalize prec emax z 0 false.

(** The conversion to [float], where a [double] is stored in a [float]:
    one rounding to nearest, ties to even. *)
Definition to_float (x : double) : float :=
  match x with
  | S754_finite s m e =>
      binary_normalize F32.prec F32.emax (cond_Zopp s (Zpos m)) e s
  | _ => x
  end.
End F64.

Record Vector3d : Set := vec3d { dvx : double; dvy : double; dvz : double }.

(** [Eigen::Vector3d(x, y, z)] from three floats *)
Definition Vector3d_of (x y z : float) : Vector3d :=
  vec3d (F64.of_float x) (F64.of_float y) (F64.of_float z).

Definition Vector3d_sub (u v : Vector3d) : Vector3d :=
  vec3d (F64.sub (dvx u) (dvx v)) (F64.sub (dvy u) (dvy v))
        (F64.sub (dvz u) (dvz v)).

Definition Vector3d_neg (u : Vector3d) : Vector3d :=
  vec3d (F64.neg (dvx u)) (F64.neg (dvy u)) (F64.neg (dvz u)).

(** ** External numeric collaborators

    The functions of libm, Eigen and Boost.Interval that the evaluator
    calls and whose results the C++ standard does not fix: they are
    parameters of the model. *)

Class Numeric : Type := {
  (* Eigen: coefficient-wise minimum and maximum, Euclidean norm *)
  cwiseMin : float -> float -> float;
  cwiseMax : float -> float -> float;
  norm : Vector3d -> double;
  (* libm *)
  fmodf : float -> float -> float;
  atan2f : float -> float -> float;
  powf : float -> float -> float;
  sinf : float -> float;
  cosf : float -> float;
  tanf : float -> float;
  asinf : float -> float;
  acosf : float -> float;
  atanf : float -> float;
  expf : float -> float;
  (* libm on double: the unqualified calls of the Jacobian kernel *)
  pow : double -> double -> double;
  sin : double -> double;
  cos : double -> double;
  exp : double -> double;
  (* boost::numeric interval arithmetic; [I_make l u] is [Interval::I(l, u)] *)
  I_make : float -> float -> Interval.I;
  I_add : Interval.I -> Interval.I -> Interval.I;
  I_mul : Interval.I -> Interval.I -> Interval.I;
  I_min : Interval.I -> Interval.I -> Interval.I;
  I_max : Interval.I -> Interval.I -> Interval.I;
  I_sub : Interval.I -> Interval.I -> Interval.I;
  I_div : Interval.I -> Interval.I -> Interval.I;
  I_atan2 : Interval.I -> Interval.I -> Interval.I;
  I_pow : Interval.I -> float -> Interval.I;
  I_nth_root : Interval.I -> float -> Interval.I;
  I_square : Interval.I -> Interval.I;
  I_sqrt : Interval.I -> Interval.I;
  I_neg : Interval.I -> Interval.I;
  I_sin : Interval.I -> Interval.I;
  I_cos : Interval.I -> Interval.I;
  I_tan : Interval.I -> Interval.I;
  I_asin : Interval.I -> Interval.I;
  I_acos : Interval.I -> Interval.I;
  I_atan : Interval.I -> Interval.I;
  I_exp : Interval.I -> Interval.I
}.

(** ** Features *)

Module Feature.
(** [Feature::Choice] *)
Record Choice : Set := mk_choice { id : Clause.Id; choice : Z }.

#[global] Instance choice_eq_dec : EqDecision Choice.
Proof. solve_decision. Defined.

(** Modelled from the spec: class [Feature] (ao/eval/feature.hpp, not
    under src/).  Section 4.7: a Feature is "a set of branch choices with
    epsilon constraints and the currently implied spatial gradient".  The
    public member [deriv] and the list returned by [getChoices] are
    fields; the epsilon constraints, whose representation the spec leaves
    open, are a third field of a type [E] chosen by the implementation. *)
Record Feature (E : Type) : Type := mk {
  deriv : Vector3d;
  choices : list Choice;
  epsilons : E
}.
Arguments mk {E} deriv choices epsilons.
Arguments deriv {E} f.
Arguments choices {E} f.
Arguments epsilons {E} f.

Definition getChoices {E} (f : Feature E) : list Choice := choices f.

(** [f.deriv = d] *)
Definition set_deriv {E} (d : Vector3d) (f : Feature E) : Feature E :=
  mk d (choices f) (epsilons f).

(** The member functions of [Feature], whose bodies are not under src/.
    [push] returns the feature it has extended when the C++ function
    returns [true]. *)
Class API : Type := {
  E : Type;
  no_epsilons : E;        (* the constraints of a fresh feature *)
  deriv0 : Vector3d;      (* its [deriv], which [Feature()] does not set *)
  hasEpsilon : Feature E -> Clause.Id -> bool;
  getEpsilon : Feature E -> Clause.Id -> Vector3d;
  push_raw : Choice -> Vector3d -> Feature E -> Feature E;
  push_choice_raw : Choice -> Feature E -> Feature E;
  push_choice : Choice -> Feature E -> Feature E;
  push : Vector3d -> Choice -> Feature E -> option (Feature E);
  isCompatible : Feature E -> Vector3d -> bool
}.
(** [Feature()] *)
Definition new `{API} : Feature E := mk deriv0 [] no_epsilons.

(** Where the member functions put a choice in the list: [push] and
    [push_choice] at its front, [push_raw] and [push_choice_raw] at its
    back. *)
Class Laws `{API} : Prop := {
  push_choice_front (ch : Choice) (f : Feature E) :
    getChoices (push_choice ch f) = ch :: getChoices f;
  push_front (e : Vector3d) (ch : Choice) (f f' : Feature E) :
    push e ch f = Some f' -> getChoices f' = ch :: getChoices f;
  push_raw_back (ch : Choice) (e : Vector3d) (f : Feature E) :
    getChoices (push_raw ch e f) = getChoices f ++ [ch];
  push_choice_raw_back (ch : Choice) (f : Feature E) :
    getChoices (push_choice_raw ch f) = getChoices f ++ [ch]
}.
End Feature.

Abbreviation Feature := (Feature.Feature Feature.E).

(** ** Monadic iteration *)

Fixpoint foldlM {A B} (k : B -> A -> res B) (l : list A) (acc : B) : res B :=
  match l with
  | [] => Ok acc
  | x :: l' => acc' ← k acc x; foldlM k l' acc'
  end.

Fixpoint mapM_res {A B} (k : A -> res B) (l : list A) : res (list B) :=
  match l with
  | [] => Ok []
  | x :: l' => y ← k x; ys ← mapM_res k l'; Ok (y :: ys)
  end.

Definition map3 {A B C D} (g : A -> B -> C -> D)
    (l1 : list A) (l2 : list B) (l3 : list C) : list D :=
  zip_with (fun x p => g x p.1 p.2) l1 (zip l2 l3).

Definition map4 {A B C D E} (g : A -> B -> C -> D -> E)
    (l1 : list A) (l2 : list B) (l3 : list C) (l4 : list D) : list E :=
  zip_with (fun p q => g p.1 p.2 q.1 q.2) (zip l1 l2) (zip l3 l4).

Definition map5 {A B C D E F} (g : A -> B -> C -> D -> E -> F)
    (l1 : list A) (l2 : list B) (l3 : list C) (l4 : list D) (l5 : list E)
  : list F :=
  zip_with (fun p q => g p.1 p.2 q.1.1 q.1.2 q.2)
           (zip l1 l2) (zip (zip l3 l4) l5).

Module Evaluator.

(** The evaluator.  [tape] is the iterator into [tapes], kept as the
    position it points at; [vars] is the left view of the
    [boost::bimap] between variable slots and tree nodes, in iteration
    order.  ([root_op] and [var_handles] are read by none of the
    functions below and are left out.) *)
Record Evaluator : Type := mk {
  tapes : list Tape.Tape;
  tape : nat;
  result : Result.Result;
  disabled : list bool;
  remap : list Clause.Id;
  vars : list (Clause.Id * Tree.Id);
  X : Clause.Id;
  Y : Clause.Id;
  Z : Clause.Id
}.

Definition with_tapes (ts : list Tape.Tape) (s : Evaluator) : Evaluator :=
  mk ts (tape s) (result s) (disabled s) (remap s) (vars s) (X s) (Y s) (Z s).
Definition with_tape (k : nat) (s : Evaluator) : Evaluator :=
  mk (tapes s) k (result s) (disabled s) (remap s) (vars s) (X s) (Y s) (Z s).
Definition with_result (r : Result.Result) (s : Evaluator) : Evaluator :=
  mk (tapes s) (tape s) r (disabled s) (remap s) (vars s) (X s) (Y s) (Z s).
Definition with_scratch (d : list bool) (m : list Clause.Id) (s : Evaluator)
  : Evaluator :=
  mk (tapes s) (tape s) (result s) d m (vars s) (X s) (Y s) (Z s).

(** [*tape], the active tape. *)
Definition cur (s : Evaluator) : res Tape.Tape :=
  match tapes s !! tape s with
  | Some t => Ok t
  | None => Err OutOfRange
  end.

(** *** Rows of the arena *)

Inductive mat : Set := Mf | Mdx | Mdy | Mdz.

Definition get_mat (k : mat) (r : Result.Result) : list (list float) :=
  match k with
  | Mf => Result.f r
  | Mdx => Result.dx r
  | Mdy => Result.dy r
  | Mdz => Result.dz r
  end.

Definition set_mat (k : mat) (m : list (list float)) (r : Result.Result)
  : Result.Result :=
  match k with
  | Mf => Result.with_f m r
  | Mdx => Result.with_dx m r
  | Mdy => Result.with_dy m r
  | Mdz => Result.with_dz m r
  end.

(** Reading [m.row(slot).head(count)]. *)
Definition head (m : list (list float)) (slot : Clause.Id)
    (count : Result.Index) : res (list float) :=
  row ← at_ m slot;
  if decide (N.to_nat count <= length row)%nat
  then Ok (take (N.to_nat count) row)
  else Err OutOfRange.

(** Assigning to [m.row(slot).head(count)]. *)
Definition set_head (m : list (list float)) (slot : Clause.Id)
    (count : Result.Index) (v : list float) : res (list (list float)) :=
  row ← at_ m slot;
  if decide (N.to_nat count <= length row)%nat
  then store m slot (v ++ drop (N.to_nat count) row)
  else Err OutOfRange.

Definition rd (count : Result.Index) (src : mat * Clause.Id)
    (r : Result.Result) : res (list float) :=
  head (get_mat src.1 r) src.2 count.

Definition wr (count : Result.Index) (dst : mat * Clause.Id) (v : list float)
    (r : Result.Result) : res Result.Result :=
  m ← set_head (get_mat dst.1 r) dst.2 count v;
  Ok (set_mat dst.1 m r).

(** One Eigen array statement [dst = g(s1, ..., sn)]: the operand rows are
    read from the arena as it stands, then the destination row is
    written. *)
Definition assign1 (count : Result.Index) (dst : mat * Clause.Id)
    (g : float -> float) (s1 : mat * Clause.Id) (r : Result.Result)
  : res Result.Result :=
  v1 ← rd count s1 r;
  wr count dst (g <$> v1) r.

Definition assign2 (count : Result.Index) (dst : mat * Clause.Id)
    (g : float -> float -> float) (s1 s2 : mat * Clause.Id)
    (r : Result.Result) : res Result.Result :=
  v1 ← rd count s1 r; v2 ← rd count s2 r;
  wr count dst (zip_with g v1 v2) r.

Definition assign3 (count : Result.Index) (dst : mat * Clause.Id)
    (g : float -> float -> float -> float) (s1 s2 s3 : mat * Clause.Id)
    (r : Result.Result) : res Result.Result :=
  v1 ← rd count s1 r; v2 ← rd count s2 r; v3 ← rd count s3 r;
  wr count dst (map3 g v1 v2 v3) r.

Definition assign4 (count : Result.Index) (dst : mat * Clause.Id)
    (g : float -> float -> float -> float -> float)
    (s1 s2 s3 s4 : mat * Clause.Id) (r : Result.Result)
  : res Result.Result :=
  v1 ← rd count s1 r; v2 ← rd count s2 r;
  v3 ← rd count s3 r; v4 ← rd count s4 r;
  wr count dst (map4 g v1 v2 v3 v4) r.

Definition assign5 (count : Result.Index) (dst : mat * Clause.Id)
    (g : float -> float -> float -> float -> float -> float)
    (s1 s2 s3 s4 s5 : mat * Clause.Id) (r : Result.Result)
  : res Result.Result :=
  v1 ← rd count s1 r; v2 ← rd count s2 r; v3 ← rd count s3 r;
  v4 ← rd count s4 r; v5 ← rd count s5 r;
  wr count dst (map5 g v1 v2 v3 v4 v5) r.

(** *** The forward value kernel *)

Section Kernels.
Context `{Numeric}.

(** The loop [while (out(i) < 0) out(i) += b(i)] of the MOD case.  When the
    clause writes the row it reads [b] from ([alias]), [b(i)] is
    [out(i)] itself. *)
Fixpoint mod_while (fuel : nat) (alias : bool) (out bv : float) : res float :=
  match fuel with
  | O => Err OutOfFuel
  | S n =>
      if F32.lt out F32.zero
      then mod_while n alias (F32.add out (if alias then out else bv)) bv
      else Ok out
  end.

(** [out(i) = std::fmod(a(i), b(i))] followed by the loop. *)
Definition mod_coeff (fuel : nat) (alias : bool) (av bv : float) : res float :=
  mod_while fuel alias (fmodf av bv) bv.

(** The body of the loop of [values]: one clause, on the leading [count]
    columns. *)
Definition values_clause (fuel : nat) (count : Result.Index)
    (c : Clause.Clause) (r : Result.Result) : res Result.Result :=
  let out := (Mf, Clause.id c) in
  let a := (Mf, Clause.a c) in
  let b := (Mf, Clause.b c) in
  match Clause.op c with
  | Opcode.ADD => assign2 count out F32.add a b r
  | Opcode.MUL => assign2 count out F32.mul a b r
  | Opcode.MIN => assign2 count out cwiseMin a b r
  | Opcode.MAX => assign2 count out cwiseMax a b r
  | Opcode.SUB => assign2 count out F32.sub a b r
  | Opcode.DIV => assign2 count out F32.div a b r
  | Opcode.ATAN2 => assign2 count out atan2f a b r
  | Opcode.POW => assign2 count out powf a b r
  | Opcode.NTH_ROOT =>
      assign2 count out (fun x y => powf x (F32.div F32.one y)) a b r
  | Opcode.MOD =>
      av ← rd count a r;
      bv ← rd count b r;
      v ← mapM_res
            (fun p => mod_coeff fuel (bool_decide (Clause.id c = Clause.b c))
                                p.1 p.2)
            (zip av bv);
      wr count out v r
  | Opcode.NANFILL =>
      assign2 count out (fun x y => if F32.isnan x then y else x) a b r
  | Opcode.SQUARE => assign1 count out (fun x => F32.mul x x) a r
  | Opcode.SQRT => assign1 count out F32.sqrt a r
  | Opcode.NEG => assign1 count out F32.neg a r
  | Opcode.SIN => assign1 count out sinf a r
  | Opcode.COS => assign1 count out cosf a r
  | Opcode.TAN => assign1 count out tanf a r
  | Opcode.ASIN => assign1 count out asinf a r
  | Opcode.ACOS => assign1 count out acosf a r
  | Opcode.ATAN => assign1 count out atanf a r
  | Opcode.EXP => assign1 count out expf a r
  | Opcode.CONST_VAR => assign1 count out (fun x => x) a r
  | Opcode.INVALID | Opcode.CONST | Opcode.VAR_X | Opcode.VAR_Y
  | Opcode.VAR_Z | Opcode.VAR | Opcode.LAST_OP => Err BadOpcode
  end.

(** [values(count)]: the clauses from the back of the tape to its front.
    The pointer it returns is kept as the row it points into. *)
Definition values (fuel : nat) (count : Result.Index) (s : Evaluator)
  : res (Clause.Id * Evaluator) :=
  tp ← cur s;
  r ← foldlM (fun r c => values_clause fuel count c r)
             (rev (Tape.t tp)) (result s);
  _ ← Result.coeff (Result.f r) (Tape.i tp) 0;
  Ok (Tape.i tp, with_result r s).

(** *** The spatial-derivative kernel *)

(** The same statement for [dx], [dy] and [dz], in that order. *)
Definition each3 (st : mat -> Result.Result -> res Result.Result)
    (r : Result.Result) : res Result.Result :=
  r1 ← st Mdx r; r2 ← st Mdy r1; st Mdz r2.

(** The body of the second loop of [derivs].  Several cases use the row
    [odz] as a temporary before they overwrite it. *)
Definition derivs_clause (count : Result.Index) (c : Clause.Clause)
    (r : Result.Result) : res Result.Result :=
  let ov := (Mf, Clause.id c) in
  let av := (Mf, Clause.a c) in
  let bv := (Mf, Clause.b c) in
  let od := fun d : mat => (d, Clause.id c) in
  let ad := fun d : mat => (d, Clause.a c) in
  let bd := fun d : mat => (d, Clause.b c) in
  let odz := (Mdz, Clause.id c) in
  match Clause.op c with
  | Opcode.ADD =>
      each3 (fun d => assign2 count (od d) F32.add (ad d) (bd d)) r
  | Opcode.MUL =>
      each3 (fun d => assign4 count (od d)
               (fun a' b' a'' b'' => F32.add (F32.mul a' b') (F32.mul a'' b''))
               av (bd d) (ad d) bv) r
  | Opcode.MIN =>
      each3 (fun d => assign4 count (od d)
               (fun x y da db => if F32.lt x y then da else db)
               av bv (ad d) (bd d)) r
  | Opcode.MAX =>
      each3 (fun d => assign4 count (od d)
               (fun x y db da => if F32.lt x y then db else da)
               av bv (bd d) (ad d)) r
  | Opcode.SUB =>
      each3 (fun d => assign2 count (od d) F32.sub (ad d) (bd d)) r
  | Opcode.DIV =>
      r0 ← assign1 count odz (fun y => powf y F32.two) bv r;
      each3 (fun d => assign5 count (od d)
               (fun y da x db t =>
                  F32.div (F32.sub (F32.mul y da) (F32.mul x db)) t)
               bv (ad d) av (bd d) odz) r0
  | Opcode.ATAN2 =>
      r0 ← assign2 count odz
             (fun x y => F32.add (powf x F32.two) (powf y F32.two)) av bv r;
      each3 (fun d => assign5 count (od d)
               (fun da y x db t =>
                  F32.div (F32.sub (F32.mul da y) (F32.mul x db)) t)
               (ad d) bv av (bd d) odz) r0
  | Opcode.POW =>
      r0 ← assign2 count odz (fun x y => powf x (F32.sub y F32.one)) av bv r;
      each3 (fun d => assign3 count (od d)
               (fun t y da => F32.mul t (F32.mul y da)) odz bv (ad d)) r0
  | Opcode.NTH_ROOT =>
      r0 ← assign1 count odz (fun y => F32.div F32.one y) bv r;
      r1 ← assign2 count odz
             (fun x t => F32.mul (powf x (F32.sub t F32.one)) t) av odz r0;
      each3 (fun d => assign2 count (od d) F32.mul odz (ad d)) r1
  | Opcode.MOD =>
      each3 (fun d => assign1 count (od d) (fun da => da) (ad d)) r
  | Opcode.NANFILL =>
      each3 (fun d => assign3 count (od d)
               (fun x db da => if F32.isnan x then db else da)
               av (bd d) (ad d)) r
  | Opcode.SQUARE =>
      r0 ← assign1 count odz (fun x => F32.mul F32.two x) av r;
      each3 (fun d => assign2 count (od d) F32.mul odz (ad d)) r0
  | Opcode.SQRT =>
      each3 (fun d => assign3 count (od d)
               (fun x da o =>
                  if F32.lt x F32.zero then F32.zero
                  else F32.div da (F32.mul F32.two o))
               av (ad d) ov) r
  | Opcode.NEG =>
      each3 (fun d => assign1 count (od d) F32.neg (ad d)) r
  | Opcode.SIN =>
      r0 ← assign1 count odz cosf av r;
      each3 (fun d => assign2 count (od d) F32.mul (ad d) odz) r0
  | Opcode.COS =>
      r0 ← assign1 count odz (fun x => F32.neg (sinf x)) av r;
      each3 (fun d => assign2 count (od d) F32.mul (ad d) odz) r0
  | Opcode.TAN =>
      r0 ← assign1 count odz
             (fun x => powf (F32.div F32.one (cosf x)) F32.two) av r;
      each3 (fun d => assign2 count (od d) F32.mul (ad d) odz) r0
  | Opcode.ASIN =>
      r0 ← assign1 count odz
             (fun x => F32.sqrt (F32.sub F32.one (powf x F32.two))) av r;
      each3 (fun d => assign2 count (od d) F32.div (ad d) odz) r0
  | Opcode.ACOS =>
      r0 ← assign1 count odz
             (fun x => F32.neg (F32.sqrt (F32.sub F32.one (powf x F32.two))))
             av r;
      each3 (fun d => assign2 count (od d) F32.div (ad d) odz) r0
  | Opcode.ATAN =>
      r0 ← assign1 count odz (fun x => F32.add (powf x F32.two) F32.one) av r;
      each3 (fun d => assign2 count (od d) F32.div (ad d) odz) r0
  | Opcode.EXP =>
      r0 ← assign1 count odz expf av r;
      each3 (fun d => assign2 count (od d) F32.mul odz (ad d)) r0
  | Opcode.CONST_VAR =>
      each3 (fun d => assign1 count (od d) (fun da => da) (ad d)) r
  | Opcode.INVALID | Opcode.CONST | Opcode.VAR_X | Opcode.VAR_Y
  | Opcode.VAR_Z | Opcode.VAR | Opcode.LAST_OP => Err BadOpcode
  end.

(** [derivs(count)].  The four pointers of the returned [Derivs] point
    into the same row of [f], [dx], [dy] and [dz]: that row is what is
    returned, and a later [ds.dx[0]] reads the arena as it is then. *)
Definition derivs (fuel : nat) (count : Result.Index) (s : Evaluator)
  : res (Clause.Id * Evaluator) :=
  '(_, s1) ← values fuel count s;
  tp ← cur s1;
  r ← foldlM (fun r c => derivs_clause count c r)
             (rev (Tape.t tp)) (result s1);
  _ ← Result.coeff (Result.f r) (Tape.i tp) 0;
  _ ← Result.coeff (Result.dx r) (Tape.i tp) 0;
  _ ← Result.coeff (Result.dy r) (Tape.i tp) 0;
  _ ← Result.coeff (Result.dz r) (Tape.i tp) 0;
  Ok (Tape.i tp, with_result r s1).

(** *** The interval kernel *)

Definition eval_clause_interval (op : Opcode.Opcode) (a b : Interval.I)
  : res Interval.I :=
  match op with
  | Opcode.ADD => Ok (I_add a b)
  | Opcode.MUL => Ok (I_mul a b)
  | Opcode.MIN => Ok (I_min a b)
  | Opcode.MAX => Ok (I_max a b)
  | Opcode.SUB => Ok (I_sub a b)
  | Opcode.DIV => Ok (I_div a b)
  | Opcode.ATAN2 => Ok (I_atan2 a b)
  | Opcode.POW => Ok (I_pow a (Interval.lower b))
  | Opcode.NTH_ROOT => Ok (I_nth_root a (Interval.lower b))
  | Opcode.MOD => Ok (I_make F32.zero (Interval.upper b))
  | Opcode.NANFILL =>
      Ok (if F32.isnan (Interval.lower a) || F32.isnan (Interval.upper a)
          then b else a)
  | Opcode.SQUARE => Ok (I_square a)
  | Opcode.SQRT => Ok (I_sqrt a)
  | Opcode.NEG => Ok (I_neg a)
  | Opcode.SIN => Ok (I_sin a)
  | Opcode.COS => Ok (I_cos a)
  | Opcode.TAN => Ok (I_tan a)
  | Opcode.ASIN => Ok (I_asin a)
  | Opcode.ACOS => Ok (I_acos a)
  | Opcode.ATAN => Ok (I_atan a)
  | Opcode.EXP => Ok (I_exp a)
  | Opcode.CONST_VAR => Ok a
  | Opcode.INVALID | Opcode.CONST | Opcode.VAR_X | Opcode.VAR_Y
  | Opcode.VAR_Z | Opcode.VAR | Opcode.LAST_OP => Err BadOpcode
  end.

Definition interval_clause (c : Clause.Clause) (iv : list Interval.I)
  : res (list Interval.I) :=
  ia ← at_ iv (Clause.a c);
  ib ← at_ iv (Clause.b c);
  o ← eval_clause_interval (Clause.op c) ia ib;
  store iv (Clause.id c) o.

Definition interval (s : Evaluator) : res (Interval.I * Evaluator) :=
  tp ← cur s;
  iv ← foldlM (fun iv c => interval_clause c iv)
              (rev (Tape.t tp)) (Result.i (result s));
  out ← at_ iv (Tape.i tp);
  Ok (out, with_result (Result.with_i iv (result s)) s).

(** *** The Jacobian kernel *)

(** [JAC_LOOP]: the three vectors are walked together, up to the end of
    [aj]. *)
Definition JAC_LOOP (g : float -> float -> float) (aj bj oj : list float)
  : res (list float) :=
  if decide (length aj <= length bj /\ length aj <= length oj)%nat
  then Ok (zip_with g aj bj ++ drop (length aj) oj)
  else Err OutOfRange.

(** The scalar calls [pow], [sqrt], [cos], [sin] and [exp] are
    unqualified and no using-directive is in force: they are the
    functions of the C library on [double].  Their [float] arguments are
    converted, the arithmetic that has a [double] operand is done in
    [double], and the result is rounded once, where it is stored in a
    [float]. *)
Definition eval_clause_jacobians (op : Opcode.Opcode)
    (av : float) (aj : list float) (bv : float) (bj : list float)
    (oj : list float) : res (list float) :=
  let loop := fun g => JAC_LOOP g aj bj oj in
  let d := F64.of_float in
  let square := fun x : float => pow (d x) (F64.of_Z 2) in
  match op with
  | Opcode.ADD => loop (fun a b => F32.add a b)
  | Opcode.MUL => loop (fun a b => F32.add (F32.mul av b) (F32.mul bv a))
  | Opcode.MIN => loop (fun a b => if F32.lt av bv then a else b)
  | Opcode.MAX => loop (fun a b => if F32.lt av bv then b else a)
  | Opcode.SUB => loop (fun a b => F32.sub a b)
  | Opcode.DIV =>
      loop (fun a b =>
              let p := F64.to_float (square bv) in
              F32.div (F32.sub (F32.mul bv a) (F32.mul av b)) p)
  | Opcode.ATAN2 =>
      loop (fun a b =>
              let d := F64.to_float (F64.add (square av) (square bv)) in
              F32.div (F32.sub (F32.mul a bv) (F32.mul av b)) d)
  | Opcode.POW =>
      loop (fun a _ =>
              let m := F64.to_float
                         (pow (d av) (d (F32.sub bv F32.one))) in
              F32.mul m (F32.mul bv a))
  | Opcode.NTH_ROOT =>
      loop (fun a _ =>
              let m := F64.to_float
                         (pow (d av)
                              (d (F32.sub (F32.div F32.one bv) F32.one))) in
              F32.mul m (F32.mul (F32.div F32.one bv) a))
  | Opcode.MOD => loop (fun a _ => a)
  | Opcode.NANFILL => loop (fun a b => if F32.isnan av then b else a)
  | Opcode.SQUARE => loop (fun a _ => F32.mul (F32.mul F32.two av) a)
  | Opcode.SQRT =>
      loop (fun a _ =>
              if F32.lt av F32.zero then F32.zero
              else F64.to_float
                     (F64.div (d a)
                              (F64.mul (F64.of_Z 2) (F64.sqrt (d av)))))
  | Opcode.NEG => loop (fun a _ => F32.neg a)
  | Opcode.SIN =>
      loop (fun a _ => let c := F64.to_float (cos (d av)) in F32.mul a c)
  | Opcode.COS =>
      loop (fun a _ =>
              let s := F64.to_float (F64.neg (sin (d av))) in F32.mul a s)
  | Opcode.TAN =>
      loop (fun a _ =>
              let s := F64.to_float
                         (pow (F64.div (F64.of_Z 1) (cos (d av)))
                              (F64.of_Z 2)) in
              F32.mul a s)
  | Opcode.ASIN =>
      loop (fun a _ =>
              let d := F64.to_float
                         (F64.sqrt (F64.sub (F64.of_Z 1) (square av))) in
              F32.div a d)
  | Opcode.ACOS =>
      loop (fun a _ =>
              let d := F64.to_float
                         (F64.neg
                            (F64.sqrt (F64.sub (F64.of_Z 1) (square av)))) in
              F32.div a d)
  | Opcode.ATAN =>
      loop (fun a _ =>
              let d := F64.to_float (F64.add (square av) (F64.of_Z 1)) in
              F32.div a d)
  | Opcode.EXP =>
      loop (fun a _ => let e := F64.to_float (exp (d av)) in F32.mul e a)
  | Opcode.CONST_VAR => loop (fun _ _ => F32.zero)
  | Opcode.INVALID | Opcode.CONST | Opcode.VAR_X | Opcode.VAR_Y
  | Opcode.VAR_Z | Opcode.VAR | Opcode.LAST_OP => Err BadOpcode
  end.

Definition gradient_clause (c : Clause.Clause) (r : Result.Result)
  : res Result.Result :=
  av ← Result.coeff (Result.f r) (Clause.a c) 0;
  bv ← Result.coeff (Result.f r) (Clause.b c) 0;
  aj ← at_ (Result.j r) (Clause.a c);
  bj ← at_ (Result.j r) (Clause.b c);
  oj ← at_ (Result.j r) (Clause.id c);
  oj' ← eval_clause_jacobians (Clause.op c) av aj bv bj oj;
  m ← store (Result.j r) (Clause.id c) oj';
  Ok (Result.with_j m r).

(** Unpacking the Jacobian row of the root [ti] into a map keyed by
    variable: [out[v.second] = result->j[ti][index++]]. *)
Fixpoint gradient_unpack (vs : list (Clause.Id * Tree.Id))
    (j : list (list float)) (ti : Clause.Id) (index : nat)
    (out : gmap N float) : res (gmap N float) :=
  match vs with
  | [] => Ok out
  | v :: vs' =>
      row ← at_ j ti;
      x ← match row !! index with
          | Some x => Ok x
          | None => Err OutOfRange
          end;
      gradient_unpack vs' j ti (S index) (<[v.2 := x]> out)
  end.

(** *** Loading inputs, point and box evaluation *)

(** Modelled from the spec: [Evaluator::set(p, index)] (inline in
    ao/eval/evaluator.hpp, not under src/).  Section 4.7, step 1 ("load
    the location into the first results slot") and the sibling
    [set(lower, upper)]: the coordinates of [p] are stored in column
    [index] of the value rows of the axis slots. *)
Definition set (p : Vector3f) (index : Result.Index) (s : Evaluator)
  : res Evaluator :=
  f1 ← Result.set_coeff (Result.f (result s)) (X s) index (vx p);
  f2 ← Result.set_coeff f1 (Y s) index (vy p);
  f3 ← Result.set_coeff f2 (Z s) index (vz p);
  Ok (with_result (Result.with_f f3 (result s)) s).

(** [set(lower, upper)] *)
Definition set_interval (lower upper : Vector3f) (s : Evaluator)
  : res Evaluator :=
  i1 ← store (Result.i (result s)) (X s) (I_make (vx lower) (vx upper));
  i2 ← store i1 (Y s) (I_make (vy lower) (vy upper));
  i3 ← store i2 (Z s) (I_make (vz lower) (vz upper));
  Ok (with_result (Result.with_i i3 (result s)) s).

(** [eval(p)] *)
Definition eval (fuel : nat) (p : Vector3f) (s : Evaluator)
  : res (float * Evaluator) :=
  s1 ← set p 0 s;
  '(row, s2) ← values fuel 1 s1;
  out ← Result.coeff (Result.f (result s2)) row 0;
  Ok (out, s2).

(** [eval(lower, upper)] *)
Definition eval_interval (lower upper : Vector3f) (s : Evaluator)
  : res (Interval.I * Evaluator) :=
  s1 ← set_interval lower upper s;
  interval s1.

(** [gradient(p)] *)
Definition gradient (fuel : nat) (p : Vector3f) (s : Evaluator)
  : res (gmap N float * Evaluator) :=
  s1 ← set p 0 s;
  '(_, s2) ← values fuel 1 s1;
  tp ← cur s2;
  r ← foldlM (fun r c => gradient_clause c r) (rev (Tape.t tp)) (result s2);
  out ← gradient_unpack (vars s2) (Result.j r) (Tape.i tp) 0 ∅;
  Ok (out, with_result r s2).

(** *** The tape stack *)

(** [pop()] *)
Definition pop (s : Evaluator) : res Evaluator :=
  _ ← assert (bool_decide (tape s <> 0%nat));
  Ok (with_tape (Nat.pred (tape s)) s).

(** The loop [for (r = r0; remap[r]; r = remap[r]);].  A chain that is
    still running after [length remap] steps has visited some slot twice
    and never ends. *)
Fixpoint chase (fuel : nat) (remap : list Clause.Id) (r : Clause.Id)
  : res Clause.Id :=
  match fuel with
  | O => Err OutOfFuel
  | S n =>
      r' ← at_ remap r;
      if decide (r' = 0%N) then Ok r else chase n remap r'
  end.

Definition fixpoint (remap : list Clause.Id) (r : Clause.Id) : res Clause.Id :=
  chase (length remap) remap r.

(** The loop of [pushTape] over the clauses of the previous tape. *)
Fixpoint pushTape_loop (disabled : list bool) (remap : list Clause.Id)
    (prev : list Clause.Clause) (out : list Clause.Clause)
  : res (list Clause.Clause) :=
  match prev with
  | [] => Ok out
  | c :: prev' =>
      dis ← at_ disabled (Clause.id c);
      if dis then pushTape_loop disabled remap prev' out
      else
        ra ← fixpoint remap (Clause.a c);
        rb ← fixpoint remap (Clause.b c);
        pushTape_loop disabled remap prev'
          (out ++ [Clause.mk (Clause.op c) (Clause.id c) ra rb])
  end.

(** [pushTape(t)].  The assertion on [capacity()] concerns storage only
    and has no counterpart here. *)
Definition pushTape (t : Tape.Type_) (s : Evaluator) : res Evaluator :=
  prev ← cur s;
  let k := S (tape s) in
  let old :=
    match tapes s !! k with
    | Some tp => tp      (* reused: [tape->t.clear()] *)
    | None => Tape.new   (* [tapes.insert(tape, Tape())] *)
    end in
  cs ← pushTape_loop (disabled s) (remap s) (Tape.t prev) [];
  root ← fixpoint (remap s) (Tape.i prev);
  _ ← assert (bool_decide (length cs <= length (Tape.t prev))%nat);
  let new := Tape.mk cs root t (Tape.X old) (Tape.Y old) (Tape.Z old) in
  let ts :=
    match tapes s !! k with
    | Some _ => <[k := new]> (tapes s)
    | None => tapes s ++ [new]
    end in
  Ok (with_tape k (with_tapes ts s)).

(** The scratch arrays after the two [std::fill]s and
    [disabled[tape->i] = false]. *)
Definition reset (s : Evaluator) (root : Clause.Id)
  : res (list bool * list Clause.Id) :=
  d ← store (replicate (length (disabled s)) true) root false;
  Ok (d, replicate (length (remap s)) 0%N).

(** [disabled[r] = false; remap[c.id] = r;] *)
Definition collapse (c : Clause.Clause) (r : Clause.Id)
    (dm : list bool * list Clause.Id) : res (list bool * list Clause.Id) :=
  d ← store dm.1 r false;
  m ← store dm.2 (Clause.id c) r;
  Ok (d, m).

(** The closing [if (!remap[c.id]) ... else ...] of the three pushes. *)
Definition settle (c : Clause.Clause) (dm : list bool * list Clause.Id)
  : res (list bool * list Clause.Id) :=
  r ← at_ dm.2 (Clause.id c);
  if decide (r = 0%N)
  then
    d1 ← store dm.1 (Clause.a c) false;
    d2 ← store d1 (Clause.b c) false;
    Ok (d2, dm.2)
  else
    d1 ← store dm.1 (Clause.id c) true;
    Ok (d1, dm.2).

(** The body of the loop of [push()]. *)
Definition push_clause (iv : list Interval.I)
    (dm : list bool * list Clause.Id) (c : Clause.Clause)
  : res (list bool * list Clause.Id) :=
  dis ← at_ dm.1 (Clause.id c);
  if dis then Ok dm
  else
    dm1 ← match Clause.op c with
          | Opcode.MAX =>
              ia ← at_ iv (Clause.a c);
              ib ← at_ iv (Clause.b c);
              if F32.gt (Interval.lower ia) (Interval.upper ib)
              then collapse c (Clause.a c) dm
              else if F32.gt (Interval.lower ib) (Interval.upper ia)
              then collapse c (Clause.b c) dm
              else Ok dm
          | Opcode.MIN =>
              ia ← at_ iv (Clause.a c);
              ib ← at_ iv (Clause.b c);
              if F32.gt (Interval.lower ia) (Interval.upper ib)
              then collapse c (Clause.b c) dm
              else if F32.gt (Interval.lower ib) (Interval.upper ia)
              then collapse c (Clause.a c) dm
              else Ok dm
          | _ => Ok dm
          end;
    settle c dm1.

(** [tape->X = ...; tape->Y = ...; tape->Z = ...] *)
Definition set_box (x y z : Interval.I) (s : Evaluator) : res Evaluator :=
  tp ← cur s;
  let tp' := Tape.mk (Tape.t tp) (Tape.i tp) (Tape.type tp) x y z in
  Ok (with_tapes (<[tape s := tp']> (tapes s)) s).

(** [push()] *)
Definition push (s : Evaluator) : res Evaluator :=
  tp ← cur s;
  dm0 ← reset s (Tape.i tp);
  dm ← foldlM (push_clause (Result.i (result s))) (Tape.t tp) dm0;
  s1 ← pushTape Tape.INTERVAL (with_scratch dm.1 dm.2 s);
  x ← at_ (Result.i (result s1)) (X s1);
  y ← at_ (Result.i (result s1)) (Y s1);
  z ← at_ (Result.i (result s1)) (Z s1);
  set_box x y z s1.

(** The body of the loop of [specialize]. *)
Definition specialize_clause (f : list (list float))
    (dm : list bool * list Clause.Id) (c : Clause.Clause)
  : res (list bool * list Clause.Id) :=
  dis ← at_ dm.1 (Clause.id c);
  if dis then Ok dm
  else
    dm1 ← match Clause.op c with
          | Opcode.MAX =>
              fa ← Result.coeff f (Clause.a c) 0;
              fb ← Result.coeff f (Clause.b c) 0;
              if F32.gt fa fb then collapse c (Clause.a c) dm
              else if F32.gt fb fa then collapse c (Clause.b c) dm
              else Ok dm
          | Opcode.MIN =>
              fa ← Result.coeff f (Clause.a c) 0;
              fb ← Result.coeff f (Clause.b c) 0;
              if F32.gt fa fb then collapse c (Clause.b c) dm
              else if F32.gt fb fa then collapse c (Clause.a c) dm
              else Ok dm
          | _ => Ok dm
          end;
    settle c dm1.

(** [specialize(p)] *)
Definition specialize (fuel : nat) (p : Vector3f) (s : Evaluator)
  : res Evaluator :=
  '(_, s1) ← eval fuel p s;
  tp ← cur s1;
  dm0 ← reset s1 (Tape.i tp);
  dm ← foldlM (specialize_clause (Result.f (result s1))) (Tape.t tp) dm0;
  pushTape Tape.SPECIALIZED (with_scratch dm.1 dm.2 s1).

(** [baseEval(p)]: the walk towards the base of the stack. *)
Definition contains (tp : Tape.Tape) (p : Vector3f) : bool :=
  bool_decide (Tape.type tp = Tape.INTERVAL)
  && F32.ge (vx p) (Interval.lower (Tape.X tp))
  && F32.le (vx p) (Interval.upper (Tape.X tp))
  && F32.ge (vy p) (Interval.lower (Tape.Y tp))
  && F32.le (vy p) (Interval.upper (Tape.Y tp))
  && F32.ge (vz p) (Interval.lower (Tape.Z tp))
  && F32.le (vz p) (Interval.upper (Tape.Z tp)).

Fixpoint baseEval_walk (ts : list Tape.Tape) (k : nat) (p : Vector3f)
  : res nat :=
  match k with
  | O => Ok O
  | S k' =>
      match ts !! k with
      | Some tp => if contains tp p then Ok k else baseEval_walk ts k' p
      | None => Err OutOfRange
      end
  end.

Definition baseEval (fuel : nat) (p : Vector3f) (s : Evaluator)
  : res (float * Evaluator) :=
  let prev_tape := tape s in
  k ← baseEval_walk (tapes s) (tape s) p;
  '(out, s1) ← eval fuel p (with_tape k s);
  Ok (out, with_tape prev_tape s1).

(** [utilization()] *)
Definition utilization (s : Evaluator) : res double :=
  tp ← cur s;
  front ← match tapes s with
          | t0 :: _ => Ok t0
          | [] => Err OutOfRange
          end;
  Ok (F64.div (F64.of_nat (length (Tape.t tp)))
              (F64.of_nat (length (Tape.t front)))).

(** *** Ambiguity *)

Definition is_min_max (op : Opcode.Opcode) : bool :=
  bool_decide (op = Opcode.MIN) || bool_decide (op = Opcode.MAX).

Fixpoint isAmbiguous_loop (f : list (list float)) (l : list Clause.Clause)
  : res bool :=
  match l with
  | [] => Ok false
  | c :: l' =>
      if is_min_max (Clause.op c)
      then
        fa ← Result.coeff f (Clause.a c) 0;
        fb ← Result.coeff f (Clause.b c) 0;
        if F32.eq fa fb then Ok true else isAmbiguous_loop f l'
      else isAmbiguous_loop f l'
  end.

(** [isAmbiguous()] *)
Definition isAmbiguous (s : Evaluator) : res bool :=
  tp ← cur s;
  isAmbiguous_loop (Result.f (result s)) (Tape.t tp).

(** [isAmbiguous(p)] *)
Definition isAmbiguous_at (fuel : nat) (p : Vector3f) (s : Evaluator)
  : res (bool * Evaluator) :=
  '(_, s1) ← eval fuel p s;
  amb ← isAmbiguous s1;
  Ok (amb, s1).

(** [getAmbiguous(i)] *)
Definition getAmbiguous_clause (f : list (list float)) (i : Result.Index)
    (out : gset N) (c : Clause.Clause) : res (gset N) :=
  if is_min_max (Clause.op c)
  then
    foldlM (fun (out : gset N) (j : nat) =>
              fa ← Result.coeff f (Clause.a c) (N.of_nat j);
              fb ← Result.coeff f (Clause.b c) (N.of_nat j);
              Ok (if F32.eq fa fb then {[ N.of_nat j ]} ∪ out else out))
           (seq 0 (N.to_nat i)) out
  else Ok out.

Definition getAmbiguous (i : Result.Index) (s : Evaluator) : res (gset N) :=
  tp ← cur s;
  foldlM (getAmbiguous_clause (Result.f (result s)) i) (Tape.t tp) ∅.

End Kernels.

(** *** Pushing into a feature, feature enumeration *)

Section Features.
Context `{Numeric} `{Feature.API}.

(** The choice the iterator points at, when the clause matches it. *)
Definition matching (fa fb : float) (c : Clause.Clause)
    (itr : list Feature.Choice) : option Feature.Choice :=
  match itr with
  | ch :: _ =>
      if (F32.eq fa fb || bool_decide (Clause.a c = Clause.b c))
         && (bool_decide (Clause.op c = Opcode.MAX)
             || bool_decide (Clause.op c = Opcode.MIN))
         && bool_decide (Feature.id ch = Clause.id c)
      then Some ch else None
  | [] => None
  end.

(** The body of the loop of [push(const Feature& f)]; its state is the
    iterator into the choices of [f], the feature [out] and the scratch
    arrays. *)
Definition push_Feature_clause (fv : list (list float)) (f : Feature)
    (st : list Feature.Choice * Feature * (list bool * list Clause.Id))
    (c : Clause.Clause)
  : res (list Feature.Choice * Feature * (list bool * list Clause.Id)) :=
  let '(itr, out, dm) := st in
  fa ← Result.coeff fv (Clause.a c) 0;
  fb ← Result.coeff fv (Clause.b c) 0;
  let match_ := matching fa fb c itr in
  dis ← at_ dm.1 (Clause.id c);
  '(out', dm') ←
    (if dis then Ok (out, dm)
     else
       '(out1, dm1) ←
         match match_ with
         | Some ch =>
             let out1 :=
               if Feature.hasEpsilon f (Clause.id c)
               then Feature.push_raw ch (Feature.getEpsilon f (Clause.id c))
                                     out
               else Feature.push_choice_raw ch out in
             dm1 ← (if decide (Feature.choice ch = 0%Z)
                    then collapse c (Clause.a c) dm
                    else collapse c (Clause.b c) dm);
             Ok (out1, dm1)
         | None => Ok (out, dm)
         end;
       dm2 ← settle c dm1;
       Ok (out1, dm2));
  Ok (match match_ with Some _ => tail itr | None => itr end, out', dm').

(** [push(const Feature& f)] *)
Definition push_Feature (f : Feature) (s : Evaluator)
  : res (Feature * Evaluator) :=
  tp ← cur s;
  dm0 ← reset s (Tape.i tp);
  let out := Feature.set_deriv (Feature.deriv f) Feature.new in
  '(itr, out', dm) ←
    foldlM (push_Feature_clause (Result.f (result s)) f) (Tape.t tp)
           (Feature.getChoices f, out, dm0);
  _ ← assert (bool_decide (itr = []));
  s1 ← pushTape Tape.FEATURE (with_scratch dm.1 dm.2 s);
  Ok (out', s1).

(** The scan of [featuresAt] over the pushed tape, from its back, for the
    first ambiguous min or max.  It returns the flag [ambiguous] and the
    list [todo]. *)
Fixpoint featuresAt_scan (r : Result.Result) (f_ : Feature)
    (l : list Clause.Clause) (todo : list Feature)
  : res (bool * list Feature) :=
  match l with
  | [] => Ok (false, todo)
  | c :: l' =>
      if is_min_max (Clause.op c)
      then
        if decide (Clause.a c = Clause.b c)
        then
          let fa := Feature.push_choice
                      (Feature.mk_choice (Clause.id c) 0) f_ in
          Ok (true, todo ++ [fa])
        else
          va ← Result.coeff (Result.f r) (Clause.a c) 0;
          vb ← Result.coeff (Result.f r) (Clause.b c) 0;
          if F32.eq va vb
          then
            bx ← Result.coeff (Result.dx r) (Clause.b c) 0;
            by_ ← Result.coeff (Result.dy r) (Clause.b c) 0;
            bz ← Result.coeff (Result.dz r) (Clause.b c) 0;
            ax ← Result.coeff (Result.dx r) (Clause.a c) 0;
            ay ← Result.coeff (Result.dy r) (Clause.a c) 0;
            az ← Result.coeff (Result.dz r) (Clause.a c) 0;
            let rhs := Vector3d_of bx by_ bz in
            let lhs := Vector3d_of ax ay az in
            let epsilon :=
              if decide (Clause.op c = Opcode.MIN)
              then Vector3d_sub rhs lhs else Vector3d_sub lhs rhs in
            let '(amb1, todo1) :=
              match Feature.push epsilon
                      (Feature.mk_choice (Clause.id c) 0) f_ with
              | Some fa => (true, todo ++ [fa])
              | None => (false, todo)
              end in
            let '(amb2, todo2) :=
              match Feature.push (Vector3d_neg epsilon)
                      (Feature.mk_choice (Clause.id c) 1) f_ with
              | Some fb => (true, todo1 ++ [fb])
              | None => (amb1, todo1)
              end in
            if amb2 then Ok (true, todo2) else featuresAt_scan r f_ l' todo2
          else featuresAt_scan r f_ l' todo
      else featuresAt_scan r f_ l' todo
  end.

(** The [while (todo.size())] loop of [featuresAt], run for at most [n]
    iterations.  [seen] is the [std::set] of choice lists. *)
Fixpoint featuresAt_loop (n : nat) (fuel : nat) (todo done : list Feature)
    (seen : list (list Feature.Choice)) (s : Evaluator)
  : res (list Feature * Evaluator) :=
  match todo with
  | [] => Ok (done, s)
  | f :: todo' =>
      match n with
      | O => Err OutOfFuel
      | S n' =>
          '(f_, s1) ← push_Feature f s;
          '(ds, s2) ← derivs fuel 1 s1;
          tp ← cur s2;
          '(ambiguous, todo'') ←
            featuresAt_scan (result s2) f_ (rev (Tape.t tp)) todo';
          '(done', seen') ←
            (if ambiguous then Ok (done, seen)
             else
               ddx ← Result.coeff (Result.dx (result s2)) ds 0;
               ddy ← Result.coeff (Result.dy (result s2)) ds 0;
               ddz ← Result.coeff (Result.dz (result s2)) ds 0;
               let f_' := Feature.set_deriv (Vector3d_of ddx ddy ddz) f_ in
               if bool_decide (Feature.getChoices f_' ∈ seen)
               then Ok (done, seen)
               else Ok (done ++ [f_'], Feature.getChoices f_' :: seen));
          s3 ← pop s2;
          featuresAt_loop n' fuel todo'' done' seen' s3
      end
  end.

(** [featuresAt(p)] *)
Definition featuresAt (fuel : nat) (p : Vector3f) (s : Evaluator)
  : res (list Feature * Evaluator) :=
  s1 ← specialize fuel p s;
  '(done, s2) ← featuresAt_loop fuel fuel [Feature.new] [] [] s1;
  s3 ← pop s2;
  _ ← assert (bool_decide (0 < length done)%nat);
  Ok (done, s3).

(** [isInside(p)] *)
Definition isInside (fuel : nat) (p : Vector3f) (s : Evaluator)
  : res (bool * Evaluator) :=
  s1 ← set p 0 s;
  '(ds, s2) ← derivs fuel 1 s1;
  v ← Result.coeff (Result.f (result s2)) ds 0;
  if F32.lt v F32.zero then Ok (true, s2)
  else if F32.gt v F32.zero then Ok (false, s2)
  else
    amb ← isAmbiguous s2;
    if negb amb
    then
      ddx ← Result.coeff (Result.dx (result s2)) ds 0;
      ddy ← Result.coeff (Result.dy (result s2)) ds 0;
      ddz ← Result.coeff (Result.dz (result s2)) ds 0;
      Ok (F32.ne ddx F32.zero || F32.ne ddy F32.zero || F32.ne ddz F32.zero,
          s2)
    else
      '(fs, s3) ← featuresAt fuel p s2;
      match fs with
      | [f] => Ok (F64.gt (norm (Feature.deriv f)) F64.zero, s3)
      | _ =>
          let pos :=
            existsb (fun f => Feature.isCompatible f (Feature.deriv f)) fs in
          let neg :=
            existsb (fun f => Feature.isCompatible f
                                (Vector3d_neg (Feature.deriv f))) fs in
          Ok (negb (pos && negb neg), s3)
      end.

End Features.

(** *** Variables *)

(** [vars.right.find(var)] *)
Fixpoint right_find (vs : list (Clause.Id * Tree.Id)) (var : Tree.Id)
  : option Clause.Id :=
  match vs with
  | [] => None
  | (c, t) :: vs' => if decide (t = var) then Some c else right_find vs' var
  end.

(** [setVar(var, value)] *)
Definition setVar (var : Tree.Id) (value : float) (s : Evaluator)
  : res Evaluator :=
  match right_find (vars s) var with
  | Some slot =>
      r ← Result.setValue value slot (result s);
      Ok (with_result r s)
  | None => Ok s
  end.

(** The stored value of the variable in [slot]: [result->f(slot, 0)]. *)
Definition stored (s : Evaluator) (slot : Clause.Id) : res float :=
  Result.coeff (Result.f (result s)) slot 0.

Fixpoint varValues_loop (vs : list (Clause.Id * Tree.Id)) (s : Evaluator)
    (out : gmap N float) : res (gmap N float) :=
  match vs with
  | [] => Ok out
  | v :: vs' =>
      x ← stored s v.1;
      varValues_loop vs' s (<[v.2 := x]> out)
  end.

(** [varValues()] *)
Definition varValues (s : Evaluator) : res (gmap N float) :=
  varValues_loop (vars s) s ∅.

Fixpoint updateVars_loop (vs : list (Clause.Id * Tree.Id))
    (vars_ : gmap N float) (changed : bool) (s : Evaluator)
  : res (bool * Evaluator) :=
  match vs with
  | [] => Ok (changed, s)
  | v :: vs' =>
      val ← match vars_ !! v.2 with
            | Some x => Ok x
            | None => Err KeyNotFound
            end;
      x ← stored s v.1;
      if F32.ne val x
      then s' ← setVar v.2 val s; updateVars_loop vs' vars_ true s'
      else updateVars_loop vs' vars_ changed s
  end.

(** [updateVars(vars_)] *)
Definition updateVars (vars_ : gmap N float) (s : Evaluator)
  : res (bool * Evaluator) :=
  updateVars_loop (vars s) vars_ false s.

End Evaluator.

(** ** A concrete numeric library and a concrete [Feature]

    Used to run the model on literal tapes.  They fix what the standards
    fix ([std::fmod] is exact, [std::min] and [std::max] on floats, the
    constructor of a Boost interval) and are deliberately crude
    elsewhere: the transcendental functions are absent (NaN), and the
    interval operations other than [min], [max] and negation return the
    whole line. *)

Module Sample.

(** [std::fmod(x, y)]: [x - n * y] for the integer [n] obtained by
    truncating [x / y]; the result is exact. *)
Definition fmod (x y : float) : float :=
  match x, y with
  | S754_nan, _ | _, S754_nan => S754_nan
  | S754_infinity _, _ => S754_nan
  | _, S754_zero _ => S754_nan
  | S754_zero _, _ => x
  | _, S754_infinity _ => x
  | S754_finite sx mx ex, S754_finite _ my ey =>
      let e := Z.min ex ey in
      let xm := (Zpos mx * 2 ^ (ex - e))%Z in
      let ym := (Zpos my * 2 ^ (ey - e))%Z in
      binary_normalize F32.prec F32.emax (cond_Zopp sx (xm mod ym)) e sx
  end.

(** [std::min(a, b)] and [std::max(a, b)] *)
Definition fmin (a b : float) : float := if F32.lt b a then b else a.
Definition fmax (a b : float) : float := if F32.lt a b then b else a.

Definition euclidean (v : Vector3d) : double :=
  F64.sqrt (F64.add (F64.add (F64.mul (dvx v) (dvx v))
                             (F64.mul (dvy v) (dvy v)))
                    (F64.mul (dvz v) (dvz v))).

Definition whole : Interval.I :=
  Interval.mk (S754_infinity true) (S754_infinity false).

Definition make (l u : float) : Interval.I :=
  if F32.le l u then Interval.mk l u else Interval.mk F32.nan F32.nan.

#[global] Instance numeric : Numeric := {|
  cwiseMin := fmin;
  cwiseMax := fmax;
  norm := euclidean;
  fmodf := fmod;
  atan2f := fun _ _ => F32.nan;
  powf := fun _ _ => F32.nan;
  sinf := fun _ => F32.nan;
  cosf := fun _ => F32.nan;
  tanf := fun _ => F32.nan;
  asinf := fun _ => F32.nan;
  acosf := fun _ => F32.nan;
  atanf := fun _ => F32.nan;
  expf := fun _ => F32.nan;
  pow := fun _ _ => S754_nan;
  sin := fun _ => S754_nan;
  cos := fun _ => S754_nan;
  exp := fun _ => S754_nan;
  I_make := make;
  I_add := fun _ _ => whole;
  I_mul := fun _ _ => whole;
  I_min := fun a b =>
    Interval.mk (fmin (Interval.lower a) (Interval.lower b))
                (fmin (Interval.upper a) (Interval.upper b));
  I_max := fun a b =>
    Interval.mk (fmax (Interval.lower a) (Interval.lower b))
                (fmax (Interval.upper a) (Interval.upper b));
  I_sub := fun _ _ => whole;
  I_div := fun _ _ => whole;
  I_atan2 := fun _ _ => whole;
  I_pow := fun _ _ => whole;
  I_nth_root := fun _ _ => whole;
  I_square := fun _ => whole;
  I_sqrt := fun _ => whole;
  I_neg := fun a =>
    Interval.mk (F32.neg (Interval.upper a)) (F32.neg (Interval.lower a));
  I_sin := fun _ => whole;
  I_cos := fun _ => whole;
  I_tan := fun _ => whole;
  I_asin := fun _ => whole;
  I_acos := fun _ => whole;
  I_atan := fun _ => whole;
  I_exp := fun _ => whole
|}.

(** A feature that keeps its epsilons as an association list; a
    direction is compatible when it is not zero and is the opposite of
    none of them. *)
Definition Eps : Type := list (N * Vector3d).

Definition lookup_eps (e : Eps) (k : N) : option Vector3d :=
  snd <$> find (fun p => bool_decide (p.1 = k)) e.

Definition same (u v : Vector3d) : bool :=
  SFeqb (dvx u) (dvx v) && SFeqb (dvy u) (dvy v) && SFeqb (dvz u) (dvz v).

Definition compatible (f : Feature.Feature Eps) (v : Vector3d) : bool :=
  F64.gt (euclidean v) F64.zero
  && forallb (fun p => negb (same p.2 (Vector3d_neg v))) (Feature.epsilons f).

#[global] Instance feature : Feature.API := {|
  Feature.E := Eps;
  Feature.no_epsilons := [];
  Feature.deriv0 := vec3d F64.zero F64.zero F64.zero;
  Feature.hasEpsilon := fun f k =>
    bool_decide (is_Some (lookup_eps (Feature.epsilons f) k));
  Feature.getEpsilon := fun f k =>
    default (vec3d F64.zero F64.zero F64.zero)
            (lookup_eps (Feature.epsilons f) k);
  Feature.push_raw := fun ch v f =>
    Feature.mk (Feature.deriv f) (Feature.choices f ++ [ch])
               (Feature.epsilons f ++ [(Feature.id ch, v)]);
  Feature.push_choice_raw := fun ch f =>
    Feature.mk (Feature.deriv f) (Feature.choices f ++ [ch])
               (Feature.epsilons f);
  Feature.push_choice := fun ch f =>
    Feature.mk (Feature.deriv f) (ch :: Feature.choices f)
               (Feature.epsilons f);
  Feature.push := fun e ch f =>
    if compatible f e
    then Some (Feature.mk (Feature.deriv f) (ch :: Feature.choices f)
                          ((Feature.id ch, e) :: Feature.epsilons f))
    else None;
  Feature.isCompatible := compatible
|}.

End Sample.


(** ** Well-formed tapes and evaluators *)

Module WF.

(** A Boost interval never has its upper bound below its lower bound. *)
Definition interval_ok (i : Interval.I) : Prop :=
  F32.lt (Interval.upper i) (Interval.lower i) = false.

(** A clause of an evaluator with [n] slots.  The builder numbers the
    nodes against the topological order, so an operand that is a node has
    a larger slot than the clause; this is recorded for min and max, whose
    operands are both nodes. *)
Definition clause_ok (n : nat) (c : Clause.Clause) : Prop :=
  (N.to_nat (Clause.id c) < n)%nat
  /\ (N.to_nat (Clause.a c) < n)%nat
  /\ (N.to_nat (Clause.b c) < n)%nat
  /\ (Evaluator.is_min_max (Clause.op c) = true ->
      (Clause.id c < Clause.a c)%N /\ (Clause.id c < Clause.b c)%N).

(** A tape: its clauses are well formed, write distinct slots (SSA), and
    its root is a slot. *)
Definition tape_ok (n : nat) (tp : Tape.Tape) : Prop :=
  Forall (clause_ok n) (Tape.t tp)
  /\ NoDup (Clause.id <$> Tape.t tp)
  /\ (N.to_nat (Tape.i tp) < n)%nat.

(** [I[p].lower > I[q].upper] *)
Definition above (iv : list Interval.I) (p q : N) : bool :=
  match iv !! N.to_nat p, iv !! N.to_nat q with
  | Some ip, Some iq => F32.gt (Interval.lower ip) (Interval.upper iq)
  | _, _ => false
  end.

(** The clause [c] has collapsed to its operand [r]: [r] is live, the
    slot of [c] is remapped to [r] and [c] is disabled. *)
Definition collapsed_to (dm : list bool * list N) (c : Clause.Clause) (r : N)
  : Prop :=
  dm.1 !! N.to_nat r = Some false
  /\ dm.2 !! N.to_nat (Clause.id c) = Some r
  /\ dm.1 !! N.to_nat (Clause.id c) = Some true.

(** The scratch arrays [disabled] and [remap] of an evaluator with [n]
    slots. *)
Definition scratch_sized (n : nat) (dm : list bool * list N) : Prop :=
  length dm.1 = n /\ length dm.2 = n.

(** What [push()] decides for a live clause: the operand it collapses to,
    if any. *)
Definition verdict (iv : list Interval.I) (c : Clause.Clause) : option N :=
  match Clause.op c with
  | Opcode.MAX =>
      if above iv (Clause.a c) (Clause.b c) then Some (Clause.a c)
      else if above iv (Clause.b c) (Clause.a c) then Some (Clause.b c)
      else None
  | Opcode.MIN =>
      if above iv (Clause.a c) (Clause.b c) then Some (Clause.b c)
      else if above iv (Clause.b c) (Clause.a c) then Some (Clause.a c)
      else None
  | _ => None
  end.

(** [reaches m r r']: the loop [for (; remap[r]; r = remap[r]);] started
    at [r] stops at [r'], the fixed point of the remap chain. *)
Inductive reaches (m : list N) : N -> N -> Prop :=
| reaches_stop (r : N) :
    m !! N.to_nat r = Some 0%N -> reaches m r r
| reaches_step (r r1 r' : N) :
    m !! N.to_nat r = Some r1 -> r1 <> 0%N -> reaches m r1 r' ->
    reaches m r r'.

(** [walk m r p r']: the slots [p] the loop of [fixpoint] goes through
    from [r] to its fixed point [r'], in order. *)
Inductive walk (m : list N) : N -> list N -> N -> Prop :=
| walk_stop (r : N) :
    m !! N.to_nat r = Some 0%N -> walk m r [r] r
| walk_step (r r1 r' : N) (p : list N) :
    m !! N.to_nat r = Some r1 -> r1 <> 0%N -> walk m r1 p r' ->
    walk m r (r :: p) r'.

(** [c'] is [c] with both operands replaced by their fixed points. *)
Definition rewritten (m : list N) (c c' : Clause.Clause) : Prop :=
  Clause.op c' = Clause.op c
  /\ Clause.id c' = Clause.id c
  /\ reaches m (Clause.a c) (Clause.a c')
  /\ reaches m (Clause.b c) (Clause.b c').

(** The clauses of [prev] that are not disabled. *)
Definition kept (d : list bool) (prev : Tape.Tape) : list Clause.Clause :=
  filter (fun c => d !! N.to_nat (Clause.id c) = Some false) (Tape.t prev).

(** [new] is [prev] reduced by the scratch arrays [d] and [m]: its clauses
    are the kept clauses of [prev], in their order and rewritten; its root
    is the fixed point of the root of [prev]. *)
Definition reduced (d : list bool) (m : list N) (prev new : Tape.Tape)
  : Prop :=
  Forall2 (rewritten m) (kept d prev) (Tape.t new)
  /\ reaches m (Tape.i prev) (Tape.i new).

(** [remap] after the loop of a push: a slot is remapped to a later slot
    or not at all. *)
Definition remap_ok (n : nat) (m : list N) : Prop :=
  length m = n
  /\ forall k r, m !! k = Some r ->
       r = 0%N \/ (k < N.to_nat r < n)%nat.

(** The invariant of the loop of a push. *)
Definition scratch_ok (n : nat) (dm : list bool * list N) : Prop :=
  scratch_sized n dm /\ remap_ok n dm.2.

(** An evaluator whose active tape is well formed for the size of the
    scratch arrays, and whose interval slots cover it. *)
Record evaluator_ok (s : Evaluator.Evaluator) : Prop := {
  ok_tape : exists tp,
    Evaluator.cur s = Ok tp /\ tape_ok (length (Evaluator.remap s)) tp;
  ok_disabled :
    length (Evaluator.disabled s) = length (Evaluator.remap s);
  ok_intervals :
    length (Result.i (Evaluator.result s)) = length (Evaluator.remap s);
  ok_X : (N.to_nat (Evaluator.X s) < length (Evaluator.remap s))%nat;
  ok_Y : (N.to_nat (Evaluator.Y s) < length (Evaluator.remap s))%nat;
  ok_Z : (N.to_nat (Evaluator.Z s) < length (Evaluator.remap s))%nat
}.

(** Clauses in the order [values] walks them, each reading only slots
    that hold an input ([leaf]) or that a clause before it has written. *)
Fixpoint ordered (leaf : N -> Prop) (l : list Clause.Clause) : Prop :=
  match l with
  | [] => True
  | c :: l' =>
      leaf (Clause.a c) /\ leaf (Clause.b c)
      /\ ordered (fun k => leaf k \/ k = Clause.id c) l'
  end.

(** The slots that hold an input of the tape [tp]: those no clause of
    [tp] writes (constants, variables, the dummy slot 0) and the three
    axes. *)
Definition input (s : Evaluator.Evaluator) (tp : Tape.Tape) (k : N) : Prop :=
  ((k ∉ Clause.id <$> Tape.t tp \/ k = Evaluator.X s)
   \/ k = Evaluator.Y s) \/ k = Evaluator.Z s.

(** The active tape is in evaluation order, back to front. *)
Definition evaluation_order (s : Evaluator.Evaluator) : Prop :=
  forall tp, Evaluator.cur s = Ok tp -> ordered (input s tp) (rev (Tape.t tp)).

(** The axes have slots of their own, which no clause of the tape
    writes. *)
Definition axes_ok (s : Evaluator.Evaluator) (tp : Tape.Tape) : Prop :=
  NoDup [Evaluator.X s; Evaluator.Y s; Evaluator.Z s]
  /\ forall k, k ∈ [Evaluator.X s; Evaluator.Y s; Evaluator.Z s] ->
       k ∉ Clause.id <$> Tape.t tp.

(** The point [p] lies in the box stored with the tape [tp], an INTERVAL
    tape: each coordinate lies between the bounds of the interval stored
    for its axis, bounds included.  (No comparison holds of a NaN.) *)
Definition in_box (tp : Tape.Tape) (p : Vector3f) : Prop :=
  Tape.type tp = Tape.INTERVAL
  /\ F32.le (Interval.lower (Tape.X tp)) (vx p) = true
  /\ F32.le (vx p) (Interval.upper (Tape.X tp)) = true
  /\ F32.le (Interval.lower (Tape.Y tp)) (vy p) = true
  /\ F32.le (vy p) (Interval.upper (Tape.Y tp)) = true
  /\ F32.le (Interval.lower (Tape.Z tp)) (vz p) = true
  /\ F32.le (vz p) (Interval.upper (Tape.Z tp)) = true.

(** A min or max clause has two operands: neither is the dummy slot 0,
    which stands for an operand that is absent. *)
Definition binary_min_max (c : Clause.Clause) : Prop :=
  Evaluator.is_min_max (Clause.op c) = true ->
  Clause.a c <> 0%N /\ Clause.b c <> 0%N.

(** The opcodes of clauses: every opcode but the leaves and the two
    sentinels. *)
Definition operator (op : Opcode.Opcode) : bool :=
  match op with
  | Opcode.INVALID | Opcode.CONST | Opcode.VAR_X | Opcode.VAR_Y
  | Opcode.VAR_Z | Opcode.VAR | Opcode.LAST_OP => false
  | _ => true
  end.

(** An operator whose value kernel has no loop of its own. *)
Definition total_op (op : Opcode.Opcode) : Prop :=
  operator op = true /\ op <> Opcode.MOD.

(** A matrix of the arena with [n] rows of at least [cols] columns. *)
Definition matrix_ok (n cols : nat) (m : list (list float)) : Prop :=
  length m = n /\ Forall (fun row => (cols <= length row)%nat) m.

(** An arena with [n] slots and at least [cols] columns. *)
Definition arena_ok (n cols : nat) (r : Result.Result) : Prop :=
  matrix_ok n cols (Result.f r) /\ matrix_ok n cols (Result.dx r)
  /\ matrix_ok n cols (Result.dy r) /\ matrix_ok n cols (Result.dz r)
  /\ length (Result.i r) = n.

(** One operand of the clause [c] holds a strictly greater value than
    the other in column 0. *)
Definition decided (f : list (list float)) (c : Clause.Clause) : Prop :=
  exists fa fb,
    Result.coeff f (Clause.a c) 0 = Ok fa
    /\ Result.coeff f (Clause.b c) 0 = Ok fb
    /\ (F32.gt fa fb = true \/ F32.gt fb fa = true).

(** No clause reads the slot it writes or the slot of a clause that
    stands before it in the tape: the users of a slot come first. *)
Definition users_first (l : list Clause.Clause) : Prop :=
  forall i j c c2, l !! i = Some c -> l !! j = Some c2 -> (i <= j)%nat ->
    Clause.id c <> Clause.a c2 /\ Clause.id c <> Clause.b c2.

(** What the kernels and the pushes need to run through on an
    evaluator with [n] slots whose active tape is [tp]: the tape is well
    formed, its clauses are operators other than MOD, and the scratch
    arrays and each matrix of the arena have an entry for every slot. *)
Record runs_ok (n : nat) (s : Evaluator.Evaluator) (tp : Tape.Tape)
  : Prop := {
  runs_cur : Evaluator.cur s = Ok tp;
  runs_tape : tape_ok n tp;
  runs_ops : Forall (fun c => total_op (Clause.op c)) (Tape.t tp);
  runs_disabled : length (Evaluator.disabled s) = n;
  runs_remap : length (Evaluator.remap s) = n;
  runs_arena : arena_ok n 1 (Evaluator.result s);
  runs_X : (N.to_nat (Evaluator.X s) < n)%nat;
  runs_Y : (N.to_nat (Evaluator.Y s) < n)%nat;
  runs_Z : (N.to_nat (Evaluator.Z s) < n)%nat
}.

(** An evaluator as the constructor leaves it, between calls: the active
    tape [tp] is well formed and in evaluation order, its clauses are
    operators other than MOD, and each matrix of the arena has a row for
    every slot. *)
Record kernel_ok (s : Evaluator.Evaluator) (tp : Tape.Tape) : Prop := {
  kernel_runs : runs_ok (length (Evaluator.remap s)) s tp;
  kernel_order : evaluation_order s;
  kernel_axes : axes_ok s tp
}.

(** The step of the loop of a push on a clause that matches no choice
    and is not decided: a live clause makes its operands live. *)
Definition plain_step (dm : list bool * list N) (c : Clause.Clause)
  : res (list bool * list N) :=
  dis ← at_ dm.1 (Clause.id c);
  if dis then Ok dm else Evaluator.settle c dm.

(** The place in the tape of the clause that writes slot [k]. *)
Definition position (l : list Clause.Clause) (k : N) : nat :=
  match list_find (fun c => Clause.id c = k) l with
  | Some p => p.1
  | None => length l
  end.

(** A bound on the number of iterations the worklist loop of
    [featuresAt] spends on a feature and its successors:
    [cost b = 2^(b+1) - 1]. *)
Fixpoint cost (b : nat) : nat :=
  match b with
  | O => 1
  | S b' => S (2 * cost b')
  end.

(** [cwiseMin] and [cwiseMax] return the operand that is strictly
    smaller, respectively larger, on whichever side it stands. *)
Definition selects `{Numeric} : Prop :=
  forall x y, F32.gt x y = true ->
    cwiseMax x y = x /\ cwiseMax y x = x
    /\ cwiseMin x y = y /\ cwiseMin y x = y.

(** The operands of the clause [c] hold equal values in column [j]
    ([==] on floats: false on NaN, true on zeros of either sign). *)
Definition tied (f : list (list float)) (c : Clause.Clause) (j : N) : Prop :=
  exists fa fb,
    Result.coeff f (Clause.a c) j = Ok fa
    /\ Result.coeff f (Clause.b c) j = Ok fb
    /\ F32.eq fa fb = true.

(** Some min or max clause of the tape is tied in column [j]. *)
Definition ambiguous_at (f : list (list float)) (tp : Tape.Tape) (j : N)
  : Prop :=
  exists c, c ∈ Tape.t tp
            /\ Evaluator.is_min_max (Clause.op c) = true /\ tied f c j.

Section Pushes.
Context {num : Numeric} {api : Feature.API}.

(** [pushed s s']: one of the three pushes takes [s] to [s']. *)
Inductive pushed (s s' : Evaluator.Evaluator) : Prop :=
| pushed_interval :
    Evaluator.push s = Ok s' -> pushed s s'
| pushed_feature (f out : Feature) :
    Evaluator.push_Feature f s = Ok (out, s') -> pushed s s'
| pushed_specialized (fuel : nat) (p : Vector3f) :
    Evaluator.specialize fuel p s = Ok s' -> pushed s s'.

(** The place in the tape of the clause the first choice of a feature
    names (the length of the tape for a feature without choices). *)
Definition rank (l : list Clause.Clause) (x : Feature) : nat :=
  match Feature.getChoices x with
  | [] => length l
  | ch :: _ => position l (Feature.id ch)
  end.

(** The loop of [push(f)] for the feature [x] over the clauses [l], from
    the scratch arrays [dm0], reading the values [fv]. *)
Definition feature_walk (l : list Clause.Clause)
    (dm0 : list bool * list N) (fv : list (list float)) (x : Feature)
  : res (list Feature.Choice * Feature * (list bool * list N)) :=
  foldlM (Evaluator.push_Feature_clause fv x) l
         (Feature.getChoices x,
          Feature.set_deriv (Feature.deriv x) Feature.new, dm0).

(** [bounded l dm0 x b]: whenever the loop of [push(x)] consumes every
    choice of [x], the rank of [x] is below [b] and the first choice of
    [x] is the first choice of the feature the push returns. *)
Definition bounded (l : list Clause.Clause) (dm0 : list bool * list N)
    (x : Feature) (b : nat) : Prop :=
  forall fv out dm,
    feature_walk l dm0 fv x = Ok ([], out, dm) ->
    (rank l x < b)%nat
    /\ forall chx rest, Feature.getChoices x = chx :: rest ->
         exists rest', Feature.getChoices out = chx :: rest'.

(** What the scan of [featuresAt] appends to [todo] for the feature
    [f_]: [f_] with one more choice, which names a min or max clause of
    [l]. *)
Definition successor (l : list Clause.Clause) (f_ y : Feature) : Prop :=
  exists c ch,
    c ∈ l /\ Evaluator.is_min_max (Clause.op c) = true
    /\ Feature.id ch = Clause.id c
    /\ (y = Feature.push_choice ch f_
        \/ exists e, Feature.push e ch f_ = Some y).

(** The invariant of the worklist loop of [featuresAt] on its lists
    [done] and [seen]. *)
Definition done_seen (done : list Feature)
    (seen : list (list Feature.Choice)) : Prop :=
  NoDup (Feature.getChoices <$> done)
  /\ forall cs, cs ∈ seen <-> cs ∈ Feature.getChoices <$> done.

End Pushes.

End WF.

(** ** Arenas that differ where an evaluation does not look *)

Module Agree.

(** Two computations that fail alike or return related results. *)
Definition outcome {A B} (R : A -> B -> Prop) (x : res A) (y : res B) : Prop :=
  match x, y with
  | Ok a, Ok b => R a b
  | Err e1, Err e2 => e1 = e2
  | _, _ => False
  end.

(** Two value matrices of one shape that hold the same value in column 0
    of every row in [S]. *)
Definition matrix (S : N -> Prop) (m1 m2 : list (list float)) : Prop :=
  length <$> m1 = length <$> m2
  /\ forall k, S k -> Evaluator.head m1 k 1 = Evaluator.head m2 k 1.

(** Two arenas that differ in their value rows only, and agree there on
    [S]. *)
Definition arena (S : N -> Prop) (r1 r2 : Result.Result) : Prop :=
  matrix S (Result.f r1) (Result.f r2)
  /\ r2 = Result.with_f (Result.f r2) r1.

(** Two evaluators with the same active tape, variables and axes, whose
    arenas agree on [S]. *)
Definition evaluator (S : N -> Prop) (s1 s2 : Evaluator.Evaluator) : Prop :=
  Evaluator.cur s1 = Evaluator.cur s2
  /\ Evaluator.vars s1 = Evaluator.vars s2
  /\ Evaluator.X s1 = Evaluator.X s2
  /\ Evaluator.Y s1 = Evaluator.Y s2
  /\ Evaluator.Z s1 = Evaluator.Z s2
  /\ arena S (Evaluator.result s1) (Evaluator.result s2).

End Agree.
(** ** What a kernel leaves of the arena *)

Module Frame.

(** [m'] is [m] but for the leading [count] columns of the rows in [K]. *)
Definition rows (count : N) (K : N -> Prop) (m m' : list (list float))
  : Prop :=
  length <$> m' = length <$> m
  /\ (forall k, ~ K k -> m' !! N.to_nat k = m !! N.to_nat k)
  /\ (forall k, drop (N.to_nat count) <$> (m' !! k)
                = drop (N.to_nat count) <$> (m !! k)).

(** [r'] is [r] but for the leading [count] columns of the value rows in
    [Kf] and of the derivative rows in [Kd]. *)
Definition arena (count : N) (Kf Kd : N -> Prop) (r r' : Result.Result)
  : Prop :=
  rows count Kf (Result.f r) (Result.f r')
  /\ rows count Kd (Result.dx r) (Result.dx r')
  /\ rows count Kd (Result.dy r) (Result.dy r')
  /\ rows count Kd (Result.dz r) (Result.dz r')
  /\ Result.i r' = Result.i r
  /\ Result.j r' = Result.j r.

(** The slots the clauses of a tape write. *)
Definition written (tp : Tape.Tape) (k : N) : Prop :=
  k ∈ Clause.id <$> Tape.t tp.

End Frame.

(** ** What a caller reads from an evaluation *)

Module Observe.
Section Observe.
Context {num : Numeric}.

(** The [count] floats behind the pointer returned by [values(count)]. *)
Definition values (fuel : nat) (count : N) (s : Evaluator.Evaluator)
  : res (list float) :=
  '(row, s') ← Evaluator.values fuel count s;
  Evaluator.head (Result.f (Evaluator.result s')) row count.

(** The four arrays of [count] floats behind the pointers returned by
    [derivs(count)]. *)
Definition derivs (fuel : nat) (count : N) (s : Evaluator.Evaluator)
  : res (list float * list float * list float * list float) :=
  '(row, s') ← Evaluator.derivs fuel count s;
  v ← Evaluator.head (Result.f (Evaluator.result s')) row count;
  x ← Evaluator.head (Result.dx (Evaluator.result s')) row count;
  y ← Evaluator.head (Result.dy (Evaluator.result s')) row count;
  z ← Evaluator.head (Result.dz (Evaluator.result s')) row count;
  Ok (v, x, y, z).

Definition interval (s : Evaluator.Evaluator) : res Interval.I :=
  '(out, _) ← Evaluator.interval s; Ok out.

Definition eval (fuel : nat) (p : Vector3f) (s : Evaluator.Evaluator)
  : res float :=
  '(out, _) ← Evaluator.eval fuel p s; Ok out.

Definition eval_interval (lower upper : Vector3f) (s : Evaluator.Evaluator)
  : res Interval.I :=
  '(out, _) ← Evaluator.eval_interval lower upper s; Ok out.

Definition gradient (fuel : nat) (p : Vector3f) (s : Evaluator.Evaluator)
  : res (gmap N float) :=
  '(out, _) ← Evaluator.gradient fuel p s; Ok out.

End Observe.
End Observe.

(** ** The MOD kernel, as the specification words it *)

Module Mod.
Section Mod.
Context {num : Numeric}.

(** [fmod(a, b)] with [b] added [k] times. *)
Definition added (av bv : float) (k : nat) : float :=
  Nat.iter k (fun out => F32.add out bv) (fmodf av bv).

(** [k] is the first number of additions after which the value is not
    negative ([< 0] is false on NaN as well). *)
Definition stops_at (av bv : float) (k : nat) : Prop :=
  F32.lt (added av bv k) F32.zero = false
  /\ forall i, (i < k)%nat -> F32.lt (added av bv i) F32.zero = true.

End Mod.
End Mod.

(** ** Sample evaluators *)

Module Examples.
Import Evaluator.

Definition rows (n : nat) (v : float) : list (list float) := replicate n [v].

(** The evaluator built from [max(min(x, y), z)]: the nodes x, y, z, min,
    max receive the slots 5, 4, 3, 2, 1; slot 0 is the dummy clause and
    the arena has one more row than there are clauses.  One column. *)
Definition arena_xyz : Result.Result :=
  Result.mk (rows 7 F32.zero)
    (<[5%nat := [F32.one]]> (rows 7 F32.zero))
    (<[4%nat := [F32.one]]> (rows 7 F32.zero))
    (<[3%nat := [F32.one]]> (rows 7 F32.zero))
    (replicate 7 (Interval.mk F32.zero F32.zero))
    (replicate 7 []).

Definition tape_max_min : Tape.Tape :=
  Tape.mk [Clause.mk Opcode.MAX 1 2 3; Clause.mk Opcode.MIN 2 5 4]
          1 Tape.ORIGINAL
          Tape.empty_interval Tape.empty_interval Tape.empty_interval.

Definition max_min : Evaluator :=
  mk [tape_max_min] 0 arena_xyz (replicate 7 false) (replicate 7 0%N)
     [] 5 4 3.

Definition origin : Vector3f := vec3f F32.zero F32.zero F32.zero.
Definition p123 : Vector3f :=
  vec3f (F32.of_Z 1) (F32.of_Z 2) (F32.of_Z 3).

Definition point (z : BinNums.Z) : Interval.I :=
  Interval.mk (F32.of_Z z) (F32.of_Z z).

(** The same evaluator after [eval((1,2,3), (1,2,3))]: the intervals of
    x, y, z, min and max are the points 1, 2, 3, 1 and 3. *)
Definition max_min_boxed : Evaluator :=
  with_result
    (Result.with_i [point 0; point 3; point 1; point 3; point 2; point 1;
                    point 0] arena_xyz)
    max_min.

(** The point (1, 2, 1), where min(x, y) is decided and max(min(x, y), z)
    is tied. *)
Definition p121 : Vector3f :=
  vec3f (F32.of_Z 1) (F32.of_Z 2) (F32.of_Z 1).

(** The evaluator of [max(min(x, y), z)] after
    [eval((1,2,1), (1,2,1))]: the intervals of x, y, z, min and max are
    the points 1, 2, 1, 1 and 1. *)
Definition max_min_mixed : Evaluator :=
  with_result
    (Result.with_i [point 0; point 1; point 1; point 1; point 2; point 1;
                    point 0] arena_xyz)
    max_min.

(** An evaluator for the single variable node 7, held in slot 1 with the
    value NaN; the axes take the slots 2, 3 and 4.  The Jacobian row of
    the variable is the basis vector the constructor gives it. *)
Definition var_nan : Evaluator :=
  mk [Tape.mk [] 1 Tape.ORIGINAL
        Tape.empty_interval Tape.empty_interval Tape.empty_interval]
     0
     (Result.mk (<[1%nat := [F32.nan]]> (rows 6 F32.zero))
                (<[2%nat := [F32.one]]> (rows 6 F32.zero))
                (<[3%nat := [F32.one]]> (rows 6 F32.zero))
                (<[4%nat := [F32.one]]> (rows 6 F32.zero))
                (replicate 6 (Interval.mk F32.zero F32.zero))
                (<[1%nat := [F32.one]]> (replicate 6 [F32.zero])))
     (replicate 6 false) (replicate 6 0%N) [(1%N, 7%N)] 2 3 4.

(** The same evaluator with the variable holding 1. *)
Definition var_one : Evaluator :=
  with_result
    (Result.with_f (<[1%nat := [F32.one]]> (rows 6 F32.zero))
                   (result var_nan))
    var_nan.

(** The evaluator of [max(min(x, y), z)] two pushes deep: above the
    original tape, an INTERVAL tape for the box [0,4]^3, which elides
    nothing, and above it the INTERVAL tape for the box that is the point
    (1, 2, 3), where only z is left. *)
Definition stacked : Evaluator :=
  with_tape 2
    (with_tapes
       [tape_max_min;
        Tape.mk [Clause.mk Opcode.MAX 1 2 3; Clause.mk Opcode.MIN 2 5 4]
                1 Tape.INTERVAL
                (Interval.mk (F32.of_Z 0) (F32.of_Z 4))
                (Interval.mk (F32.of_Z 0) (F32.of_Z 4))
                (Interval.mk (F32.of_Z 0) (F32.of_Z 4));
        Tape.mk [] 3 Tape.INTERVAL (point 1) (point 2) (point 3)]
       max_min_boxed).

(** The evaluator built from [x + y]: the nodes x, y, + receive the slots
    3, 2, 1 and z, which the tree does not mention, the slot 4. *)
Definition x_plus_y : Evaluator :=
  mk [Tape.mk [Clause.mk Opcode.ADD 1 3 2] 1 Tape.ORIGINAL
        Tape.empty_interval Tape.empty_interval Tape.empty_interval]
     0
     (Result.mk (rows 6 F32.zero)
        (<[3%nat := [F32.one]]> (rows 6 F32.zero))
        (<[2%nat := [F32.one]]> (rows 6 F32.zero))
        (<[4%nat := [F32.one]]> (rows 6 F32.zero))
        (replicate 6 (Interval.mk F32.zero F32.zero))
        (replicate 6 []))
     (replicate 6 false) (replicate 6 0%N) [] 3 2 4.

(** An evaluator for [mod(x, y)]: the nodes x, y, mod receive the slots
    3, 2, 1 and z, which the tree does not mention, the slot 4.  Two
    columns: column 0 holds x = 1, y = -3 and column 1 holds x = -2^127,
    y = -FLT_MAX. *)
Definition mod_xy : Evaluator :=
  mk [Tape.mk [Clause.mk Opcode.MOD 1 3 2] 1 Tape.ORIGINAL
        Tape.empty_interval Tape.empty_interval Tape.empty_interval]
     0
     (Result.mk
        [[F32.zero; F32.zero]; [F32.zero; F32.zero];
         [F32.of_Z (-3); S754_finite true (2 ^ 24 - 1) 104];
         [F32.of_Z 1; S754_finite true (2 ^ 23) 104];
         [F32.zero; F32.zero]; [F32.zero; F32.zero]]
        (<[3%nat := [F32.one; F32.one]]> (replicate 6 [F32.zero; F32.zero]))
        (<[2%nat := [F32.one; F32.one]]> (replicate 6 [F32.zero; F32.zero]))
        (<[4%nat := [F32.one; F32.one]]> (replicate 6 [F32.zero; F32.zero]))
        (replicate 6 (Interval.mk F32.zero F32.zero))
        (replicate 6 []))
     (replicate 6 false) (replicate 6 0%N) [] 3 2 4.

(** The same evaluator with one column, holding x = -7 and y = 3. *)
Definition mod_minus7_3 : Evaluator :=
  with_result
    (Result.mk
       [[F32.zero]; [F32.zero]; [F32.of_Z 3]; [F32.of_Z (-7)]; [F32.zero];
        [F32.zero]]
       (<[3%nat := [F32.one]]> (rows 6 F32.zero))
       (<[2%nat := [F32.one]]> (rows 6 F32.zero))
       (<[4%nat := [F32.one]]> (rows 6 F32.zero))
       (replicate 6 (Interval.mk F32.zero F32.zero))
       (replicate 6 []))
    mod_xy.

(** The point (-2^127, -FLT_MAX, 0). *)
Definition overflow : Vector3f :=
  vec3f (S754_finite true (2 ^ 23) 104) (S754_finite true (2 ^ 24 - 1) 104)
        F32.zero.

End Examples.

(** * Properties *)

(** ** The result monad *)

Lemma bind_Ok {A B} (m : res A) (k : A -> res B) (b : B) :
  bind m k = Ok b <-> exists a, m = Ok a /\ k a = Ok b.
Proof.
  destruct m as [a|e]; simpl; split.
  - intros Hk. by exists a.
  - by intros (a' & [= <-] & Hk).
  - discriminate.
  - by intros (a' & [=] & _).
Qed.

Lemma assert_Ok (b : bool) (u : unit) : assert b = Ok u <-> b = true.
Proof. destruct b, u; simpl; split; congruence. Qed.

(** Take a successful monadic computation apart. *)
Ltac res_inv H :=
  repeat match type of H with
    | bind _ _ = Ok _ =>
        let a := fresh "a" in
        let Ha := fresh "E" in
        apply bind_Ok in H as (a & Ha & H)
    | Ok _ = Ok _ => injection H as H
    end.

Lemma at_Ok {A} (l : list A) (k : N) (x : A) :
  at_ l k = Ok x <-> l !! N.to_nat k = Some x.
Proof.
  unfold at_. destruct (l !! N.to_nat k); split; congruence.
Qed.

Lemma store_Ok {A} (l l' : list A) (k : N) (x : A) :
  store l k x = Ok l' <->
  (N.to_nat k < length l)%nat /\ l' = <[N.to_nat k := x]> l.
Proof.
  unfold store. destruct (l !! N.to_nat k) eqn:E; split.
  - intros [= <-]. split; [by eapply lookup_lt_Some | done].
  - by intros [_ ->].
  - discriminate.
  - intros [Hlt _]. apply lookup_ge_None in E. lia.
Qed.

(** ** binary32 comparison *)

Lemma SFeqb_refl (x : float) : F32.isnan x = false -> SFeqb x x = true.
Proof.
  destruct x as [s|s| |s m e]; simpl; try done; intros _.
  - by destruct s.
  - unfold SFeqb; simpl.
    rewrite Z.compare_refl, Pos.compare_cont_refl. by destruct s.
Qed.

Lemma ne_refl (x : float) : F32.isnan x = false -> F32.ne x x = false.
Proof. intros Hx. unfold F32.ne. by rewrite SFeqb_refl. Qed.

(** ** Variables: [setVar] and [updateVars] *)

Section Variables.
Import Evaluator.

Lemma right_find_None (vs : list (N * N)) (var : N) :
  var ∉ vs.*2 -> right_find vs var = None.
Proof.
  induction vs as [|[c t] vs IH]; simpl; [done|].
  intros Hin. rewrite not_elem_of_cons in Hin. destruct Hin as [Hne Hin].
  destruct (decide (t = var)) as [->|_]; [done | by apply IH].
Qed.

Lemma right_find_Some (vs : list (N * N)) (slot var : N) :
  NoDup vs.*2 -> (slot, var) ∈ vs -> right_find vs var = Some slot.
Proof.
  induction vs as [|[c t] vs IH]; simpl; intros Hnd Hin.
  - by apply elem_of_nil in Hin.
  - apply NoDup_cons in Hnd as [Hnotin Hnd].
    apply elem_of_cons in Hin as [[= -> ->]|Hin].
    + by rewrite decide_True.
    + destruct (decide (t = var)) as [->|_]; [|by apply IH].
      exfalso. apply Hnotin.
      change var with (slot, var).2. by apply list_elem_of_fmap_2.
Qed.

(** C9.  [setVar] on a tree node that is not a registered variable returns
    normally and leaves the evaluator, hence the whole result arena with
    every stored variable value, as it was. *)
Theorem setVar_unregistered_is_noop (s : Evaluator) (id : N) (v : float) :
  id ∉ (vars s).*2 -> setVar id v s = Ok s.
Proof.
  intros Hid. unfold setVar. by rewrite right_find_None.
Qed.

Lemma setVar_unregistered_witness :
  setVar 9 F32.one Examples.var_nan = Ok Examples.var_nan.
Proof.
  apply setVar_unregistered_is_noop. simpl.
  intros Hin. apply list_elem_of_singleton in Hin. discriminate Hin.
Defined.

Lemma stored_setValue (r r' : Result.Result) (slot c : N) (x : float) :
  Result.coeff (Result.f r) slot 0 = Ok x ->
  Result.setValue x slot r = Ok r' ->
  Result.coeff (Result.f r') c 0 = Result.coeff (Result.f r) c 0.
Proof.
  unfold Result.coeff, Result.setValue. intros Hx Hset.
  res_inv Hx. res_inv Hset. subst r'. simpl.
  apply at_Ok in E, Hx, E0. apply store_Ok in E1 as [Hlt ->].
  assert (a0 = a) as -> by congruence.
  destruct (decide (c = slot)) as [->|Hne].
  - unfold at_. rewrite list_lookup_insert_eq by done. rewrite E. simpl.
    rewrite Hx.
    destruct a as [|y a]; [done|]. simpl in *. congruence.
  - unfold at_. rewrite list_lookup_insert_ne by lia. done.
Qed.

Lemma setValue_total (r : Result.Result) (slot : N) (x y : float) :
  Result.coeff (Result.f r) slot 0 = Ok y ->
  exists r', Result.setValue x slot r = Ok r'.
Proof.
  unfold Result.coeff, Result.setValue. intros Hy. res_inv Hy.
  rewrite E. simpl. unfold store. apply at_Ok in E. rewrite E. simpl. eauto.
Qed.

Lemma updateVars_loop_same (vs : list (N * N)) (m : gmap N float)
    (changed : bool) (s : Evaluator) :
  (forall c t, (c, t) ∈ vs ->
     exists y, stored s c = Ok y /\ F32.isnan y = false /\ m !! t = Some y) ->
  updateVars_loop vs m changed s = Ok (changed, s).
Proof.
  induction vs as [|[c t] vs IH]; simpl; intros Hall; [done|].
  destruct (Hall c t) as (y & Hy & Hnan & Hm); [by left|].
  rewrite Hm, Hy. simpl. rewrite ne_refl by done.
  apply IH. intros c' t' Hin. apply Hall. by right.
Qed.

(** C8 (amended).  When no registered variable holds NaN, writing back the
    value a variable already has and then passing [updateVars] the current
    value of every variable reports no change and touches the evaluator no
    further; no stored value has moved. *)
Theorem setVar_updateVars_no_change (s : Evaluator) (v slot : N) (x : float)
    (m : gmap N float) :
  NoDup (vars s).*2 ->
  (slot, v) ∈ vars s ->
  stored s slot = Ok x ->
  (forall c t, (c, t) ∈ vars s ->
     exists y, stored s c = Ok y /\ F32.isnan y = false /\ m !! t = Some y) ->
  exists s1,
    setVar v x s = Ok s1
    /\ updateVars m s1 = Ok (false, s1)
    /\ forall c, stored s1 c = stored s c.
Proof.
  intros Hnd Hin Hx Hall.
  destruct (setValue_total (result s) slot x x Hx) as [r' Hr'].
  exists (with_result r' s).
  assert (Hst : forall c, stored (with_result r' s) c = stored s c).
  { intros c. unfold stored. simpl. by eapply stored_setValue. }
  split; [|split; [|done]].
  - unfold setVar. rewrite (right_find_Some _ slot) by done.
    by rewrite Hr'.
  - unfold updateVars. simpl. apply updateVars_loop_same.
    intros c t Hct. rewrite Hst. by apply Hall.
Qed.

Lemma setVar_updateVars_witness :
  exists s1,
    setVar 7 F32.one Examples.var_one = Ok s1
    /\ updateVars {[ 7%N := F32.one ]} s1 = Ok (false, s1)
    /\ forall c, stored s1 c = stored Examples.var_one c.
Proof.
  apply (setVar_updateVars_no_change Examples.var_one 7%N 1%N F32.one).
  - simpl. apply NoDup_singleton.
  - simpl. apply list_elem_of_singleton. reflexivity.
  - reflexivity.
  - simpl. intros c t Hin. apply list_elem_of_singleton in Hin.
    injection Hin as -> ->. exists F32.one.
    split; [reflexivity|]. split; [reflexivity|].
    apply lookup_singleton_eq.
Defined.

(** C8, as stated, fails on NaN: the variable 7 holds NaN, it is written
    back and [updateVars] is given that very value, yet a change is
    reported. *)
Lemma updateVars_reports_change_on_NaN :
  stored Examples.var_nan 1 = Ok F32.nan
  /\ exists s1 s2,
       setVar 7 F32.nan Examples.var_nan = Ok s1
       /\ (forall c, stored s1 c = stored Examples.var_nan c)
       /\ updateVars {[ 7%N := F32.nan ]} s1 = Ok (true, s2).
Proof.
  split; [reflexivity|].
  exists Examples.var_nan, Examples.var_nan.
  split; [reflexivity|]. split; [done|].
  unfold updateVars. simpl. rewrite lookup_singleton_eq. reflexivity.
Qed.

End Variables.

(** ** The order of binary32 *)

Lemma SFltb_ord (x y : float) :
  SFltb x y = true <->
  F32.isnan x = false /\ F32.isnan y = false
  /\ F32.lex_lt (F32.ord x) (F32.ord y).
Proof.
  unfold SFltb, F32.lex_lt.
  destruct x as [s1|s1| |s1 m1 e1], y as [s2|s2| |s2 m2 e2];
    try destruct s1; try destruct s2; simpl;
    try (split; [discriminate | intros (? & ? & ?); (discriminate || lia)]);
    try (split; [intros _; repeat split; lia | done]).
  - change (Pos.compare_cont Eq m1 m2) with (m1 ?= m2)%positive.
    destruct (Z.compare_spec e1 e2), (Pos.compare_spec m1 m2); simpl;
      (split; [try discriminate; intros _; repeat split; lia
              | intros (_ & _ & ?); (reflexivity || lia)]).
  - change (Pos.compare_cont Eq m1 m2) with (m1 ?= m2)%positive.
    destruct (Z.compare_spec e1 e2), (Pos.compare_spec m1 m2); simpl;
      (split; [try discriminate; intros _; repeat split; lia
              | intros (_ & _ & ?); (reflexivity || lia)]).
Qed.

(** Two intervals cannot each lie strictly above the other. *)
Lemma gt_cycle (al ah bl bh : float) :
  F32.lt ah al = false -> F32.lt bh bl = false ->
  F32.gt al bh = true -> F32.gt bl ah = true -> False.
Proof.
  unfold F32.gt, F32.lt. intros Ha Hb H1 H2.
  apply SFltb_ord in H1 as (Hbh & Hal & H1).
  apply SFltb_ord in H2 as (Hah & Hbl & H2).
  assert (~ F32.lex_lt (F32.ord ah) (F32.ord al)) as Ha'.
  { intros H. assert (SFltb ah al = true) by (by apply SFltb_ord).
    congruence. }
  assert (~ F32.lex_lt (F32.ord bh) (F32.ord bl)) as Hb'.
  { intros H. assert (SFltb bh bl = true) by (by apply SFltb_ord).
    congruence. }
  unfold F32.lex_lt in *.
  destruct (F32.ord al) as [[? ?] ?], (F32.ord ah) as [[? ?] ?],
           (F32.ord bl) as [[? ?] ?], (F32.ord bh) as [[? ?] ?].
  simpl in *. lia.
Qed.

(** ** Monadic folds *)

Lemma foldlM_app {A B} (k : B -> A -> res B) (l1 l2 : list A) (acc : B) :
  foldlM k (l1 ++ l2) acc = bind (foldlM k l1 acc) (foldlM k l2).
Proof.
  revert acc. induction l1 as [|x l1 IH]; intros acc; simpl; [done|].
  destruct (k acc x) as [acc'|e]; simpl; [apply IH | done].
Qed.

Lemma foldlM_inv {A B} (P : B -> Prop) (k : B -> A -> res B) (l : list A)
    (acc acc' : B) :
  (forall b x b', x ∈ l -> P b -> k b x = Ok b' -> P b') ->
  P acc -> foldlM k l acc = Ok acc' -> P acc'.
Proof.
  revert acc. induction l as [|x l IH]; intros acc Hstep Hacc Hfold; simpl in *.
  - by injection Hfold as <-.
  - apply bind_Ok in Hfold as (b & Hb & Hfold).
    eapply IH; [| |exact Hfold].
    + intros b0 y b1 Hy. apply Hstep. by right.
    + eapply Hstep; [by left|exact Hacc|exact Hb].
Qed.

(** A fold whose every step succeeds under an invariant succeeds. *)
Lemma foldlM_total {A B} (P : B -> Prop) (k : B -> A -> res B) (l : list A)
    (acc : B) :
  (forall b x, x ∈ l -> P b -> exists b', k b x = Ok b' /\ P b') ->
  P acc -> exists acc', foldlM k l acc = Ok acc' /\ P acc'.
Proof.
  revert acc. induction l as [|x l IH]; intros acc Hstep Hacc; simpl.
  - by exists acc.
  - destruct (Hstep acc x) as (b & Hb & HP); [by left|done|].
    rewrite Hb. simpl. apply IH; [|done].
    intros b0 y Hy. apply Hstep. by right.
Qed.

Lemma mapM_res_Ok {A B} (k : A -> res B) (l : list A) (l' : list B) :
  mapM_res k l = Ok l' <-> Forall2 (fun x y => k x = Ok y) l l'.
Proof.
  revert l'. induction l as [|x l IH]; intros l'; simpl.
  - split; [intros [= <-]; constructor | by intros ->%Forall2_nil_inv_l].
  - split.
    + intros Hm. apply bind_Ok in Hm as (y & Hy & Hm).
      apply bind_Ok in Hm as (ys & Hys & Hm). injection Hm as <-.
      constructor; [done | by apply IH].
    + intros (y & ys & Hy & Hys & ->)%Forall2_cons_inv_l.
      rewrite Hy. simpl. apply IH in Hys. by rewrite Hys.
Qed.

(** ** [push()]: the collapse of min and max clauses (C1) *)

Section PushInterval.

Lemma collapse_Ok (c : Clause.Clause) (r : N) (dm dm' : list bool * list N) :
  Evaluator.collapse c r dm = Ok dm' <->
  (N.to_nat r < length dm.1)%nat
  /\ (N.to_nat (Clause.id c) < length dm.2)%nat
  /\ dm' = (<[N.to_nat r := false]> dm.1,
            <[N.to_nat (Clause.id c) := r]> dm.2).
Proof.
  unfold Evaluator.collapse. split.
  - intros H. res_inv H. apply store_Ok in E as [? ->].
    apply store_Ok in E0 as [? ->]. by subst.
  - intros (H1 & H2 & ->).
    apply bind_Ok. eexists. split; [by apply store_Ok|].
    apply bind_Ok. eexists. split; [by apply store_Ok|done].
Qed.

Lemma settle_Ok (c : Clause.Clause) (dm dm' : list bool * list N) :
  Evaluator.settle c dm = Ok dm' <->
  exists r, dm.2 !! N.to_nat (Clause.id c) = Some r
  /\ if decide (r = 0%N)
     then (N.to_nat (Clause.a c) < length dm.1)%nat
          /\ (N.to_nat (Clause.b c) < length dm.1)%nat
          /\ dm' = (<[N.to_nat (Clause.b c) := false]>
                      (<[N.to_nat (Clause.a c) := false]> dm.1), dm.2)
     else (N.to_nat (Clause.id c) < length dm.1)%nat
          /\ dm' = (<[N.to_nat (Clause.id c) := true]> dm.1, dm.2).
Proof.
  unfold Evaluator.settle. split.
  - intros H. apply bind_Ok in H as (r & Hr & H). apply at_Ok in Hr.
    exists r. split; [done|]. destruct (decide (r = 0%N)).
    + res_inv H. apply store_Ok in E as [? ->].
      apply store_Ok in E0 as [Hb ->]. rewrite length_insert in Hb. by subst.
    + res_inv H. apply store_Ok in E as [? ->]. by subst.
  - intros (r & Hr & H). apply bind_Ok. exists r.
    split; [by apply at_Ok|]. destruct (decide (r = 0%N)).
    + destruct H as (Ha & Hb & ->).
      apply bind_Ok. eexists. split; [by apply store_Ok|].
      apply bind_Ok. eexists. split; [|done].
      apply store_Ok. by rewrite length_insert.
    + destruct H as (Hi & ->).
      apply bind_Ok. eexists. split; [by apply store_Ok|done].
Qed.

Lemma push_clause_frame (n : nat) (iv : list Interval.I) (c : Clause.Clause)
    (dm dm' : list bool * list N) :
  WF.scratch_sized n dm ->
  Evaluator.push_clause iv dm c = Ok dm' ->
  WF.scratch_sized n dm'
  /\ forall k, k <> Clause.id c -> dm'.2 !! N.to_nat k = dm.2 !! N.to_nat k.
Proof.
  intros [Hd Hm] H. unfold Evaluator.push_clause in H.
  apply bind_Ok in H as (dis & _ & H). destruct dis.
  { injection H as <-. by split. }
  apply bind_Ok in H as (dm1 & H1 & H).
  assert (WF.scratch_sized n dm1
          /\ forall k, k <> Clause.id c ->
               dm1.2 !! N.to_nat k = dm.2 !! N.to_nat k) as [[Hd1 Hm1] Hf1].
  { destruct (Clause.op c);
      try (injection H1 as <-; by split).
    all: res_inv H1;
      repeat match type of H1 with
        | (if ?g then _ else _) = _ => destruct g
        end;
      try (injection H1 as <-; by split).
    all: apply collapse_Ok in H1 as (? & ? & ->);
      unfold WF.scratch_sized; simpl; rewrite !length_insert;
      (split; [done|]);
      intros k Hk; rewrite list_lookup_insert_ne by lia; done. }
  apply settle_Ok in H as (r & _ & H).
  destruct (decide (r = 0%N)).
  - destruct H as (_ & _ & ->). unfold WF.scratch_sized. simpl.
    by rewrite !length_insert.
  - destruct H as (_ & ->). unfold WF.scratch_sized. simpl.
    by rewrite !length_insert.
Qed.

Lemma reset_Ok (s : Evaluator.Evaluator) (root : N) (dm : list bool * list N) :
  Evaluator.reset s root = Ok dm <->
  (N.to_nat root < length (Evaluator.disabled s))%nat
  /\ dm = (<[N.to_nat root := false]>
             (replicate (length (Evaluator.disabled s)) true),
           replicate (length (Evaluator.remap s)) 0%N).
Proof.
  unfold Evaluator.reset. split.
  - intros H. res_inv H. apply store_Ok in E as [Hlt ->].
    rewrite length_replicate in Hlt. by subst.
  - intros [Hlt ->]. apply bind_Ok. eexists. split; [|done].
    apply store_Ok. by rewrite length_replicate.
Qed.

(** When a clause is reached, [remap] is still zero at every slot no
    earlier clause writes. *)
Lemma push_prefix_remap (n : nat) (iv : list Interval.I)
    (pre : list Clause.Clause) (dm0 dm : list bool * list N) :
  WF.scratch_sized n dm0 ->
  foldlM (Evaluator.push_clause iv) pre dm0 = Ok dm ->
  WF.scratch_sized n dm
  /\ forall k, k ∉ Clause.id <$> pre ->
       dm.2 !! N.to_nat k = dm0.2 !! N.to_nat k.
Proof.
  revert dm0. induction pre as [|c pre IH]; intros dm0 Hsz H; simpl in H.
  - injection H as <-. by split.
  - apply bind_Ok in H as (dm1 & H1 & H).
    destruct (push_clause_frame n iv c dm0 dm1 Hsz H1) as [Hsz1 Hf1].
    destruct (IH dm1 Hsz1 H) as [Hsz2 Hf2]. split; [done|].
    intros k Hk. rewrite fmap_cons, not_elem_of_cons in Hk.
    destruct Hk as [Hne Hk]. rewrite Hf2 by done. by apply Hf1.
Qed.

End PushInterval.

Section PushIntervalMain.

Lemma verdict_min_max (iv : list Interval.I) (c : Clause.Clause) (r : N) :
  WF.verdict iv c = Some r ->
  Evaluator.is_min_max (Clause.op c) = true
  /\ (r = Clause.a c \/ r = Clause.b c).
Proof.
  unfold WF.verdict.
  destruct (Clause.op c); try discriminate;
    repeat match goal with
      | |- context [if ?g then _ else _] => destruct g
      end; intros [= <-]; (split; [done|tauto]).
Qed.

(** One step of the loop of [push()] on a live clause whose slot has not
    been remapped. *)
Lemma push_clause_live (n : nat) (iv : list Interval.I) (c : Clause.Clause)
    (dm : list bool * list N) :
  WF.scratch_sized n dm -> length iv = n -> WF.clause_ok n c ->
  dm.1 !! N.to_nat (Clause.id c) = Some false ->
  dm.2 !! N.to_nat (Clause.id c) = Some 0%N ->
  Evaluator.push_clause iv dm c =
  Ok match WF.verdict iv c with
     | Some r => (<[N.to_nat (Clause.id c) := true]>
                    (<[N.to_nat r := false]> dm.1),
                  <[N.to_nat (Clause.id c) := r]> dm.2)
     | None => (<[N.to_nat (Clause.b c) := false]>
                  (<[N.to_nat (Clause.a c) := false]> dm.1), dm.2)
     end.
Proof.
  intros [Hd Hm] Hiv (Hid & Ha & Hb & Hmm) Hlive Hzero.
  destruct (lookup_lt_is_Some_2 iv (N.to_nat (Clause.a c))) as [ia Hia];
    [lia|].
  destruct (lookup_lt_is_Some_2 iv (N.to_nat (Clause.b c))) as [ib Hib];
    [lia|].
  assert (Hnone : Evaluator.settle c dm =
                  Ok (<[N.to_nat (Clause.b c) := false]>
                        (<[N.to_nat (Clause.a c) := false]> dm.1), dm.2)).
  { apply settle_Ok. exists 0%N. split; [done|].
    rewrite decide_True by done. repeat split; lia. }
  assert (Hsome : forall r,
            (r = Clause.a c \/ r = Clause.b c) ->
            Evaluator.is_min_max (Clause.op c) = true ->
            bind (Evaluator.collapse c r dm) (Evaluator.settle c) =
            Ok (<[N.to_nat (Clause.id c) := true]>
                  (<[N.to_nat r := false]> dm.1),
                <[N.to_nat (Clause.id c) := r]> dm.2)).
  { intros r Hr Hop. destruct (Hmm Hop) as [Hlta Hltb].
    apply bind_Ok. eexists. split.
    - apply collapse_Ok. repeat split; destruct Hr as [-> | ->]; lia.
    - apply settle_Ok. exists r. simpl.
      rewrite list_lookup_insert_eq by lia. split; [done|].
      rewrite decide_False by (destruct Hr as [-> | ->]; lia).
      rewrite length_insert. split; [lia|done]. }
  unfold Evaluator.push_clause.
  rewrite (proj2 (at_Ok _ _ _) Hlive). simpl.
  unfold WF.verdict, WF.above. rewrite Hia, Hib.
  rewrite !(proj2 (at_Ok _ _ _) Hia), !(proj2 (at_Ok _ _ _) Hib).
  destruct (Clause.op c) eqn:Hop; simpl; try exact Hnone.
  - (* MIN *)
    destruct (F32.gt (Interval.lower ia) (Interval.upper ib));
      [apply Hsome; [by right|done]|].
    destruct (F32.gt (Interval.lower ib) (Interval.upper ia));
      [apply Hsome; [by left|done]|].
    exact Hnone.
  - (* MAX *)
    destruct (F32.gt (Interval.lower ia) (Interval.upper ib));
      [apply Hsome; [by left|done]|].
    destruct (F32.gt (Interval.lower ib) (Interval.upper ia));
      [apply Hsome; [by right|done]|].
    exact Hnone.
Qed.

Lemma above_exclusive (iv : list Interval.I) (p q : N) :
  Forall WF.interval_ok iv ->
  WF.above iv p q = true -> WF.above iv q p = true -> False.
Proof.
  unfold WF.above. intros Hok H1 H2.
  destruct (iv !! N.to_nat p) as [ip|] eqn:Hp; [|done].
  destruct (iv !! N.to_nat q) as [iq|] eqn:Hq; [|done].
  rewrite Forall_lookup in Hok.
  eapply (gt_cycle (Interval.lower ip) (Interval.upper ip)
                   (Interval.lower iq) (Interval.upper iq));
    [by eapply Hok | by eapply Hok | done | done].
Qed.

(** One step of the loop of [push()] on a clause [c] that is live when
    the loop reaches it: a decided MAX or MIN collapses to the operand
    that wins ([a] is live, [remap[id] = a], [c] is disabled), and when
    it does not collapse both operands are live after the step. *)
Lemma push_clause_collapses (s : Evaluator.Evaluator)
    (tp : Tape.Tape) (pre post : list Clause.Clause) (c : Clause.Clause)
    (dm : list bool * list N) :
  let n := length (Evaluator.remap s) in
  let iv := Result.i (Evaluator.result s) in
  Evaluator.cur s = Ok tp ->
  WF.tape_ok n tp ->
  length (Evaluator.disabled s) = n ->
  length iv = n ->
  Forall WF.interval_ok iv ->
  Tape.t tp = pre ++ c :: post ->
  bind (Evaluator.reset s (Tape.i tp))
       (foldlM (Evaluator.push_clause iv) pre) = Ok dm ->
  dm.1 !! N.to_nat (Clause.id c) = Some false ->
  exists dm',
    Evaluator.push_clause iv dm c = Ok dm'
    /\ (Clause.op c = Opcode.MAX ->
        WF.above iv (Clause.a c) (Clause.b c) = true ->
        WF.collapsed_to dm' c (Clause.a c))
    /\ (Clause.op c = Opcode.MAX ->
        WF.above iv (Clause.b c) (Clause.a c) = true ->
        WF.collapsed_to dm' c (Clause.b c))
    /\ (Clause.op c = Opcode.MIN ->
        WF.above iv (Clause.a c) (Clause.b c) = true ->
        WF.collapsed_to dm' c (Clause.b c))
    /\ (Clause.op c = Opcode.MIN ->
        WF.above iv (Clause.b c) (Clause.a c) = true ->
        WF.collapsed_to dm' c (Clause.a c))
    /\ (~ (Evaluator.is_min_max (Clause.op c) = true
           /\ (WF.above iv (Clause.a c) (Clause.b c) = true
               \/ WF.above iv (Clause.b c) (Clause.a c) = true)) ->
        dm'.1 !! N.to_nat (Clause.a c) = Some false
        /\ dm'.1 !! N.to_nat (Clause.b c) = Some false
        /\ dm'.1 !! N.to_nat (Clause.id c) = Some false).
Proof.
  intros n iv _ (Hcl & Hnd & Hroot) Hd Hiv Hok Ht Hpre Hlive.
  apply bind_Ok in Hpre as (dm0 & Hreset & Hpre).
  apply reset_Ok in Hreset as [_ ->].
  assert (Hsz0 : WF.scratch_sized n
            (<[N.to_nat (Tape.i tp) := false]>
               (replicate (length (Evaluator.disabled s)) true),
             replicate (length (Evaluator.remap s)) 0%N)).
  { unfold WF.scratch_sized. simpl.
    by rewrite length_insert, !length_replicate. }
  destruct (push_prefix_remap n iv pre _ dm Hsz0 Hpre) as [Hsz Hm].
  rewrite Ht in Hcl, Hnd.
  assert (Hc : WF.clause_ok n c).
  { rewrite Forall_app, Forall_cons in Hcl. tauto. }
  assert (Hfresh : Clause.id c ∉ Clause.id <$> pre).
  { rewrite fmap_app, fmap_cons in Hnd.
    apply NoDup_app in Hnd as (_ & Hdis & _).
    intros Hin. apply (Hdis _ Hin). by left. }
  assert (Hzero : dm.2 !! N.to_nat (Clause.id c) = Some 0%N).
  { rewrite Hm by done. simpl. apply lookup_replicate_2.
    destruct Hc as (? & _). fold n. lia. }
  rewrite (push_clause_live n iv c dm Hsz Hiv Hc Hlive Hzero).
  eexists. split; [reflexivity|].
  destruct Hc as (Hid & Ha & Hb & Hmm). destruct Hsz as [Hszd Hszm].
  assert (Hcol : forall r,
            (r = Clause.a c \/ r = Clause.b c) ->
            Evaluator.is_min_max (Clause.op c) = true ->
            WF.collapsed_to
              (<[N.to_nat (Clause.id c) := true]>
                 (<[N.to_nat r := false]> dm.1),
               <[N.to_nat (Clause.id c) := r]> dm.2) c r).
  { intros r Hr Hop. destruct (Hmm Hop) as [Hlta Hltb].
    assert (N.to_nat r < n /\ r <> Clause.id c)%nat as [Hrn Hrne]
      by (destruct Hr as [-> | ->]; lia).
    unfold WF.collapsed_to. simpl. repeat split.
    - rewrite list_lookup_insert_ne by lia.
      apply list_lookup_insert_eq. lia.
    - apply list_lookup_insert_eq. lia.
    - apply list_lookup_insert_eq. rewrite length_insert. lia. }
  unfold WF.verdict. refine (conj _ (conj _ (conj _ (conj _ _)))).
  - intros Hop Hab. rewrite Hop, Hab.
    apply Hcol; [by left | by rewrite Hop].
  - intros Hop Hba. rewrite Hop, Hba.
    destruct (WF.above iv (Clause.a c) (Clause.b c)) eqn:Hab;
      [destruct (above_exclusive iv _ _ Hok Hab Hba)|].
    apply Hcol; [by right | by rewrite Hop].
  - intros Hop Hab. rewrite Hop, Hab.
    apply Hcol; [by right | by rewrite Hop].
  - intros Hop Hba. rewrite Hop, Hba.
    destruct (WF.above iv (Clause.a c) (Clause.b c)) eqn:Hab;
      [destruct (above_exclusive iv _ _ Hok Hab Hba)|].
    apply Hcol; [by left | by rewrite Hop].
  - intros Hno.
    assert (Hv : WF.verdict iv c = None).
    { unfold WF.verdict.
      destruct (Clause.op c) eqn:Hop; try done;
        destruct (WF.above iv (Clause.a c) (Clause.b c)) eqn:Hab;
        try (exfalso; apply Hno; split; [done | by left]);
        destruct (WF.above iv (Clause.b c) (Clause.a c)) eqn:Hba;
        try (exfalso; apply Hno; split; [done | by right]); done. }
    fold (WF.verdict iv c). rewrite Hv. simpl. split; [|split].
    + destruct (decide (Clause.a c = Clause.b c)) as [Heq|Hne].
      * rewrite Heq. apply list_lookup_insert_eq. rewrite length_insert. lia.
      * rewrite list_lookup_insert_ne by lia.
        apply list_lookup_insert_eq. lia.
    + apply list_lookup_insert_eq. rewrite length_insert. lia.
    + destruct (decide (Clause.b c = Clause.id c)) as [->|Hneb].
      * apply list_lookup_insert_eq. rewrite length_insert. lia.
      * rewrite list_lookup_insert_ne by lia.
        destruct (decide (Clause.a c = Clause.id c)) as [->|Hnea].
        -- apply list_lookup_insert_eq. lia.
        -- by rewrite list_lookup_insert_ne by lia.
Qed.

End PushIntervalMain.

(** ** [pushTape]: the reduced tape (C2) *)

Section PushTape.

Lemma chase_reaches (fuel : nat) (m : list N) (r r' : N) :
  Evaluator.chase fuel m r = Ok r' -> WF.reaches m r r'.
Proof.
  revert r. induction fuel as [|fuel IH]; intros r H; simpl in H; [done|].
  apply bind_Ok in H as (r1 & Hr1 & H). apply at_Ok in Hr1.
  destruct (decide (r1 = 0%N)) as [->|Hne].
  - injection H as <-. by apply WF.reaches_stop.
  - eapply WF.reaches_step; [done|done|by apply IH].
Qed.

Lemma reaches_functional (m : list N) (r r1 r2 : N) :
  WF.reaches m r r1 -> WF.reaches m r r2 -> r1 = r2.
Proof.
  intros H1. revert r2.
  induction H1 as [r Hr|r ra r1 Hr Hne _ IH]; intros r2 H2;
    destruct H2 as [r Hr'|r rb r2 Hr' Hne' H2]; try congruence.
  apply IH. congruence.
Qed.

Lemma reaches_fixed (m : list N) (r r' : N) :
  WF.reaches m r r' -> m !! N.to_nat r' = Some 0%N.
Proof. induction 1; done. Qed.

Lemma chase_total (n fuel : nat) (m : list N) (r : N) :
  WF.remap_ok n m -> (N.to_nat r < n)%nat -> (n - N.to_nat r <= fuel)%nat ->
  exists r', Evaluator.chase fuel m r = Ok r' /\ (N.to_nat r' < n)%nat.
Proof.
  intros [Hlen Hm]. revert r.
  induction fuel as [|fuel IH]; intros r Hr Hfuel; [lia|]. simpl.
  destruct (lookup_lt_is_Some_2 m (N.to_nat r)) as [r1 Hr1]; [lia|].
  rewrite (proj2 (at_Ok _ _ _) Hr1). simpl.
  destruct (decide (r1 = 0%N)) as [->|Hne]; [by exists r|].
  destruct (Hm _ _ Hr1) as [->|Hlt]; [done|].
  apply IH; lia.
Qed.

Lemma fixpoint_total (n : nat) (m : list N) (r : N) :
  WF.remap_ok n m -> (N.to_nat r < n)%nat ->
  exists r', Evaluator.fixpoint m r = Ok r' /\ (N.to_nat r' < n)%nat.
Proof.
  intros Hm Hr. unfold Evaluator.fixpoint.
  apply (chase_total n); [done|done|]. destruct Hm as [-> _]. lia.
Qed.

(** *** The bound on the loop of [fixpoint] *)

Lemma chase_mono (n n' : nat) (m : list N) (r r' : N) :
  Evaluator.chase n m r = Ok r' -> (n <= n')%nat ->
  Evaluator.chase n' m r = Ok r'.
Proof.
  revert n' r. induction n as [|n IH]; intros n' r H Hle; simpl in H; [done|].
  destruct n' as [|n']; [lia|]. simpl.
  destruct (at_ m r) as [r1|]; simpl in *; [|done].
  destruct (decide (r1 = 0%N)); [done|]. apply IH; [done|lia].
Qed.

Lemma chase_walk (n : nat) (m : list N) (r r' : N) :
  Evaluator.chase n m r = Ok r' -> exists p, WF.walk m r p r'.
Proof.
  revert r. induction n as [|n IH]; intros r H; simpl in H; [done|].
  apply bind_Ok in H as (r1 & Hr1 & H). apply at_Ok in Hr1.
  destruct (decide (r1 = 0%N)) as [->|Hne].
  - injection H as <-. exists [r]. by constructor.
  - destruct (IH _ H) as [p Hp]. exists (r :: p). by econstructor.
Qed.

Lemma walk_chase (m : list N) (r r' : N) (p : list N) :
  WF.walk m r p r' -> Evaluator.chase (length p) m r = Ok r'.
Proof.
  induction 1 as [r Hr|r r1 r' p Hr Hne _ IH]; simpl.
  - unfold at_. rewrite Hr. simpl. by destruct (decide (0%N = 0%N)).
  - unfold at_. rewrite Hr. simpl. by destruct (decide (r1 = 0%N)).
Qed.

Lemma walk_functional (m : list N) (r r1 r2 : N) (p1 p2 : list N) :
  WF.walk m r p1 r1 -> WF.walk m r p2 r2 -> p1 = p2.
Proof.
  intros H1. revert p2 r2.
  induction H1 as [r Hr|r ra r1 p1 Hr Hne _ IH]; intros p2 r2 H2;
    destruct H2 as [r Hr'|r rb r2 p2 Hr' Hne' H2]; try congruence.
  f_equal. eapply IH. by replace ra with rb by congruence.
Qed.

Lemma walk_from (m : list N) (r r' x : N) (p : list N) :
  WF.walk m r p r' -> x ∈ p ->
  exists q, WF.walk m x q r' /\ (length q <= length p)%nat.
Proof.
  induction 1 as [r Hr|r r1 r' p Hr Hne Hw IH]; intros Hx.
  - apply list_elem_of_singleton in Hx as ->. exists [r].
    split; [by constructor|done].
  - apply elem_of_cons in Hx as [->|Hx].
    + exists (r :: p). split; [by econstructor|done].
    + destruct (IH Hx) as (q & Hq & Hle). exists q. split; [done|].
      simpl. lia.
Qed.

Lemma walk_NoDup (m : list N) (r r' : N) (p : list N) :
  WF.walk m r p r' -> NoDup p.
Proof.
  induction 1 as [r Hr|r r1 r' p Hr Hne Hw IH].
  - apply NoDup_singleton.
  - constructor; [|done]. intros Hin.
    destruct (walk_from _ _ _ _ _ Hw Hin) as (q & Hq & Hle).
    assert (q = r :: p) as ->
      by (eapply walk_functional; [exact Hq|by econstructor]).
    simpl in Hle. lia.
Qed.

Lemma walk_in_range (m : list N) (r r' : N) (p : list N) :
  WF.walk m r p r' -> forall x, x ∈ p -> (N.to_nat x < length m)%nat.
Proof.
  induction 1 as [r Hr|r r1 r' p Hr Hne Hw IH]; intros x Hx.
  - apply list_elem_of_singleton in Hx as ->. by eapply lookup_lt_Some.
  - apply elem_of_cons in Hx as [->|Hx]; [by eapply lookup_lt_Some|auto].
Qed.

Lemma walk_length (m : list N) (r r' : N) (p : list N) :
  WF.walk m r p r' -> (length p <= length m)%nat.
Proof.
  intros Hw.
  rewrite <- (length_fmap N.to_nat p), <- (length_seq (length m) 0).
  apply submseteq_length, NoDup_submseteq.
  - apply (NoDup_fmap_2 N.to_nat). by eapply walk_NoDup.
  - intros k (x & -> & Hx)%list_elem_of_fmap.
    apply elem_of_seq. pose proof (walk_in_range _ _ _ _ Hw x Hx). lia.
Qed.

(** The bound of [fixpoint] loses nothing: a chain that ends at all ends
    within [length remap] steps. *)
Lemma fixpoint_enough (n : nat) (m : list N) (r r' : N) :
  Evaluator.chase n m r = Ok r' -> Evaluator.fixpoint m r = Ok r'.
Proof.
  intros H. apply chase_walk in H as [p Hp]. unfold Evaluator.fixpoint.
  eapply chase_mono; [by apply walk_chase|by eapply walk_length].
Qed.

Lemma pushTape_loop_spec (d : list bool) (m : list N)
    (prev out cs : list Clause.Clause) :
  Evaluator.pushTape_loop d m prev out = Ok cs ->
  exists new,
    cs = out ++ new
    /\ Forall2 (WF.rewritten m)
         (filter (fun c => d !! N.to_nat (Clause.id c) = Some false) prev)
         new.
Proof.
  revert out. induction prev as [|c prev IH]; intros out H; simpl in H.
  - injection H as <-. exists []. by rewrite app_nil_r.
  - apply bind_Ok in H as (dis & Hdis & H). apply at_Ok in Hdis.
    rewrite filter_cons. destruct dis.
    + rewrite decide_False by congruence. by apply IH.
    + rewrite decide_True by done.
      apply bind_Ok in H as (ra & Hra & H).
      apply bind_Ok in H as (rb & Hrb & H).
      destruct (IH _ H) as (new & -> & Hnew).
      exists (Clause.mk (Clause.op c) (Clause.id c) ra rb :: new).
      split; [by rewrite <- app_assoc|].
      constructor; [|done].
      repeat split; simpl; by eapply chase_reaches.
Qed.

Lemma pushTape_loop_total (n : nat) (d : list bool) (m : list N)
    (prev out : list Clause.Clause) :
  length d = n -> WF.remap_ok n m -> Forall (WF.clause_ok n) prev ->
  exists cs, Evaluator.pushTape_loop d m prev out = Ok cs.
Proof.
  intros Hd Hm. revert out.
  induction prev as [|c prev IH]; intros out Hprev; simpl; [by eexists|].
  apply Forall_cons in Hprev as [(Hid & Ha & Hb & _) Hprev].
  destruct (lookup_lt_is_Some_2 d (N.to_nat (Clause.id c))) as [dis Hdis];
    [lia|].
  rewrite (proj2 (at_Ok _ _ _) Hdis). simpl.
  destruct dis; [by apply IH|].
  destruct (fixpoint_total n m _ Hm Ha) as (ra & -> & _).
  destruct (fixpoint_total n m _ Hm Hb) as (rb & -> & _). simpl.
  by apply IH.
Qed.

Lemma filter_length_le {A} (P : A -> Prop) `{forall x, Decision (P x)}
    (l : list A) :
  (length (filter P l) <= length l)%nat.
Proof.
  induction l as [|x l IH]; [done|]. rewrite filter_cons.
  destruct (decide (P x)); simpl; lia.
Qed.

(** What a successful [pushTape] does to the evaluator. *)
Lemma pushTape_Ok (t : Tape.Type_) (s s' : Evaluator.Evaluator) :
  Evaluator.pushTape t s = Ok s' ->
  exists prev new ts,
    Evaluator.cur s = Ok prev
    /\ s' = Evaluator.with_tape (S (Evaluator.tape s))
              (Evaluator.with_tapes ts s)
    /\ ts !! S (Evaluator.tape s) = Some new
    /\ (forall k, (k <= Evaluator.tape s)%nat ->
          ts !! k = Evaluator.tapes s !! k)
    /\ Tape.type new = t
    /\ WF.reduced (Evaluator.disabled s) (Evaluator.remap s) prev new.
Proof.
  unfold Evaluator.pushTape. intros H.
  apply bind_Ok in H as (prev & Hprev & H).
  apply bind_Ok in H as (cs & Hcs & H).
  apply bind_Ok in H as (root & Hroot & H).
  apply bind_Ok in H as ([] & _ & H). injection H as <-.
  apply pushTape_loop_spec in Hcs as (new & -> & Hnew). simpl in *.
  assert (Hcur : (Evaluator.tape s < length (Evaluator.tapes s))%nat).
  { unfold Evaluator.cur in Hprev.
    destruct (Evaluator.tapes s !! Evaluator.tape s) eqn:E; [|done].
    by eapply lookup_lt_Some. }
  apply chase_reaches in Hroot.
  destruct (Evaluator.tapes s !! S (Evaluator.tape s)) as [old|] eqn:Hold.
  - eexists prev, _, _. split; [done|]. split; [reflexivity|].
    split; [apply list_lookup_insert_eq; by eapply lookup_lt_Some|].
    split; [intros k Hk; apply list_lookup_insert_ne; lia|].
    by repeat split.
  - apply lookup_ge_None in Hold.
    assert (length (Evaluator.tapes s) = S (Evaluator.tape s)) as Hlen by lia.
    eexists prev, _, _. split; [done|]. split; [reflexivity|].
    split; [rewrite lookup_app_r by lia; rewrite Hlen, Nat.sub_diag; done|].
    split; [intros k Hk; apply lookup_app_l; lia|].
    by repeat split.
Qed.

Lemma pushTape_total (n : nat) (t : Tape.Type_) (s : Evaluator.Evaluator)
    (prev : Tape.Tape) :
  Evaluator.cur s = Ok prev ->
  WF.tape_ok n prev ->
  length (Evaluator.disabled s) = n ->
  WF.remap_ok n (Evaluator.remap s) ->
  exists s', Evaluator.pushTape t s = Ok s'.
Proof.
  intros Hprev (Hcl & _ & Hroot) Hd Hm. unfold Evaluator.pushTape.
  rewrite Hprev. simpl.
  destruct (pushTape_loop_total n _ _ (Tape.t prev) [] Hd Hm Hcl)
    as [cs Hcs].
  rewrite Hcs. simpl.
  destruct (fixpoint_total n _ _ Hm Hroot) as (root & -> & _). simpl.
  apply pushTape_loop_spec in Hcs as (new & -> & Hnew). simpl.
  apply Forall2_length in Hnew. rewrite <- Hnew.
  rewrite bool_decide_true by apply filter_length_le. simpl. by eexists.
Qed.

End PushTape.

(** ** What the evaluation functions leave alone *)

Section Frames.
Context {num : Numeric}.

Lemma set_frame (p : Vector3f) (index : N) (s s' : Evaluator.Evaluator) :
  Evaluator.set p index s = Ok s' ->
  exists r, s' = Evaluator.with_result r s.
Proof.
  unfold Evaluator.set. intros H. res_inv H. subst. by eexists.
Qed.

Lemma values_frame (fuel : nat) (count : N) (s s' : Evaluator.Evaluator)
    (row : N) :
  Evaluator.values fuel count s = Ok (row, s') ->
  exists r, s' = Evaluator.with_result r s.
Proof.
  unfold Evaluator.values. intros H. res_inv H.
  simplify_eq. by eexists.
Qed.

Lemma derivs_frame (fuel : nat) (count : N) (s s' : Evaluator.Evaluator)
    (row : N) :
  Evaluator.derivs fuel count s = Ok (row, s') ->
  exists r, s' = Evaluator.with_result r s.
Proof.
  unfold Evaluator.derivs. intros H.
  apply bind_Ok in H as ([row1 s1] & Hv & H).
  apply values_frame in Hv as [r1 ->]. res_inv H.
  simplify_eq. by eexists.
Qed.

Lemma eval_frame (fuel : nat) (p : Vector3f) (s s' : Evaluator.Evaluator)
    (x : float) :
  Evaluator.eval fuel p s = Ok (x, s') ->
  exists r, s' = Evaluator.with_result r s.
Proof.
  unfold Evaluator.eval. intros H.
  apply bind_Ok in H as (s1 & Hs1 & H). apply set_frame in Hs1 as [r1 ->].
  apply bind_Ok in H as ([row s2] & Hv & H).
  apply values_frame in Hv as [r2 ->]. res_inv H.
  simplify_eq. by eexists.
Qed.

End Frames.

Section Pushed.
Context {num : Numeric} {api : Feature.API}.

Lemma set_box_Ok (x y z : Interval.I) (s s' : Evaluator.Evaluator) :
  Evaluator.set_box x y z s = Ok s' ->
  exists tp,
    Evaluator.cur s = Ok tp
    /\ s' = Evaluator.with_tapes
              (<[Evaluator.tape s :=
                   Tape.mk (Tape.t tp) (Tape.i tp) (Tape.type tp) x y z]>
                 (Evaluator.tapes s)) s.
Proof.
  unfold Evaluator.set_box. intros H.
  apply bind_Ok in H as (tp & Htp & H). injection H as <-. by exists tp.
Qed.

Lemma cur_with_tapes_insert (s : Evaluator.Evaluator) (tp tp' : Tape.Tape) :
  Evaluator.cur s = Ok tp ->
  Evaluator.cur (Evaluator.with_tapes
                   (<[Evaluator.tape s := tp']> (Evaluator.tapes s)) s)
  = Ok tp'.
Proof.
  unfold Evaluator.cur. simpl. intros Htp.
  destruct (Evaluator.tapes s !! Evaluator.tape s) eqn:E; [|done].
  rewrite list_lookup_insert_eq by (by eapply lookup_lt_Some). done.
Qed.

(** The common part of the three pushes: after [pushTape] on the scratch
    arrays [d], [m], the active tape is the previous one reduced. *)
Lemma pushTape_reduced (t : Tape.Type_) (s s' : Evaluator.Evaluator) :
  Evaluator.pushTape t s = Ok s' ->
  exists prev new,
    Evaluator.cur s = Ok prev
    /\ Evaluator.cur s' = Ok new
    /\ Evaluator.tape s' = S (Evaluator.tape s)
    /\ Evaluator.disabled s' = Evaluator.disabled s
    /\ Evaluator.remap s' = Evaluator.remap s
    /\ Evaluator.result s' = Evaluator.result s
    /\ Tape.type new = t
    /\ WF.reduced (Evaluator.disabled s) (Evaluator.remap s) prev new.
Proof.
  intros Hpush.
  apply pushTape_Ok in Hpush
    as (prev & new & ts & Hprev & -> & Hnew & _ & Ht & Hred).
  exists prev, new. unfold Evaluator.cur at 2. simpl. rewrite Hnew.
  do 7 (split; [done|]). done.
Qed.

Lemma reduced_facts (d : list bool) (m : list N) (prev new : Tape.Tape) :
  WF.reduced d m prev new ->
  WF.kept d prev `sublist_of` Tape.t prev
  /\ Forall2 (WF.rewritten m) (WF.kept d prev) (Tape.t new)
  /\ WF.reaches m (Tape.i prev) (Tape.i new)
  /\ (length (Tape.t new) <= length (Tape.t prev))%nat.
Proof.
  intros [Hcl Hroot]. split; [apply sublist_filter|].
  split; [done|]. split; [done|].
  apply Forall2_length in Hcl. rewrite <- Hcl. apply filter_length_le.
Qed.

Lemma pushed_reduced (s s' : Evaluator.Evaluator) :
  WF.pushed s s' ->
  exists prev new,
    Evaluator.cur s = Ok prev
    /\ Evaluator.cur s' = Ok new
    /\ Evaluator.tape s' = S (Evaluator.tape s)
    /\ WF.reduced (Evaluator.disabled s') (Evaluator.remap s') prev new.
Proof.
  intros [Hpush|f out Hpush|fuel p Hpush].
  - unfold Evaluator.push in Hpush.
    apply bind_Ok in Hpush as (tp & Htp & Hpush).
    apply bind_Ok in Hpush as (dm0 & _ & Hpush).
    apply bind_Ok in Hpush as (dm & _ & Hpush).
    apply bind_Ok in Hpush as (s1 & Hs1 & Hpush).
    apply bind_Ok in Hpush as (x & _ & Hpush).
    apply bind_Ok in Hpush as (y & _ & Hpush).
    apply bind_Ok in Hpush as (z & _ & Hpush).
    apply pushTape_reduced in Hs1
      as (prev & new & Hprev & Hnew & Htape & Hd & Hm & _ & _ & Hred).
    apply set_box_Ok in Hpush as (tp' & Htp' & ->).
    assert (tp' = new) as -> by congruence.
    exists prev, (Tape.mk (Tape.t new) (Tape.i new) (Tape.type new) x y z).
    split; [exact Hprev|].
    split; [by eapply cur_with_tapes_insert|].
    split; [exact Htape|]. simpl. rewrite Hd, Hm. exact Hred.
  - unfold Evaluator.push_Feature in Hpush.
    apply bind_Ok in Hpush as (tp & Htp & Hpush).
    apply bind_Ok in Hpush as (dm0 & _ & Hpush).
    apply bind_Ok in Hpush as ([[itr out'] dm] & _ & Hpush).
    apply bind_Ok in Hpush as ([] & _ & Hpush).
    apply bind_Ok in Hpush as (s1 & Hs1 & Hpush).
    injection Hpush as _ ->.
    apply pushTape_reduced in Hs1
      as (prev & new & Hprev & Hnew & Htape & Hd & Hm & _ & _ & Hred).
    exists prev, new. rewrite Hd, Hm. do 3 (split; [done|]). done.
  - unfold Evaluator.specialize in Hpush.
    apply bind_Ok in Hpush as ([x s1] & Hs1 & Hpush).
    apply eval_frame in Hs1 as [r ->].
    apply bind_Ok in Hpush as (tp & Htp & Hpush).
    apply bind_Ok in Hpush as (dm0 & _ & Hpush).
    apply bind_Ok in Hpush as (dm & _ & Hpush).
    apply pushTape_reduced in Hpush
      as (prev & new & Hprev & Hnew & Htape & Hd & Hm & _ & _ & Hred).
    exists prev, new. rewrite Hd, Hm. do 3 (split; [done|]). done.
Qed.

End Pushed.

Section PushTotal.
Context {num : Numeric} {api : Feature.API}.

Lemma collapse_inv (n : nat) (c : Clause.Clause) (r : N)
    (dm : list bool * list N) :
  WF.scratch_ok n dm -> WF.clause_ok n c ->
  Evaluator.is_min_max (Clause.op c) = true ->
  r = Clause.a c \/ r = Clause.b c ->
  exists dm', Evaluator.collapse c r dm = Ok dm' /\ WF.scratch_ok n dm'.
Proof.
  intros [[Hd Hm] [_ Hr]] (Hid & Ha & Hb & Hmm) Hop Hab.
  destruct (Hmm Hop) as [Hlta Hltb].
  assert (N.to_nat (Clause.id c) < N.to_nat r < n)%nat as Hlt
    by (destruct Hab as [-> | ->]; lia).
  eexists. split; [apply collapse_Ok; repeat split; lia|].
  unfold WF.scratch_ok, WF.scratch_sized, WF.remap_ok. simpl.
  rewrite !length_insert. repeat split; try done.
  intros k r' Hk.
  destruct (decide (k = N.to_nat (Clause.id c))) as [->|Hne].
  - rewrite list_lookup_insert_eq in Hk by lia. injection Hk as <-. by right.
  - rewrite list_lookup_insert_ne in Hk by done. by apply Hr.
Qed.

Lemma settle_inv (n : nat) (c : Clause.Clause) (dm : list bool * list N) :
  WF.scratch_ok n dm -> WF.clause_ok n c ->
  exists dm', Evaluator.settle c dm = Ok dm' /\ WF.scratch_ok n dm'.
Proof.
  intros [[Hd Hm] Hr] (Hid & Ha & Hb & _).
  destruct (lookup_lt_is_Some_2 dm.2 (N.to_nat (Clause.id c))) as [r Hlook];
    [lia|].
  destruct (decide (r = 0%N)) as [->|Hne].
  - eexists. split.
    + apply settle_Ok. exists 0%N. split; [done|].
      rewrite decide_True by done. repeat split; lia.
    + unfold WF.scratch_ok, WF.scratch_sized. simpl.
      by rewrite !length_insert.
  - eexists. split.
    + apply settle_Ok. exists r. split; [done|].
      rewrite decide_False by done. split; [lia|done].
    + unfold WF.scratch_ok, WF.scratch_sized. simpl.
      by rewrite !length_insert.
Qed.

Lemma push_clause_total (n : nat) (iv : list Interval.I) (c : Clause.Clause)
    (dm : list bool * list N) :
  length iv = n -> WF.scratch_ok n dm -> WF.clause_ok n c ->
  exists dm', Evaluator.push_clause iv dm c = Ok dm' /\ WF.scratch_ok n dm'.
Proof.
  intros Hiv Hdm Hc. unfold Evaluator.push_clause.
  pose proof Hdm as [[Hd Hm] _]. pose proof Hc as (Hid & Ha & Hb & _).
  destruct (lookup_lt_is_Some_2 dm.1 (N.to_nat (Clause.id c))) as [dis Hdis];
    [lia|].
  rewrite (proj2 (at_Ok _ _ _) Hdis). simpl.
  destruct dis; [by exists dm|].
  destruct (lookup_lt_is_Some_2 iv (N.to_nat (Clause.a c))) as [ia Hia];
    [lia|].
  destruct (lookup_lt_is_Some_2 iv (N.to_nat (Clause.b c))) as [ib Hib];
    [lia|].
  assert (Hgo : forall m1 : res (list bool * list N),
            (exists dm1, m1 = Ok dm1 /\ WF.scratch_ok n dm1) ->
            exists dm', bind m1 (Evaluator.settle c) = Ok dm'
                        /\ WF.scratch_ok n dm').
  { intros m1 (dm1 & -> & Hdm1). simpl. by apply settle_inv. }
  destruct (Clause.op c) eqn:Hop;
    try (apply Hgo; by exists dm).
  - rewrite (proj2 (at_Ok _ _ _) Hia), (proj2 (at_Ok _ _ _) Hib). simpl.
    apply Hgo.
    destruct (F32.gt (Interval.lower ia) (Interval.upper ib));
      [apply collapse_inv; rewrite ?Hop; auto|].
    destruct (F32.gt (Interval.lower ib) (Interval.upper ia));
      [apply collapse_inv; rewrite ?Hop; auto|].
    by exists dm.
  - rewrite (proj2 (at_Ok _ _ _) Hia), (proj2 (at_Ok _ _ _) Hib). simpl.
    apply Hgo.
    destruct (F32.gt (Interval.lower ia) (Interval.upper ib));
      [apply collapse_inv; rewrite ?Hop; auto|].
    destruct (F32.gt (Interval.lower ib) (Interval.upper ia));
      [apply collapse_inv; rewrite ?Hop; auto|].
    by exists dm.
Qed.

Lemma reset_ok (n : nat) (s : Evaluator.Evaluator) (root : N) :
  length (Evaluator.disabled s) = n -> length (Evaluator.remap s) = n ->
  (N.to_nat root < n)%nat ->
  exists dm0, Evaluator.reset s root = Ok dm0 /\ WF.scratch_ok n dm0.
Proof.
  intros Hd Hm Hroot. eexists. split; [apply reset_Ok; split; [lia|done]|].
  unfold WF.scratch_ok, WF.scratch_sized, WF.remap_ok. simpl.
  rewrite length_insert, !length_replicate. repeat split; try done.
  intros k r Hk. apply lookup_replicate in Hk as [-> _]. by left.
Qed.

(** [push()] returns on every well-formed evaluator. *)
Lemma push_total (s : Evaluator.Evaluator) :
  WF.evaluator_ok s -> exists s', Evaluator.push s = Ok s'.
Proof.
  intros [(tp & Htp & Hok) Hd Hiv HX HY HZ].
  set (n := length (Evaluator.remap s)) in *.
  unfold Evaluator.push. rewrite Htp. simpl.
  pose proof Hok as (Hcl & _ & Hroot).
  destruct (reset_ok n s (Tape.i tp) Hd eq_refl Hroot) as (dm0 & -> & Hdm0).
  simpl.
  destruct (foldlM_total (WF.scratch_ok n)
              (Evaluator.push_clause (Result.i (Evaluator.result s)))
              (Tape.t tp) dm0) as (dm & -> & [[Hdd Hdm] Hrm]); [|done|].
  { intros b c Hc Hb. apply push_clause_total; [done|done|].
    rewrite Forall_forall in Hcl. by apply Hcl. }
  simpl.
  destruct (pushTape_total n Tape.INTERVAL
              (Evaluator.with_scratch dm.1 dm.2 s) tp) as [s1 Hs1];
    [done|done|done|done|].
  rewrite Hs1. simpl.
  apply pushTape_Ok in Hs1 as (prev & new & ts & _ & -> & Hnew & _).
  simpl in *.
  destruct (lookup_lt_is_Some_2 (Result.i (Evaluator.result s))
              (N.to_nat (Evaluator.X s))) as [x Hx]; [lia|].
  destruct (lookup_lt_is_Some_2 (Result.i (Evaluator.result s))
              (N.to_nat (Evaluator.Y s))) as [y Hy]; [lia|].
  destruct (lookup_lt_is_Some_2 (Result.i (Evaluator.result s))
              (N.to_nat (Evaluator.Z s))) as [z Hz]; [lia|].
  rewrite (proj2 (at_Ok _ _ _) Hx), (proj2 (at_Ok _ _ _) Hy),
          (proj2 (at_Ok _ _ _) Hz). simpl.
  unfold Evaluator.set_box, Evaluator.cur. simpl. rewrite Hnew. simpl.
  by eexists.
Qed.

End PushTotal.

Section ReducedTape.
Context {num : Numeric} {api : Feature.API}.


End ReducedTape.

Lemma max_min_boxed_ok : WF.evaluator_ok Examples.max_min_boxed.
Proof.
  split; try (simpl; lia); try reflexivity.
  exists Examples.tape_max_min. split; [reflexivity|].
  split; [|split].
  - repeat constructor; simpl; try lia; intros _; lia.
  - simpl. repeat constructor; simpl; intros Hin;
      repeat (apply elem_of_cons in Hin as [Hin|Hin]; [discriminate|]);
      by apply elem_of_nil in Hin.
  - simpl. lia.
Defined.


(** ** [push] then [pop] (C3) *)

Section PushPop.
Context {num : Numeric} {api : Feature.API}.

(** The part of the evaluator an evaluation reads. *)
Lemma observe_same (s1 s2 : Evaluator.Evaluator) :
  Evaluator.cur s1 = Evaluator.cur s2 ->
  Evaluator.result s1 = Evaluator.result s2 ->
  Evaluator.vars s1 = Evaluator.vars s2 ->
  Evaluator.X s1 = Evaluator.X s2 ->
  Evaluator.Y s1 = Evaluator.Y s2 ->
  Evaluator.Z s1 = Evaluator.Z s2 ->
  (forall fuel count,
     Observe.values fuel count s1 = Observe.values fuel count s2)
  /\ (forall fuel count,
        Observe.derivs fuel count s1 = Observe.derivs fuel count s2)
  /\ Observe.interval s1 = Observe.interval s2
  /\ (forall fuel p,
        Observe.gradient fuel p s1 = Observe.gradient fuel p s2).
Proof.
  intros Hcur Hres Hvars HX HY HZ.
  assert (Hcur' : forall r, Evaluator.cur (Evaluator.with_result r s1)
                            = Evaluator.cur (Evaluator.with_result r s2))
    by (intros r; exact Hcur).
  assert (Hvalues : forall fuel count,
            match Evaluator.values fuel count s1,
                  Evaluator.values fuel count s2 with
            | Ok (r1, t1), Ok (r2, t2) =>
                r1 = r2 /\ Evaluator.cur t1 = Evaluator.cur t2
                /\ Evaluator.result t1 = Evaluator.result t2
                /\ Evaluator.vars t1 = Evaluator.vars t2
            | Err e1, Err e2 => e1 = e2
            | _, _ => False
            end).
  { intros fuel count. unfold Evaluator.values. rewrite Hcur, Hres.
    destruct (Evaluator.cur s2) as [tp|e]; simpl; [|done].
    destruct (foldlM _ _ _) as [r|e]; simpl; [|done].
    destruct (Result.coeff _ _ _); simpl; [|done]. by rewrite Hcur'. }
  refine (conj _ (conj _ (conj _ _))).
  - intros fuel count. unfold Observe.values.
    specialize (Hvalues fuel count).
    destruct (Evaluator.values fuel count s1) as [[r1 t1]|e1],
             (Evaluator.values fuel count s2) as [[r2 t2]|e2];
      simpl; try done; [|congruence].
    destruct Hvalues as (-> & _ & -> & _). done.
  - intros fuel count. unfold Observe.derivs, Evaluator.derivs.
    specialize (Hvalues fuel count).
    destruct (Evaluator.values fuel count s1) as [[r1 t1]|e1],
             (Evaluator.values fuel count s2) as [[r2 t2]|e2];
      simpl; try done; [|congruence].
    destruct Hvalues as (-> & -> & -> & _).
    destruct (Evaluator.cur t2) as [tp|e]; simpl; [|done].
    destruct (foldlM _ _ _) as [r|e]; simpl; [|done].
    repeat (destruct (Result.coeff _ _ _); simpl; [|done]). done.
  - unfold Observe.interval, Evaluator.interval. rewrite Hcur, Hres.
    destruct (Evaluator.cur s2) as [tp|e]; simpl; [|done].
    destruct (foldlM _ _ _) as [r|e]; simpl; [|done].
    destruct (at_ _ _); simpl; done.
  - intros fuel p. unfold Observe.gradient, Evaluator.gradient.
    assert (Hset : match Evaluator.set p 0 s1, Evaluator.set p 0 s2 with
                   | Ok t1, Ok t2 =>
                       Evaluator.cur t1 = Evaluator.cur t2
                       /\ Evaluator.result t1 = Evaluator.result t2
                       /\ Evaluator.vars t1 = Evaluator.vars t2
                   | Err e1, Err e2 => e1 = e2
                   | _, _ => False
                   end).
    { unfold Evaluator.set. rewrite Hres, HX, HY, HZ.
      repeat (destruct (Result.set_coeff _ _ _ _); simpl; [|done]).
      split; [apply Hcur'|done]. }
    destruct (Evaluator.set p 0 s1) as [t1|e1],
             (Evaluator.set p 0 s2) as [t2|e2];
      simpl; try done; [|congruence].
    destruct Hset as (Hc & Hr & Hv).
    unfold Evaluator.values. rewrite Hc, Hr.
    destruct (Evaluator.cur t2) as [tp|e] eqn:Hc2; simpl; [|done].
    destruct (foldlM _ _ _) as [r|e]; simpl; [|done].
    destruct (Result.coeff _ _ _); simpl; [|done].
    change (Evaluator.cur (Evaluator.with_result r t1))
      with (Evaluator.cur t1).
    change (Evaluator.cur (Evaluator.with_result r t2))
      with (Evaluator.cur t2).
    rewrite Hc, Hc2. simpl.
    destruct (foldlM _ _ _) as [r'|e]; simpl; [|done].
    rewrite Hv.
    destruct (Evaluator.gradient_unpack _ _ _ _ _); done.
Qed.

End PushPop.

(** ** Evaluations that load their own inputs *)

Lemma outcome_eq {A} (x y : res A) : Agree.outcome eq x y <-> x = y.
Proof.
  destruct x, y; simpl; split; congruence || done.
Qed.

Lemma outcome_bind {A B A' B'} (R : A -> B -> Prop) (R' : A' -> B' -> Prop)
    (m1 : res A) (m2 : res B) (k1 : A -> res A') (k2 : B -> res B') :
  Agree.outcome R m1 m2 ->
  (forall a b, R a b -> Agree.outcome R' (k1 a) (k2 b)) ->
  Agree.outcome R' (bind m1 k1) (bind m2 k2).
Proof.
  destruct m1, m2; simpl; try done. intros HR Hk. by apply Hk.
Qed.

Lemma matrix_mono (S S' : N -> Prop) (m1 m2 : list (list float)) :
  (forall k, S' k -> S k) -> Agree.matrix S m1 m2 -> Agree.matrix S' m1 m2.
Proof. intros HS [Hshape Hrows]. split; [done|]. auto. Qed.

Lemma ordered_mono (S S' : N -> Prop) (l : list Clause.Clause) :
  (forall k, S k -> S' k) -> WF.ordered S l -> WF.ordered S' l.
Proof.
  revert S S'. induction l as [|c l IH]; intros S S' HS; simpl; [done|].
  intros (Ha & Hb & Hl). do 2 (split; [by apply HS|]).
  eapply IH; [|exact Hl]. intros k [Hk| ->]; [left; by apply HS | by right].
Qed.

Lemma shape_lookup (m1 m2 : list (list float)) (k : nat) :
  length <$> m1 = length <$> m2 ->
  length <$> (m1 !! k) = length <$> (m2 !! k).
Proof. intros Hs. by rewrite <- !list_lookup_fmap, Hs. Qed.

Lemma head_length (m : list (list float)) (k count : N) (v : list float) :
  Evaluator.head m k count = Ok v -> length v = N.to_nat count.
Proof.
  unfold Evaluator.head. intros Hh.
  apply bind_Ok in Hh as (row & _ & Hh).
  case_decide; [|done]. injection Hh as <-.
  rewrite length_take. lia.
Qed.

(** Column 0 of a row that [head] has read. *)
Lemma head_coeff (m1 m2 : list (list float)) (k : N) :
  Evaluator.head m1 k 1 = Evaluator.head m2 k 1 ->
  Result.coeff m1 k 0 = Result.coeff m2 k 0.
Proof.
  unfold Evaluator.head, Result.coeff, at_.
  destruct (m1 !! N.to_nat k) as [[|x1 row1]|],
           (m2 !! N.to_nat k) as [[|x2 row2]|]; simpl; try done;
    repeat case_decide; simpl in *; try lia; try done.
  by intros [= ->].
Qed.

(** Writing two rows that start alike at the same slot. *)
Lemma matrix_insert (S : N -> Prop) (m1 m2 : list (list float)) (k : N)
    (row1 row2 : list float) :
  Agree.matrix S m1 m2 ->
  length row1 = length row2 -> take 1 row1 = take 1 row2 ->
  Agree.matrix (fun j => S j \/ j = k)
    (<[N.to_nat k := row1]> m1) (<[N.to_nat k := row2]> m2).
Proof.
  intros [Hshape Hrows] Hlen Htake. split.
  - by rewrite !list_fmap_insert, Hshape, Hlen.
  - intros j Hj. destruct (decide (j = k)) as [->|Hne].
    + assert (length m1 = length m2) as Hl.
      { by rewrite <- (length_fmap length m1), Hshape, length_fmap. }
      unfold Evaluator.head, at_.
      destruct (decide (N.to_nat k < length m1)%nat) as [Hlt|Hge].
      * rewrite !list_lookup_insert_eq by lia. simpl.
        change (N.to_nat 1) with 1%nat. by rewrite Hlen, Htake.
      * rewrite !list_insert_ge by lia.
        rewrite (proj2 (lookup_ge_None m1 _)) by lia.
        by rewrite (proj2 (lookup_ge_None m2 _)) by lia.
    + destruct Hj as [Hj|]; [|done].
      unfold Evaluator.head, at_.
      rewrite !list_lookup_insert_ne by lia. by apply Hrows.
Qed.

Lemma elem_of_ids_rev (k : N) (l : list Clause.Clause) :
  k ∈ Clause.id <$> rev l <-> k ∈ Clause.id <$> l.
Proof.
  rewrite !list_elem_of_fmap.
  split; intros (c & -> & Hc); exists c; (split; [done|]);
    apply list_elem_of_In; apply list_elem_of_In in Hc;
    by apply in_rev in Hc.
Qed.

Section Agreement.
Context {num : Numeric}.

Lemma rd_agree (S : N -> Prop) (r1 r2 : Result.Result) (k : N) :
  Agree.arena S r1 r2 -> S k ->
  Evaluator.rd 1 (Evaluator.Mf, k) r1 = Evaluator.rd 1 (Evaluator.Mf, k) r2.
Proof. intros [[_ Hrows] _] Hk. by apply Hrows. Qed.

Lemma wr_agree (S : N -> Prop) (r1 r2 : Result.Result) (k : N)
    (v : list float) :
  Agree.arena S r1 r2 -> length v = 1%nat ->
  Agree.outcome (Agree.arena (fun j => S j \/ j = k))
    (Evaluator.wr 1 (Evaluator.Mf, k) v r1)
    (Evaluator.wr 1 (Evaluator.Mf, k) v r2).
Proof.
  intros [Hm Hr] Hv. unfold Evaluator.wr, Evaluator.set_head, store, at_.
  simpl. pose proof (shape_lookup _ _ (N.to_nat k) (proj1 Hm)) as Hk.
  destruct (Result.f r1 !! N.to_nat k) as [row1|],
           (Result.f r2 !! N.to_nat k) as [row2|]; simpl in *; try done.
  injection Hk as Hk. rewrite Hk.
  case_decide; simpl; [|done]. split.
  - apply matrix_insert; [done| |].
    + by rewrite !length_app, !length_drop, Hk.
    + destruct v as [|x [|y v]]; done.
  - rewrite Hr. by destruct r1.
Qed.

Lemma values_clause_agree (S : N -> Prop) (fuel : nat) (c : Clause.Clause)
    (r1 r2 : Result.Result) :
  Agree.arena S r1 r2 -> S (Clause.a c) -> S (Clause.b c) ->
  Agree.outcome (Agree.arena (fun j => S j \/ j = Clause.id c))
    (Evaluator.values_clause fuel 1 c r1)
    (Evaluator.values_clause fuel 1 c r2).
Proof.
  intros HA Ha Hb.
  pose proof (rd_agree S r1 r2 _ HA Ha) as Hra.
  pose proof (rd_agree S r1 r2 _ HA Hb) as Hrb.
  unfold Evaluator.values_clause, Evaluator.assign1, Evaluator.assign2.
  cbv zeta.
  destruct (Clause.op c); try done; rewrite ?Hra, ?Hrb;
    destruct (Evaluator.rd 1 (Evaluator.Mf, Clause.a c) r2) as [av|]
      eqn:Eav; simpl; try done;
    try (destruct (Evaluator.rd 1 (Evaluator.Mf, Clause.b c) r2) as [bv|]
           eqn:Ebv; simpl; try done);
    apply head_length in Eav; try apply head_length in Ebv;
    try (apply wr_agree; [done|];
         rewrite ?length_zip_with, ?length_fmap, ?Eav, ?Ebv; done).
  destruct (mapM_res _ _) as [v|] eqn:Ev; simpl; [|done].
  apply wr_agree; [done|].
  apply mapM_res_Ok, Forall2_length in Ev.
  rewrite <- Ev, length_zip, Eav, Ebv. done.
Qed.

Lemma values_fold_agree (S : N -> Prop) (fuel : nat)
    (l : list Clause.Clause) (r1 r2 : Result.Result) :
  WF.ordered S l -> Agree.arena S r1 r2 ->
  Agree.outcome
    (Agree.arena (fun j => S j \/ j ∈ Clause.id <$> l))
    (foldlM (fun r c => Evaluator.values_clause fuel 1 c r) l r1)
    (foldlM (fun r c => Evaluator.values_clause fuel 1 c r) l r2).
Proof.
  revert S r1 r2. induction l as [|c l IH]; intros S r1 r2 Hord HA; simpl.
  - destruct HA as [HA Hr]. split; [|done].
    eapply matrix_mono; [|exact HA]. intros k [Hk|Hk]; [done|].
    by apply elem_of_nil in Hk.
  - destruct Hord as (Ha & Hb & Hl).
    eapply outcome_bind; [by apply values_clause_agree|].
    intros r1' r2' HA'. simpl.
    specialize (IH _ _ _ Hl HA').
    destruct (foldlM _ l r1'), (foldlM _ l r2'); simpl in *; try done.
    destruct IH as [IH Hr]. split; [|done].
    eapply matrix_mono; [|exact IH]. intros k [Hk|Hk]; [by left; left|].
    apply elem_of_cons in Hk as [->|Hk]; [left; by right | by right].
Qed.

Lemma set_coeff_agree (S : N -> Prop) (m1 m2 : list (list float)) (k : N)
    (v : float) :
  Agree.matrix S m1 m2 ->
  Agree.outcome (Agree.matrix (fun j => S j \/ j = k))
    (Result.set_coeff m1 k 0 v) (Result.set_coeff m2 k 0 v).
Proof.
  intros Hm. unfold Result.set_coeff, store, at_.
  pose proof (shape_lookup _ _ (N.to_nat k) (proj1 Hm)) as Hk.
  destruct (m1 !! N.to_nat k) as [[|x1 row1]|],
           (m2 !! N.to_nat k) as [[|x2 row2]|]; simpl in *; try done.
  injection Hk as Hk. apply matrix_insert; [done| |done].
  simpl. by rewrite Hk.
Qed.

Lemma set_agree (S : N -> Prop) (p : Vector3f) (s1 s2 : Evaluator.Evaluator) :
  Agree.evaluator S s1 s2 ->
  Agree.outcome
    (Agree.evaluator
       (fun k => ((S k \/ k = Evaluator.X s1) \/ k = Evaluator.Y s1)
                 \/ k = Evaluator.Z s1))
    (Evaluator.set p 0 s1) (Evaluator.set p 0 s2).
Proof.
  intros (Hc & Hv & HX & HY & HZ & Hm & Hr). unfold Evaluator.set.
  rewrite <- HX, <- HY, <- HZ.
  eapply outcome_bind; [by apply set_coeff_agree|]. intros f1 g1 H1.
  eapply outcome_bind; [by apply set_coeff_agree|]. intros f2 g2 H2.
  eapply outcome_bind; [by apply set_coeff_agree|]. intros f3 g3 H3.
  simpl. do 5 (split; [done|]). split; [done|].
  simpl. rewrite Hr. by destruct (Evaluator.result s1).
Qed.

Lemma values_agree (S : N -> Prop) (fuel : nat) (tp : Tape.Tape)
    (s1 s2 : Evaluator.Evaluator) :
  Evaluator.cur s1 = Ok tp ->
  Agree.evaluator S s1 s2 ->
  WF.ordered S (rev (Tape.t tp)) ->
  (forall k, k ∉ Clause.id <$> Tape.t tp -> S k) ->
  Agree.outcome
    (fun o1 o2 => o1.1 = o2.1
                  /\ Agree.evaluator (fun _ => True) o1.2 o2.2)
    (Evaluator.values fuel 1 s1) (Evaluator.values fuel 1 s2).
Proof.
  intros Hcur (Hc & Hv & HX & HY & HZ & HA) Hord Hrest.
  unfold Evaluator.values. rewrite <- Hc, Hcur. simpl.
  eapply outcome_bind; [by apply values_fold_agree|].
  intros r1 r2 [Hm Hr].
  assert (Agree.matrix (fun _ => True) (Result.f r1) (Result.f r2)) as Hall.
  { eapply matrix_mono; [|exact Hm]. intros k _.
    destruct (decide (k ∈ Clause.id <$> Tape.t tp)) as [Hk|Hk].
    - right. by apply elem_of_ids_rev.
    - left. by apply Hrest. }
  rewrite (head_coeff (Result.f r1) (Result.f r2) (Tape.i tp))
    by by apply Hall.
  destruct (Result.coeff _ _ _); simpl; [|done].
  split; [done|]. by do 5 (split; [done|]).
Qed.

(** The rows an evaluation on the tape [tp] reads before it has written
    them: neither a clause of [tp] nor an axis. *)
Lemma input_loaded (s : Evaluator.Evaluator) (tp : Tape.Tape) (k : N) :
  WF.input s tp k ->
  ((((k ∉ Clause.id <$> Tape.t tp)
      /\ k <> Evaluator.X s /\ k <> Evaluator.Y s /\ k <> Evaluator.Z s)
    \/ k = Evaluator.X s) \/ k = Evaluator.Y s) \/ k = Evaluator.Z s.
Proof.
  intros Hk.
  destruct (decide (k = Evaluator.X s)); [by left; left; right|].
  destruct (decide (k = Evaluator.Y s)); [by left; right|].
  destruct (decide (k = Evaluator.Z s)); [by right|].
  destruct Hk as [[[Hk|]|]|]; try done. by do 3 left.
Qed.

Lemma eval_agree (fuel : nat) (p : Vector3f) (tp : Tape.Tape)
    (s1 s2 : Evaluator.Evaluator) :
  Evaluator.cur s1 = Ok tp ->
  Agree.evaluator
    (fun k => (k ∉ Clause.id <$> Tape.t tp)
              /\ k <> Evaluator.X s1 /\ k <> Evaluator.Y s1
              /\ k <> Evaluator.Z s1) s1 s2 ->
  WF.ordered (WF.input s1 tp) (rev (Tape.t tp)) ->
  Observe.eval fuel p s1 = Observe.eval fuel p s2.
Proof.
  intros Hcur HA Hord. apply outcome_eq.
  unfold Observe.eval, Evaluator.eval.
  pose proof (set_agree _ p s1 s2 HA) as Hset.
  destruct (Evaluator.set p 0 s1) as [s1'|] eqn:E1,
           (Evaluator.set p 0 s2) as [s2'|] eqn:E2; simpl in *; try done.
  apply set_frame in E1 as [r1 ->].
  eapply outcome_bind; [|intros a b Hab; exact Hab].
  eapply outcome_bind.
  { eapply (values_agree _ fuel tp); [done|exact Hset| |].
    - eapply ordered_mono; [|exact Hord]. apply input_loaded.
    - intros k Hk. apply input_loaded. by do 3 left. }
  intros [row1 t1] [row2 t2] [Hrow Ht]. simpl in *. subst row2.
  destruct Ht as (Hc & Hv & HX & HY & HZ & Hm & Hr).
  rewrite (head_coeff _ _ row1 (proj2 Hm row1 I)).
  destruct (Result.coeff _ _ _); simpl; done.
Qed.

Lemma gradient_clause_agree (c : Clause.Clause) (r1 r2 : Result.Result) :
  Agree.arena (fun _ => True) r1 r2 ->
  Agree.outcome (Agree.arena (fun _ => True))
    (Evaluator.gradient_clause c r1) (Evaluator.gradient_clause c r2).
Proof.
  intros [Hm Hr]. unfold Evaluator.gradient_clause.
  rewrite (head_coeff _ _ (Clause.a c) (proj2 Hm _ I)).
  rewrite (head_coeff _ _ (Clause.b c) (proj2 Hm _ I)).
  assert (Result.j r2 = Result.j r1) as Hj by (by rewrite Hr).
  rewrite Hj.
  repeat (match goal with
          | |- Agree.outcome _ (bind ?m _) (bind ?m _) =>
              destruct m; simpl; [|done]
          end).
  split; [done|]. simpl. rewrite Hr at 1. by destruct r1.
Qed.

Lemma outcome_foldlM {A B} (R : B -> B -> Prop) (k : B -> A -> res B)
    (l : list A) (b1 b2 : B) :
  (forall x b1 b2, R b1 b2 -> Agree.outcome R (k b1 x) (k b2 x)) ->
  R b1 b2 -> Agree.outcome R (foldlM k l b1) (foldlM k l b2).
Proof.
  intros Hk. revert b1 b2. induction l as [|x l IH]; intros b1 b2 HR; simpl.
  - done.
  - eapply outcome_bind; [by apply Hk|]. apply IH.
Qed.

Lemma gradient_agree (fuel : nat) (p : Vector3f) (tp : Tape.Tape)
    (s1 s2 : Evaluator.Evaluator) :
  Evaluator.cur s1 = Ok tp ->
  Agree.evaluator
    (fun k => (k ∉ Clause.id <$> Tape.t tp)
              /\ k <> Evaluator.X s1 /\ k <> Evaluator.Y s1
              /\ k <> Evaluator.Z s1) s1 s2 ->
  WF.ordered (WF.input s1 tp) (rev (Tape.t tp)) ->
  Observe.gradient fuel p s1 = Observe.gradient fuel p s2.
Proof.
  intros Hcur HA Hord. apply outcome_eq.
  unfold Observe.gradient, Evaluator.gradient.
  pose proof (set_agree _ p s1 s2 HA) as Hset.
  destruct (Evaluator.set p 0 s1) as [s1'|] eqn:E1,
           (Evaluator.set p 0 s2) as [s2'|] eqn:E2; simpl in *; try done.
  apply set_frame in E1 as [r1 ->].
  eapply outcome_bind; [|intros a b Hab; exact Hab].
  eapply outcome_bind.
  { eapply (values_agree _ fuel tp); [done|exact Hset| |].
    - eapply ordered_mono; [|exact Hord]. apply input_loaded.
    - intros k Hk. apply input_loaded. by do 3 left. }
  intros [row1 t1] [row2 t2] [Hrow Ht]. simpl in *. subst row2.
  destruct Ht as (Hc & Hv & HX & HY & HZ & HA').
  rewrite <- Hc, <- Hv. destruct (Evaluator.cur t1) as [tp'|]; simpl; [|done].
  eapply outcome_bind.
  { apply (outcome_foldlM (Agree.arena (fun _ => True))); [|exact HA'].
    intros x b1 b2. apply gradient_clause_agree. }
  intros g1 g2 [_ Hg]. assert (Result.j g2 = Result.j g1) as ->
    by (by rewrite Hg).
  destruct (Evaluator.gradient_unpack _ _ _ _ _); simpl; done.
Qed.

(** *** The rows an evaluation writes *)

Lemma matrix_refl (S : N -> Prop) (m : list (list float)) :
  Agree.matrix S m m.
Proof. by split. Qed.

Lemma matrix_write (S : N -> Prop) (m0 m : list (list float)) (k : N)
    (row row' : list float) :
  Agree.matrix S m0 m -> ~ S k ->
  m !! N.to_nat k = Some row -> length row' = length row ->
  Agree.matrix S m0 (<[N.to_nat k := row']> m).
Proof.
  intros [Hshape Hrows] Hk Hrow Hlen. split.
  - rewrite list_fmap_insert, Hlen, list_insert_id; [done|].
    by rewrite list_lookup_fmap, Hrow.
  - intros j Hj. rewrite (Hrows j Hj). unfold Evaluator.head, at_.
    rewrite list_lookup_insert_ne; [done|]. intros Heq.
    apply N2Nat.inj in Heq. by subst.
Qed.

Lemma wr_frame (S : N -> Prop) (m0 : list (list float)) (count k : N)
    (v : list float) (r r' : Result.Result) :
  Agree.matrix S m0 (Result.f r) -> ~ S k ->
  length v = N.to_nat count ->
  Evaluator.wr count (Evaluator.Mf, k) v r = Ok r' ->
  Agree.matrix S m0 (Result.f r').
Proof.
  intros Hm Hk Hv. unfold Evaluator.wr, Evaluator.set_head. simpl.
  intros Hw. apply bind_Ok in Hw as (m & Hw & [= <-]).
  apply bind_Ok in Hw as (row & Hrow & Hw). apply at_Ok in Hrow.
  case_decide; [|done]. apply store_Ok in Hw as [_ ->]. simpl.
  eapply matrix_write; [done|done|exact Hrow|].
  rewrite length_app, length_drop. lia.
Qed.

Lemma values_clause_wr (fuel : nat) (count : N) (c : Clause.Clause)
    (r r' : Result.Result) :
  Evaluator.values_clause fuel count c r = Ok r' ->
  exists v, length v = N.to_nat count
            /\ Evaluator.wr count (Evaluator.Mf, Clause.id c) v r = Ok r'.
Proof.
  unfold Evaluator.values_clause, Evaluator.assign1, Evaluator.assign2,
    Evaluator.rd. cbv zeta. intros Hc.
  destruct (Clause.op c); try discriminate;
    apply bind_Ok in Hc as (av & Hav & Hc); apply head_length in Hav;
    try (apply bind_Ok in Hc as (bv & Hbv & Hc); apply head_length in Hbv);
    try (eexists; split; [|exact Hc];
         rewrite ?length_zip_with, ?length_fmap, ?Hav, ?Hbv; lia).
  apply bind_Ok in Hc as (v & Hv & Hc). exists v. split; [|done].
  apply mapM_res_Ok, Forall2_length in Hv.
  rewrite <- Hv, length_zip, Hav, Hbv. lia.
Qed.

Lemma set_coeff_frame (S : N -> Prop) (m0 m m' : list (list float))
    (k c : N) (v : float) :
  Agree.matrix S m0 m -> ~ S k ->
  Result.set_coeff m k c v = Ok m' -> Agree.matrix S m0 m'.
Proof.
  intros Hm Hk. unfold Result.set_coeff. intros Hs.
  apply bind_Ok in Hs as (row & Hrow & Hs). apply at_Ok in Hrow.
  apply bind_Ok in Hs as (row' & Hrow' & Hs).
  apply store_Ok in Hrow' as [_ ->]. apply store_Ok in Hs as [_ ->].
  eapply matrix_write; [done|done|exact Hrow|]. by rewrite length_insert.
Qed.

(** [eval(p)] leaves alone the rows that are neither an axis nor written
    by a clause of the active tape, and the shape of the value matrix. *)
Lemma eval_rows (fuel : nat) (p : Vector3f) (tp : Tape.Tape) (x : float)
    (s s' : Evaluator.Evaluator) :
  Evaluator.cur s = Ok tp ->
  Evaluator.eval fuel p s = Ok (x, s') ->
  Agree.matrix
    (fun k => (k ∉ Clause.id <$> Tape.t tp)
              /\ k <> Evaluator.X s /\ k <> Evaluator.Y s
              /\ k <> Evaluator.Z s)
    (Result.f (Evaluator.result s)) (Result.f (Evaluator.result s')).
Proof.
  intros Hcur. unfold Evaluator.eval, Evaluator.set, Evaluator.values.
  intros He. apply bind_Ok in He as (s1 & Hs1 & He).
  apply bind_Ok in Hs1 as (f1 & Hf1 & Hs1).
  apply bind_Ok in Hs1 as (f2 & Hf2 & Hs1).
  apply bind_Ok in Hs1 as (f3 & Hf3 & [= <-]).
  apply bind_Ok in He as ([row s2] & Hv & He).
  apply bind_Ok in He as (out & _ & [= _ <-]).
  apply bind_Ok in Hv as (tp' & Htp' & Hv).
  change (Evaluator.cur s = Ok tp') in Htp'.
  rewrite Hcur in Htp'. injection Htp' as <-.
  apply bind_Ok in Hv as (r & Hr & Hv).
  apply bind_Ok in Hv as (? & _ & [= _ <-]). simpl.
  eapply (foldlM_inv (fun r => Agree.matrix _ _ (Result.f r)));
    [| |exact Hr].
  - intros b c b' Hc Hb Hstep. apply values_clause_wr in Hstep as (v & Hv & Hw).
    eapply wr_frame; [exact Hb| |exact Hv|exact Hw].
    intros [Hid _]. apply Hid, elem_of_ids_rev.
    apply list_elem_of_fmap. by exists c.
  - simpl.
    eapply set_coeff_frame; [|by intros (_ & _ & _ & ?)|exact Hf3].
    eapply set_coeff_frame; [|by intros (_ & _ & ? & _)|exact Hf2].
    eapply set_coeff_frame; [|by intros (_ & ? & _ & _)|exact Hf1].
    apply matrix_refl.
Qed.

End Agreement.

Section PushPopMain.
Context {num : Numeric} {api : Feature.API}.

Lemma pop_after_pushTape (t : Tape.Type_) (s s1 : Evaluator.Evaluator) :
  Evaluator.pushTape t s = Ok s1 ->
  exists s2,
    Evaluator.pop s1 = Ok s2
    /\ Evaluator.tape s2 = Evaluator.tape s
    /\ Evaluator.cur s2 = Evaluator.cur s
    /\ Evaluator.result s2 = Evaluator.result s
    /\ Evaluator.vars s2 = Evaluator.vars s
    /\ Evaluator.X s2 = Evaluator.X s
    /\ Evaluator.Y s2 = Evaluator.Y s
    /\ Evaluator.Z s2 = Evaluator.Z s.
Proof.
  intros Hpush.
  apply pushTape_Ok in Hpush as (prev & new & ts & _ & -> & _ & Hlow & _).
  eexists. split; [reflexivity|]. simpl. split; [done|].
  split; [|done]. unfold Evaluator.cur. simpl. by rewrite Hlow.
Qed.

Lemma values_clause_writes_f (fuel : nat) (count : N) (c : Clause.Clause)
    (r r' : Result.Result) :
  Evaluator.values_clause fuel count c r = Ok r' ->
  exists m, r' = Result.with_f m r.
Proof.
  unfold Evaluator.values_clause, Evaluator.assign1, Evaluator.assign2,
    Evaluator.wr.
  intros Hc. destruct (Clause.op c); try discriminate;
    res_inv Hc; simplify_eq; by eexists.
Qed.

Lemma with_f_with_f (m1 m2 : list (list float)) (r : Result.Result) :
  Result.with_f m1 (Result.with_f m2 r) = Result.with_f m1 r.
Proof. done. Qed.

Lemma values_writes_f (fuel : nat) (count row : N)
    (s s' : Evaluator.Evaluator) :
  Evaluator.values fuel count s = Ok (row, s') ->
  exists m,
    s' = Evaluator.with_result (Result.with_f m (Evaluator.result s)) s.
Proof.
  unfold Evaluator.values. intros Hv.
  apply bind_Ok in Hv as (tp & _ & Hv).
  apply bind_Ok in Hv as (r & Hr & Hv).
  apply bind_Ok in Hv as (x & _ & Hv). simplify_eq.
  enough (exists m, r = Result.with_f m (Evaluator.result s))
    as [m ->] by by eexists.
  eapply (foldlM_inv
            (fun r => exists m, r = Result.with_f m (Evaluator.result s)));
    [| |exact Hr].
  - intros b c b' _ [m ->] Hstep.
    apply values_clause_writes_f in Hstep as [m' ->]. by eexists.
  - exists (Result.f (Evaluator.result s)). by destruct (Evaluator.result s).
Qed.

Lemma eval_writes_f (fuel : nat) (p : Vector3f) (x : float)
    (s s' : Evaluator.Evaluator) :
  Evaluator.eval fuel p s = Ok (x, s') ->
  exists m,
    s' = Evaluator.with_result (Result.with_f m (Evaluator.result s)) s.
Proof.
  unfold Evaluator.eval, Evaluator.set. intros He.
  apply bind_Ok in He as (s1 & Hs1 & He). res_inv Hs1. subst s1.
  apply bind_Ok in He as ([row s2] & Hv & He).
  apply values_writes_f in Hv as [m ->]. res_inv He. simplify_eq.
  by eexists.
Qed.

(** An evaluation that loads its own inputs reads nothing else of the
    evaluator than its cursor, arena, variables and axes. *)
Lemma observe_same_loaded (s1 s2 : Evaluator.Evaluator) :
  Evaluator.cur s1 = Evaluator.cur s2 ->
  Evaluator.result s1 = Evaluator.result s2 ->
  Evaluator.X s1 = Evaluator.X s2 ->
  Evaluator.Y s1 = Evaluator.Y s2 ->
  Evaluator.Z s1 = Evaluator.Z s2 ->
  (forall fuel p, Observe.eval fuel p s1 = Observe.eval fuel p s2)
  /\ (forall lower upper,
        Observe.eval_interval lower upper s1
        = Observe.eval_interval lower upper s2).
Proof.
  intros Hcur Hres HX HY HZ. split.
  - intros fuel p. unfold Observe.eval, Evaluator.eval, Evaluator.set.
    rewrite Hres, HX, HY, HZ.
    repeat (destruct (Result.set_coeff _ _ _ _); simpl; [|done]).
    unfold Evaluator.values.
    change (Evaluator.cur (Evaluator.with_result ?r s1))
      with (Evaluator.cur s1).
    change (Evaluator.cur (Evaluator.with_result ?r s2))
      with (Evaluator.cur s2).
    rewrite Hcur. destruct (Evaluator.cur s2) as [tp|e]; simpl; [|done].
    destruct (foldlM _ _ _) as [r|e]; simpl; [|done].
    destruct (Result.coeff _ _ _); simpl; [|done].
    destruct (Result.coeff _ _ _); simpl; done.
  - intros lower upper.
    unfold Observe.eval_interval, Evaluator.eval_interval,
      Evaluator.set_interval.
    rewrite Hres, HX, HY, HZ.
    repeat (destruct (store _ _ _); simpl; [|done]).
    unfold Evaluator.interval.
    change (Evaluator.cur (Evaluator.with_result ?r s1))
      with (Evaluator.cur s1).
    change (Evaluator.cur (Evaluator.with_result ?r s2))
      with (Evaluator.cur s2).
    rewrite Hcur. destruct (Evaluator.cur s2) as [tp|e]; simpl; [|done].
    destruct (foldlM _ _ _) as [r|e]; simpl; [|done].
    destruct (at_ _ _); simpl; done.
Qed.

(** The box evaluation reads the interval slots only. *)
Lemma eval_interval_with_f (lower upper : Vector3f)
    (s1 s2 : Evaluator.Evaluator) :
  Evaluator.cur s1 = Evaluator.cur s2 ->
  Result.i (Evaluator.result s1) = Result.i (Evaluator.result s2) ->
  Evaluator.X s1 = Evaluator.X s2 ->
  Evaluator.Y s1 = Evaluator.Y s2 ->
  Evaluator.Z s1 = Evaluator.Z s2 ->
  Observe.interval s1 = Observe.interval s2
  /\ Observe.eval_interval lower upper s1
     = Observe.eval_interval lower upper s2.
Proof.
  intros Hcur Hi HX HY HZ.
  assert (forall r1 r2 t1 t2,
            Evaluator.cur t1 = Evaluator.cur t2 ->
            Result.i r1 = Result.i r2 ->
            Observe.interval (Evaluator.with_result r1 t1)
            = Observe.interval (Evaluator.with_result r2 t2)) as Hint.
  { intros r1 r2 t1 t2 Hc Hr. unfold Observe.interval, Evaluator.interval.
    change (Evaluator.cur (Evaluator.with_result r1 t1))
      with (Evaluator.cur t1).
    change (Evaluator.cur (Evaluator.with_result r2 t2))
      with (Evaluator.cur t2).
    rewrite Hc. simpl. rewrite Hr.
    destruct (Evaluator.cur t2) as [tp|e]; simpl; [|done].
    destruct (foldlM _ _ _) as [r|e]; simpl; [|done].
    destruct (at_ _ _); simpl; done. }
  split.
  - specialize (Hint (Evaluator.result s1) (Evaluator.result s2) s1 s2
                  Hcur Hi).
    by destruct s1, s2.
  - unfold Observe.eval_interval, Evaluator.eval_interval,
      Evaluator.set_interval.
    rewrite Hi, HX, HY, HZ.
    repeat (destruct (store _ _ _); simpl; [|done]).
    by apply Hint.
Qed.

(** C3 (amended).  After [push()] or [push(Feature)], [pop()] returns and
    the evaluator has its former cursor, active tape (clauses, root, type
    and box) and result arena: every evaluation returns what it would
    have returned before the push.  After [specialize(p)], [pop()]
    returns and restores the cursor and the active tape; of the arena
    only the value rows have changed (they hold the evaluation at [p]).
    The box evaluations return what they would have returned, and so do
    the evaluations that load their own point, [eval(p')] and
    [gradient(p')], on a tape in evaluation order. *)
Theorem push_pop_restores (s : Evaluator.Evaluator) :
  (forall s',
     (Evaluator.push s = Ok s'
      \/ exists f out, Evaluator.push_Feature f s = Ok (out, s')) ->
     exists s'',
       Evaluator.pop s' = Ok s''
       /\ Evaluator.tape s'' = Evaluator.tape s
       /\ Evaluator.cur s'' = Evaluator.cur s
       /\ Evaluator.result s'' = Evaluator.result s
       /\ (forall fuel count,
             Observe.values fuel count s'' = Observe.values fuel count s)
       /\ (forall fuel count,
             Observe.derivs fuel count s'' = Observe.derivs fuel count s)
       /\ Observe.interval s'' = Observe.interval s
       /\ (forall fuel p,
             Observe.gradient fuel p s'' = Observe.gradient fuel p s)
       /\ (forall fuel p, Observe.eval fuel p s'' = Observe.eval fuel p s)
       /\ (forall lower upper,
             Observe.eval_interval lower upper s''
             = Observe.eval_interval lower upper s))
  /\ (forall fuel p s',
        Evaluator.specialize fuel p s = Ok s' ->
        exists s'',
          Evaluator.pop s' = Ok s''
          /\ Evaluator.tape s'' = Evaluator.tape s
          /\ Evaluator.cur s'' = Evaluator.cur s
          /\ (exists m, Evaluator.result s''
                        = Result.with_f m (Evaluator.result s))
          /\ Observe.interval s'' = Observe.interval s
          /\ (forall lower upper,
                Observe.eval_interval lower upper s''
                = Observe.eval_interval lower upper s)
          /\ (WF.evaluation_order s ->
              forall fuel' p',
                Observe.eval fuel' p' s'' = Observe.eval fuel' p' s
                /\ Observe.gradient fuel' p' s''
                   = Observe.gradient fuel' p' s)).
Proof.
  split.
  - intros s' Hpush.
    enough (exists s'',
              Evaluator.pop s' = Ok s''
              /\ Evaluator.tape s'' = Evaluator.tape s
              /\ Evaluator.cur s'' = Evaluator.cur s
              /\ Evaluator.result s'' = Evaluator.result s
              /\ Evaluator.vars s'' = Evaluator.vars s
              /\ Evaluator.X s'' = Evaluator.X s
              /\ Evaluator.Y s'' = Evaluator.Y s
              /\ Evaluator.Z s'' = Evaluator.Z s)
      as (s'' & Hpop & Ht & Hc & Hr & Hv & HX & HY & HZ).
    { exists s''. do 4 (split; [done|]).
      destruct (observe_same s'' s Hc Hr Hv HX HY HZ)
        as (H1 & H2 & H3 & H4).
      destruct (observe_same_loaded s'' s Hc Hr HX HY HZ) as (H5 & H6).
      done. }
    destruct Hpush as [Hpush|(f & out & Hpush)].
    + unfold Evaluator.push in Hpush.
      apply bind_Ok in Hpush as (tp & Htp & Hpush).
      apply bind_Ok in Hpush as (dm0 & _ & Hpush).
      apply bind_Ok in Hpush as (dm & _ & Hpush).
      apply bind_Ok in Hpush as (s1 & Hs1 & Hpush).
      apply bind_Ok in Hpush as (x & _ & Hpush).
      apply bind_Ok in Hpush as (y & _ & Hpush).
      apply bind_Ok in Hpush as (z & _ & Hpush).
      apply set_box_Ok in Hpush as (tp' & _ & ->).
      apply pushTape_Ok in Hs1 as (prev & new & ts & _ & -> & _ & Hlow & _).
      eexists. split; [reflexivity|]. simpl. split; [done|].
      split; [|done]. unfold Evaluator.cur. simpl.
      rewrite list_lookup_insert_ne by lia. by rewrite Hlow.
    + unfold Evaluator.push_Feature in Hpush.
      apply bind_Ok in Hpush as (tp & Htp & Hpush).
      apply bind_Ok in Hpush as (dm0 & _ & Hpush).
      apply bind_Ok in Hpush as ([[itr out'] dm] & _ & Hpush).
      apply bind_Ok in Hpush as ([] & _ & Hpush).
      apply bind_Ok in Hpush as (s1 & Hs1 & Hpush).
      simplify_eq. by apply pop_after_pushTape in Hs1.
  - intros fuel p s' Hpush. unfold Evaluator.specialize in Hpush.
    apply bind_Ok in Hpush as ([x s1] & Hs1 & Hpush).
    apply bind_Ok in Hpush as (tp & Htp & Hpush).
    apply bind_Ok in Hpush as (dm0 & _ & Hpush).
    apply bind_Ok in Hpush as (dm & _ & Hpush).
    destruct (eval_writes_f _ _ _ _ _ Hs1) as [m Hm].
    assert (Evaluator.cur s = Ok tp) as Hcur by (by rewrite Hm in Htp).
    pose proof (eval_rows _ _ _ _ _ _ Hcur Hs1) as Hrows.
    subst s1.
    apply pop_after_pushTape in Hpush
      as (s'' & Hpop & Ht & Hc & Hr & Hv & HX & HY & HZ).
    simpl in Hr, Hv, HX, HY, HZ.
    change (Evaluator.cur s'' = Evaluator.cur s) in Hc.
    exists s''. do 3 (split; [done|]). split; [by exists m|].
    assert (Result.i (Evaluator.result s'')
            = Result.i (Evaluator.result s)) as Hi by (by rewrite Hr).
    split; [by apply (eval_interval_with_f p p)|].
    split; [intros lower upper; by apply eval_interval_with_f|].
    intros Hord fuel' p'. specialize (Hord tp Hcur).
    assert (Agree.evaluator
              (fun k => (k ∉ Clause.id <$> Tape.t tp)
                        /\ k <> Evaluator.X s /\ k <> Evaluator.Y s
                        /\ k <> Evaluator.Z s) s s'') as HA.
    { do 5 (split; [done|]). rewrite Hr. split; [exact Hrows|].
      simpl. by destruct (Evaluator.result s). }
    split; symmetry.
    + by apply (eval_agree fuel' p' tp).
    + by apply (gradient_agree fuel' p' tp).
Qed.

End PushPopMain.

Lemma max_min_ordered : WF.evaluation_order Examples.max_min.
Proof.
  intros tp Htp. injection Htp as <-. simpl. unfold WF.input. simpl.
  split; [left; left; right; reflexivity|].
  split; [left; right; reflexivity|].
  split; [right; reflexivity|].
  split; [left; right; reflexivity|]. exact I.
Defined.

Lemma push_pop_witness :
  (exists s' s'',
     Evaluator.push Examples.max_min_boxed = Ok s'
     /\ Evaluator.pop s' = Ok s''
     /\ Evaluator.cur s'' = Evaluator.cur Examples.max_min_boxed
     /\ Evaluator.result s'' = Evaluator.result Examples.max_min_boxed)
  /\ (exists s' s'',
        Evaluator.specialize 1 Examples.p123 Examples.max_min = Ok s'
        /\ Evaluator.pop s' = Ok s''
        /\ WF.evaluation_order Examples.max_min
        /\ Observe.eval 1 Examples.origin s''
           = Observe.eval 1 Examples.origin Examples.max_min
        /\ Observe.gradient 1 Examples.origin s''
           = Observe.gradient 1 Examples.origin Examples.max_min).
Proof.
  split.
  - destruct (push_total Examples.max_min_boxed max_min_boxed_ok)
      as [s' Hs'].
    destruct (proj1 (push_pop_restores Examples.max_min_boxed) s'
                (or_introl Hs')) as (s'' & Hpop & _ & Hcur & Hres & _).
    by exists s', s''.
  - assert (is_Ok (Evaluator.specialize 1 Examples.p123 Examples.max_min))
      as [s' Hs'] by (vm_compute; by eexists).
    destruct (proj2 (push_pop_restores Examples.max_min)
                1%nat Examples.p123 s' Hs')
      as (s'' & Hpop & _ & _ & _ & _ & _ & Heval).
    exists s', s''. do 2 (split; [done|]).
    split; [exact max_min_ordered|].
    exact (Heval max_min_ordered 1%nat Examples.origin).
Defined.

(** C3, as stated, fails for [specialize]: with the origin loaded,
    [values(1)] returns 0; after [specialize((1,2,3))] and [pop()] it
    returns 3 on the same tape. *)
Lemma specialize_pop_changes_values :
  exists s' s'',
    Evaluator.specialize 1 Examples.p123 Examples.max_min = Ok s'
    /\ Evaluator.pop s' = Ok s''
    /\ Evaluator.cur s'' = Evaluator.cur Examples.max_min
    /\ Observe.values 1 1 Examples.max_min = Ok [F32.zero]
    /\ Observe.values 1 1 s'' = Ok [F32.of_Z 3].
Proof.
  eexists _, _. split; [vm_compute; reflexivity|].
  split; [vm_compute; reflexivity|].
  split; [reflexivity|]. split; vm_compute; reflexivity.
Qed.

(** ** The MOD case of [values] (C4) *)

Section ModKernel.
Context {num : Numeric}.

Lemma added_S (av bv : float) (k : nat) :
  Mod.added av bv (S k) = F32.add (Mod.added av bv k) bv.
Proof. done. Qed.

(** The loop, started after [i] additions, stops after [k >= i]. *)
Lemma mod_while_stops (fuel : nat) (av bv : float) (i k : nat) :
  (i <= k)%nat -> (k - i < fuel)%nat ->
  F32.lt (Mod.added av bv k) F32.zero = false ->
  (forall j, (i <= j < k)%nat -> F32.lt (Mod.added av bv j) F32.zero = true) ->
  Evaluator.mod_while fuel false (Mod.added av bv i) bv
  = Ok (Mod.added av bv k).
Proof.
  revert i. induction fuel as [|fuel IH]; intros i Hik Hfuel Hk Hlt; [lia|].
  simpl. destruct (decide (i = k)) as [->|Hne].
  - by rewrite Hk.
  - rewrite Hlt by lia. rewrite <- added_S. apply IH; [lia|lia|done|].
    intros j Hj. apply Hlt. lia.
Qed.

Lemma mod_while_Ok (fuel : nat) (av bv r : float) (i : nat) :
  Evaluator.mod_while fuel false (Mod.added av bv i) bv = Ok r ->
  exists k, (i <= k)%nat /\ (k - i < fuel)%nat /\ r = Mod.added av bv k
    /\ F32.lt (Mod.added av bv k) F32.zero = false
    /\ forall j, (i <= j < k)%nat ->
         F32.lt (Mod.added av bv j) F32.zero = true.
Proof.
  revert i. induction fuel as [|fuel IH]; intros i Hw; [done|].
  simpl in Hw.
  destruct (F32.lt (Mod.added av bv i) F32.zero) eqn:Hlt.
  - rewrite <- added_S in Hw.
    destruct (IH _ Hw) as (k & Hik & Hfuel & -> & Hk & Hbelow).
    exists k. repeat split; [lia|lia|done|].
    intros j Hj. destruct (decide (j = i)) as [->|Hne]; [done|].
    apply Hbelow. lia.
  - injection Hw as <-. exists i. repeat split; [lia|lia|done|].
    intros j Hj. lia.
Qed.

(** One coefficient: the kernel returns exactly when some number of
    additions below [fuel] stops the loop, and then it returns
    [fmod(a, b)] with [b] added that many times. *)
Lemma mod_coeff_spec (fuel : nat) (av bv r : float) :
  Evaluator.mod_coeff fuel false av bv = Ok r <->
  exists k, (k < fuel)%nat /\ Mod.stops_at av bv k /\ r = Mod.added av bv k.
Proof.
  unfold Evaluator.mod_coeff, Mod.stops_at. split.
  - intros Hw. apply (mod_while_Ok fuel av bv r 0) in Hw
      as (k & _ & Hfuel & -> & Hk & Hbelow).
    exists k. repeat split; [lia|done|].
    intros i Hi. apply Hbelow. lia.
  - intros (k & Hfuel & [Hk Hbelow] & ->).
    apply (mod_while_stops fuel av bv 0 k); [lia|lia|done|].
    intros j Hj. apply Hbelow. lia.
Qed.

Lemma stops_at_unique (av bv : float) (k1 k2 : nat) :
  Mod.stops_at av bv k1 -> Mod.stops_at av bv k2 -> k1 = k2.
Proof.
  intros [H1 L1] [H2 L2].
  destruct (Nat.lt_trichotomy k1 k2) as [Hlt|[->|Hlt]]; [|done|].
  - rewrite (L2 k1 Hlt) in H1. done.
  - rewrite (L1 k2 Hlt) in H2. done.
Qed.

End ModKernel.

Section ModClause.
Context {num : Numeric}.

Lemma head_Ok (m : list (list float)) (slot count : N) (v : list float) :
  Evaluator.head m slot count = Ok v <->
  exists row, m !! N.to_nat slot = Some row
    /\ (N.to_nat count <= length row)%nat
    /\ v = take (N.to_nat count) row.
Proof.
  unfold Evaluator.head. split.
  - intros Hh. apply bind_Ok in Hh as (row & Hrow & Hh). apply at_Ok in Hrow.
    destruct (decide _); [|done]. injection Hh as <-. by exists row.
  - intros (row & Hrow & Hlen & ->). apply bind_Ok. exists row.
    split; [by apply at_Ok|]. by rewrite decide_True.
Qed.

Lemma set_head_Ok (m m' : list (list float)) (slot count : N)
    (v : list float) :
  Evaluator.set_head m slot count v = Ok m' <->
  exists row, m !! N.to_nat slot = Some row
    /\ (N.to_nat count <= length row)%nat
    /\ m' = <[N.to_nat slot := v ++ drop (N.to_nat count) row]> m.
Proof.
  unfold Evaluator.set_head. split.
  - intros Hh. apply bind_Ok in Hh as (row & Hrow & Hh). apply at_Ok in Hrow.
    destruct (decide _); [|done]. apply store_Ok in Hh as [_ ->].
    by exists row.
  - intros (row & Hrow & Hlen & ->). apply bind_Ok. exists row.
    split; [by apply at_Ok|]. rewrite decide_True by done.
    apply store_Ok. split; [by eapply lookup_lt_Some|done].
Qed.

(** C4 (amended).  Take a MOD clause that does not write the row of its
    own modulus (no clause of a tape in evaluation order does), with rows
    [av] and [bv] of operand values on the leading [count] columns.  The
    kernel returns exactly when, in every column, some number [k] of
    additions of [b] (below the iteration budget) first makes
    [fmod(a, b)] not negative; the value it then stores in that column is
    [fmod(a, b)] with [b] added [k] times. *)
Theorem mod_clause_adds_until_not_negative (fuel : nat) (count : N)
    (c : Clause.Clause) (r : Result.Result) (av bv row : list float) :
  Clause.op c = Opcode.MOD ->
  Clause.id c <> Clause.b c ->
  Evaluator.head (Result.f r) (Clause.a c) count = Ok av ->
  Evaluator.head (Result.f r) (Clause.b c) count = Ok bv ->
  Evaluator.head (Result.f r) (Clause.id c) count = Ok row ->
  ((exists r', Evaluator.values_clause fuel count c r = Ok r') <->
   (forall j x y, av !! j = Some x -> bv !! j = Some y ->
      exists k, (k < fuel)%nat /\ Mod.stops_at x y k))
  /\ forall r', Evaluator.values_clause fuel count c r = Ok r' ->
       forall j x y, av !! j = Some x -> bv !! j = Some y ->
         exists k, Mod.stops_at x y k
           /\ Result.coeff (Result.f r') (Clause.id c) (N.of_nat j)
              = Ok (Mod.added x y k).
Proof.
  intros Hop Hne Hav Hbv Hrow.
  unfold Evaluator.values_clause, Evaluator.rd, Evaluator.wr.
  rewrite Hop. simpl. rewrite Hav, Hbv. simpl.
  rewrite bool_decide_false by done.
  apply head_Ok in Hrow as (orow & Horow & Hlen & _).
  assert (Hlav : length av = N.to_nat count).
  { apply head_Ok in Hav as (? & _ & ? & ->). rewrite length_take. lia. }
  assert (Hlbv : length bv = N.to_nat count).
  { apply head_Ok in Hbv as (? & _ & ? & ->). rewrite length_take. lia. }
  assert (Hwr : forall v,
            Evaluator.set_head (Result.f r) (Clause.id c) count v
            = Ok (<[N.to_nat (Clause.id c) :=
                      v ++ drop (N.to_nat count) orow]> (Result.f r))).
  { intros v. apply set_head_Ok. by exists orow. }
  split; [split|].
  - intros (r' & Hr') j x y Hx Hy.
    apply bind_Ok in Hr' as (v & Hv & _).
    apply mapM_res_Ok in Hv.
    destruct (Forall2_lookup_l _ _ _ j (x, y) Hv) as (o & _ & Ho).
    { apply lookup_zip_with_Some. by exists x, y. }
    simpl in Ho. apply mod_coeff_spec in Ho as (k & Hk & Hstop & _).
    by exists k.
  - intros Hstop.
    assert (Hv : exists v,
              mapM_res (fun p => Evaluator.mod_coeff fuel false p.1 p.2)
                       (zip av bv) = Ok v).
    { assert (Hall : Forall (fun p => exists k, (k < fuel)%nat
                                        /\ Mod.stops_at p.1 p.2 k)
                            (zip av bv)).
      { apply Forall_lookup. intros j [x y] Hj.
        apply lookup_zip_with_Some in Hj as (x' & y' & [= <- <-] & Hx & Hy).
        by eapply Hstop. }
      induction Hall as [|[x y] l (k & Hk & Hs) _ IH]; simpl; [by eexists|].
      assert (Evaluator.mod_coeff fuel false x y = Ok (Mod.added x y k))
        as -> by (apply mod_coeff_spec; by exists k).
      simpl. destruct IH as [v ->]. simpl. by eexists. }
    destruct Hv as [v ->]. simpl. rewrite Hwr. simpl. by eexists.
  - intros r' Hr' j x y Hx Hy.
    apply bind_Ok in Hr' as (v & Hv & Hr').
    rewrite Hwr in Hr'. simpl in Hr'. injection Hr' as <-.
    apply mapM_res_Ok in Hv.
    destruct (Forall2_lookup_l _ _ _ j (x, y) Hv) as (o & Hvo & Ho).
    { apply lookup_zip_with_Some. by exists x, y. }
    simpl in Ho. apply mod_coeff_spec in Ho as (k & _ & Hstop & ->).
    exists k. split; [done|].
    unfold Result.coeff, at_. simpl.
    rewrite list_lookup_insert_eq by (by eapply lookup_lt_Some). simpl.
    rewrite Nat2N.id, lookup_app_l by (by eapply lookup_lt_Some).
    by rewrite Hvo.
Qed.

End ModClause.

(** On [mod(x, y)] with x = -7 and y = 3, [fmod] gives -1 and one
    addition of 3 gives 2. *)
Lemma mod_clause_witness :
  exists r',
    Evaluator.values_clause 2 1 (Clause.mk Opcode.MOD 1 3 2)
      (Evaluator.result Examples.mod_minus7_3) = Ok r'
    /\ Mod.stops_at (F32.of_Z (-7)) (F32.of_Z 3) 1
    /\ Result.coeff (Result.f r') 1 0 = Ok (F32.of_Z 2).
Proof.
  destruct (mod_clause_adds_until_not_negative 2 1
              (Clause.mk Opcode.MOD 1 3 2)
              (Evaluator.result Examples.mod_minus7_3)
              [F32.of_Z (-7)] [F32.of_Z 3] [F32.zero]
              eq_refl ltac:(discriminate) eq_refl eq_refl eq_refl)
    as [Hiff Hval].
  assert (Mod.stops_at (F32.of_Z (-7)) (F32.of_Z 3) 1) as Hstop.
  { split; [reflexivity|]. intros i Hi.
    assert (i = 0%nat) as -> by lia. reflexivity. }
  destruct (proj2 Hiff) as [r' Hr'].
  { intros j x y Hx Hy. apply list_lookup_singleton_Some in Hx as [-> <-].
    injection Hy as <-. exists 1%nat. split; [lia|exact Hstop]. }
  exists r'. split; [exact Hr'|]. split; [exact Hstop|].
  destruct (Hval r' Hr' 0%nat (F32.of_Z (-7)) (F32.of_Z 3) eq_refl eq_refl)
    as (k & [Hk Hmin] & Hc).
  assert (k = 1%nat) as ->.
  { destruct k as [|[|k]]; [discriminate Hk|reflexivity|].
    specialize (Hmin 1%nat ltac:(lia)). discriminate Hmin. }
  exact Hc.
Defined.

(** C4, as stated, fails when the modulus is negative.  For a = 1,
    b = -3 the kernel returns 1, where the floored modulus is -2; for
    a = -2^127, b = -FLT_MAX the first addition overflows to -infinity
    and no number of iterations ends the loop. *)
Lemma mod_negative_modulus :
  (Observe.values 1 1 Examples.mod_xy = Ok [F32.of_Z 1]
   /\ F32.of_Z (1 mod (-3)) = F32.of_Z (-2)
   /\ F32.of_Z 1 <> F32.of_Z (-2))
  /\ ~ exists fuel out, Observe.values fuel 2 Examples.mod_xy = Ok out.
Proof.
  split; [split; [vm_compute; reflexivity|split; [reflexivity|discriminate]]|].
  intros (fuel & out & Hout).
  set (x := S754_finite true (2 ^ 23) 104).
  set (y := S754_finite true (2 ^ 24 - 1) 104).
  assert (Hinf : forall k, Mod.added x y (S k) = S754_infinity true).
  { induction k as [|k IH]; [vm_compute; reflexivity|].
    rewrite added_S, IH. reflexivity. }
  assert (Hneg : forall k, F32.lt (Mod.added x y k) F32.zero = true).
  { intros [|k]; [vm_compute; reflexivity|]. by rewrite Hinf. }
  unfold Observe.values in Hout.
  apply bind_Ok in Hout as ([row s'] & Hv & _).
  unfold Evaluator.values in Hv.
  apply bind_Ok in Hv as (tp & Htp & Hv).
  vm_compute in Htp. injection Htp as <-.
  apply bind_Ok in Hv as (r & Hr & _).
  change (foldlM (fun r c => Evaluator.values_clause fuel 2 c r)
            [Clause.mk Opcode.MOD 1 3 2]
            (Evaluator.result Examples.mod_xy) = Ok r) in Hr.
  unfold foldlM in Hr. apply bind_Ok in Hr as (r1 & Hr1 & _).
  unfold Evaluator.values_clause in Hr1.
  change (Clause.op (Clause.mk Opcode.MOD 1 3 2)) with Opcode.MOD in Hr1.
  apply bind_Ok in Hr1 as (av & Hav & Hr1).
  apply bind_Ok in Hr1 as (bv & Hbv & Hr1).
  apply bind_Ok in Hr1 as (v & Hv & _).
  vm_compute in Hav. injection Hav as <-.
  vm_compute in Hbv. injection Hbv as <-.
  apply mapM_res_Ok in Hv.
  destruct (Forall2_lookup_l _ _ _ 1%nat (x, y) Hv) as (o & _ & Ho);
    [reflexivity|].
  apply mod_coeff_spec in Ho as (k & _ & [Hk _] & _).
  simpl in Hk. rewrite Hneg in Hk. discriminate.
Qed.

(** ** [baseEval] (C5) *)

Section BaseEval.
Context {num : Numeric}.

Lemma baseEval_walk_spec (ts : list Tape.Tape) (p : Vector3f) (n : nat) :
  (n < length ts)%nat ->
  exists k,
    Evaluator.baseEval_walk ts n p = Ok k
    /\ (k <= n)%nat
    /\ (k = 0%nat
        \/ exists tp, ts !! k = Some tp /\ Evaluator.contains tp p = true)
    /\ forall j tp, (k < j <= n)%nat -> ts !! j = Some tp ->
         Evaluator.contains tp p = false.
Proof.
  induction n as [|n IH]; intros Hn.
  - exists 0%nat. repeat split; [lia|by left|]. intros j tp Hj. lia.
  - cbn [Evaluator.baseEval_walk].
    destruct (lookup_lt_is_Some_2 ts (S n) Hn) as [tp Htp]. rewrite Htp.
    destruct (Evaluator.contains tp p) eqn:Hin.
    + exists (S n). repeat split; [lia|right; by exists tp|].
      intros j tp' Hj. lia.
    + destruct IH as (k & Hk & Hle & Hsel & Hskip); [lia|].
      exists k. repeat split; [done|lia|done|].
      intros j tp' Hj Hlook.
      destruct (decide (j = S n)) as [->|Hne]; [congruence|].
      eapply Hskip; [|done]. lia.
Qed.

(** The test of the loop of [baseEval] holds exactly of the INTERVAL
    tapes whose box contains the point. *)
Lemma contains_in_box (tp : Tape.Tape) (p : Vector3f) :
  Evaluator.contains tp p = true <-> WF.in_box tp p.
Proof.
  unfold Evaluator.contains, WF.in_box, F32.ge, F32.le.
  rewrite !andb_true_iff, bool_decide_eq_true. tauto.
Qed.

(** C5.  [baseEval(p)] evaluates at [p] with the cursor on tape [k],
    where [k] is the first position met on the way from the current tape
    towards the base whose tape is tagged INTERVAL and has [p] in its
    stored box (bounds included), and the base tape (position 0) when
    there is none: every tape between [k] and the cursor fails that
    test.  Whatever it returns, the cursor is back where it was. *)
Theorem baseEval_uses_nearest_interval_tape (fuel : nat) (p : Vector3f)
    (s : Evaluator.Evaluator) :
  (Evaluator.tape s < length (Evaluator.tapes s))%nat ->
  exists k,
    (k <= Evaluator.tape s)%nat
    /\ (k = 0%nat
        \/ exists tp, Evaluator.tapes s !! k = Some tp /\ WF.in_box tp p)
    /\ (forall j tp, (k < j <= Evaluator.tape s)%nat ->
          Evaluator.tapes s !! j = Some tp -> ~ WF.in_box tp p)
    /\ Evaluator.baseEval fuel p s
       = ('(out, s1) ← Evaluator.eval fuel p (Evaluator.with_tape k s);
          Ok (out, Evaluator.with_tape (Evaluator.tape s) s1))
    /\ forall out s', Evaluator.baseEval fuel p s = Ok (out, s') ->
         Evaluator.tape s' = Evaluator.tape s.
Proof.
  intros Hcur.
  destruct (baseEval_walk_spec (Evaluator.tapes s) p (Evaluator.tape s) Hcur)
    as (k & Hk & Hle & Hsel & Hskip).
  exists k. split; [done|]. split; [|split].
  - destruct Hsel as [->|(tp & Htp & Hin)]; [by left|right].
    exists tp. split; [done|]. by apply contains_in_box.
  - intros j tp Hj Htp Hin. apply contains_in_box in Hin.
    by rewrite (Hskip j tp Hj Htp) in Hin.
  - unfold Evaluator.baseEval. rewrite Hk. simpl. split; [done|].
    intros out s' Hret.
    apply bind_Ok in Hret as ([out1 s1] & _ & Hret). by simplify_eq.
Qed.

End BaseEval.

(** On [Examples.stacked] the current tape, reduced against the point
    (1, 2, 3), does not contain the origin; the INTERVAL tape below it,
    reduced against [0,4]^3, does: [baseEval] evaluates there. *)
Lemma baseEval_witness :
  exists tp,
    Evaluator.tapes Examples.stacked !! 1%nat = Some tp
    /\ WF.in_box tp Examples.origin
    /\ Evaluator.baseEval 1 Examples.origin Examples.stacked
       = ('(out, s1) ← Evaluator.eval 1 Examples.origin
                          (Evaluator.with_tape 1 Examples.stacked);
          Ok (out, Evaluator.with_tape 2 s1)).
Proof.
  destruct (baseEval_uses_nearest_interval_tape 1 Examples.origin
              Examples.stacked) as (k & Hle & Hsel & Hskip & Heq & _).
  - simpl. lia.
  - assert (k = 1%nat) as ->.
    { destruct Hsel as [->|(tp & Htp & Hin)].
      - exfalso. eapply (Hskip 1%nat); [simpl; lia|reflexivity|].
        repeat split; reflexivity.
      - destruct k as [|[|[|k]]].
        + injection Htp as <-. destruct Hin as [Hty _]. discriminate Hty.
        + reflexivity.
        + injection Htp as <-. destruct Hin as (_ & H & _).
          vm_compute in H. discriminate H.
        + simpl in Hle. lia. }
    destruct Hsel as [|(tp & Htp & Hin)]; [discriminate|].
    exists tp. split; [exact Htp|]. split; [exact Hin|exact Heq].
Defined.

(** On [Examples.stacked] both INTERVAL tapes contain (1, 2, 3); the walk
    stops at the current one. *)
Example baseEval_walk_stacked :
  Evaluator.baseEval_walk (Evaluator.tapes Examples.stacked) 2 Examples.p123
  = Ok 2%nat.
Proof. reflexivity. Qed.

(** ** [isInside] on the boundary (C6) *)

Section IsInside.
Context {num : Numeric} {api : Feature.API}.

Lemma eq_zero_not_lt (v : float) :
  F32.eq v F32.zero = true ->
  F32.lt v F32.zero = false /\ F32.gt v F32.zero = false.
Proof. destruct v as [s|s| |s m e]; try destruct s; done. Qed.

(** C6.  Let the value at [p] be exactly zero and the current tape have no
    tie among its min and max clauses at [p].  Then [isInside(p)] returns,
    and returns [true] if and only if the gradient at [p] is not zero,
    that is, unless [dx == 0], [dy == 0] and [dz == 0]. *)
Theorem isInside_on_unambiguous_boundary (fuel : nat) (p : Vector3f)
    (s s1 s2 : Evaluator.Evaluator) (ds : N) (v : float) :
  Evaluator.set p 0 s = Ok s1 ->
  Evaluator.derivs fuel 1 s1 = Ok (ds, s2) ->
  Result.coeff (Result.f (Evaluator.result s2)) ds 0 = Ok v ->
  F32.eq v F32.zero = true ->
  Evaluator.isAmbiguous s2 = Ok false ->
  exists (inside : bool) (ddx ddy ddz : float),
    Evaluator.isInside fuel p s = Ok (inside, s2)
    /\ Result.coeff (Result.dx (Evaluator.result s2)) ds 0 = Ok ddx
    /\ Result.coeff (Result.dy (Evaluator.result s2)) ds 0 = Ok ddy
    /\ Result.coeff (Result.dz (Evaluator.result s2)) ds 0 = Ok ddz
    /\ (inside = true <->
        ~ (F32.eq ddx F32.zero = true /\ F32.eq ddy F32.zero = true
           /\ F32.eq ddz F32.zero = true)).
Proof.
  intros Hset Hderivs Hv Hzero Hamb.
  destruct (eq_zero_not_lt v Hzero) as [Hlt Hgt].
  assert (exists ddx ddy ddz,
            Result.coeff (Result.dx (Evaluator.result s2)) ds 0 = Ok ddx
            /\ Result.coeff (Result.dy (Evaluator.result s2)) ds 0 = Ok ddy
            /\ Result.coeff (Result.dz (Evaluator.result s2)) ds 0 = Ok ddz)
    as (ddx & ddy & ddz & Hdx & Hdy & Hdz).
  { unfold Evaluator.derivs in Hderivs.
    apply bind_Ok in Hderivs as ([row sv] & _ & Hd).
    apply bind_Ok in Hd as (tp & _ & Hd).
    apply bind_Ok in Hd as (r & _ & Hd).
    apply bind_Ok in Hd as (x0 & _ & Hd).
    apply bind_Ok in Hd as (x1 & H1 & Hd).
    apply bind_Ok in Hd as (x2 & H2 & Hd).
    apply bind_Ok in Hd as (x3 & H3 & Hd).
    simplify_eq. by exists x1, x2, x3. }
  exists (F32.ne ddx F32.zero || F32.ne ddy F32.zero || F32.ne ddz F32.zero),
         ddx, ddy, ddz.
  split; [|do 3 (split; [done|])].
  - unfold Evaluator.isInside. rewrite Hset. simpl. rewrite Hderivs. simpl.
    rewrite Hv. simpl. rewrite Hlt, Hgt, Hamb. simpl.
    by rewrite Hdx, Hdy, Hdz.
  - unfold F32.ne, F32.eq.
    destruct (SFeqb ddx F32.zero), (SFeqb ddy F32.zero),
             (SFeqb ddz F32.zero); simpl;
      (split; [intros Ht (H1 & H2 & H3); congruence
              | intros Hn; try reflexivity; exfalso; apply Hn; repeat split]).
Qed.

End IsInside.

Lemma isInside_witness :
  exists s2,
    Evaluator.isInside 1 Examples.origin Examples.x_plus_y = Ok (true, s2).
Proof.
  edestruct (isInside_on_unambiguous_boundary 1 Examples.origin
               Examples.x_plus_y)
    as (inside & ddx & ddy & ddz & Hin & Hdx & _ & _ & Hiff).
  - reflexivity.
  - reflexivity.
  - reflexivity.
  - reflexivity.
  - reflexivity.
  - eexists. rewrite Hin. f_equal. f_equal. apply Hiff.
    vm_compute in Hdx. injection Hdx as <-.
    intros (Hz & _). vm_compute in Hz. discriminate Hz.
Defined.

(** ** [featuresAt]: the cursor (C10) and the returned list (C7) *)

Section FeaturesAt.
Context {num : Numeric} {api : Feature.API}.

Lemma pop_Ok (s s' : Evaluator.Evaluator) :
  Evaluator.pop s = Ok s' <->
  Evaluator.tape s <> 0%nat
  /\ s' = Evaluator.with_tape (Nat.pred (Evaluator.tape s)) s.
Proof.
  unfold Evaluator.pop. split.
  - intros Hp. apply bind_Ok in Hp as ([] & Ha & Hp).
    apply assert_Ok, bool_decide_eq_true in Ha. by simplify_eq.
  - intros [Hne ->]. by rewrite bool_decide_true.
Qed.

Lemma push_Feature_cursor (f f_ : Feature) (s s1 : Evaluator.Evaluator) :
  Evaluator.push_Feature f s = Ok (f_, s1) ->
  Evaluator.tape s1 = S (Evaluator.tape s).
Proof.
  intros Hpush.
  destruct (pushed_reduced s s1 (WF.pushed_feature s s1 f f_ Hpush))
    as (_ & _ & _ & _ & Ht & _). exact Ht.
Qed.

Lemma specialize_cursor (fuel : nat) (p : Vector3f)
    (s s1 : Evaluator.Evaluator) :
  Evaluator.specialize fuel p s = Ok s1 ->
  Evaluator.tape s1 = S (Evaluator.tape s).
Proof.
  intros Hpush.
  destruct (pushed_reduced s s1 (WF.pushed_specialized s s1 fuel p Hpush))
    as (_ & _ & _ & _ & Ht & _). exact Ht.
Qed.

(** One iteration of the worklist loop: the pop at its end undoes the
    push at its start. *)
Lemma featuresAt_iteration_balanced (fuel : nat) (f f_ : Feature) (ds : N)
    (s s1 s2 s3 : Evaluator.Evaluator) :
  Evaluator.push_Feature f s = Ok (f_, s1) ->
  Evaluator.derivs fuel 1 s1 = Ok (ds, s2) ->
  Evaluator.pop s2 = Ok s3 ->
  Evaluator.tape s3 = Evaluator.tape s.
Proof.
  intros Hpush Hd Hpop. apply push_Feature_cursor in Hpush.
  apply derivs_frame in Hd as [r ->].
  apply pop_Ok in Hpop as [_ ->]. simpl. by rewrite Hpush.
Qed.

Lemma featuresAt_loop_cursor (n fuel : nat) (todo done done' : list Feature)
    (seen : list (list Feature.Choice)) (s s' : Evaluator.Evaluator) :
  Evaluator.featuresAt_loop n fuel todo done seen s = Ok (done', s') ->
  Evaluator.tape s' = Evaluator.tape s.
Proof.
  revert todo done seen s.
  induction n as [|n IH]; intros todo done seen s Hloop;
    destruct todo as [|f todo]; simpl in Hloop; try by simplify_eq.
  apply bind_Ok in Hloop as ([f_ s1] & Hpush & Hloop).
  apply bind_Ok in Hloop as ([ds s2] & Hd & Hloop).
  apply bind_Ok in Hloop as (tp & _ & Hloop).
  apply bind_Ok in Hloop as ([amb todo''] & _ & Hloop).
  apply bind_Ok in Hloop as ([done1 seen1] & _ & Hloop).
  apply bind_Ok in Hloop as (s3 & Hpop & Hloop).
  apply IH in Hloop. rewrite Hloop.
  by eapply featuresAt_iteration_balanced.
Qed.

(** C10.  Every iteration of the worklist loop of [featuresAt] ends with
    the cursor where the iteration found it, and when [featuresAt(p)]
    returns the cursor is where it was before the call. *)
Theorem featuresAt_restores_cursor (fuel : nat) (p : Vector3f)
    (s s' : Evaluator.Evaluator) (fs : list Feature) :
  Evaluator.featuresAt fuel p s = Ok (fs, s') ->
  Evaluator.tape s' = Evaluator.tape s
  /\ forall f f_ ds t t1 t2 t3,
       Evaluator.push_Feature f t = Ok (f_, t1) ->
       Evaluator.derivs fuel 1 t1 = Ok (ds, t2) ->
       Evaluator.pop t2 = Ok t3 ->
       Evaluator.tape t3 = Evaluator.tape t.
Proof.
  intros Hf. split.
  - unfold Evaluator.featuresAt in Hf.
    apply bind_Ok in Hf as (s1 & Hspec & Hf).
    apply bind_Ok in Hf as ([done s2] & Hloop & Hf).
    apply bind_Ok in Hf as (s3 & Hpop & Hf).
    apply bind_Ok in Hf as ([] & _ & Hf). simplify_eq.
    apply specialize_cursor in Hspec.
    apply featuresAt_loop_cursor in Hloop.
    apply pop_Ok in Hpop as [_ ->]. simpl. by rewrite Hloop, Hspec.
  - intros f f_ ds t t1 t2 t3. apply featuresAt_iteration_balanced.
Qed.

Lemma featuresAt_loop_done (n fuel : nat) (todo done done' : list Feature)
    (seen : list (list Feature.Choice)) (s s' : Evaluator.Evaluator) :
  Evaluator.featuresAt_loop n fuel todo done seen s = Ok (done', s') ->
  WF.done_seen done seen ->
  (todo <> [] \/ done <> []) ->
  done' <> [] /\ NoDup (Feature.getChoices <$> done').
Proof.
  revert todo done seen s.
  induction n as [|n IH]; intros todo done seen s Hloop [Hnd Hseen] Hne;
    destruct todo as [|f todo]; simpl in Hloop; try discriminate.
  - simplify_eq. split; [by destruct Hne|done].
  - simplify_eq. split; [by destruct Hne|done].
  - apply bind_Ok in Hloop as ([f_ s1] & _ & Hloop).
    apply bind_Ok in Hloop as ([ds s2] & _ & Hloop).
    apply bind_Ok in Hloop as (tp & _ & Hloop).
    apply bind_Ok in Hloop as ([amb todo''] & Hscan & Hloop).
    apply bind_Ok in Hloop as ([done1 seen1] & Hdone & Hloop).
    apply bind_Ok in Hloop as (s3 & _ & Hloop).
    assert (Hinv : WF.done_seen done1 seen1
                   /\ (amb = false -> done1 <> [])
                   /\ (done <> [] -> done1 <> [])).
    { destruct amb.
      - simplify_eq. split; [by split|by split].
      - apply bind_Ok in Hdone as (ddx & _ & Hdone).
        apply bind_Ok in Hdone as (ddy & _ & Hdone).
        apply bind_Ok in Hdone as (ddz & _ & Hdone).
        destruct (bool_decide _) eqn:Hin.
        + simplify_eq. apply bool_decide_eq_true in Hin.
          split; [by split|]. split; [|done]. intros _ ->.
          apply Hseen in Hin. by apply elem_of_nil in Hin.
        + simplify_eq. apply bool_decide_eq_false in Hin.
          split; [split; [|intros cs; split]|split].
          * rewrite fmap_app. simpl. apply NoDup_app.
            split; [done|]. split; [|apply NoDup_singleton].
            intros cs Hcs Hcs'. apply list_elem_of_singleton in Hcs'.
            subst cs. apply Hin. by apply Hseen.
          * intros Hcs. rewrite fmap_app. apply elem_of_app.
            apply elem_of_cons in Hcs as [->|Hcs].
            -- right. by left.
            -- left. by apply Hseen.
          * intros Hcs. rewrite fmap_app in Hcs.
            apply elem_of_app in Hcs as [Hcs|Hcs].
            -- right. by apply Hseen.
            -- apply list_elem_of_singleton in Hcs. subst cs. by left.
          * intros _ Hnil. by apply app_eq_nil in Hnil as [_ ?].
          * intros _ Hnil. by apply app_eq_nil in Hnil as [_ ?]. }
    destruct Hinv as (Hinv & Hamb & Hkeep).
    eapply IH; [exact Hloop|exact Hinv|].
    destruct amb; [|right; by apply Hamb].
    left. intros ->.
    assert (Hpos : forall r f_ l todo0 todo1,
              Evaluator.featuresAt_scan r f_ l todo0 = Ok (true, todo1) ->
              todo1 <> []).
    { clear. intros r f_ l. induction l as [|c l IHl]; intros todo0 todo1 Hs;
        simpl in Hs; [done|].
      destruct (Evaluator.is_min_max _); [|by eapply IHl].
      destruct (decide _).
      { simplify_eq. intros Hnil. by apply app_eq_nil in Hnil as [_ ?]. }
      apply bind_Ok in Hs as (va & _ & Hs).
      apply bind_Ok in Hs as (vb & _ & Hs).
      destruct (F32.eq va vb); [|by eapply IHl].
      apply bind_Ok in Hs as (bx & _ & Hs).
      apply bind_Ok in Hs as (by_ & _ & Hs).
      apply bind_Ok in Hs as (bz & _ & Hs).
      apply bind_Ok in Hs as (ax & _ & Hs).
      apply bind_Ok in Hs as (ay & _ & Hs).
      apply bind_Ok in Hs as (az & _ & Hs).
      destruct (Feature.push _ _ f_) as [fa|];
        destruct (Feature.push _ _ f_) as [fb|]; simpl in Hs;
        try (simplify_eq; intros Hnil;
             by apply app_eq_nil in Hnil as [_ ?]).
      by eapply IHl. }
    by eapply Hpos.
Qed.

(** The list [featuresAt(p)] returns is not empty and no two of its
    features have the same list of choices; and once [specialize] and the
    worklist loop have returned, so does [featuresAt], with the list the
    loop has built. *)
Lemma featuresAt_result_nonempty (fuel : nat) (p : Vector3f)
    (s : Evaluator.Evaluator) :
  (forall fs s', Evaluator.featuresAt fuel p s = Ok (fs, s') ->
     fs <> [] /\ NoDup (Feature.getChoices <$> fs))
  /\ (forall s1 done s2,
        Evaluator.specialize fuel p s = Ok s1 ->
        Evaluator.featuresAt_loop fuel fuel [Feature.new] [] [] s1
        = Ok (done, s2) ->
        exists s3, Evaluator.featuresAt fuel p s = Ok (done, s3)).
Proof.
  split.
  - intros fs s' Hf. unfold Evaluator.featuresAt in Hf.
    apply bind_Ok in Hf as (s1 & _ & Hf).
    apply bind_Ok in Hf as ([done s2] & Hloop & Hf).
    apply bind_Ok in Hf as (s3 & _ & Hf).
    apply bind_Ok in Hf as ([] & _ & Hf). simplify_eq.
    eapply featuresAt_loop_done; [exact Hloop| |by left].
    split; [constructor|done].
  - intros s1 done s2 Hspec Hloop. unfold Evaluator.featuresAt.
    rewrite Hspec. simpl. rewrite Hloop. simpl.
    pose proof (specialize_cursor _ _ _ _ Hspec) as Hc1.
    pose proof (featuresAt_loop_cursor _ _ _ _ _ _ _ _ Hloop) as Hc2.
    destruct (featuresAt_loop_done _ _ _ _ _ _ _ _ Hloop) as [Hne _].
    { split; [constructor|done]. }
    { by left. }
    assert (Evaluator.pop s2
            = Ok (Evaluator.with_tape (Nat.pred (Evaluator.tape s2)) s2))
      as -> by (apply pop_Ok; split; [lia|done]).
    simpl. rewrite bool_decide_true; [by eexists|].
    destruct done; [done|simpl; lia].
Qed.

End FeaturesAt.

(** ** More iterations change no result *)

Lemma foldlM_impl {A B} (k k' : B -> A -> res B) (l : list A) (b b' : B) :
  (forall b x b', k b x = Ok b' -> k' b x = Ok b') ->
  foldlM k l b = Ok b' -> foldlM k' l b = Ok b'.
Proof.
  intros Hk. revert b. induction l as [|x l IH]; intros b H; simpl in *.
  - done.
  - apply bind_Ok in H as (b1 & Hb1 & H). rewrite (Hk _ _ _ Hb1). simpl.
    by apply IH.
Qed.

Lemma mapM_res_impl {A B} (k k' : A -> res B) (l : list A) (l' : list B) :
  (forall x y, k x = Ok y -> k' x = Ok y) ->
  mapM_res k l = Ok l' -> mapM_res k' l = Ok l'.
Proof.
  intros Hk H. apply mapM_res_Ok. apply mapM_res_Ok in H.
  eapply Forall2_impl; [exact H|]. exact Hk.
Qed.

Section Fuel.
Context {num : Numeric} {api : Feature.API}.

Lemma mod_while_mono (n n' : nat) (alias : bool) (out bv x : float) :
  Evaluator.mod_while n alias out bv = Ok x -> (n <= n')%nat ->
  Evaluator.mod_while n' alias out bv = Ok x.
Proof.
  revert n' out. induction n as [|n IH]; intros n' out H Hle; simpl in H.
  - done.
  - destruct n' as [|n']; [lia|]. simpl.
    destruct (F32.lt out F32.zero); [|done]. apply IH; [done|lia].
Qed.

Lemma values_clause_mono (n n' : nat) (count : N) (c : Clause.Clause)
    (r r' : Result.Result) :
  Evaluator.values_clause n count c r = Ok r' -> (n <= n')%nat ->
  Evaluator.values_clause n' count c r = Ok r'.
Proof.
  unfold Evaluator.values_clause. intros H Hle.
  destruct (Clause.op c); try exact H.
  apply bind_Ok in H as (av & Hav & H). rewrite Hav. simpl.
  apply bind_Ok in H as (bv & Hbv & H). rewrite Hbv. simpl.
  apply bind_Ok in H as (v & Hv & H).
  apply bind_Ok. exists v. split; [|exact H].
  eapply mapM_res_impl; [|exact Hv]. intros q y Hq.
  unfold Evaluator.mod_coeff in *. by eapply mod_while_mono.
Qed.

Lemma values_mono (n n' : nat) (count : N) (s : Evaluator.Evaluator)
    (out : N * Evaluator.Evaluator) :
  Evaluator.values n count s = Ok out -> (n <= n')%nat ->
  Evaluator.values n' count s = Ok out.
Proof.
  unfold Evaluator.values. intros H Hle.
  apply bind_Ok in H as (tp & Htp & H). rewrite Htp. simpl.
  apply bind_Ok in H as (r & Hr & H).
  rewrite (foldlM_impl _ (fun r c => Evaluator.values_clause n' count c r)
             _ _ r (fun b x b' Hb => values_clause_mono n n' _ _ _ _ Hb Hle)
             Hr).
  exact H.
Qed.

Lemma derivs_mono (n n' : nat) (count : N) (s : Evaluator.Evaluator)
    (out : N * Evaluator.Evaluator) :
  Evaluator.derivs n count s = Ok out -> (n <= n')%nat ->
  Evaluator.derivs n' count s = Ok out.
Proof.
  unfold Evaluator.derivs. intros H Hle.
  apply bind_Ok in H as (v & Hv & H).
  by rewrite (values_mono n n' _ _ _ Hv Hle).
Qed.

Lemma eval_mono (n n' : nat) (p : Vector3f) (s : Evaluator.Evaluator)
    (out : float * Evaluator.Evaluator) :
  Evaluator.eval n p s = Ok out -> (n <= n')%nat ->
  Evaluator.eval n' p s = Ok out.
Proof.
  unfold Evaluator.eval. intros H Hle.
  apply bind_Ok in H as (s1 & Hs1 & H). rewrite Hs1. simpl.
  apply bind_Ok in H as (v & Hv & H).
  by rewrite (values_mono n n' _ _ _ Hv Hle).
Qed.

Lemma specialize_mono (n n' : nat) (p : Vector3f)
    (s s' : Evaluator.Evaluator) :
  Evaluator.specialize n p s = Ok s' -> (n <= n')%nat ->
  Evaluator.specialize n' p s = Ok s'.
Proof.
  unfold Evaluator.specialize. intros H Hle.
  apply bind_Ok in H as (v & Hv & H).
  by rewrite (eval_mono n n' _ _ _ Hv Hle).
Qed.

Lemma featuresAt_loop_mono (n n' fuel fuel' : nat) (todo done : list Feature)
    (seen : list (list Feature.Choice)) (s : Evaluator.Evaluator)
    (out : list Feature * Evaluator.Evaluator) :
  Evaluator.featuresAt_loop n fuel todo done seen s = Ok out ->
  (n <= n')%nat -> (fuel <= fuel')%nat ->
  Evaluator.featuresAt_loop n' fuel' todo done seen s = Ok out.
Proof.
  intros H Hn Hfuel. revert n' todo done seen s H Hn.
  induction n as [|n IH]; intros n' todo dn seen s H Hn.
  { destruct todo; [by destruct n'|done]. }
  destruct todo as [|f todo]; [by destruct n'|].
  simpl in H. destruct n' as [|n']; [lia|]. simpl.
  apply bind_Ok in H as ([f_ s1] & Hp & H). rewrite Hp. simpl.
  apply bind_Ok in H as ([ds s2] & Hd & H).
  rewrite (derivs_mono fuel fuel' _ _ _ Hd Hfuel). simpl.
  apply bind_Ok in H as (tp & Htp & H). rewrite Htp. simpl.
  apply bind_Ok in H as ([amb todo'] & Hs & H). rewrite Hs. simpl.
  apply bind_Ok in H as ([done' seen'] & Hds & H). rewrite Hds. simpl.
  apply bind_Ok in H as (s3 & Hpop & H). rewrite Hpop. simpl.
  apply IH; [done|lia].
Qed.

(** What [featuresAt] returns does not depend on the number of
    iterations allowed, once it is enough. *)
Lemma featuresAt_mono (n n' : nat) (p : Vector3f) (s : Evaluator.Evaluator)
    (out : list Feature * Evaluator.Evaluator) :
  Evaluator.featuresAt n p s = Ok out -> (n <= n')%nat ->
  Evaluator.featuresAt n' p s = Ok out.
Proof.
  unfold Evaluator.featuresAt. intros H Hle.
  apply bind_Ok in H as (s1 & Hs1 & H).
  rewrite (specialize_mono n n' _ _ _ Hs1 Hle). simpl.
  apply bind_Ok in H as (v & Hv & H).
  by rewrite (featuresAt_loop_mono n n' n n' _ _ _ _ _ Hv Hle Hle).
Qed.

End Fuel.

Lemma featuresAt_cursor_witness :
  exists fs s',
    Evaluator.featuresAt 8 Examples.origin Examples.max_min = Ok (fs, s')
    /\ Evaluator.tape s' = 0%nat.
Proof.
  destruct (Evaluator.featuresAt 8 Examples.origin Examples.max_min)
    as [[fs s']|e] eqn:Hf; [|vm_compute in Hf; discriminate Hf].
  exists fs, s'. split; [reflexivity|].
  exact (proj1 (featuresAt_restores_cursor _ _ _ _ _ Hf)).
Defined.

(** On [max(min(x, y), z)] at the origin the enumeration returns three
    features: the choice lists [(1,0), (2,0)], [(1,1)] and [(1,0), (2,1)]. *)
Example featuresAt_max_min_origin :
  (fun r => map Feature.getChoices r.1)
    <$> (match Evaluator.featuresAt 8 Examples.origin Examples.max_min with
         | Ok r => Some r
         | Err _ => None
         end)
  = Some [[Feature.mk_choice 1 0; Feature.mk_choice 2 0];
          [Feature.mk_choice 1 1];
          [Feature.mk_choice 1 0; Feature.mk_choice 2 1]].
Proof. vm_compute. reflexivity. Qed.

(** [mod(x, y)] at (-2^127, -FLT_MAX, 0): after any number of additions
    the value is still negative. *)
Lemma overflow_never_stops (k : nat) :
  F32.lt (Mod.added (vx Examples.overflow) (vy Examples.overflow) k) F32.zero
  = true.
Proof.
  assert (Hinf : forall k, Mod.added (vx Examples.overflow)
                             (vy Examples.overflow) (S k)
                           = S754_infinity true).
  { clear. induction k as [|k IH]; [vm_compute; reflexivity|].
    rewrite added_S, IH. reflexivity. }
  destruct k as [|k]; [vm_compute; reflexivity|]. by rewrite Hinf.
Qed.

Lemma values_overflow (fuel : nat) :
  forall s0, Evaluator.set Examples.overflow 0 Examples.mod_xy = Ok s0 ->
  forall out, Evaluator.values fuel 1 s0 <> Ok out.
Proof.
  intros s0 Hs0 [row s'] Hv.
  vm_compute in Hs0. injection Hs0 as <-.
  unfold Evaluator.values in Hv.
  apply bind_Ok in Hv as (tp & Htp & Hv).
  vm_compute in Htp. injection Htp as <-.
  apply bind_Ok in Hv as (r & Hr & _).
  match type of Hr with
  | foldlM ?k _ ?r0 = _ =>
      change (foldlM k [Clause.mk Opcode.MOD 1 3 2] r0 = Ok r) in Hr
  end.
  unfold foldlM in Hr. apply bind_Ok in Hr as (r1 & Hr1 & _).
  unfold Evaluator.values_clause in Hr1.
  change (Clause.op (Clause.mk Opcode.MOD 1 3 2)) with Opcode.MOD in Hr1.
  apply bind_Ok in Hr1 as (av & Hav & Hr1).
  apply bind_Ok in Hr1 as (bv & Hbv & Hr1).
  apply bind_Ok in Hr1 as (v & Hv & _).
  vm_compute in Hav. injection Hav as <-.
  vm_compute in Hbv. injection Hbv as <-.
  apply mapM_res_Ok in Hv.
  destruct (Forall2_lookup_l _ _ _ 0%nat
              (vx Examples.overflow, vy Examples.overflow) Hv)
    as (o & _ & Ho); [reflexivity|].
  apply mod_coeff_spec in Ho as (k & _ & [Hk _] & _).
  simpl in Hk. rewrite overflow_never_stops in Hk. discriminate.
Qed.


(** * Further properties of the evaluator *)

(** ** The chase through [remap] in [pushTape] *)

Lemma reaches_walk (m : list N) (r r' : N) :
  WF.reaches m r r' -> exists p, WF.walk m r p r'.
Proof.
  induction 1 as [r Hr|r r1 r' Hr Hne _ [p Hp]].
  - exists [r]. by constructor.
  - exists (r :: p). by econstructor.
Qed.

(** X1.  The loop [for (r = r0; remap[r]; r = remap[r]);] of [pushTape]
    returns [r'] exactly when following [remap] from [r0] leads to [r']
    and [remap[r']] is 0; a chain that runs into a cycle or leaves the
    table returns nothing.  Chasing from the slot returned gives that
    slot again. *)
Theorem fixpoint_follows_remap (m : list N) (r r' : N) :
  (Evaluator.fixpoint m r = Ok r' <-> WF.reaches m r r')
  /\ (Evaluator.fixpoint m r = Ok r' ->
      m !! N.to_nat r' = Some 0%N /\ Evaluator.fixpoint m r' = Ok r').
Proof.
  assert (WF.reaches m r r' -> Evaluator.fixpoint m r = Ok r') as Hback.
  { intros [p Hp]%reaches_walk. unfold Evaluator.fixpoint.
    eapply chase_mono; [by apply walk_chase|by eapply walk_length]. }
  split; [split; [apply chase_reaches|exact Hback]|].
  intros H. apply chase_reaches, reaches_fixed in H as Hz. split; [done|].
  unfold Evaluator.fixpoint.
  destruct (length m) as [|n] eqn:Hn.
  - apply lookup_lt_Some in Hz. lia.
  - simpl. unfold at_. rewrite Hz. simpl. by destruct (decide (0%N = 0%N)).
Qed.

Lemma fixpoint_follows_remap_witness :
  Evaluator.fixpoint [0; 3; 1; 0]%N 2 = Ok 3%N
  /\ [0; 3; 1; 0]%N !! N.to_nat 3 = Some 0%N
  /\ Evaluator.fixpoint [0; 3; 1; 0]%N 3 = Ok 3%N.
Proof.
  split; [reflexivity|].
  exact (proj2 (fixpoint_follows_remap [0; 3; 1; 0]%N 2 3) eq_refl).
Defined.

(** ** One evaluation after another *)

Section Independence.
Context {num : Numeric}.

Lemma eval_cur (fuel : nat) (p : Vector3f) (x : float)
    (s s' : Evaluator.Evaluator) :
  Evaluator.eval fuel p s = Ok (x, s') ->
  exists tp, Evaluator.cur s = Ok tp.
Proof.
  unfold Evaluator.eval. intros H.
  apply bind_Ok in H as (s1 & Hs1 & H). apply set_frame in Hs1 as [r ->].
  apply bind_Ok in H as ([row s2] & Hv & _). unfold Evaluator.values in Hv.
  apply bind_Ok in Hv as (tp & Htp & _). by exists tp.
Qed.

(** X2.  On a tape in evaluation order, [eval(p)] leaves nothing behind
    that a later evaluation reads: after it, [eval(q)] and [gradient(q)]
    return what they would have returned without it. *)
Theorem eval_forgets_earlier_point (fuel : nat) (p : Vector3f) (x : float)
    (s s1 : Evaluator.Evaluator) :
  WF.evaluation_order s ->
  Evaluator.eval fuel p s = Ok (x, s1) ->
  forall fuel' q,
    Observe.eval fuel' q s1 = Observe.eval fuel' q s
    /\ Observe.gradient fuel' q s1 = Observe.gradient fuel' q s.
Proof.
  intros Hord He fuel' q.
  destruct (eval_cur _ _ _ _ _ He) as [tp Hcur].
  pose proof (eval_rows _ _ _ _ _ _ Hcur He) as Hrows.
  destruct (eval_writes_f _ _ _ _ _ He) as [m ->].
  assert (Agree.evaluator
            (fun k => (k ∉ Clause.id <$> Tape.t tp)
                      /\ k <> Evaluator.X s /\ k <> Evaluator.Y s
                      /\ k <> Evaluator.Z s)
            s (Evaluator.with_result
                 (Result.with_f m (Evaluator.result s)) s)) as HA.
  { do 5 (split; [done|]). split; [exact Hrows|]. simpl.
    by destruct (Evaluator.result s). }
  specialize (Hord tp Hcur). split; symmetry.
  - by apply (eval_agree fuel' q tp).
  - by apply (gradient_agree fuel' q tp).
Qed.

End Independence.

Lemma eval_forgets_earlier_point_witness :
  exists s1,
    Evaluator.eval 1 Examples.p123 Examples.max_min = Ok (F32.of_Z 3, s1)
    /\ Observe.eval 1 Examples.origin s1
       = Observe.eval 1 Examples.origin Examples.max_min.
Proof.
  assert (is_Ok (Evaluator.eval 1 Examples.p123 Examples.max_min))
    as [[x s1] Hs1] by (vm_compute; by eexists).
  assert (x = F32.of_Z 3) as ->.
  { vm_compute in Hs1. by injection Hs1 as <- _. }
  exists s1. split; [done|].
  exact (proj1 (eval_forgets_earlier_point 1 Examples.p123 _
                  Examples.max_min s1 max_min_ordered Hs1 1%nat
                  Examples.origin)).
Defined.

(** ** What the kernels write *)

Lemma rows_refl (count : N) (K : N -> Prop) (m : list (list float)) :
  Frame.rows count K m m.
Proof. by split. Qed.

Lemma rows_trans (count : N) (K : N -> Prop) (m1 m2 m3 : list (list float)) :
  Frame.rows count K m1 m2 -> Frame.rows count K m2 m3 ->
  Frame.rows count K m1 m3.
Proof.
  intros (H1 & H2 & H3) (H1' & H2' & H3'). split; [congruence|].
  split; intros k.
  - intros Hk. by rewrite H2', H2.
  - by rewrite H3', H3.
Qed.

Lemma rows_mono (count : N) (K K' : N -> Prop) (m m' : list (list float)) :
  (forall k, K k -> K' k) -> Frame.rows count K m m' ->
  Frame.rows count K' m m'.
Proof.
  intros HK (H1 & H2 & H3). split; [done|]. split; [|done].
  intros k Hk. apply H2. auto.
Qed.

Lemma rows_write (count k : N) (K : N -> Prop) (m : list (list float))
    (row v : list float) :
  m !! N.to_nat k = Some row -> K k ->
  length v = N.to_nat count -> (N.to_nat count <= length row)%nat ->
  Frame.rows count K m (<[N.to_nat k := v ++ drop (N.to_nat count) row]> m).
Proof.
  intros Hrow HK Hv Hle. split; [|split].
  - rewrite list_fmap_insert. apply list_insert_id.
    rewrite list_lookup_fmap, Hrow. simpl.
    rewrite length_app, length_drop. f_equal. lia.
  - intros j Hj. apply list_lookup_insert_ne. intros Heq.
    apply N2Nat.inj in Heq. by subst.
  - intros j. destruct (decide (j = N.to_nat k)) as [->|Hne].
    + rewrite list_lookup_insert_eq by by eapply lookup_lt_Some.
      rewrite Hrow. simpl. f_equal.
      rewrite drop_app_length'; [done|lia].
    + by rewrite list_lookup_insert_ne.
Qed.

Lemma arena_refl (count : N) (Kf Kd : N -> Prop) (r : Result.Result) :
  Frame.arena count Kf Kd r r.
Proof. repeat split. Qed.

Lemma arena_trans (count : N) (Kf Kd : N -> Prop) (r1 r2 r3 : Result.Result) :
  Frame.arena count Kf Kd r1 r2 -> Frame.arena count Kf Kd r2 r3 ->
  Frame.arena count Kf Kd r1 r3.
Proof.
  intros (H1 & H2 & H3 & H4 & H5 & H6) (H1' & H2' & H3' & H4' & H5' & H6').
  split; [by eapply rows_trans|]. split; [by eapply rows_trans|].
  split; [by eapply rows_trans|]. split; [by eapply rows_trans|].
  split; congruence.
Qed.

Lemma arena_mono (count : N) (Kf Kd Kf' Kd' : N -> Prop)
    (r r' : Result.Result) :
  (forall k, Kf k -> Kf' k) -> (forall k, Kd k -> Kd' k) ->
  Frame.arena count Kf Kd r r' -> Frame.arena count Kf' Kd' r r'.
Proof.
  intros Hf Hd (H1 & H2 & H3 & H4 & H5 & H6).
  split; [by eapply rows_mono|]. split; [by eapply rows_mono|].
  split; [by eapply rows_mono|]. split; [by eapply rows_mono|]. done.
Qed.

(** One write of [count] coefficients into row [k] of the matrix [d]. *)
Lemma wr_arena (count k : N) (d : Evaluator.mat) (v : list float)
    (r r' : Result.Result) :
  Evaluator.wr count (d, k) v r = Ok r' -> length v = N.to_nat count ->
  Frame.arena count (fun j => d = Evaluator.Mf /\ j = k)
    (fun j => d <> Evaluator.Mf /\ j = k) r r'.
Proof.
  unfold Evaluator.wr. simpl. intros Hw Hv.
  apply bind_Ok in Hw as (m & Hm & [= <-]).
  apply set_head_Ok in Hm as (row & Hrow & Hle & ->).
  destruct d; (split; [|split; [|split; [|split; [|done]]]]); simpl;
    first [by apply rows_refl | by apply (rows_write _ _ _ _ row)].
Qed.

Lemma rows_none (count : N) (m m' : list (list float)) :
  Frame.rows count (fun _ => False) m m' -> m' = m.
Proof.
  intros (_ & H & _). apply list_eq. intros i.
  specialize (H (N.of_nat i)). rewrite Nat2N.id in H. apply H. tauto.
Qed.

Lemma rd_length (count : N) (src : Evaluator.mat * N) (r : Result.Result)
    (v : list float) :
  Evaluator.rd count src r = Ok v -> length v = N.to_nat count.
Proof. apply head_length. Qed.

Lemma length_map3 {A B C D} (g : A -> B -> C -> D) (n : nat)
    (l1 : list A) (l2 : list B) (l3 : list C) :
  length l1 = n -> length l2 = n -> length l3 = n ->
  length (map3 g l1 l2 l3) = n.
Proof.
  intros. unfold map3. rewrite length_zip_with, length_zip. lia.
Qed.

Lemma length_map4 {A B C D E} (g : A -> B -> C -> D -> E) (n : nat)
    (l1 : list A) (l2 : list B) (l3 : list C) (l4 : list D) :
  length l1 = n -> length l2 = n -> length l3 = n -> length l4 = n ->
  length (map4 g l1 l2 l3 l4) = n.
Proof.
  intros. unfold map4. rewrite length_zip_with, !length_zip. lia.
Qed.

Lemma length_map5 {A B C D E F} (g : A -> B -> C -> D -> E -> F) (n : nat)
    (l1 : list A) (l2 : list B) (l3 : list C) (l4 : list D) (l5 : list E) :
  length l1 = n -> length l2 = n -> length l3 = n -> length l4 = n ->
  length l5 = n -> length (map5 g l1 l2 l3 l4 l5) = n.
Proof.
  intros. unfold map5. rewrite length_zip_with, !length_zip. lia.
Qed.

(** Take an Eigen array statement apart: its reads, then its write. *)
Ltac assign_inv H :=
  repeat (let v := fresh "v" in
          let Hv := fresh "Hv" in
          apply bind_Ok in H as (v & Hv & H); apply rd_length in Hv);
  apply wr_arena in H; [exact H|].

Lemma assign1_arena (count k : N) (d : Evaluator.mat) (g : float -> float)
    (s1 : Evaluator.mat * N) (r r' : Result.Result) :
  Evaluator.assign1 count (d, k) g s1 r = Ok r' ->
  Frame.arena count (fun j => d = Evaluator.Mf /\ j = k)
    (fun j => d <> Evaluator.Mf /\ j = k) r r'.
Proof.
  unfold Evaluator.assign1. intros H. assign_inv H.
  by rewrite length_fmap.
Qed.

Lemma assign2_arena (count k : N) (d : Evaluator.mat)
    (g : float -> float -> float) (s1 s2 : Evaluator.mat * N)
    (r r' : Result.Result) :
  Evaluator.assign2 count (d, k) g s1 s2 r = Ok r' ->
  Frame.arena count (fun j => d = Evaluator.Mf /\ j = k)
    (fun j => d <> Evaluator.Mf /\ j = k) r r'.
Proof.
  unfold Evaluator.assign2. intros H. assign_inv H.
  rewrite length_zip_with. lia.
Qed.

Lemma assign3_arena (count k : N) (d : Evaluator.mat)
    (g : float -> float -> float -> float) (s1 s2 s3 : Evaluator.mat * N)
    (r r' : Result.Result) :
  Evaluator.assign3 count (d, k) g s1 s2 s3 r = Ok r' ->
  Frame.arena count (fun j => d = Evaluator.Mf /\ j = k)
    (fun j => d <> Evaluator.Mf /\ j = k) r r'.
Proof.
  unfold Evaluator.assign3. intros H. assign_inv H.
  by apply length_map3.
Qed.

Lemma assign4_arena (count k : N) (d : Evaluator.mat)
    (g : float -> float -> float -> float -> float)
    (s1 s2 s3 s4 : Evaluator.mat * N) (r r' : Result.Result) :
  Evaluator.assign4 count (d, k) g s1 s2 s3 s4 r = Ok r' ->
  Frame.arena count (fun j => d = Evaluator.Mf /\ j = k)
    (fun j => d <> Evaluator.Mf /\ j = k) r r'.
Proof.
  unfold Evaluator.assign4. intros H. assign_inv H.
  by apply length_map4.
Qed.

Lemma assign5_arena (count k : N) (d : Evaluator.mat)
    (g : float -> float -> float -> float -> float -> float)
    (s1 s2 s3 s4 s5 : Evaluator.mat * N) (r r' : Result.Result) :
  Evaluator.assign5 count (d, k) g s1 s2 s3 s4 s5 r = Ok r' ->
  Frame.arena count (fun j => d = Evaluator.Mf /\ j = k)
    (fun j => d <> Evaluator.Mf /\ j = k) r r'.
Proof.
  unfold Evaluator.assign5. intros H. assign_inv H.
  by apply length_map5.
Qed.

Section KernelFrames.
Context {num : Numeric}.

Lemma values_clause_arena (fuel : nat) (count : N) (c : Clause.Clause)
    (r r' : Result.Result) :
  Evaluator.values_clause fuel count c r = Ok r' ->
  Frame.arena count (fun j => j = Clause.id c) (fun _ => False) r r'.
Proof.
  intros H. apply values_clause_wr in H as (v & Hv & Hw).
  apply wr_arena in Hw; [|done].
  eapply arena_mono; [| |exact Hw]; by intros k [? ?].
Qed.

(** Bring the writes of a clause of [derivs] to one frame. *)
Ltac derivs_frame :=
  repeat match goal with
    | H : bind _ _ = Ok _ |- _ =>
        let a := fresh "r" in
        let Ha := fresh "H" in
        apply bind_Ok in H as (a & Ha & H)
    end;
  repeat match goal with
    | H : Evaluator.assign1 _ _ _ _ _ = Ok _ |- _ => apply assign1_arena in H
    | H : Evaluator.assign2 _ _ _ _ _ _ = Ok _ |- _ => apply assign2_arena in H
    | H : Evaluator.assign3 _ _ _ _ _ _ _ = Ok _ |- _ =>
        apply assign3_arena in H
    | H : Evaluator.assign4 _ _ _ _ _ _ _ _ = Ok _ |- _ =>
        apply assign4_arena in H
    | H : Evaluator.assign5 _ _ _ _ _ _ _ _ _ = Ok _ |- _ =>
        apply assign5_arena in H
    end;
  repeat match goal with
    | H : Frame.arena _ (fun j => ?d = Evaluator.Mf /\ j = ?k) _ _ _ |- _ =>
        apply (arena_mono _ _ _ (fun _ => False) (fun j => j = k)) in H;
        [|by intros ? [? ?]|by intros ? [? ?]]
    end;
  repeat (eapply arena_trans; [eassumption|]); apply arena_refl.

Lemma derivs_clause_arena (count : N) (c : Clause.Clause)
    (r r' : Result.Result) :
  Evaluator.derivs_clause count c r = Ok r' ->
  Frame.arena count (fun _ => False) (fun j => j = Clause.id c) r r'.
Proof.
  unfold Evaluator.derivs_clause, Evaluator.each3. cbv zeta. intros H.
  destruct (Clause.op c); try discriminate; derivs_frame.
Qed.

End KernelFrames.

Section KernelFrameTheorems.
Context {num : Numeric}.

Lemma values_fold_arena (fuel : nat) (count : N) (tp : Tape.Tape)
    (r r' : Result.Result) :
  foldlM (fun r c => Evaluator.values_clause fuel count c r)
         (rev (Tape.t tp)) r = Ok r' ->
  Frame.arena count (Frame.written tp) (fun _ => False) r r'.
Proof.
  apply (foldlM_inv
           (Frame.arena count (Frame.written tp) (fun _ => False) r)).
  - intros b c b' Hc Hb Hstep. eapply arena_trans; [exact Hb|].
    apply values_clause_arena in Hstep.
    eapply arena_mono; [| |exact Hstep]; [|done].
    intros k ->. apply elem_of_ids_rev, list_elem_of_fmap. by exists c.
  - apply arena_refl.
Qed.

(** X3.  [values(count)] returns a pointer to the row of the root of the
    active tape and writes nothing but the leading [count] columns of the
    value rows of the clauses of that tape: the rows of constants,
    variables and axes, the columns from [count] on, the shape of the
    matrix, the derivative rows, the intervals and the Jacobians are as
    before, and so is the rest of the evaluator. *)
Theorem values_writes_clause_rows (fuel : nat) (count row : N)
    (s s' : Evaluator.Evaluator) :
  Evaluator.values fuel count s = Ok (row, s') ->
  exists tp,
    Evaluator.cur s = Ok tp
    /\ row = Tape.i tp
    /\ s' = Evaluator.with_result (Evaluator.result s') s
    /\ Frame.arena count (Frame.written tp) (fun _ => False)
         (Evaluator.result s) (Evaluator.result s').
Proof.
  unfold Evaluator.values. intros H.
  apply bind_Ok in H as (tp & Htp & H).
  apply bind_Ok in H as (r & Hr & H).
  apply bind_Ok in H as (x & _ & [= <- <-]).
  exists tp. do 3 (split; [done|]). simpl.
  eapply values_fold_arena. exact Hr.
Qed.

(** X4.  [derivs(count)] first runs [values(count)], whose value rows it
    leaves as they are, and then writes nothing but the leading [count]
    columns of the three derivative rows of the clauses of the active
    tape: the unit derivatives of the axes and the zero derivatives of
    constants are never overwritten. *)
Theorem derivs_writes_clause_rows (fuel : nat) (count row : N)
    (s s' : Evaluator.Evaluator) :
  Evaluator.derivs fuel count s = Ok (row, s') ->
  exists tp s1,
    Evaluator.cur s = Ok tp
    /\ Evaluator.values fuel count s = Ok (row, s1)
    /\ s' = Evaluator.with_result (Evaluator.result s') s
    /\ Result.f (Evaluator.result s') = Result.f (Evaluator.result s1)
    /\ Frame.arena count (fun _ => False) (Frame.written tp)
         (Evaluator.result s1) (Evaluator.result s').
Proof.
  unfold Evaluator.derivs. intros H.
  apply bind_Ok in H as ([row1 s1] & Hv & H).
  assert (exists tp, Evaluator.cur s = Ok tp /\ row1 = Tape.i tp)
    as (tp & Hcur & ->).
  { pose proof Hv as Hv0. unfold Evaluator.values in Hv0.
    apply bind_Ok in Hv0 as (tp & Htp & Hv0).
    apply bind_Ok in Hv0 as (r0 & _ & Hv0).
    apply bind_Ok in Hv0 as (x0 & _ & [= <- _]). by exists tp. }
  destruct (values_frame _ _ _ _ _ Hv) as [r1 ->].
  apply bind_Ok in H as (tp' & Htp' & H).
  change (Evaluator.cur s = Ok tp') in Htp'.
  rewrite Hcur in Htp'. injection Htp' as <-.
  apply bind_Ok in H as (r & Hr & H).
  apply bind_Ok in H as (x0 & _ & H). apply bind_Ok in H as (x1 & _ & H).
  apply bind_Ok in H as (x2 & _ & H). apply bind_Ok in H as (x3 & _ & H).
  injection H as <- <-. exists tp, (Evaluator.with_result r1 s).
  do 3 (split; [done|]). simpl in *.
  assert (Frame.arena count (fun _ => False) (Frame.written tp) r1 r) as HA.
  { revert Hr.
    apply (foldlM_inv
             (Frame.arena count (fun _ => False) (Frame.written tp) r1)).
    - intros b c b' Hc Hb Hstep. eapply arena_trans; [exact Hb|].
      apply derivs_clause_arena in Hstep.
      eapply arena_mono; [| |exact Hstep]; [done|].
      intros k ->. apply elem_of_ids_rev, list_elem_of_fmap. by exists c.
    - apply arena_refl. }
  split; [|done]. destruct HA as (Hf & _). by apply rows_none in Hf.
Qed.

Lemma interval_clause_frame (c : Clause.Clause) (iv iv' : list Interval.I) :
  Evaluator.interval_clause c iv = Ok iv' ->
  length iv' = length iv
  /\ forall k, k <> Clause.id c -> iv' !! N.to_nat k = iv !! N.to_nat k.
Proof.
  unfold Evaluator.interval_clause. intros H.
  apply bind_Ok in H as (ia & _ & H). apply bind_Ok in H as (ib & _ & H).
  apply bind_Ok in H as (o & _ & H). apply store_Ok in H as [_ ->].
  split; [by rewrite length_insert|]. intros k Hk.
  apply list_lookup_insert_ne. intros Heq. apply N2Nat.inj in Heq. by subst.
Qed.

(** X5.  [interval()] returns the interval in the slot of the root and
    writes nothing but the interval slots of the clauses of the active
    tape: the box loaded into the axis slots and the intervals of
    constants stay, the number of slots stays, and the value rows, the
    derivative rows and the Jacobians are not touched. *)
Theorem interval_writes_clause_slots (out : Interval.I)
    (s s' : Evaluator.Evaluator) :
  Evaluator.interval s = Ok (out, s') ->
  exists tp iv,
    Evaluator.cur s = Ok tp
    /\ s' = Evaluator.with_result
              (Result.with_i iv (Evaluator.result s)) s
    /\ iv !! N.to_nat (Tape.i tp) = Some out
    /\ length iv = length (Result.i (Evaluator.result s))
    /\ forall k, ~ Frame.written tp k ->
         iv !! N.to_nat k = Result.i (Evaluator.result s) !! N.to_nat k.
Proof.
  unfold Evaluator.interval. intros H.
  apply bind_Ok in H as (tp & Htp & H).
  apply bind_Ok in H as (iv & Hiv & H).
  apply bind_Ok in H as (o & Ho & [= <- <-]). apply at_Ok in Ho.
  exists tp, iv. do 3 (split; [done|]). revert Hiv.
  apply (foldlM_inv
           (fun iv => length iv = length (Result.i (Evaluator.result s))
                      /\ forall k, ~ Frame.written tp k ->
                           iv !! N.to_nat k
                           = Result.i (Evaluator.result s) !! N.to_nat k)).
  - intros b c b' Hc [Hlen Hb] Hstep.
    apply interval_clause_frame in Hstep as [Hlen' Hstep].
    split; [congruence|]. intros k Hk. rewrite Hstep; [by apply Hb|].
    intros ->. apply Hk, elem_of_ids_rev, list_elem_of_fmap. by exists c.
  - done.
Qed.

End KernelFrameTheorems.

Lemma values_writes_clause_rows_witness :
  exists s',
    Evaluator.values 1 1 Examples.max_min = Ok (1%N, s')
    /\ Frame.arena 1 (Frame.written Examples.tape_max_min) (fun _ => False)
         (Evaluator.result Examples.max_min) (Evaluator.result s').
Proof.
  assert (is_Ok (Evaluator.values 1 1 Examples.max_min))
    as [[row s'] Hs'] by (vm_compute; by eexists).
  destruct (values_writes_clause_rows _ _ _ _ _ Hs')
    as (tp & Htp & -> & _ & HA).
  injection Htp as <-. by exists s'.
Defined.

Lemma derivs_writes_clause_rows_witness :
  exists s' s1,
    Evaluator.derivs 1 1 Examples.max_min = Ok (1%N, s')
    /\ Evaluator.values 1 1 Examples.max_min = Ok (1%N, s1)
    /\ Result.f (Evaluator.result s') = Result.f (Evaluator.result s1)
    /\ Frame.arena 1 (fun _ => False) (Frame.written Examples.tape_max_min)
         (Evaluator.result s1) (Evaluator.result s').
Proof.
  assert (is_Ok (Evaluator.derivs 1 1 Examples.max_min))
    as [[row s'] Hs'] by (vm_compute; by eexists).
  destruct (derivs_writes_clause_rows _ _ _ _ _ Hs')
    as (tp & s1 & Htp & Hv & _ & Hf & HA).
  injection Htp as <-.
  assert (row = 1%N) as ->.
  { vm_compute in Hv. by injection Hv as <- _. }
  by exists s', s1.
Defined.

Lemma interval_writes_clause_slots_witness :
  exists out s' iv,
    Evaluator.interval Examples.max_min_boxed = Ok (out, s')
    /\ s' = Evaluator.with_result
              (Result.with_i iv (Evaluator.result Examples.max_min_boxed))
              Examples.max_min_boxed
    /\ iv !! 5%nat = Some (Examples.point 1)
    /\ length iv = 7%nat.
Proof.
  assert (is_Ok (Evaluator.interval Examples.max_min_boxed))
    as [[out s'] Hs'] by (vm_compute; by eexists).
  destruct (interval_writes_clause_slots _ _ _ Hs')
    as (tp & iv & Htp & -> & _ & Hlen & Hrest).
  injection Htp as <-. eexists out, _, iv. do 2 (split; [done|]).
  split; [|exact Hlen].
  assert (~ Frame.written Examples.tape_max_min 5) as H5.
  { unfold Frame.written. simpl. intros Hin.
    repeat (apply elem_of_cons in Hin as [Hin|Hin]; [discriminate|]).
    by apply elem_of_nil in Hin. }
  exact (Hrest 5%N H5).
Defined.

(** ** Ambiguity *)

Section Ambiguity.
Context {num : Numeric}.

Lemma isAmbiguous_loop_spec (f : list (list float))
    (l : list Clause.Clause) (b : bool) :
  Evaluator.isAmbiguous_loop f l = Ok b ->
  (b = true <->
   exists c, c ∈ l /\ Evaluator.is_min_max (Clause.op c) = true
             /\ WF.tied f c 0).
Proof.
  revert b. induction l as [|c l IH]; intros b H; simpl in H.
  - injection H as <-. split; [done|]. intros (c & Hc & _).
    by apply elem_of_nil in Hc.
  - destruct (Evaluator.is_min_max (Clause.op c)) eqn:Hmm.
    + apply bind_Ok in H as (fa & Hfa & H).
      apply bind_Ok in H as (fb & Hfb & H).
      destruct (F32.eq fa fb) eqn:Heq.
      * injection H as <-. split; [|done]. intros _. exists c.
        split; [by left|]. split; [done|]. by exists fa, fb.
      * rewrite (IH _ H). split.
        -- intros (c' & Hc' & H'). exists c'. split; [by right|done].
        -- intros (c' & Hc' & Hmm' & Ht).
           apply elem_of_cons in Hc' as [->|Hc']; [|by exists c'].
           destruct Ht as (fa' & fb' & Ha' & Hb' & Ht). congruence.
    + rewrite (IH _ H). split.
      * intros (c' & Hc' & H'). exists c'. split; [by right|done].
      * intros (c' & Hc' & Hmm' & Ht).
        apply elem_of_cons in Hc' as [->|Hc']; [congruence|by exists c'].
Qed.

(** The inner loop of [getAmbiguous] over the columns. *)
Lemma getAmbiguous_columns_spec (f : list (list float)) (c : Clause.Clause)
    (js : list nat) (out out' : gset N) :
  foldlM (fun (out : gset N) (j : nat) =>
            fa ← Result.coeff f (Clause.a c) (N.of_nat j);
            fb ← Result.coeff f (Clause.b c) (N.of_nat j);
            Ok (if F32.eq fa fb then {[ N.of_nat j ]} ∪ out else out))
         js out = Ok out' ->
  forall k, k ∈ out' <->
            k ∈ out \/ (exists j, j ∈ js /\ k = N.of_nat j /\ WF.tied f c k).
Proof.
  revert out. induction js as [|j js IH]; intros out H k; simpl in H.
  - injection H as <-. split; [by left|]. intros [Hk|(j & Hj & _)]; [done|].
    by apply elem_of_nil in Hj.
  - apply bind_Ok in H as (o & Ho & H).
    apply bind_Ok in Ho as (fa & Hfa & Ho).
    apply bind_Ok in Ho as (fb & Hfb & Ho). injection Ho as <-.
    rewrite (IH _ H k). split.
    + intros [Hk|(j' & Hj' & -> & Ht)].
      * destruct (F32.eq fa fb) eqn:Heq; [|by left].
        apply elem_of_union in Hk as [Hk|Hk]; [|by left].
        apply elem_of_singleton in Hk as ->. right. exists j.
        split; [by left|]. split; [done|]. by exists fa, fb.
      * right. exists j'. split; [by right|done].
    + intros [Hk|(j' & Hj' & -> & Ht)].
      * left. destruct (F32.eq fa fb); [|done]. apply elem_of_union. by right.
      * apply elem_of_cons in Hj' as [->|Hj'].
        -- left. destruct Ht as (fa' & fb' & Ha' & Hb' & Ht).
           assert (fa' = fa) as -> by congruence.
           assert (fb' = fb) as -> by congruence.
           rewrite Ht. apply elem_of_union. left. by apply elem_of_singleton.
        -- right. by exists j'.
Qed.

Lemma getAmbiguous_clause_spec (f : list (list float)) (i : N)
    (c : Clause.Clause) (out out' : gset N) :
  Evaluator.getAmbiguous_clause f i out c = Ok out' ->
  forall k, k ∈ out' <->
            k ∈ out
            \/ (Evaluator.is_min_max (Clause.op c) = true
                /\ (k < i)%N /\ WF.tied f c k).
Proof.
  unfold Evaluator.getAmbiguous_clause. intros H k.
  destruct (Evaluator.is_min_max (Clause.op c)).
  - rewrite (getAmbiguous_columns_spec _ _ _ _ _ H k). split.
    + intros [Hk|(j & Hj & -> & Ht)]; [by left|]. right.
      apply elem_of_seq in Hj. split; [done|]. split; [lia|done].
    + intros [Hk|(_ & Hlt & Ht)]; [by left|]. right.
      exists (N.to_nat k). split; [apply elem_of_seq; lia|].
      split; [by rewrite N2Nat.id|done].
  - injection H as <-. split; [by left|]. by intros [Hk|[? _]].
Qed.

Lemma getAmbiguous_fold_spec (f : list (list float)) (i : N)
    (l : list Clause.Clause) (out out' : gset N) :
  foldlM (Evaluator.getAmbiguous_clause f i) l out = Ok out' ->
  forall k, k ∈ out' <->
            k ∈ out
            \/ ((k < i)%N
                /\ exists c, c ∈ l
                     /\ Evaluator.is_min_max (Clause.op c) = true
                     /\ WF.tied f c k).
Proof.
  revert out. induction l as [|c l IH]; intros out H k; simpl in H.
  - injection H as <-. split; [by left|].
    intros [Hk|(_ & c & Hc & _)]; [done|]. by apply elem_of_nil in Hc.
  - apply bind_Ok in H as (o & Ho & H).
    rewrite (IH _ H k), (getAmbiguous_clause_spec _ _ _ _ _ Ho k). split.
    + intros [[Hk|(Hmm & Hlt & Ht)]|(Hlt & c' & Hc' & H')].
      * by left.
      * right. split; [done|]. exists c. split; [by left|done].
      * right. split; [done|]. exists c'. split; [by right|done].
    + intros [Hk|(Hlt & c' & Hc' & Hmm & Ht)]; [by left; left|].
      apply elem_of_cons in Hc' as [->|Hc'].
      * left. right. done.
      * right. split; [done|]. by exists c'.
Qed.

(** [getAmbiguous(1)] reads what [isAmbiguous()] reads, and more. *)
Lemma getAmbiguous_isAmbiguous_total (f : list (list float))
    (l : list Clause.Clause) (out out' : gset N) :
  foldlM (Evaluator.getAmbiguous_clause f 1) l out = Ok out' ->
  exists b, Evaluator.isAmbiguous_loop f l = Ok b.
Proof.
  revert out. induction l as [|c l IH]; intros out H; simpl in *.
  - by exists false.
  - apply bind_Ok in H as (o & Ho & H). destruct (IH _ H) as [b Hb].
    unfold Evaluator.getAmbiguous_clause in Ho.
    destruct (Evaluator.is_min_max (Clause.op c)); [|by exists b].
    simpl in Ho. apply bind_Ok in Ho as (o1 & Ho1 & _).
    apply bind_Ok in Ho1 as (fa & Hfa & Ho1).
    apply bind_Ok in Ho1 as (fb & Hfb & _).
    change (N.of_nat 0) with 0%N in Hfa, Hfb. rewrite Hfa, Hfb. simpl.
    destruct (F32.eq fa fb); [by exists true|by exists b].
Qed.

(** X6.  [isAmbiguous()] returns true exactly when some min or max
    clause of the active tape has operands that compare equal in column
    0; it agrees with [getAmbiguous(1)], which then holds the index 0. *)
Theorem isAmbiguous_iff_tied (s : Evaluator.Evaluator) :
  (forall b,
     Evaluator.isAmbiguous s = Ok b ->
     exists tp,
       Evaluator.cur s = Ok tp
       /\ (b = true <->
           WF.ambiguous_at (Result.f (Evaluator.result s)) tp 0))
  /\ (forall out,
        Evaluator.getAmbiguous 1 s = Ok out ->
        exists b, Evaluator.isAmbiguous s = Ok b /\ (b = true <-> 0%N ∈ out)).
Proof.
  split.
  - intros b H. unfold Evaluator.isAmbiguous in H.
    apply bind_Ok in H as (tp & Htp & H). exists tp. split; [done|].
    by apply isAmbiguous_loop_spec.
  - intros out H. unfold Evaluator.getAmbiguous in H.
    apply bind_Ok in H as (tp & Htp & H).
    destruct (getAmbiguous_isAmbiguous_total _ _ _ _ H) as [b Hb].
    exists b. unfold Evaluator.isAmbiguous. rewrite Htp. simpl.
    split; [done|].
    rewrite (isAmbiguous_loop_spec _ _ _ Hb),
      (getAmbiguous_fold_spec _ _ _ _ _ H 0%N). split.
    + intros Hc. right. split; [done|exact Hc].
    + intros [Hk|[_ Hc]]; [|exact Hc]. by apply elem_of_empty in Hk.
Qed.

(** X7.  [getAmbiguous(i)] returns exactly the columns [j < i] in which
    some min or max clause of the active tape has operands that compare
    equal: no index from [i] on, nothing for [i = 0], nothing on a tape
    without min and max. *)
Theorem getAmbiguous_tied_columns (i : N) (s : Evaluator.Evaluator)
    (out : gset N) :
  Evaluator.getAmbiguous i s = Ok out ->
  exists tp,
    Evaluator.cur s = Ok tp
    /\ forall j, j ∈ out <->
         (j < i)%N
         /\ WF.ambiguous_at (Result.f (Evaluator.result s)) tp j.
Proof.
  unfold Evaluator.getAmbiguous. intros H.
  apply bind_Ok in H as (tp & Htp & H). exists tp. split; [done|].
  intros j. rewrite (getAmbiguous_fold_spec _ _ _ _ _ H j). split.
  - intros [Hk|Hk]; [by apply elem_of_empty in Hk|exact Hk].
  - intros Hk. by right.
Qed.

End Ambiguity.

Lemma isAmbiguous_iff_tied_witness :
  Evaluator.isAmbiguous Examples.max_min = Ok true
  /\ WF.ambiguous_at (Result.f (Evaluator.result Examples.max_min))
       Examples.tape_max_min 0.
Proof.
  assert (Evaluator.isAmbiguous Examples.max_min = Ok true) as H
    by reflexivity.
  split; [exact H|].
  destruct (proj1 (isAmbiguous_iff_tied Examples.max_min) true H)
    as (tp & Htp & Hiff).
  injection Htp as <-. by apply Hiff.
Defined.

Lemma getAmbiguous_tied_columns_witness :
  exists out,
    Evaluator.getAmbiguous 1 Examples.max_min = Ok out
    /\ forall j, j ∈ out -> (j < 1)%N.
Proof.
  assert (is_Ok (Evaluator.getAmbiguous 1 Examples.max_min)) as [out Hout]
    by (vm_compute; by eexists).
  exists out. split; [exact Hout|]. intros j Hj.
  destruct (getAmbiguous_tied_columns 1 Examples.max_min out Hout)
    as (tp & _ & Hiff).
  exact (proj1 (proj1 (Hiff j) Hj)).
Defined.

(** ** Variables *)

Section MoreVariables.
Import Evaluator.

Lemma setValue_stored (r r' : Result.Result) (slot : N) (x y : float) :
  Result.coeff (Result.f r) slot 0 = Ok y ->
  Result.setValue x slot r = Ok r' ->
  Result.coeff (Result.f r') slot 0 = Ok x
  /\ (forall c j, c <> slot ->
        Result.coeff (Result.f r') c j = Result.coeff (Result.f r) c j)
  /\ r' = Result.with_f (Result.f r') r.
Proof.
  unfold Result.coeff, Result.setValue. intros Hy Hset.
  apply bind_Ok in Hy as (row & Hrow & Hy). apply at_Ok in Hrow, Hy.
  apply bind_Ok in Hset as (row' & Hrow' & Hset). apply at_Ok in Hrow'.
  apply bind_Ok in Hset as (m & Hm & [= <-]).
  apply store_Ok in Hm as [Hlt ->]. simpl.
  assert (row' = row) as -> by congruence.
  split; [|split; [|done]].
  - unfold at_. rewrite list_lookup_insert_eq by done. simpl.
    destruct row as [|z row]; [done|]. done.
  - intros c j Hne. unfold at_. rewrite list_lookup_insert_ne; [done|].
    intros Heq. apply N2Nat.inj in Heq. by subst.
Qed.

Lemma setVar_registered (s s' : Evaluator) (v slot : N) (x y : float) :
  NoDup (vars s).*2 -> (slot, v) ∈ vars s ->
  stored s slot = Ok y ->
  setVar v x s = Ok s' ->
  stored s' slot = Ok x
  /\ (forall c, c <> slot -> stored s' c = stored s c)
  /\ s' = with_result (Result.with_f (Result.f (result s')) (result s)) s.
Proof.
  intros Hnd Hin Hy. unfold setVar. rewrite (right_find_Some _ slot) by done.
  intros H. apply bind_Ok in H as (r & Hr & [= <-]).
  destruct (setValue_stored _ _ _ _ _ Hy Hr) as (Hx & Hrest & Hr').
  split; [done|]. split; [|simpl; by rewrite <- Hr'].
  intros c Hc. unfold stored. simpl. by apply Hrest.
Qed.

Lemma not_in_fst (vs : list (N * N)) (c t : N) :
  c ∉ vs.*1 -> (c, t) ∉ vs.
Proof.
  intros Hc Hin. apply Hc. change c with (c, t).1.
  by apply list_elem_of_fmap_2.
Qed.

Lemma not_in_snd (vs : list (N * N)) (c t : N) :
  t ∉ vs.*2 -> (c, t) ∉ vs.
Proof.
  intros Ht Hin. apply Ht. change t with (c, t).2.
  by apply list_elem_of_fmap_2.
Qed.

(** [varValues] on two evaluators that store the same in the slots of
    [vs]. *)
Lemma varValues_loop_ext (vs : list (N * N)) (s s' : Evaluator)
    (out : gmap N float) :
  (forall c, c ∈ vs.*1 -> stored s' c = stored s c) ->
  varValues_loop vs s' out = varValues_loop vs s out.
Proof.
  revert out. induction vs as [|[c t] vs IH]; intros out Hsame; simpl.
  - done.
  - rewrite Hsame by by left. destruct (stored s c); simpl; [|done].
    apply IH. intros c' Hc'. apply Hsame. by right.
Qed.

Lemma varValues_loop_insert (vs : list (N * N)) (s : Evaluator)
    (out m : gmap N float) (v : N) (x : float) :
  v ∉ vs.*2 ->
  varValues_loop vs s out = Ok m ->
  varValues_loop vs s (<[v := x]> out) = Ok (<[v := x]> m).
Proof.
  revert out. induction vs as [|[c t] vs IH]; intros out Hv H; simpl in *.
  - by injection H as <-.
  - apply not_elem_of_cons in Hv as [Hne Hv].
    apply bind_Ok in H as (y & Hy & H). rewrite Hy. simpl.
    rewrite insert_insert_ne by done. by apply IH.
Qed.

Lemma varValues_loop_stored (vs : list (N * N)) (s : Evaluator)
    (out m : gmap N float) (c t : N) :
  varValues_loop vs s out = Ok m -> (c, t) ∈ vs ->
  exists y, stored s c = Ok y.
Proof.
  revert out. induction vs as [|[c' t'] vs IH]; intros out H Hin; simpl in *.
  - by apply elem_of_nil in Hin.
  - apply bind_Ok in H as (y & Hy & H).
    apply elem_of_cons in Hin as [[= -> ->]|Hin]; [by exists y|].
    by eapply IH.
Qed.

Lemma varValues_loop_setVar (vs : list (N * N)) (s s' : Evaluator)
    (out m : gmap N float) (v slot : N) (x : float) :
  NoDup vs.*1 -> NoDup vs.*2 -> (slot, v) ∈ vs ->
  stored s' slot = Ok x ->
  (forall c, c <> slot -> stored s' c = stored s c) ->
  varValues_loop vs s out = Ok m ->
  varValues_loop vs s' out = Ok (<[v := x]> m).
Proof.
  revert out. induction vs as [|[c t] vs IH];
    intros out Hnd1 Hnd2 Hin Hx Hrest H; simpl in *.
  - by apply elem_of_nil in Hin.
  - apply NoDup_cons in Hnd1 as [Hc Hnd1].
    apply NoDup_cons in Hnd2 as [Ht Hnd2].
    apply bind_Ok in H as (y & Hy & H).
    apply elem_of_cons in Hin as [Heq|Hin].
    + injection Heq as -> ->. rewrite Hx. simpl.
      rewrite (varValues_loop_ext vs s s').
      * pose proof (varValues_loop_insert _ _ _ _ t x Ht H) as H'.
        by rewrite insert_insert_eq in H'.
      * intros c' Hc'. apply Hrest. intros ->. done.
    + assert (c <> slot) as Hne.
      { intros ->. by apply (not_in_fst vs slot v) in Hc. }
      rewrite (Hrest c Hne), Hy. simpl. by apply IH.
Qed.

(** X8.  Round trip through a variable: after [setVar(v, x)] on a
    registered variable, [varValues()] is what it was with [v] mapped to
    [x]; no other variable has moved. *)
Theorem setVar_varValues_round_trip (s s' : Evaluator) (v slot : N)
    (x : float) (m : gmap N float) :
  NoDup (vars s).*1 -> NoDup (vars s).*2 ->
  (slot, v) ∈ vars s ->
  varValues s = Ok m ->
  setVar v x s = Ok s' ->
  varValues s' = Ok (<[v := x]> m).
Proof.
  intros Hnd1 Hnd2 Hin Hm Hset.
  destruct (varValues_loop_stored _ _ _ _ _ _ Hm Hin) as [y Hy].
  destruct (setVar_registered _ _ _ _ _ _ Hnd2 Hin Hy Hset)
    as (Hx & Hrest & Hs').
  unfold varValues. rewrite Hs'. simpl. rewrite Hs' in Hx, Hrest.
  by apply (varValues_loop_setVar _ s _ _ _ _ slot).
Qed.

End MoreVariables.

Lemma setVar_varValues_round_trip_witness :
  exists s',
    Evaluator.setVar 7 F32.two Examples.var_one = Ok s'
    /\ Evaluator.varValues s' = Ok (<[7%N := F32.two]> {[ 7%N := F32.one ]}).
Proof.
  assert (is_Ok (Evaluator.setVar 7 F32.two Examples.var_one)) as [s' Hs']
    by (vm_compute; by eexists).
  exists s'. split; [exact Hs'|].
  apply (setVar_varValues_round_trip Examples.var_one s' 7%N 1%N).
  - simpl. apply NoDup_singleton.
  - simpl. apply NoDup_singleton.
  - simpl. apply list_elem_of_singleton. reflexivity.
  - reflexivity.
  - exact Hs'.
Defined.

Section UpdateVars.
Import Evaluator.

Lemma updateVars_loop_keys (vs : list (N * N)) (m : gmap N float)
    (changed : bool) (s : Evaluator) (out : bool * Evaluator) :
  updateVars_loop vs m changed s = Ok out ->
  forall t, t ∈ vs.*2 -> is_Some (m !! t).
Proof.
  revert changed s. induction vs as [|[c t] vs IH];
    intros changed s H t' Hin; simpl in *.
  - by apply elem_of_nil in Hin.
  - apply bind_Ok in H as (val & Hval & H).
    apply bind_Ok in H as (x & Hx & H).
    apply elem_of_cons in Hin as [->|Hin].
    + destruct (m !! t); [by eexists|done].
    + destruct (F32.ne val x).
      * apply bind_Ok in H as (s1 & _ & H). by eapply IH.
      * by eapply IH.
Qed.

(** X9.  [updateVars(m)] looks every registered variable up with
    [std::map::at]: it returns normally only when [m] has an entry for
    each of them, and does not return when one is missing. *)
Theorem updateVars_needs_every_variable (m : gmap N float) (s : Evaluator) :
  (forall out, updateVars m s = Ok out ->
     forall t, t ∈ (vars s).*2 -> is_Some (m !! t))
  /\ ((exists t, t ∈ (vars s).*2 /\ m !! t = None) ->
      forall out, updateVars m s <> Ok out).
Proof.
  assert (forall out, updateVars m s = Ok out ->
            forall t, t ∈ (vars s).*2 -> is_Some (m !! t)) as Hkeys.
  { intros out H. by eapply updateVars_loop_keys. }
  split; [exact Hkeys|].
  intros (t & Hin & Hnone) out H.
  destruct (Hkeys out H t Hin) as [x Hx]. congruence.
Qed.

Lemma updateVars_loop_changed (vs : list (N * N)) (m : gmap N float)
    (s s' : Evaluator) (b : bool) :
  updateVars_loop vs m true s = Ok (b, s') -> b = true.
Proof.
  revert s. induction vs as [|[c t] vs IH]; intros s H; simpl in *.
  - by injection H as <- _.
  - apply bind_Ok in H as (val & _ & H). apply bind_Ok in H as (x & _ & H).
    destruct (F32.ne val x).
    + apply bind_Ok in H as (s1 & _ & H). by eapply IH.
    + by eapply IH.
Qed.

Lemma updateVars_loop_equal (vs : list (N * N)) (m : gmap N float)
    (changed : bool) (s : Evaluator) :
  (forall c t, (c, t) ∈ vs ->
     exists val y, m !! t = Some val /\ stored s c = Ok y
                   /\ F32.eq val y = true) ->
  updateVars_loop vs m changed s = Ok (changed, s).
Proof.
  induction vs as [|[c t] vs IH]; simpl; intros Hall; [done|].
  destruct (Hall c t) as (val & y & Hm & Hy & Heq); [by left|].
  rewrite Hm, Hy. simpl. unfold F32.ne. unfold F32.eq in Heq.
  rewrite Heq. simpl. apply IH. intros c' t' Hin. apply Hall. by right.
Qed.

Lemma updateVars_loop_false (vs : list (N * N)) (m : gmap N float)
    (changed : bool) (s s' : Evaluator) :
  updateVars_loop vs m changed s = Ok (false, s') ->
  s' = s
  /\ forall c t, (c, t) ∈ vs ->
       exists val y, m !! t = Some val /\ stored s c = Ok y
                     /\ F32.eq val y = true.
Proof.
  revert changed. induction vs as [|[c t] vs IH]; intros changed H;
    simpl in *.
  - injection H as _ <-. split; [done|]. intros c t Hin.
    by apply elem_of_nil in Hin.
  - apply bind_Ok in H as (val & Hval & H).
    apply bind_Ok in H as (x & Hx & H).
    destruct (F32.ne val x) eqn:Hne.
    + apply bind_Ok in H as (s1 & _ & H).
      by apply updateVars_loop_changed in H.
    + destruct (IH _ H) as [-> Hall]. split; [done|].
      intros c' t' Hin. apply elem_of_cons in Hin as [[= -> ->]|Hin].
      * exists val, x. destruct (m !! t); [|done]. injection Hval as ->.
        split; [done|]. split; [done|].
        unfold F32.ne in Hne. unfold F32.eq. by destruct (SFeqb val x).
      * by apply Hall.
Qed.

(** X10.  [updateVars(m)] reports no change exactly when the value given
    for every registered variable compares equal ([==], so a zero of the
    other sign counts as equal and a NaN never does) to the value
    stored; it has then written nothing. *)
Theorem updateVars_reports_no_change_iff (m : gmap N float) (s : Evaluator) :
  (updateVars m s = Ok (false, s) <->
   forall c t, (c, t) ∈ vars s ->
     exists val y, m !! t = Some val /\ stored s c = Ok y
                   /\ F32.eq val y = true)
  /\ (forall s', updateVars m s = Ok (false, s') -> s' = s).
Proof.
  split; [split|].
  - intros H. by apply updateVars_loop_false in H as [_ H].
  - apply updateVars_loop_equal.
  - intros s' H. by apply updateVars_loop_false in H as [-> _].
Qed.

Lemma updateVars_loop_stores (full vs : list (N * N)) (m : gmap N float)
    (changed b : bool) (s s' : Evaluator) :
  vars s = full -> NoDup full.*2 -> NoDup vs.*1 ->
  (forall p, p ∈ vs -> p ∈ full) ->
  updateVars_loop vs m changed s = Ok (b, s') ->
  (exists r', s' = with_result r' s)
  /\ (forall c, c ∉ vs.*1 -> stored s' c = stored s c)
  /\ (forall c t, (c, t) ∈ vs ->
        exists val y', m !! t = Some val /\ stored s' c = Ok y'
                       /\ (y' = val \/ F32.eq val y' = true)).
Proof.
  intros Hfull Hnd2. revert changed s Hfull.
  induction vs as [|[c t] vs IH]; intros changed s Hfull Hnd1 Hsub H;
    simpl in *.
  - injection H as _ <-. split; [by exists (result s); destruct s|].
    split; [done|]. intros c t Hin. by apply elem_of_nil in Hin.
  - apply NoDup_cons in Hnd1 as [Hc Hnd1].
    apply bind_Ok in H as (val & Hval & H).
    apply bind_Ok in H as (x & Hx & H).
    assert (m !! t = Some val) as Hm by (destruct (m !! t); congruence).
    assert (forall p, p ∈ vs -> p ∈ full) as Hsub'
      by (intros p Hp; apply Hsub; by right).
    destruct (F32.ne val x) eqn:Hne.
    + apply bind_Ok in H as (s1 & Hs1 & H).
      assert ((c, t) ∈ vars s) as Hin by (rewrite Hfull; apply Hsub; by left).
      destruct (setVar_registered s s1 t c val x) as (Hv & Hrest & Hs1');
        [by rewrite Hfull|done|done|done|].
      assert (vars s1 = full) as Hfull1 by (by rewrite Hs1').
      destruct (IH _ _ Hfull1 Hnd1 Hsub' H) as ([r' ->] & Hout & Hin').
      split; [exists r'; by rewrite Hs1'|]. split.
      * intros c' Hc'. apply not_elem_of_cons in Hc' as [Hne' Hc'].
        rewrite Hout by done. by apply Hrest.
      * intros c' t' Hct. apply elem_of_cons in Hct as [[= -> ->]|Hct].
        -- exists val, val. split; [done|]. split; [|by left].
           by rewrite Hout.
        -- by apply Hin'.
    + destruct (IH _ _ Hfull Hnd1 Hsub' H) as (Hr & Hout & Hin').
      split; [done|]. split.
      * intros c' Hc'. apply not_elem_of_cons in Hc' as [Hne' Hc'].
        by apply Hout.
      * intros c' t' Hct. apply elem_of_cons in Hct as [[= -> ->]|Hct].
        -- exists val, x. split; [done|]. split; [by rewrite Hout|].
           right. unfold F32.ne in Hne. unfold F32.eq.
           by destruct (SFeqb val x).
        -- by apply Hin'.
Qed.

(** X11.  After [updateVars(m)] every registered variable stores the
    value [m] gives it, identically when it was written and up to [==]
    when it was not (a stored +0 stays when [m] says -0); only the value
    rows of the arena have been touched. *)
Theorem updateVars_stores_given_values (m : gmap N float) (b : bool)
    (s s' : Evaluator) :
  NoDup (vars s).*1 -> NoDup (vars s).*2 ->
  updateVars m s = Ok (b, s') ->
  (exists r', s' = with_result r' s)
  /\ forall c t, (c, t) ∈ vars s ->
       exists val y', m !! t = Some val /\ stored s' c = Ok y'
                      /\ (y' = val \/ F32.eq val y' = true).
Proof.
  intros Hnd1 Hnd2 H.
  destruct (updateVars_loop_stores (vars s) (vars s) m false b s s')
    as (Hr & _ & Hall); done.
Qed.

End UpdateVars.

Lemma updateVars_needs_every_variable_witness :
  ~ exists out, Evaluator.updateVars ∅ Examples.var_one = Ok out.
Proof.
  intros [out Hout].
  apply (proj2 (updateVars_needs_every_variable ∅ Examples.var_one))
    with (out := out); [|exact Hout].
  exists 7%N. split; [|reflexivity].
  simpl. apply list_elem_of_singleton. reflexivity.
Defined.

Lemma updateVars_reports_no_change_iff_witness :
  Evaluator.updateVars {[ 7%N := F32.one ]} Examples.var_one
  = Ok (false, Examples.var_one).
Proof.
  apply (proj1 (updateVars_reports_no_change_iff _ Examples.var_one)).
  simpl. intros c t Hin. apply list_elem_of_singleton in Hin.
  injection Hin as -> ->. exists F32.one, F32.one.
  split; [apply lookup_singleton_eq|]. split; reflexivity.
Defined.

Lemma updateVars_stores_given_values_witness :
  exists b s' y,
    Evaluator.updateVars {[ 7%N := F32.two ]} Examples.var_one = Ok (b, s')
    /\ Evaluator.stored s' 1 = Ok y
    /\ (y = F32.two \/ F32.eq F32.two y = true).
Proof.
  assert (is_Ok (Evaluator.updateVars {[ 7%N := F32.two ]} Examples.var_one))
    as [[b s'] Hs'] by (vm_compute; by eexists).
  destruct (updateVars_stores_given_values {[ 7%N := F32.two ]} b
              Examples.var_one s')
    as (_ & Hall); [apply NoDup_singleton|apply NoDup_singleton|exact Hs'|].
  destruct (Hall 1%N 7%N) as (val & y & Hval & Hy & Hor).
  { simpl. apply list_elem_of_singleton. reflexivity. }
  rewrite lookup_singleton_eq in Hval. injection Hval as <-.
  by exists b, s', y.
Defined.

(** ** [specialize(p)] keeps the value at [p] *)

Lemma NoDup_ids_eq (l : list Clause.Clause) (c1 c2 : Clause.Clause) :
  NoDup (Clause.id <$> l) -> c1 ∈ l -> c2 ∈ l ->
  Clause.id c1 = Clause.id c2 -> c1 = c2.
Proof.
  induction l as [|c l IH]; intros Hnd H1 H2 Heq.
  - by apply elem_of_nil in H1.
  - rewrite fmap_cons in Hnd. apply NoDup_cons in Hnd as [Hc Hnd].
    apply elem_of_cons in H1 as [->|H1]; apply elem_of_cons in H2 as [->|H2].
    + done.
    + exfalso. apply Hc. rewrite Heq. by apply list_elem_of_fmap_2.
    + exfalso. apply Hc. rewrite <- Heq. by apply list_elem_of_fmap_2.
    + by apply IH.
Qed.

Lemma ordered_prefix (S : N -> Prop) (l1 l2 : list Clause.Clause)
    (c : Clause.Clause) :
  WF.ordered S (l1 ++ c :: l2) ->
  (S (Clause.a c) \/ Clause.a c ∈ Clause.id <$> l1)
  /\ (S (Clause.b c) \/ Clause.b c ∈ Clause.id <$> l1).
Proof.
  revert S. induction l1 as [|c1 l1 IH]; intros S; simpl.
  - intros (Ha & Hb & _). split; by left.
  - intros (_ & _ & Hl). destruct (IH _ Hl) as [Ha Hb].
    split.
    + destruct Ha as [[Ha| ->]|Ha]; [by left|right; by left|right; by right].
    + destruct Hb as [[Hb| ->]|Hb]; [by left|right; by left|right; by right].
Qed.

(** A row is its first coefficient and the rest. *)
Lemma row_eq_head_drop (m m' : list (list float)) (k : N)
    (row row' : list float) :
  m !! N.to_nat k = Some row -> m' !! N.to_nat k = Some row' ->
  Evaluator.head m k 1 = Evaluator.head m' k 1 ->
  drop 1 row = drop 1 row' -> row = row'.
Proof.
  unfold Evaluator.head, at_. intros -> ->. simpl.
  destruct row as [|x row], row' as [|x' row']; simpl;
    repeat case_decide; simpl in *; try lia; try done.
  rewrite !drop_0. intros [= ->] ->. done.
Qed.

Section Specialized.
Context {num : Numeric}.

Lemma values_fold_arena_list (fuel : nat) (count : N)
    (l : list Clause.Clause) (r r' : Result.Result) :
  foldlM (fun r c => Evaluator.values_clause fuel count c r) l r = Ok r' ->
  Frame.arena count (fun k => k ∈ Clause.id <$> l) (fun _ => False) r r'.
Proof.
  apply (foldlM_inv
           (Frame.arena count (fun k => k ∈ Clause.id <$> l)
              (fun _ => False) r)).
  - intros b c b' Hc Hb Hstep. eapply arena_trans; [exact Hb|].
    apply values_clause_arena in Hstep.
    eapply arena_mono; [| |exact Hstep]; [|done].
    intros k ->. by apply list_elem_of_fmap_2.
  - apply arena_refl.
Qed.

(** Two arenas one of which is the other after some clauses have run
    agree on the rows those clauses do not write. *)
Lemma arena_agree (count : N) (K : N -> Prop) (r r' : Result.Result) :
  Frame.arena count K (fun _ => False) r r' ->
  Agree.arena (fun k => ~ K k) r r'.
Proof.
  intros ((Hshape & Hrows & _) & Hdx & Hdy & Hdz & Hi & Hj). split.
  - split; [done|]. intros k Hk. unfold Evaluator.head, at_.
    by rewrite (Hrows k Hk).
  - apply rows_none in Hdx, Hdy, Hdz.
    destruct r, r'; simpl in *. by subst.
Qed.

(** A clause that writes what its row already holds writes nothing. *)
Lemma values_clause_same_row (fuel : nat) (c : Clause.Clause)
    (r r' : Result.Result) :
  Evaluator.values_clause fuel 1 c r = Ok r' ->
  Evaluator.head (Result.f r') (Clause.id c) 1
  = Evaluator.head (Result.f r) (Clause.id c) 1 ->
  r' = r.
Proof.
  intros Hc Hhead.
  pose proof (values_clause_arena _ _ _ _ _ Hc)
    as ((Hshape & Hrows & Htail) & Hdx & Hdy & Hdz & Hi & Hj).
  apply rows_none in Hdx, Hdy, Hdz.
  assert (Result.f r' = Result.f r) as Hf.
  { apply list_eq. intros i.
    destruct (decide (N.of_nat i = Clause.id c)) as [Hi'|Hne].
    - specialize (Htail i).
      pose proof (shape_lookup _ _ i Hshape) as Hlen.
      assert (i = N.to_nat (Clause.id c)) as -> by lia.
      destruct (Result.f r' !! N.to_nat (Clause.id c)) as [row'|] eqn:E',
               (Result.f r !! N.to_nat (Clause.id c)) as [row|] eqn:E;
        simpl in *; try done.
      f_equal. eapply (row_eq_head_drop _ _ (Clause.id c)); [done|done|done|].
      by injection Htail.
    - specialize (Hrows (N.of_nat i) Hne). by rewrite Nat2N.id in Hrows. }
  destruct r, r'; simpl in *. by subst.
Qed.

(** After [values(1)] on a tape in evaluation order with distinct slots,
    the arena is a fixed point of every clause: running the clause again
    changes nothing. *)
Lemma values_fold_fixed (fuel : nat) (S : N -> Prop)
    (l : list Clause.Clause) (r0 r1 : Result.Result) :
  NoDup (Clause.id <$> l) -> WF.ordered S l ->
  (forall k, S k -> k ∉ Clause.id <$> l) ->
  foldlM (fun r c => Evaluator.values_clause fuel 1 c r) l r0 = Ok r1 ->
  forall c, c ∈ l -> Evaluator.values_clause fuel 1 c r1 = Ok r1.
Proof.
  revert S r0. induction l as [|c l IH]; intros S r0 Hnd Hord Hdis H c' Hc'.
  - by apply elem_of_nil in Hc'.
  - rewrite fmap_cons in Hnd. apply NoDup_cons in Hnd as [Hc Hnd].
    destruct Hord as (Ha & Hb & Hord). simpl in H.
    apply bind_Ok in H as (ra & Hra & H).
    apply elem_of_cons in Hc' as [->|Hc'].
    + pose proof (values_fold_arena_list _ _ _ _ _ H) as Hfr.
      pose proof (values_clause_arena _ _ _ _ _ Hra) as Hfc.
      assert (Frame.arena 1
                (fun k => k = Clause.id c \/ k ∈ Clause.id <$> l)
                (fun _ => False) r0 r1) as Hall.
      { eapply arena_trans.
        - eapply arena_mono; [| |exact Hfc]; [|done]. intros k ->. by left.
        - eapply arena_mono; [| |exact Hfr]; [|done]. intros k Hk. by right. }
      apply arena_agree in Hall.
      assert (forall k, S k ->
                ~ (k = Clause.id c \/ k ∈ Clause.id <$> l)) as HS.
      { intros k Hk Hor. apply (Hdis k Hk). rewrite fmap_cons.
        destruct Hor as [Heq|Hin]; [rewrite Heq; by left|by right]. }
      pose proof (values_clause_agree _ fuel c r0 r1 Hall
                    (HS _ Ha) (HS _ Hb)) as Hag.
      rewrite Hra in Hag.
      destruct (Evaluator.values_clause fuel 1 c r1) as [r1'|] eqn:Hr1';
        simpl in Hag; [|done].
      f_equal. apply (values_clause_same_row fuel c); [done|].
      destruct Hag as [[_ Hag] _]. rewrite <- (Hag (Clause.id c));
        [|by right].
      apply arena_agree in Hfr. destruct Hfr as [[_ Hfr] _].
      by apply Hfr.
    + apply (IH (fun k => S k \/ k = Clause.id c) ra); try done.
      intros k [Hk| ->]; [|done]. intros Hin. apply (Hdis k Hk).
      rewrite fmap_cons. by right.
Qed.

(** What one step of the loop of [specialize] does to [remap]. *)
Lemma specialize_clause_remap (f : list (list float)) (c : Clause.Clause)
    (dm dm' : list bool * list N) :
  Evaluator.specialize_clause f dm c = Ok dm' ->
  dm'.2 = dm.2
  \/ exists r fa fb,
       dm'.2 = <[N.to_nat (Clause.id c) := r]> dm.2
       /\ Result.coeff f (Clause.a c) 0 = Ok fa
       /\ Result.coeff f (Clause.b c) 0 = Ok fb
       /\ ((Clause.op c = Opcode.MAX /\ F32.gt fa fb = true
            /\ r = Clause.a c)
           \/ (Clause.op c = Opcode.MAX /\ F32.gt fb fa = true
               /\ r = Clause.b c)
           \/ (Clause.op c = Opcode.MIN /\ F32.gt fa fb = true
               /\ r = Clause.b c)
           \/ (Clause.op c = Opcode.MIN /\ F32.gt fb fa = true
               /\ r = Clause.a c)).
Proof.
  unfold Evaluator.specialize_clause. intros H.
  apply bind_Ok in H as (dis & _ & H). destruct dis.
  { injection H as <-. by left. }
  apply bind_Ok in H as (dm1 & H1 & H).
  assert (dm'.2 = dm1.2) as ->.
  { apply settle_Ok in H as (r & _ & H).
    destruct (decide (r = 0%N)); [by destruct H as (_ & _ & ->)|].
    by destruct H as (_ & ->). }
  destruct (Clause.op c) eqn:Hop; try (injection H1 as <-; by left).
  - apply bind_Ok in H1 as (fa & Hfa & H1).
    apply bind_Ok in H1 as (fb & Hfb & H1).
    destruct (F32.gt fa fb) eqn:Hab.
    { apply collapse_Ok in H1 as (_ & _ & ->). right.
      exists (Clause.b c), fa, fb. do 3 (split; [done|]). tauto. }
    destruct (F32.gt fb fa) eqn:Hba.
    { apply collapse_Ok in H1 as (_ & _ & ->). right.
      exists (Clause.a c), fa, fb. do 3 (split; [done|]). tauto. }
    injection H1 as <-. by left.
  - apply bind_Ok in H1 as (fa & Hfa & H1).
    apply bind_Ok in H1 as (fb & Hfb & H1).
    destruct (F32.gt fa fb) eqn:Hab.
    { apply collapse_Ok in H1 as (_ & _ & ->). right.
      exists (Clause.a c), fa, fb. do 3 (split; [done|]). tauto. }
    destruct (F32.gt fb fa) eqn:Hba.
    { apply collapse_Ok in H1 as (_ & _ & ->). right.
      exists (Clause.b c), fa, fb. do 3 (split; [done|]). tauto. }
    injection H1 as <-. by left.
Qed.

(** The value a min or max clause has left in its row, when one operand
    is strictly the greater. *)
Lemma decided_value (fuel : nat) (c : Clause.Clause) (r1 : Result.Result)
    (r : N) (fa fb : float) :
  WF.selects ->
  Evaluator.values_clause fuel 1 c r1 = Ok r1 ->
  Result.coeff (Result.f r1) (Clause.a c) 0 = Ok fa ->
  Result.coeff (Result.f r1) (Clause.b c) 0 = Ok fb ->
  (Clause.op c = Opcode.MAX /\ F32.gt fa fb = true /\ r = Clause.a c)
  \/ (Clause.op c = Opcode.MAX /\ F32.gt fb fa = true /\ r = Clause.b c)
  \/ (Clause.op c = Opcode.MIN /\ F32.gt fa fb = true /\ r = Clause.b c)
  \/ (Clause.op c = Opcode.MIN /\ F32.gt fb fa = true /\ r = Clause.a c) ->
  Evaluator.head (Result.f r1) (Clause.id c) 1
  = Evaluator.head (Result.f r1) r 1.
Proof.
  intros Hsel Hfix Hfa Hfb Hcase.
  assert (forall k x, Result.coeff (Result.f r1) k 0 = Ok x ->
            Evaluator.head (Result.f r1) k 1 = Ok [x]) as Hhead.
  { intros k x. unfold Result.coeff, Evaluator.head, at_.
    destruct (Result.f r1 !! N.to_nat k) as [[|y row]|]; simpl; try done.
    intros [= ->]. first [done | case_decide; [done|simpl in *; lia]]. }
  assert (forall g,
            Evaluator.assign2 1 (Evaluator.Mf, Clause.id c) g
              (Evaluator.Mf, Clause.a c) (Evaluator.Mf, Clause.b c) r1
            = Ok r1 ->
            Evaluator.head (Result.f r1) (Clause.id c) 1 = Ok [g fa fb])
    as Hout.
  { intros g. unfold Evaluator.assign2, Evaluator.rd. simpl.
    rewrite (Hhead _ _ Hfa), (Hhead _ _ Hfb). simpl.
    unfold Evaluator.wr. simpl. intros Hw.
    apply bind_Ok in Hw as (m & Hm & Hw).
    apply set_head_Ok in Hm as (row & Hrow & Hle & ->).
    assert (<[N.to_nat (Clause.id c) := [g fa fb] ++ drop (N.to_nat 1) row]>
              (Result.f r1) = Result.f r1) as Hf.
    { injection Hw as Hw. rewrite <- Hw at 2. done. }
    assert (row = [g fa fb] ++ drop (N.to_nat 1) row) as Hrow'.
    { pose proof (lookup_lt_Some _ _ _ Hrow) as Hlt.
      pose proof Hrow as Hrow2. rewrite <- Hf in Hrow2.
      rewrite list_lookup_insert_eq in Hrow2 by done.
      by injection Hrow2. }
    unfold Evaluator.head, at_. rewrite Hrow. simpl.
    case_decide; [|lia]. by rewrite Hrow'. }
  unfold Evaluator.values_clause in Hfix.
  destruct Hcase as [(Hop & Hgt & ->)|[(Hop & Hgt & ->)|[(Hop & Hgt & ->)
                    |(Hop & Hgt & ->)]]];
    rewrite Hop in Hfix; apply Hout in Hfix; rewrite Hfix;
    destruct (Hsel _ _ Hgt) as (H1 & H2 & H3 & H4).
  - rewrite H1. symmetry. by apply Hhead.
  - rewrite H2. symmetry. by apply Hhead.
  - rewrite H3. symmetry. by apply Hhead.
  - rewrite H4. symmetry. by apply Hhead.
Qed.

(** The invariant of the loop of [specialize] on [remap]: a slot is
    remapped only to an operand of the min or max clause that writes it,
    and that operand holds the same value. *)
Lemma specialize_fold_remap (fuel : nat) (r1 : Result.Result)
    (l : list Clause.Clause) (dm0 dm : list bool * list N) :
  WF.selects ->
  (forall c, c ∈ l -> Evaluator.values_clause fuel 1 c r1 = Ok r1) ->
  (forall k r, dm0.2 !! N.to_nat k = Some r -> r = 0%N) ->
  foldlM (Evaluator.specialize_clause (Result.f r1)) l dm0 = Ok dm ->
  forall k r, dm.2 !! N.to_nat k = Some r -> r <> 0%N ->
    Evaluator.head (Result.f r1) k 1 = Evaluator.head (Result.f r1) r 1
    /\ exists c, c ∈ l /\ Clause.id c = k
                 /\ (r = Clause.a c \/ r = Clause.b c).
Proof.
  intros Hsel Hfix Hzero H.
  revert H. apply (foldlM_inv
    (fun dm => forall k r, dm.2 !! N.to_nat k = Some r -> r <> 0%N ->
       Evaluator.head (Result.f r1) k 1 = Evaluator.head (Result.f r1) r 1
       /\ exists c, c ∈ l /\ Clause.id c = k
                    /\ (r = Clause.a c \/ r = Clause.b c))).
  - intros b c b' Hc Hb Hstep k r Hk Hr.
    apply specialize_clause_remap in Hstep
      as [Heq|(r' & fa & fb & Heq & Hfa & Hfb & Hcase)];
      rewrite Heq in Hk; [by apply Hb|].
    destruct (decide (k = Clause.id c)) as [->|Hne].
    + assert (N.to_nat (Clause.id c) < length b.2)%nat as Hlt.
      { apply lookup_lt_Some in Hk. by rewrite length_insert in Hk. }
      rewrite list_lookup_insert_eq in Hk by done. injection Hk as ->.
      split.
      * by apply (decided_value fuel c r1 r fa fb Hsel (Hfix c Hc)).
      * exists c. split; [done|]. split; [done|].
        destruct Hcase as [(_ & _ & ->)|[(_ & _ & ->)|[(_ & _ & ->)
                          |(_ & _ & ->)]]]; tauto.
    + rewrite list_lookup_insert_ne in Hk; [by apply Hb|].
      intros Heq'. apply N2Nat.inj in Heq'. by subst.
  - intros k r Hk Hr. by apply Hzero in Hk.
Qed.

Lemma reaches_same_value (f : list (list float)) (m : list N) (r r' : N) :
  (forall k r, m !! N.to_nat k = Some r -> r <> 0%N ->
     Evaluator.head f k 1 = Evaluator.head f r 1) ->
  WF.reaches m r r' ->
  Evaluator.head f r 1 = Evaluator.head f r' 1.
Proof.
  intros Hinv. induction 1 as [r Hr|r ra r' Hr Hne _ IH]; [done|].
  by rewrite (Hinv r ra Hr Hne).
Qed.

(** Following [remap] from a slot that is ready before the clause [c]
    runs leads to slots that are ready before [c] runs. *)
Lemma reaches_ready (S : N -> Prop) (m : list N)
    (l1 l2 : list Clause.Clause) (c : Clause.Clause) (r r' : N) :
  NoDup (Clause.id <$> (l1 ++ c :: l2)) ->
  WF.ordered S (l1 ++ c :: l2) ->
  (forall k, S k -> k ∉ Clause.id <$> (l1 ++ c :: l2)) ->
  (forall k r, m !! N.to_nat k = Some r -> r <> 0%N ->
     exists c', c' ∈ l1 ++ c :: l2 /\ Clause.id c' = k
                /\ (r = Clause.a c' \/ r = Clause.b c')) ->
  WF.reaches m r r' ->
  S r \/ r ∈ Clause.id <$> l1 ->
  S r' \/ r' ∈ Clause.id <$> l1.
Proof.
  intros Hnd Hord Hdis Hinv.
  induction 1 as [r Hr|r ra r' Hr Hne _ IH]; [done|].
  intros Hready. apply IH.
  destruct (Hinv r ra Hr Hne) as (c' & Hc' & Hid & Hra).
  destruct Hready as [HS|Hin].
  { exfalso. apply (Hdis r HS). rewrite <- Hid.
    by apply list_elem_of_fmap_2. }
  apply list_elem_of_fmap in Hin as (c1 & Hid1 & Hc1).
  assert (c1 = c') as ->.
  { apply (NoDup_ids_eq (l1 ++ c :: l2)); [done| |done|congruence].
    apply elem_of_app. by left. }
  apply list_elem_of_split in Hc1 as (la & lb & ->).
  rewrite <- app_assoc in Hord. simpl in Hord.
  apply ordered_prefix in Hord as [Ha Hb].
  assert (forall k, S k \/ k ∈ Clause.id <$> la ->
            S k \/ k ∈ Clause.id <$> (la ++ c' :: lb)) as Hup.
  { intros k [Hk|Hk]; [by left|]. right. rewrite fmap_app.
    apply elem_of_app. by left. }
  destruct Hra as [-> | ->]; by apply Hup.
Qed.

(** A clause whose operand slots are exchanged for slots that hold the
    same values computes the same. *)
Lemma values_clause_operands (fuel : nat) (c c' : Clause.Clause)
    (r : Result.Result) :
  Clause.op c' = Clause.op c -> Clause.id c' = Clause.id c ->
  Evaluator.head (Result.f r) (Clause.a c') 1
  = Evaluator.head (Result.f r) (Clause.a c) 1 ->
  Evaluator.head (Result.f r) (Clause.b c') 1
  = Evaluator.head (Result.f r) (Clause.b c) 1 ->
  Clause.id c <> Clause.b c -> Clause.id c <> Clause.b c' ->
  Evaluator.values_clause fuel 1 c' r = Evaluator.values_clause fuel 1 c r.
Proof.
  intros Hop Hid Ha Hb Hne Hne'.
  unfold Evaluator.values_clause, Evaluator.assign1, Evaluator.assign2,
    Evaluator.rd. simpl.
  rewrite Hop, Hid, Ha, Hb.
  rewrite (bool_decide_eq_false_2 _ Hne), (bool_decide_eq_false_2 _ Hne').
  done.
Qed.

Lemma foldlM_fixed {A B} (k : B -> A -> res B) (l : list A) (b : B) :
  (forall x, x ∈ l -> k b x = Ok b) -> foldlM k l b = Ok b.
Proof.
  induction l as [|x l IH]; intros Hk; simpl; [done|].
  rewrite Hk by by left. simpl. apply IH. intros y Hy. apply Hk. by right.
Qed.

End Specialized.

Lemma rev_is_reverse {A} (l : list A) : rev l = reverse l.
Proof. unfold reverse. apply rev_alt. Qed.

Lemma elem_of_rev {A} (x : A) (l : list A) : x ∈ rev l <-> x ∈ l.
Proof. rewrite rev_is_reverse. apply elem_of_reverse. Qed.

Lemma NoDup_ids_rev (l : list Clause.Clause) :
  NoDup (Clause.id <$> l) -> NoDup (Clause.id <$> rev l).
Proof.
  intros Hnd. by rewrite <- (Permutation_rev l).
Qed.

Lemma set_coeff_get (m m' : list (list float)) (k : N) (v : float) :
  Result.set_coeff m k 0 v = Ok m' ->
  Result.coeff m' k 0 = Ok v
  /\ forall k', k' <> k -> m' !! N.to_nat k' = m !! N.to_nat k'.
Proof.
  unfold Result.set_coeff, Result.coeff. intros H.
  apply bind_Ok in H as (row & Hrow & H). apply at_Ok in Hrow.
  apply bind_Ok in H as (row' & Hrow' & H).
  apply store_Ok in Hrow' as [Hlt ->]. apply store_Ok in H as [Hlt' ->].
  split.
  - unfold at_. rewrite list_lookup_insert_eq by done. simpl.
    by rewrite list_lookup_insert_eq by done.
  - intros k' Hne. apply list_lookup_insert_ne. intros Heq.
    apply N2Nat.inj in Heq. by subst.
Qed.

Lemma set_coeff_same (m : list (list float)) (k : N) (v : float) :
  Result.coeff m k 0 = Ok v -> Result.set_coeff m k 0 v = Ok m.
Proof.
  unfold Result.set_coeff, Result.coeff, store, at_.
  destruct (m !! N.to_nat k) as [row|] eqn:Hrow; simpl; [|done].
  destruct (row !! N.to_nat 0) as [y|] eqn:Hy; simpl; [|done].
  intros [= ->]. rewrite (list_insert_id row _ _ Hy).
  by rewrite list_insert_id.
Qed.

Lemma coeff_lookup (m m' : list (list float)) (k j : N) :
  m' !! N.to_nat k = m !! N.to_nat k ->
  Result.coeff m' k j = Result.coeff m k j.
Proof. unfold Result.coeff, at_. by intros ->. Qed.

Lemma head_coeff_slots (m : list (list float)) (k k' : N) :
  Evaluator.head m k 1 = Evaluator.head m k' 1 ->
  Result.coeff m k 0 = Result.coeff m k' 0.
Proof.
  unfold Evaluator.head, Result.coeff, at_.
  destruct (m !! N.to_nat k) as [[|x1 row1]|],
           (m !! N.to_nat k') as [[|x2 row2]|]; simpl; try done;
    repeat case_decide; simpl in *; try lia; try done.
  by intros [= ->].
Qed.

Section SpecializedValue.
Context {num : Numeric}.

(** The slot of a clause is not ready before the clause has run. *)
Lemma not_ready_self (S : N -> Prop) (l1 l2 : list Clause.Clause)
    (c : Clause.Clause) :
  NoDup (Clause.id <$> (l1 ++ c :: l2)) ->
  (forall k, S k -> k ∉ Clause.id <$> (l1 ++ c :: l2)) ->
  ~ (S (Clause.id c) \/ Clause.id c ∈ Clause.id <$> l1).
Proof.
  intros Hnd Hdis [HS|Hin].
  - apply (Hdis _ HS). apply list_elem_of_fmap_2, elem_of_app.
    right. by left.
  - rewrite fmap_app, fmap_cons in Hnd.
    apply NoDup_app in Hnd as (_ & Hnd & _). apply (Hnd _ Hin). by left.
Qed.

Lemma input_not_written (s : Evaluator.Evaluator) (tp : Tape.Tape) (k : N) :
  WF.axes_ok s tp -> WF.input s tp k -> k ∉ Clause.id <$> Tape.t tp.
Proof.
  intros [_ Hax] [[[Hk| ->]| ->]| ->]; [done| | |]; apply Hax;
    repeat first [by left | right].
Qed.

(** X12.  [specialize(p)] keeps the value at [p]: on a tape in
    evaluation order with distinct slots, [eval(p)] on the specialized
    tape returns the value [eval(p)] returned on the tape it was made
    from, and writes nothing new into the arena. *)
Theorem specialize_keeps_value (fuel : nat) (p : Vector3f)
    (s s1 s' : Evaluator.Evaluator) (tp : Tape.Tape) (x : float) :
  WF.selects ->
  Evaluator.cur s = Ok tp ->
  NoDup (Clause.id <$> Tape.t tp) ->
  WF.axes_ok s tp ->
  WF.evaluation_order s ->
  Evaluator.eval fuel p s = Ok (x, s1) ->
  Evaluator.specialize fuel p s = Ok s' ->
  Evaluator.eval fuel p s' = Ok (x, s').
Proof.
  intros Hsel Hcur Hnd Hax Hord He Hsp.
  specialize (Hord tp Hcur).
  assert (forall k, WF.input s tp k -> k ∉ Clause.id <$> rev (Tape.t tp))
    as Hdis.
  { intros k Hk Hin. apply (proj1 (elem_of_ids_rev _ _)) in Hin.
    by apply (input_not_written s tp k). }
  pose proof (NoDup_ids_rev _ Hnd) as Hndr.
  (* the first evaluation *)
  unfold Evaluator.specialize in Hsp. rewrite He in Hsp. simpl in Hsp.
  unfold Evaluator.eval in He.
  apply bind_Ok in He as (s0 & Hset & He).
  unfold Evaluator.set in Hset.
  apply bind_Ok in Hset as (f1 & Hf1 & Hset).
  apply bind_Ok in Hset as (f2 & Hf2 & Hset).
  apply bind_Ok in Hset as (f3 & Hf3 & [= <-]).
  apply bind_Ok in He as ([row s2] & Hv & He).
  apply bind_Ok in He as (out & Hout & [= <- <-]).
  unfold Evaluator.values in Hv.
  apply bind_Ok in Hv as (tp0 & Htp0 & Hv).
  change (Evaluator.cur s = Ok tp0) in Htp0.
  rewrite Hcur in Htp0. injection Htp0 as <-.
  apply bind_Ok in Hv as (r1 & Hr1 & Hv).
  apply bind_Ok in Hv as (o & _ & [= <- <-]). simpl in Hr1, Hout, Hsp.
  (* the arena is a fixed point of the clauses *)
  pose proof (values_fold_fixed fuel _ _ _ _ Hndr Hord Hdis Hr1) as Hfix.
  pose proof (values_fold_arena_list _ _ _ _ _ Hr1)
    as ((_ & Hrows & _) & _).
  simpl in Hrows.
  destruct Hax as [Hxyz Hax].
  apply NoDup_cons in Hxyz as [HX Hxyz].
  apply NoDup_cons in Hxyz as [HY _].
  assert (Evaluator.X s <> Evaluator.Y s) as HXY
    by (intros Heq; apply HX; rewrite Heq; by left).
  assert (Evaluator.X s <> Evaluator.Z s) as HXZ
    by (intros Heq; apply HX; rewrite Heq; right; by left).
  assert (Evaluator.Y s <> Evaluator.Z s) as HYZ
    by (intros Heq; apply HY; rewrite Heq; by left).
  destruct (set_coeff_get _ _ _ _ Hf1) as [H1 H1'].
  destruct (set_coeff_get _ _ _ _ Hf2) as [H2 H2'].
  destruct (set_coeff_get _ _ _ _ Hf3) as [H3 H3'].
  assert (forall k, k ∈ [Evaluator.X s; Evaluator.Y s; Evaluator.Z s] ->
            Result.f r1 !! N.to_nat k = f3 !! N.to_nat k) as Haxis.
  { intros k Hk. apply Hrows. intros Hin. apply (proj1 (elem_of_ids_rev _ _)) in Hin.
    by apply (Hax k). }
  assert (Result.coeff (Result.f r1) (Evaluator.X s) 0 = Ok (vx p)) as HvX.
  { rewrite (coeff_lookup f3) by (apply Haxis; by left).
    rewrite (coeff_lookup f2) by by apply H3'.
    by rewrite (coeff_lookup f1) by by apply H2'. }
  assert (Result.coeff (Result.f r1) (Evaluator.Y s) 0 = Ok (vy p)) as HvY.
  { rewrite (coeff_lookup f3) by (apply Haxis; right; by left).
    by rewrite (coeff_lookup f2) by by apply H3'. }
  assert (Result.coeff (Result.f r1) (Evaluator.Z s) 0 = Ok (vz p)) as HvZ.
  { by rewrite (coeff_lookup f3) by (apply Haxis; right; right; by left). }
  (* the loop of specialize *)
  apply bind_Ok in Hsp as (tp0 & Htp0 & Hsp).
  change (Evaluator.cur s = Ok tp0) in Htp0.
  rewrite Hcur in Htp0. injection Htp0 as <-.
  apply bind_Ok in Hsp as (dm0 & Hdm0 & Hsp).
  apply bind_Ok in Hsp as (dm & Hdm & Hsp).
  apply reset_Ok in Hdm0 as [_ ->].
  assert (forall k r, dm.2 !! N.to_nat k = Some r -> r <> 0%N ->
            Evaluator.head (Result.f r1) k 1
            = Evaluator.head (Result.f r1) r 1
            /\ exists c, c ∈ Tape.t tp /\ Clause.id c = k
                         /\ (r = Clause.a c \/ r = Clause.b c)) as Hinv.
  { eapply (specialize_fold_remap fuel r1); [done| | |exact Hdm].
    - intros c Hc. apply Hfix. by apply elem_of_rev.
    - simpl. intros k r Hk. by apply lookup_replicate in Hk as [-> _]. }
  (* the pushed tape *)
  apply pushTape_Ok in Hsp
    as (prev & new & ts & Hprev & -> & Hnew & _ & _ & Hred & Hroot).
  change (Evaluator.cur s = Ok prev) in Hprev.
  rewrite Hcur in Hprev. injection Hprev as <-. simpl in Hred, Hroot.
  assert (forall c', c' ∈ Tape.t new ->
            Evaluator.values_clause fuel 1 c' r1 = Ok r1) as Hnewfix.
  { intros c' Hc'. apply list_elem_of_lookup_1 in Hc' as [i Hi].
    destruct (Forall2_lookup_r _ _ _ _ _ Hred Hi)
      as (c & Hc & Hop & Hid & Hra & Hrb).
    apply list_elem_of_lookup_2, list_elem_of_filter in Hc as [_ Hc].
    assert (c ∈ rev (Tape.t tp)) as Hcr by by apply elem_of_rev.
    apply list_elem_of_split in Hcr as (l1 & l2 & Hsplit).
    rewrite Hsplit in Hndr, Hord, Hdis.
    assert (forall k r, dm.2 !! N.to_nat k = Some r -> r <> 0%N ->
              exists c0, c0 ∈ l1 ++ c :: l2 /\ Clause.id c0 = k
                         /\ (r = Clause.a c0 \/ r = Clause.b c0)) as Hinv'.
    { intros k r Hk Hr. destruct (Hinv k r Hk Hr) as (_ & c0 & Hc0 & H0).
      exists c0. split; [|done]. rewrite <- Hsplit. by apply elem_of_rev. }
    pose proof (not_ready_self _ _ _ _ Hndr Hdis) as Hself.
    destruct (ordered_prefix _ _ _ _ Hord) as [_ Hb].
    pose proof (reaches_ready _ _ _ _ _ _ _ Hndr Hord Hdis Hinv' Hrb Hb)
      as Hb'.
    rewrite (values_clause_operands fuel c c' r1);
      [apply Hfix; rewrite Hsplit; apply elem_of_app; right; by left
      | | | | | |].
    - done.
    - done.
    - symmetry. apply (reaches_same_value _ dm.2); [|done].
      intros k r Hk Hr. by apply Hinv.
    - symmetry. apply (reaches_same_value _ dm.2); [|done].
      intros k r Hk Hr. by apply Hinv.
    - intros Heq. apply Hself. by rewrite Heq.
    - intros Heq. apply Hself. by rewrite Heq. }
  (* the second evaluation *)
  assert (Result.coeff (Result.f r1) (Tape.i new) 0 = Ok out) as Hx.
  { rewrite <- Hout. apply head_coeff_slots. symmetry.
    apply (reaches_same_value _ dm.2); [|done].
    intros k r Hk Hr. by apply Hinv. }
  unfold Evaluator.eval, Evaluator.set. simpl.
  rewrite (set_coeff_same _ _ _ HvX). simpl.
  rewrite (set_coeff_same _ _ _ HvY). simpl.
  rewrite (set_coeff_same _ _ _ HvZ). simpl.
  unfold Evaluator.values, Evaluator.cur. simpl. simpl in Hnew.
  rewrite Hnew. simpl.
  replace (Result.with_f (Result.f r1) r1) with r1 by by destruct r1.
  rewrite foldlM_fixed.
  - simpl. rewrite Hx. simpl. by rewrite Hx.
  - intros c' Hc'. apply Hnewfix. by apply elem_of_rev.
Qed.

End SpecializedValue.

Lemma SFltb_asym (x y : float) : SFltb x y = true -> SFltb y x = false.
Proof.
  intros H. destruct (SFltb y x) eqn:H'; [|done].
  apply SFltb_ord in H as (_ & _ & H). apply SFltb_ord in H' as (_ & _ & H').
  unfold F32.lex_lt in *.
  destruct (F32.ord x) as [[? ?] ?], (F32.ord y) as [[? ?] ?].
  simpl in *. lia.
Qed.

(** [std::min] and [std::max] on floats select. *)
Lemma sample_selects : @WF.selects Sample.numeric.
Proof.
  intros x y Hgt. unfold F32.gt in Hgt. simpl.
  unfold Sample.fmax, Sample.fmin, F32.lt.
  by rewrite Hgt, (SFltb_asym _ _ Hgt).
Qed.

Lemma specialize_keeps_value_witness :
  exists s',
    Evaluator.specialize 1 Examples.p123 Examples.max_min = Ok s'
    /\ Evaluator.eval 1 Examples.p123 s' = Ok (F32.of_Z 3, s').
Proof.
  assert (is_Ok (Evaluator.eval 1 Examples.p123 Examples.max_min))
    as [[x s1] Hs1] by (vm_compute; by eexists).
  assert (x = F32.of_Z 3) as ->.
  { vm_compute in Hs1. by injection Hs1 as <- _. }
  assert (is_Ok (Evaluator.specialize 1 Examples.p123 Examples.max_min))
    as [s' Hs'] by (vm_compute; by eexists).
  exists s'. split; [exact Hs'|].
  apply (specialize_keeps_value 1 Examples.p123 Examples.max_min s1 s'
           Examples.tape_max_min).
  - exact sample_selects.
  - reflexivity.
  - simpl. apply NoDup_cons. split.
    + intros Hin. apply list_elem_of_singleton in Hin. discriminate.
    + apply NoDup_singleton.
  - split.
    + repeat (apply NoDup_cons; split;
              [intros Hin;
               repeat (apply elem_of_cons in Hin as [Hin|Hin];
                       [discriminate|]);
               by apply elem_of_nil in Hin|]).
      apply NoDup_nil_2.
    + simpl. intros k Hk Hin.
      repeat (apply elem_of_cons in Hk as [->|Hk];
              [repeat (apply elem_of_cons in Hin as [Hin|Hin];
                       [discriminate|]);
               by apply elem_of_nil in Hin|]).
      by apply elem_of_nil in Hk.
  - exact max_min_ordered.
  - exact Hs1.
  - exact Hs'.
Defined.

(** ** The tape stack under a push *)

Section Stack.
Context {num : Numeric} {api : Feature.API}.

Lemma pushTape_stack (t : Tape.Type_) (s s' : Evaluator.Evaluator) :
  Evaluator.pushTape t s = Ok s' ->
  Evaluator.tape s' = S (Evaluator.tape s)
  /\ (forall j, j <> S (Evaluator.tape s) ->
        Evaluator.tapes s' !! j = Evaluator.tapes s !! j)
  /\ length (Evaluator.tapes s')
     = length (Evaluator.tapes s) `max` S (S (Evaluator.tape s))
  /\ Evaluator.result s' = Evaluator.result s
  /\ Evaluator.vars s' = Evaluator.vars s
  /\ Evaluator.X s' = Evaluator.X s
  /\ Evaluator.Y s' = Evaluator.Y s
  /\ Evaluator.Z s' = Evaluator.Z s.
Proof.
  unfold Evaluator.pushTape. intros H.
  apply bind_Ok in H as (prev & Hprev & H).
  apply bind_Ok in H as (cs & _ & H). apply bind_Ok in H as (root & _ & H).
  apply bind_Ok in H as (u & _ & [= <-]). simpl.
  assert (Evaluator.tape s < length (Evaluator.tapes s))%nat as Hlt.
  { unfold Evaluator.cur in Hprev.
    destruct (Evaluator.tapes s !! Evaluator.tape s) eqn:E; [|done].
    by eapply lookup_lt_Some. }
  split; [done|].
  destruct (Evaluator.tapes s !! S (Evaluator.tape s)) as [old|] eqn:Hold.
  - apply lookup_lt_Some in Hold as Hlt'. split; [|split; [|done]].
    + intros j Hj. by rewrite list_lookup_insert_ne.
    + rewrite length_insert. lia.
  - apply lookup_ge_None in Hold. split; [|split; [|done]].
    + intros j Hj. destruct (decide (j < length (Evaluator.tapes s))%nat).
      * by rewrite lookup_app_l.
      * rewrite !(proj2 (lookup_ge_None _ _)); [done|lia|].
        rewrite length_app. simpl. lia.
    + rewrite length_app. simpl. lia.
Qed.

(** X13.  No push erases or alters another tape: after [push()],
    [push(Feature)] or [specialize(p)] the cursor is one tape up, every
    tape of the stack but the one at the new cursor is as it was (those
    above it are kept for reuse), the stack has grown by at most the one
    tape, and the variables and axis slots are the same; [push()] and
    [push(Feature)] leave the arena as well. *)
Theorem pushes_keep_other_tapes (s s' : Evaluator.Evaluator) :
  WF.pushed s s' ->
  Evaluator.tape s' = S (Evaluator.tape s)
  /\ (forall j, j <> S (Evaluator.tape s) ->
        Evaluator.tapes s' !! j = Evaluator.tapes s !! j)
  /\ length (Evaluator.tapes s')
     = length (Evaluator.tapes s) `max` S (S (Evaluator.tape s))
  /\ Evaluator.vars s' = Evaluator.vars s
  /\ Evaluator.X s' = Evaluator.X s
  /\ Evaluator.Y s' = Evaluator.Y s
  /\ Evaluator.Z s' = Evaluator.Z s
  /\ ((Evaluator.push s = Ok s'
       \/ exists f out, Evaluator.push_Feature f s = Ok (out, s')) ->
      Evaluator.result s' = Evaluator.result s).
Proof.
  assert (forall t d m s1,
            Evaluator.pushTape t (Evaluator.with_scratch d m s) = Ok s1 ->
            Evaluator.tape s1 = S (Evaluator.tape s)
            /\ (forall j, j <> S (Evaluator.tape s) ->
                  Evaluator.tapes s1 !! j = Evaluator.tapes s !! j)
            /\ length (Evaluator.tapes s1)
               = length (Evaluator.tapes s) `max` S (S (Evaluator.tape s))
            /\ Evaluator.result s1 = Evaluator.result s
            /\ Evaluator.vars s1 = Evaluator.vars s
            /\ Evaluator.X s1 = Evaluator.X s
            /\ Evaluator.Y s1 = Evaluator.Y s
            /\ Evaluator.Z s1 = Evaluator.Z s) as Hpt.
  { intros t d m s1 H. by apply pushTape_stack in H. }
  assert (forall s1,
            Evaluator.push s = Ok s1 ->
            Evaluator.tape s1 = S (Evaluator.tape s)
            /\ (forall j, j <> S (Evaluator.tape s) ->
                  Evaluator.tapes s1 !! j = Evaluator.tapes s !! j)
            /\ length (Evaluator.tapes s1)
               = length (Evaluator.tapes s) `max` S (S (Evaluator.tape s))
            /\ Evaluator.result s1 = Evaluator.result s
            /\ Evaluator.vars s1 = Evaluator.vars s
            /\ Evaluator.X s1 = Evaluator.X s
            /\ Evaluator.Y s1 = Evaluator.Y s
            /\ Evaluator.Z s1 = Evaluator.Z s) as Hpush.
  { intros s1 H. unfold Evaluator.push in H.
    apply bind_Ok in H as (tp & _ & H). apply bind_Ok in H as (dm0 & _ & H).
    apply bind_Ok in H as (dm & _ & H). apply bind_Ok in H as (s2 & Hs2 & H).
    apply bind_Ok in H as (x & _ & H). apply bind_Ok in H as (y & _ & H).
    apply bind_Ok in H as (z & _ & H).
    apply set_box_Ok in H as (tp' & _ & ->).
    apply Hpt in Hs2 as (Ht & Hj & Hlen & Hr & Hv & HX & HY & HZ).
    simpl. split; [done|]. split; [|split; [|done]].
    - intros j Hne. rewrite Ht. by rewrite list_lookup_insert_ne; [apply Hj|].
    - by rewrite length_insert. }
  assert (forall f out s1,
            Evaluator.push_Feature f s = Ok (out, s1) ->
            Evaluator.tape s1 = S (Evaluator.tape s)
            /\ (forall j, j <> S (Evaluator.tape s) ->
                  Evaluator.tapes s1 !! j = Evaluator.tapes s !! j)
            /\ length (Evaluator.tapes s1)
               = length (Evaluator.tapes s) `max` S (S (Evaluator.tape s))
            /\ Evaluator.result s1 = Evaluator.result s
            /\ Evaluator.vars s1 = Evaluator.vars s
            /\ Evaluator.X s1 = Evaluator.X s
            /\ Evaluator.Y s1 = Evaluator.Y s
            /\ Evaluator.Z s1 = Evaluator.Z s) as Hfeat.
  { intros f out s1 H. unfold Evaluator.push_Feature in H.
    apply bind_Ok in H as (tp & _ & H). apply bind_Ok in H as (dm0 & _ & H).
    apply bind_Ok in H as ([[itr out'] dm] & _ & H).
    apply bind_Ok in H as (u & _ & H). apply bind_Ok in H as (s2 & Hs2 & H).
    injection H as _ <-. by apply Hpt in Hs2. }
  intros Hp. split; [|split; [|split; [|split; [|split; [|split; [|split]]]]]].
  8: { intros [H|(f & out & H)];
         [by apply Hpush in H as (_ & _ & _ & ? & _)
         |by apply Hfeat in H as (_ & _ & _ & ? & _)]. }
  all: destruct Hp as [H|f out H|fuel p H];
    [apply Hpush in H as (? & ? & ? & ? & ? & ? & ? & ?); done
    |apply Hfeat in H as (? & ? & ? & ? & ? & ? & ? & ?); done
    |].
  all: unfold Evaluator.specialize in H;
    apply bind_Ok in H as ([x s1] & He & H);
    apply eval_frame in He as [r ->];
    apply bind_Ok in H as (tp & _ & H); apply bind_Ok in H as (dm0 & _ & H);
    apply bind_Ok in H as (dm & _ & H);
    apply pushTape_stack in H as (? & ? & ? & ? & ? & ? & ? & ?); done.
Qed.

End Stack.

Lemma pushes_keep_other_tapes_witness :
  exists s',
    Evaluator.push Examples.stacked = Ok s'
    /\ Evaluator.tape s' = 3%nat
    /\ Evaluator.tapes s' !! 1%nat = Evaluator.tapes Examples.stacked !! 1%nat
    /\ length (Evaluator.tapes s') = 4%nat.
Proof.
  assert (is_Ok (Evaluator.push Examples.stacked)) as [s' Hs']
    by (vm_compute; by eexists).
  destruct (pushes_keep_other_tapes Examples.stacked s'
              (WF.pushed_interval _ _ Hs'))
    as (Ht & Hj & Hlen & _).
  exists s'. split; [exact Hs'|]. split; [exact Ht|].
  split; [by apply Hj|exact Hlen].
Defined.

(** ** The box of an interval push *)

Section Box.
Context {num : Numeric}.

Lemma interval_fold_frame (l : list Clause.Clause) (iv iv' : list Interval.I) :
  foldlM (fun iv c => Evaluator.interval_clause c iv) l iv = Ok iv' ->
  forall k, k ∉ Clause.id <$> l -> iv' !! N.to_nat k = iv !! N.to_nat k.
Proof.
  revert iv. induction l as [|c l IH]; intros iv H k Hk; simpl in H.
  - by injection H as <-.
  - apply bind_Ok in H as (iv1 & H1 & H).
    rewrite fmap_cons in Hk. apply not_elem_of_cons in Hk as [Hne Hk].
    rewrite (IH _ H k Hk).
    by apply interval_clause_frame in H1 as [_ H1]; apply H1.
Qed.

Lemma store_get {A} (l l' : list A) (k : N) (x : A) :
  store l k x = Ok l' ->
  l' !! N.to_nat k = Some x
  /\ forall k', k' <> k -> l' !! N.to_nat k' = l !! N.to_nat k'.
Proof.
  intros H. apply store_Ok in H as [Hlt ->]. split.
  - by apply list_lookup_insert_eq.
  - intros k' Hne. apply list_lookup_insert_ne. intros Heq.
    apply N2Nat.inj in Heq. by subst.
Qed.

(** X14.  [push()] after [eval(lower, upper)] tags the new tape INTERVAL
    and stores in it the very box that was evaluated, axis by axis (the
    axes having slots of their own that no clause writes): this is the
    box [baseEval] later tests points against. *)
Theorem push_records_evaluated_box (lower upper : Vector3f)
    (s s1 s2 : Evaluator.Evaluator) (tp : Tape.Tape) (out : Interval.I) :
  Evaluator.cur s = Ok tp ->
  WF.axes_ok s tp ->
  Evaluator.eval_interval lower upper s = Ok (out, s1) ->
  Evaluator.push s1 = Ok s2 ->
  exists new,
    Evaluator.cur s2 = Ok new
    /\ Tape.type new = Tape.INTERVAL
    /\ Tape.X new = I_make (vx lower) (vx upper)
    /\ Tape.Y new = I_make (vy lower) (vy upper)
    /\ Tape.Z new = I_make (vz lower) (vz upper).
Proof.
  intros Hcur [Hxyz Hax] He Hp.
  apply NoDup_cons in Hxyz as [HX Hxyz].
  apply NoDup_cons in Hxyz as [HY _].
  assert (Evaluator.X s <> Evaluator.Y s) as HXY
    by (intros Heq; apply HX; rewrite Heq; by left).
  assert (Evaluator.X s <> Evaluator.Z s) as HXZ
    by (intros Heq; apply HX; rewrite Heq; right; by left).
  assert (Evaluator.Y s <> Evaluator.Z s) as HYZ
    by (intros Heq; apply HY; rewrite Heq; by left).
  unfold Evaluator.eval_interval, Evaluator.set_interval in He.
  apply bind_Ok in He as (s0 & Hs0 & He).
  apply bind_Ok in Hs0 as (i1 & Hi1 & Hs0).
  apply bind_Ok in Hs0 as (i2 & Hi2 & Hs0).
  apply bind_Ok in Hs0 as (i3 & Hi3 & [= <-]).
  destruct (store_get _ _ _ _ Hi1) as [H1 _].
  destruct (store_get _ _ _ _ Hi2) as [H2 H2'].
  destruct (store_get _ _ _ _ Hi3) as [H3 H3'].
  unfold Evaluator.interval in He.
  apply bind_Ok in He as (tp0 & Htp0 & He).
  change (Evaluator.cur s = Ok tp0) in Htp0.
  rewrite Hcur in Htp0. injection Htp0 as <-.
  apply bind_Ok in He as (iv & Hiv & He).
  apply bind_Ok in He as (o & _ & [= _ <-]). simpl in Hiv.
  assert (forall k, k ∈ [Evaluator.X s; Evaluator.Y s; Evaluator.Z s] ->
            iv !! N.to_nat k = i3 !! N.to_nat k) as Haxis.
  { intros k Hk. apply (interval_fold_frame _ _ _ Hiv). intros Hin.
    apply (proj1 (elem_of_ids_rev _ _)) in Hin. by apply (Hax k). }
  unfold Evaluator.push in Hp.
  apply bind_Ok in Hp as (tp1 & _ & Hp). apply bind_Ok in Hp as (dm0 & _ & Hp).
  apply bind_Ok in Hp as (dm & _ & Hp). apply bind_Ok in Hp as (s3 & Hs3 & Hp).
  apply bind_Ok in Hp as (x & Hx & Hp). apply bind_Ok in Hp as (y & Hy & Hp).
  apply bind_Ok in Hp as (z & Hz & Hp).
  apply pushTape_reduced in Hs3 as Hred.
  destruct Hred as (prev & new & _ & Hnew & _ & _ & _ & _ & Htype & _).
  apply pushTape_stack in Hs3 as (_ & _ & _ & Hr & _ & HX3 & HY3 & HZ3).
  simpl in Hr, HX3, HY3, HZ3.
  rewrite Hr, HX3 in Hx. rewrite Hr, HY3 in Hy. rewrite Hr, HZ3 in Hz.
  simpl in Hx, Hy, Hz.
  apply at_Ok in Hx, Hy, Hz.
  rewrite Haxis in Hx by by left.
  rewrite Haxis in Hy by (right; by left).
  rewrite Haxis in Hz by (right; right; by left).
  rewrite H3', H2' in Hx by done. rewrite H3' in Hy by done.
  assert (x = I_make (vx lower) (vx upper)) as -> by congruence.
  assert (y = I_make (vy lower) (vy upper)) as -> by congruence.
  assert (z = I_make (vz lower) (vz upper)) as -> by congruence.
  apply set_box_Ok in Hp as (tp' & Htp' & ->).
  assert (tp' = new) as -> by congruence.
  eexists. split; [by eapply cur_with_tapes_insert|]. done.
Qed.

End Box.

Lemma push_records_evaluated_box_witness :
  exists out s1 s2 new,
    Evaluator.eval_interval Examples.p123 Examples.p123 Examples.max_min
    = Ok (out, s1)
    /\ Evaluator.push s1 = Ok s2
    /\ Evaluator.cur s2 = Ok new
    /\ Tape.type new = Tape.INTERVAL
    /\ Tape.X new = Sample.make (F32.of_Z 1) (F32.of_Z 1).
Proof.
  assert (is_Ok (Evaluator.eval_interval Examples.p123 Examples.p123
                   Examples.max_min)) as [[out s1] Hs1]
    by (vm_compute; by eexists).
  assert (is_Ok (Evaluator.push s1)) as [s2 Hs2].
  { vm_compute in Hs1. injection Hs1 as _ <-. vm_compute. by eexists. }
  destruct (push_records_evaluated_box Examples.p123 Examples.p123
              Examples.max_min s1 s2 Examples.tape_max_min out)
    as (new & Hnew & Htype & HX & _); [reflexivity| |exact Hs1|exact Hs2|].
  - split.
    + repeat (apply NoDup_cons; split;
              [intros Hin;
               repeat (apply elem_of_cons in Hin as [Hin|Hin];
                       [discriminate|]);
               by apply elem_of_nil in Hin|]).
      apply NoDup_nil_2.
    + simpl. intros k Hk Hin.
      repeat (apply elem_of_cons in Hk as [->|Hk];
              [repeat (apply elem_of_cons in Hin as [Hin|Hin];
                       [discriminate|]);
               by apply elem_of_nil in Hin|]).
      by apply elem_of_nil in Hk.
  - by exists out, s1, s2, new.
Defined.

(** ** The map [gradient] returns *)

Section GradientMap.
Context {num : Numeric}.

Lemma gradient_unpack_spec (vs : list (N * N)) (j : list (list float))
    (ti : N) (index : nat) (out m : gmap N float) :
  Evaluator.gradient_unpack vs j ti index out = Ok m ->
  dom m = list_to_set vs.*2 ∪ dom out
  /\ (forall t, t ∉ vs.*2 -> m !! t = out !! t)
  /\ (NoDup vs.*2 ->
      forall i c t, vs !! i = Some (c, t) ->
        exists row x, j !! N.to_nat ti = Some row
                      /\ row !! (index + i)%nat = Some x
                      /\ m !! t = Some x).
Proof.
  revert index out. induction vs as [|[c t] vs IH]; intros index out H;
    simpl in H.
  - injection H as <-. split; [simpl; by rewrite (left_id_L ∅ (∪))|].
    split; [done|].
    intros _ i c t Hi. done.
  - apply bind_Ok in H as (row & Hrow & H). apply at_Ok in Hrow.
    apply bind_Ok in H as (x & Hx & H).
    assert (row !! index = Some x) as Hx'
      by (destruct (row !! index); congruence).
    destruct (IH _ _ H) as (Hdom & Hout & Hin). split; [|split].
    + rewrite Hdom, dom_insert_L. simpl.
      by rewrite (assoc_L (∪)), (comm_L (∪) (list_to_set vs.*2) {[t]}).
    + intros t' Ht'. simpl in Ht'. apply not_elem_of_cons in Ht' as [Hne Ht'].
      rewrite (Hout t' Ht'). simpl. by rewrite lookup_insert_ne.
    + simpl. intros Hnd i c' t' Hi. apply NoDup_cons in Hnd as [Ht Hnd].
      destruct i as [|i]; simpl in Hi.
      * injection Hi as <- <-. exists row, x. split; [done|].
        split; [by rewrite Nat.add_0_r|].
        rewrite (Hout t Ht). simpl. by rewrite lookup_insert_eq.
      * destruct (Hin Hnd i c' t' Hi) as (row' & x' & Hrow' & Hx'' & Hm).
        exists row', x'. split; [done|]. split; [|done].
        by replace (index + S i)%nat with (S index + i)%nat by lia.
Qed.

(** X15.  [gradient(p)] returns a map whose keys are exactly the
    registered variables (the empty map when there are none); the entry
    of the [i]-th variable is the [i]-th coefficient of the Jacobian row
    of the root. *)
Theorem gradient_maps_every_variable (fuel : nat) (p : Vector3f)
    (s s' : Evaluator.Evaluator) (m : gmap N float) :
  Evaluator.gradient fuel p s = Ok (m, s') ->
  dom m = list_to_set (Evaluator.vars s).*2
  /\ (NoDup (Evaluator.vars s).*2 ->
      forall i c t, Evaluator.vars s !! i = Some (c, t) ->
        exists tp row x,
          Evaluator.cur s = Ok tp
          /\ Result.j (Evaluator.result s') !! N.to_nat (Tape.i tp) = Some row
          /\ row !! i = Some x
          /\ m !! t = Some x).
Proof.
  unfold Evaluator.gradient. intros H.
  apply bind_Ok in H as (s1 & Hs1 & H). apply set_frame in Hs1 as [r1 ->].
  apply bind_Ok in H as ([row s2] & Hv & H).
  apply values_frame in Hv as [r2 ->].
  apply bind_Ok in H as (tp & Htp & H).
  change (Evaluator.cur s = Ok tp) in Htp.
  apply bind_Ok in H as (r & _ & H).
  apply bind_Ok in H as (out & Hout & [= <- <-]). simpl in Hout.
  destruct (gradient_unpack_spec _ _ _ _ _ _ Hout) as (Hdom & _ & Hin).
  split.
  - rewrite Hdom. simpl. by rewrite dom_empty_L, (right_id_L ∅ (∪)).
  - intros Hnd i c t Hi.
    destruct (Hin Hnd i c t Hi) as (row' & x & Hrow & Hx & Hm).
    by exists tp, row', x.
Qed.

End GradientMap.

Lemma gradient_maps_every_variable_witness :
  exists m s',
    Evaluator.gradient 1 Examples.origin Examples.var_one = Ok (m, s')
    /\ dom m = ({[ 7%N ]} : gset N).
Proof.
  assert (is_Ok (Evaluator.gradient 1 Examples.origin Examples.var_one))
    as [[m s'] Hs'] by (vm_compute; by eexists).
  exists m, s'. split; [exact Hs'|].
  rewrite (proj1 (gradient_maps_every_variable _ _ _ _ _ Hs')).
  simpl. by rewrite (right_id_L ∅ (∪)).
Defined.

(** ** What [push(Feature)] asks of the feature *)

Section PushFeature.
Context {num : Numeric} {api : Feature.API}.

Lemma matching_Some (fa fb : float) (c : Clause.Clause)
    (itr : list Feature.Choice) (ch : Feature.Choice) :
  Evaluator.matching fa fb c itr = Some ch ->
  exists itr', itr = ch :: itr'
    /\ Feature.id ch = Clause.id c
    /\ Evaluator.is_min_max (Clause.op c) = true
    /\ (Clause.a c = Clause.b c \/ F32.eq fa fb = true).
Proof.
  unfold Evaluator.matching. destruct itr as [|ch' itr']; [done|].
  destruct (F32.eq fa fb || bool_decide (Clause.a c = Clause.b c)) eqn:H1;
    simpl; [|done].
  destruct (bool_decide (Clause.op c = Opcode.MAX)
            || bool_decide (Clause.op c = Opcode.MIN)) eqn:H2; simpl; [|done].
  destruct (bool_decide (Feature.id ch' = Clause.id c)) eqn:H3; simpl;
    [|done].
  intros [= ->]. exists itr'. split; [done|].
  apply bool_decide_eq_true in H3. split; [done|]. split.
  - unfold Evaluator.is_min_max. by rewrite orb_comm.
  - apply orb_true_iff in H1 as [H1|H1]; [by right|].
    left. by apply bool_decide_eq_true in H1.
Qed.

Lemma push_Feature_clause_itr (fv : list (list float)) (f : Feature)
    (c : Clause.Clause) (itr itr' : list Feature.Choice) (out out' : Feature)
    (dm dm' : list bool * list N) :
  Evaluator.push_Feature_clause fv f (itr, out, dm) c = Ok (itr', out', dm') ->
  itr' = itr
  \/ exists ch, itr = ch :: itr'
       /\ Feature.id ch = Clause.id c
       /\ Evaluator.is_min_max (Clause.op c) = true
       /\ (Clause.a c = Clause.b c \/ WF.tied fv c 0).
Proof.
  unfold Evaluator.push_Feature_clause. intros H.
  apply bind_Ok in H as (fa & Hfa & H). apply bind_Ok in H as (fb & Hfb & H).
  apply bind_Ok in H as (dis & _ & H).
  apply bind_Ok in H as ([o d] & _ & H).
  destruct (Evaluator.matching fa fb c itr) as [ch|] eqn:Hm.
  - apply matching_Some in Hm as (tl & -> & Hid & Hmm & Htie).
    injection H as <- _ _. right. exists ch. do 3 (split; [done|]).
    destruct Htie as [Heq|Heq]; [by left|right]. by exists fa, fb.
  - injection H as <- _ _. by left.
Qed.

Lemma push_Feature_fold_itr (fv : list (list float)) (f : Feature)
    (l : list Clause.Clause) (itr itr' : list Feature.Choice)
    (out out' : Feature) (dm dm' : list bool * list N) :
  foldlM (Evaluator.push_Feature_clause fv f) l (itr, out, dm)
  = Ok (itr', out', dm') ->
  exists used cs,
    itr = used ++ itr'
    /\ cs `sublist_of` l
    /\ Forall2 (fun ch c =>
                  Feature.id ch = Clause.id c
                  /\ Evaluator.is_min_max (Clause.op c) = true
                  /\ (Clause.a c = Clause.b c \/ WF.tied fv c 0))
               used cs.
Proof.
  revert itr out dm. induction l as [|c l IH]; intros itr out dm H;
    simpl in H.
  - injection H as <- _ _. exists [], []. by repeat split.
  - apply bind_Ok in H as ([[itr1 out1] dm1] & H1 & H).
    destruct (IH _ _ _ H) as (used & cs & -> & Hsub & Hall).
    apply push_Feature_clause_itr in H1
      as [<-|(ch & -> & Hid & Hmm & Htie)].
    + exists used, cs. split; [done|]. split; [by apply sublist_cons|done].
    + exists (ch :: used), (c :: cs). split; [done|].
      split; [by apply sublist_skip|]. by constructor.
Qed.

(** X16.  [push(f)] returns only when the loop has consumed every choice
    of [f] (the assertion [itr == choices.end()]): the choices of [f]
    must name, in the order of the tape, min or max clauses whose
    operands coincide or hold equal values in column 0.  A feature
    without choices always passes. *)
Theorem push_Feature_consumes_choices (f out : Feature)
    (s s' : Evaluator.Evaluator) :
  Evaluator.push_Feature f s = Ok (out, s') ->
  exists tp cs,
    Evaluator.cur s = Ok tp
    /\ cs `sublist_of` Tape.t tp
    /\ Forall2 (fun ch c =>
                  Feature.id ch = Clause.id c
                  /\ Evaluator.is_min_max (Clause.op c) = true
                  /\ (Clause.a c = Clause.b c
                      \/ WF.tied (Result.f (Evaluator.result s)) c 0))
               (Feature.getChoices f) cs.
Proof.
  unfold Evaluator.push_Feature. intros H.
  apply bind_Ok in H as (tp & Htp & H). apply bind_Ok in H as (dm0 & _ & H).
  apply bind_Ok in H as ([[itr out'] dm] & Hfold & H).
  apply bind_Ok in H as (u & Hu & _).
  apply assert_Ok, bool_decide_eq_true in Hu. subst itr.
  apply push_Feature_fold_itr in Hfold as (used & cs & Heq & Hsub & Hall).
  rewrite app_nil_r in Heq. subst used. by exists tp, cs.
Qed.

End PushFeature.

Lemma push_Feature_consumes_choices_witness :
  exists out s' cs,
    Evaluator.push_Feature
      (Feature.mk Feature.deriv0 [Feature.mk_choice 2 0] Feature.no_epsilons)
      Examples.max_min = Ok (out, s')
    /\ cs `sublist_of` Tape.t Examples.tape_max_min
    /\ length cs = 1%nat.
Proof.
  assert (is_Ok (Evaluator.push_Feature
                   (Feature.mk Feature.deriv0 [Feature.mk_choice 2 0]
                      Feature.no_epsilons) Examples.max_min))
    as [[out s'] Hs'] by (vm_compute; by eexists).
  destruct (push_Feature_consumes_choices _ _ _ _ Hs')
    as (tp & cs & Htp & Hsub & Hall).
  injection Htp as <-. exists out, s', cs. split; [exact Hs'|].
  split; [exact Hsub|]. by apply Forall2_length in Hall.
Defined.

(** ** [isInside] *)

Section Inside.
Context {num : Numeric} {api : Feature.API}.

Lemma featuresAt_cursor (fuel : nat) (p : Vector3f)
    (s s' : Evaluator.Evaluator) (fs : list Feature) :
  Evaluator.featuresAt fuel p s = Ok (fs, s') ->
  Evaluator.tape s' = Evaluator.tape s.
Proof.
  unfold Evaluator.featuresAt. intros Hf.
  apply bind_Ok in Hf as (s1 & Hspec & Hf).
  apply bind_Ok in Hf as ([dn s2] & Hloop & Hf).
  apply bind_Ok in Hf as (s3 & Hpop & Hf).
  apply bind_Ok in Hf as (u & _ & [= _ <-]).
  apply specialize_cursor in Hspec. apply featuresAt_loop_cursor in Hloop.
  apply pop_Ok in Hpop as [_ ->]. simpl. by rewrite Hloop, Hspec.
Qed.

(** X17.  [isInside(p)] answers by the sign of the value wherever the
    value is not zero (true when negative, false when positive), without
    looking at features; and whichever way it answers, the pushes it has
    made are popped: the cursor is where it was. *)
Theorem isInside_by_sign (fuel : nat) (p : Vector3f) (b : bool)
    (s s' : Evaluator.Evaluator) :
  Evaluator.isInside fuel p s = Ok (b, s') ->
  Evaluator.tape s' = Evaluator.tape s
  /\ exists s1 ds s2 v,
       Evaluator.set p 0 s = Ok s1
       /\ Evaluator.derivs fuel 1 s1 = Ok (ds, s2)
       /\ Result.coeff (Result.f (Evaluator.result s2)) ds 0 = Ok v
       /\ (F32.lt v F32.zero = true -> b = true /\ s' = s2)
       /\ (F32.gt v F32.zero = true -> b = false /\ s' = s2).
Proof.
  unfold Evaluator.isInside. intros H.
  apply bind_Ok in H as (s1 & Hs1 & H).
  apply bind_Ok in H as ([ds s2] & Hd & H).
  apply bind_Ok in H as (v & Hv & H).
  assert (Evaluator.tape s2 = Evaluator.tape s) as Hcur.
  { apply set_frame in Hs1 as [r1 ->]. by apply derivs_frame in Hd as [r2 ->]. }
  assert (F32.lt v F32.zero = true -> F32.gt v F32.zero = false) as Hexcl.
  { unfold F32.lt, F32.gt. apply SFltb_asym. }
  split.
  - destruct (F32.lt v F32.zero); [by injection H as _ <-|].
    destruct (F32.gt v F32.zero); [by injection H as _ <-|].
    apply bind_Ok in H as (amb & _ & H). destruct amb; simpl in H.
    + apply bind_Ok in H as ([fs s3] & Hf & H).
      apply featuresAt_cursor in Hf.
      destruct fs as [|f [|f' fs]]; injection H as _ <-; congruence.
    + apply bind_Ok in H as (x1 & _ & H). apply bind_Ok in H as (x2 & _ & H).
      apply bind_Ok in H as (x3 & _ & H). by injection H as _ <-.
  - exists s1, ds, s2, v. do 3 (split; [done|]). split.
    + intros Hlt. rewrite Hlt in H. by injection H as <- <-.
    + intros Hgt. destruct (F32.lt v F32.zero) eqn:Hlt.
      * specialize (Hexcl eq_refl). congruence.
      * rewrite Hgt in H. by injection H as <- <-.
Qed.

End Inside.

Lemma isInside_by_sign_witness :
  exists s',
    Evaluator.isInside 1 Examples.p123 Examples.max_min = Ok (false, s')
    /\ Evaluator.tape s' = 0%nat.
Proof.
  assert (is_Ok (Evaluator.isInside 1 Examples.p123 Examples.max_min))
    as [[b s'] Hs'] by (vm_compute; by eexists).
  assert (b = false) as ->.
  { vm_compute in Hs'. by injection Hs' as <- _. }
  exists s'. split; [exact Hs'|].
  exact (proj1 (isInside_by_sign _ _ _ _ _ Hs')).
Defined.

(** ** [featuresAt] where nothing is ambiguous *)

Section SingleFeature.
Context {num : Numeric} {api : Feature.API}.

Lemma push_Feature_fold_no_choices (fv : list (list float)) (f : Feature)
    (l : list Clause.Clause) (itr' : list Feature.Choice) (out out' : Feature)
    (dm dm' : list bool * list N) :
  foldlM (Evaluator.push_Feature_clause fv f) l ([], out, dm)
  = Ok (itr', out', dm') ->
  out' = out.
Proof.
  revert dm. induction l as [|c l IH]; intros dm H; simpl in H.
  - by injection H as _ <- _.
  - apply bind_Ok in H as ([[itr1 out1] dm1] & H1 & H).
    unfold Evaluator.push_Feature_clause in H1.
    apply bind_Ok in H1 as (fa & _ & H1). apply bind_Ok in H1 as (fb & _ & H1).
    apply bind_Ok in H1 as (dis & _ & H1).
    apply bind_Ok in H1 as ([o d] & Ho & H1). simpl in H1.
    injection H1 as <- <- <-.
    assert (o = out) as ->.
    { destruct dis; [by injection Ho as <- _|].
      simpl in Ho. apply bind_Ok in Ho as (d2 & _ & Ho).
      by injection Ho as <- _. }
    by eapply IH.
Qed.

Lemma scan_without_min_max (r : Result.Result) (f_ : Feature)
    (l : list Clause.Clause) (todo : list Feature) :
  Forall (fun c => Evaluator.is_min_max (Clause.op c) = false) l ->
  Evaluator.featuresAt_scan r f_ l todo = Ok (false, todo).
Proof.
  induction 1 as [|c l Hc _ IH]; simpl; [done|]. by rewrite Hc.
Qed.

(** A push keeps the opcodes of the clauses it keeps. *)
Lemma pushTape_ops (P : Opcode.Opcode -> Prop) (t : Tape.Type_)
    (s s' : Evaluator.Evaluator) (prev new : Tape.Tape) :
  Evaluator.pushTape t s = Ok s' ->
  Evaluator.cur s = Ok prev -> Evaluator.cur s' = Ok new ->
  Forall (fun c => P (Clause.op c)) (Tape.t prev) ->
  Forall (fun c => P (Clause.op c)) (Tape.t new).
Proof.
  intros Hp Hprev Hnew Hall. apply pushTape_reduced in Hp
    as (prev' & new' & Hprev' & Hnew' & _ & _ & _ & _ & _ & Hred & _).
  assert (prev' = prev) as -> by congruence.
  assert (new' = new) as -> by congruence.
  apply Forall_forall. intros c' Hc'.
  apply list_elem_of_lookup_1 in Hc' as [i Hi].
  destruct (Forall2_lookup_r _ _ _ _ _ Hred Hi) as (c & Hc & Hop & _).
  rewrite Hop. apply list_elem_of_lookup_2, list_elem_of_filter in Hc as [_ Hc].
  by apply (proj1 (Forall_forall _ _) Hall).
Qed.

(** X18.  On a tape without min and max clauses nothing can be
    ambiguous: [featuresAt(p)] returns exactly one feature, and that
    feature has no choices. *)
Theorem featuresAt_without_min_max (fuel : nat) (p : Vector3f)
    (s s' : Evaluator.Evaluator) (tp : Tape.Tape) (fs : list Feature) :
  Evaluator.cur s = Ok tp ->
  Forall (fun c => Evaluator.is_min_max (Clause.op c) = false) (Tape.t tp) ->
  Evaluator.featuresAt fuel p s = Ok (fs, s') ->
  exists f, fs = [f] /\ Feature.getChoices f = [].
Proof.
  intros Hcur Hall H. unfold Evaluator.featuresAt in H.
  apply bind_Ok in H as (s1 & Hspec & H).
  apply bind_Ok in H as ([dn s2] & Hloop & H).
  apply bind_Ok in H as (s3 & _ & H).
  apply bind_Ok in H as (u & _ & [= <- _]).
  (* the specialized tape *)
  unfold Evaluator.specialize in Hspec.
  apply bind_Ok in Hspec as ([x s0] & He & Hspec).
  apply eval_frame in He as [r0 ->].
  apply bind_Ok in Hspec as (tp0 & Htp0 & Hspec).
  change (Evaluator.cur s = Ok tp0) in Htp0.
  rewrite Hcur in Htp0. injection Htp0 as <-.
  apply bind_Ok in Hspec as (dm0 & _ & Hspec).
  apply bind_Ok in Hspec as (dm & _ & Hspec).
  destruct (pushTape_reduced _ _ _ Hspec)
    as (prev1 & tp1 & Hprev1 & Htp1 & _).
  change (Evaluator.cur s = Ok prev1) in Hprev1.
  assert (prev1 = tp) as -> by congruence.
  pose proof (pushTape_ops (fun o => Evaluator.is_min_max o = false)
                _ _ _ _ _ Hspec Hcur Htp1 Hall) as Hall1.
  (* the single iteration *)
  destruct fuel as [|n]; [done|]. simpl in Hloop.
  apply bind_Ok in Hloop as ([f_ s4] & Hpush & Hloop).
  apply bind_Ok in Hloop as ([ds s5] & Hd & Hloop).
  apply bind_Ok in Hloop as (tp5 & Htp5 & Hloop).
  unfold Evaluator.push_Feature in Hpush.
  apply bind_Ok in Hpush as (tp1' & Htp1' & Hpush).
  assert (tp1' = tp1) as -> by congruence.
  apply bind_Ok in Hpush as (dm1 & _ & Hpush).
  apply bind_Ok in Hpush as ([[itr out'] dm'] & Hfold & Hpush).
  apply bind_Ok in Hpush as (u' & _ & Hpush).
  apply bind_Ok in Hpush as (s4' & Hs4 & [= <- <-]).
  apply push_Feature_fold_no_choices in Hfold. subst out'.
  destruct (pushTape_reduced _ _ _ Hs4) as (prev4 & tp4 & Hprev4 & Htp4 & _).
  change (Evaluator.cur s1 = Ok prev4) in Hprev4.
  assert (prev4 = tp1) as -> by congruence.
  pose proof (pushTape_ops (fun o => Evaluator.is_min_max o = false)
                _ _ _ _ _ Hs4 Htp1 Htp4 Hall1) as Hall4.
  apply derivs_frame in Hd as Hfr. destruct Hfr as [r5 ->].
  change (Evaluator.cur s4' = Ok tp5) in Htp5.
  assert (tp5 = tp4) as -> by congruence.
  rewrite scan_without_min_max in Hloop.
  2: { apply Forall_forall. intros c Hc.
       apply (proj1 (elem_of_rev _ _)) in Hc.
       by apply (proj1 (Forall_forall _ _) Hall4). }
  simpl in Hloop.
  apply bind_Ok in Hloop as ([dn' seen'] & Hdone & Hloop).
  apply bind_Ok in Hdone as (x1 & _ & Hdone).
  apply bind_Ok in Hdone as (x2 & _ & Hdone).
  apply bind_Ok in Hdone as (x3 & _ & Hdone).
  injection Hdone as <- <-.
  apply bind_Ok in Hloop as (s6 & _ & Hloop).
  destruct n; simpl in Hloop; injection Hloop as <- _.
  all: eexists; split; reflexivity.
Qed.

End SingleFeature.

Lemma featuresAt_without_min_max_witness :
  exists f s',
    Evaluator.featuresAt 2 Examples.p123 Examples.x_plus_y = Ok ([f], s')
    /\ Feature.getChoices f = [].
Proof.
  assert (is_Ok (Evaluator.featuresAt 2 Examples.p123 Examples.x_plus_y))
    as [[fs s'] Hs'] by (vm_compute; by eexists).
  assert (exists tp, Evaluator.cur Examples.x_plus_y = Ok tp
            /\ Forall (fun c => Evaluator.is_min_max (Clause.op c) = false)
                 (Tape.t tp)) as (tp & Htp & Hall).
  { eexists. split; [reflexivity|]. repeat constructor. }
  destruct (featuresAt_without_min_max 2 Examples.p123 Examples.x_plus_y s'
              tp fs Htp Hall Hs') as (f & Hfs & Hf).
  exists f, s'. split; [|exact Hf]. rewrite <- Hfs. exact Hs'.
Defined.

(** ** What [specialize] leaves of the min and max clauses *)

Section Decided.
Context {num : Numeric}.

(** In a tape in evaluation order no clause is read by itself or by a
    clause that the loops of the pushes visit after it. *)
Lemma ordered_operands_later (S : N -> Prop) (l : list Clause.Clause) :
  NoDup (Clause.id <$> l) ->
  (forall k, S k -> k ∉ Clause.id <$> l) ->
  WF.ordered S (rev l) ->
  forall i j c c2, l !! i = Some c -> l !! j = Some c2 -> (i <= j)%nat ->
    Clause.id c <> Clause.a c2 /\ Clause.id c <> Clause.b c2.
Proof.
  intros Hnd HS Hord i j c c2 Hi Hj Hle.
  assert (forall k, S k \/ k ∈ Clause.id <$> rev (drop (Datatypes.S j) l) ->
            Clause.id c <> k) as Hno.
  { intros k [Hk|Hk] <-.
    - apply (HS _ Hk). apply list_elem_of_fmap_2.
      by eapply list_elem_of_lookup_2.
    - apply (proj1 (elem_of_ids_rev _ _)) in Hk.
      apply list_elem_of_lookup_1 in Hk as [j' Hj'].
      rewrite fmap_drop, lookup_drop in Hj'.
      assert ((Clause.id <$> l) !! i = Some (Clause.id c)) as Hi'
        by by rewrite list_lookup_fmap, Hi.
      pose proof (NoDup_lookup _ _ _ _ Hnd Hi' Hj'). lia. }
  rewrite <- (take_drop_middle l j c2 Hj) in Hord.
  rewrite rev_app_distr in Hord. simpl in Hord.
  rewrite <- app_assoc in Hord. simpl in Hord.
  apply ordered_prefix in Hord as [Ha Hb].
  split; by apply Hno.
Qed.

(** A slot that is disabled stays disabled across a step of the loop,
    unless the clause of the step reads it. *)
Lemma specialize_clause_disabled (f : list (list float)) (c : Clause.Clause)
    (dm dm' : list bool * list N) (k : N) :
  Evaluator.specialize_clause f dm c = Ok dm' ->
  k <> Clause.a c -> k <> Clause.b c ->
  dm.1 !! N.to_nat k = Some true -> dm'.1 !! N.to_nat k = Some true.
Proof.
  unfold Evaluator.specialize_clause. intros H Ha Hb Hk.
  apply bind_Ok in H as (dis & _ & H).
  destruct dis; [by injection H as <-|].
  apply bind_Ok in H as (dm1 & H1 & H).
  assert (dm1.1 !! N.to_nat k = Some true) as Hk1.
  { destruct (Clause.op c); try (by injection H1 as <-);
      apply bind_Ok in H1 as (fa & _ & H1);
      apply bind_Ok in H1 as (fb & _ & H1);
      repeat match type of H1 with
        | (if ?g then _ else _) = _ => destruct g
        end;
      try (by injection H1 as <-);
      apply collapse_Ok in H1 as (_ & _ & ->); simpl;
      rewrite list_lookup_insert_ne; try done; lia. }
  apply settle_Ok in H as (r & _ & H).
  destruct (decide (r = 0%N)).
  - destruct H as (_ & _ & ->). simpl.
    rewrite !list_lookup_insert_ne; try done; lia.
  - destruct H as (Hlt & ->). simpl.
    destruct (decide (N.to_nat (Clause.id c) = N.to_nat k)) as [->|Hne].
    + rewrite list_lookup_insert_eq; [done|]. by eapply lookup_lt_Some.
    + by rewrite list_lookup_insert_ne.
Qed.

Lemma specialize_fold_disabled (f : list (list float))
    (l : list Clause.Clause) (dm dm' : list bool * list N) (k : N) :
  foldlM (Evaluator.specialize_clause f) l dm = Ok dm' ->
  (forall c, c ∈ l -> k <> Clause.a c /\ k <> Clause.b c) ->
  dm.1 !! N.to_nat k = Some true -> dm'.1 !! N.to_nat k = Some true.
Proof.
  revert dm. induction l as [|c l IH]; intros dm H Hl Hk; simpl in H.
  - by injection H as <-.
  - apply bind_Ok in H as (dm1 & H1 & H).
    apply (IH dm1 H).
    + intros c' Hc'. apply Hl. by right.
    + destruct (Hl c) as [Ha Hb]; [by left|].
      by eapply specialize_clause_disabled.
Qed.

(** A step on a min or max clause either leaves the clause disabled or
    has found its operands not strictly ordered. *)
Lemma specialize_clause_decided (f : list (list float)) (c : Clause.Clause)
    (dm dm' : list bool * list N) :
  Evaluator.specialize_clause f dm c = Ok dm' ->
  Evaluator.is_min_max (Clause.op c) = true ->
  Clause.a c <> 0%N -> Clause.b c <> 0%N ->
  dm'.1 !! N.to_nat (Clause.id c) = Some true
  \/ exists fa fb,
       Result.coeff f (Clause.a c) 0 = Ok fa
       /\ Result.coeff f (Clause.b c) 0 = Ok fb
       /\ F32.gt fa fb = false /\ F32.gt fb fa = false.
Proof.
  unfold Evaluator.specialize_clause. intros H Hmm Ha0 Hb0.
  apply bind_Ok in H as (dis & Hdis & H). apply at_Ok in Hdis.
  destruct dis; [injection H as <-; by left|].
  apply bind_Ok in H as (dm1 & H1 & H).
  assert (forall r, r <> 0%N -> Evaluator.collapse c r dm = Ok dm1 ->
            dm'.1 !! N.to_nat (Clause.id c) = Some true) as Hcol.
  { intros r Hr Hc. apply collapse_Ok in Hc as (_ & Hlt & ->).
    apply settle_Ok in H as (r' & Hr' & H). simpl in Hr'.
    rewrite list_lookup_insert_eq in Hr' by done. injection Hr' as <-.
    rewrite decide_False in H by done. destruct H as [Hlt' ->]. simpl.
    by rewrite list_lookup_insert_eq. }
  destruct (Clause.op c); try discriminate;
    apply bind_Ok in H1 as (fa & Hfa & H1);
    apply bind_Ok in H1 as (fb & Hfb & H1);
    destruct (F32.gt fa fb) eqn:Hab;
    try (left; by eapply Hcol; [|exact H1]);
    destruct (F32.gt fb fa) eqn:Hba;
    try (left; by eapply Hcol; [|exact H1]);
    right; by exists fa, fb.
Qed.

(** The loop of [specialize]: a min or max clause that is enabled at the
    end has operands that are not strictly ordered. *)
Lemma specialize_fold_decided (f : list (list float))
    (l : list Clause.Clause) (dm0 dm : list bool * list N) :
  foldlM (Evaluator.specialize_clause f) l dm0 = Ok dm ->
  (forall i j c c2, l !! i = Some c -> l !! j = Some c2 -> (i < j)%nat ->
     Clause.id c <> Clause.a c2 /\ Clause.id c <> Clause.b c2) ->
  Forall WF.binary_min_max l ->
  forall c, c ∈ l -> Evaluator.is_min_max (Clause.op c) = true ->
    dm.1 !! N.to_nat (Clause.id c) = Some false ->
    exists fa fb,
      Result.coeff f (Clause.a c) 0 = Ok fa
      /\ Result.coeff f (Clause.b c) 0 = Ok fb
      /\ F32.gt fa fb = false /\ F32.gt fb fa = false.
Proof.
  revert dm0. induction l as [|c0 l IH]; intros dm0 H Hord Hbin c Hc Hmm Hd.
  - by apply elem_of_nil in Hc.
  - simpl in H. apply bind_Ok in H as (dm1 & H1 & H).
    apply Forall_cons in Hbin as [Hbin0 Hbin].
    apply elem_of_cons in Hc as [->|Hc].
    + destruct (Hbin0 Hmm) as [Ha0 Hb0].
      destruct (specialize_clause_decided _ _ _ _ H1 Hmm Ha0 Hb0)
        as [Htrue|Hfree]; [|done].
      assert (dm.1 !! N.to_nat (Clause.id c0) = Some true) as Hd'.
      { apply (specialize_fold_disabled f l dm1 dm _ H); [|done].
        intros c2 Hc2. apply list_elem_of_lookup_1 in Hc2 as [j Hj].
        apply (Hord 0%nat (S j) c0 c2 eq_refl Hj). lia. }
      congruence.
    + apply (IH dm1 H); try done.
      intros i j c1 c2 Hi Hj Hle.
      apply (Hord (S i) (S j) c1 c2 Hi Hj). lia.
Qed.

(** X19.  [specialize(p)] leaves no min or max clause that is decided at
    [p]: on a tape in evaluation order (distinct slots, the axes apart,
    min and max having two operands), every min or max clause of the
    specialized tape comes from a clause of the tape it was made from
    whose two operands hold, at [p], values of which neither is strictly
    greater than the other. *)
Theorem specialize_drops_decided_min_max (fuel : nat) (p : Vector3f)
    (s s' : Evaluator.Evaluator) (tp : Tape.Tape) :
  Evaluator.cur s = Ok tp ->
  NoDup (Clause.id <$> Tape.t tp) ->
  WF.axes_ok s tp ->
  WF.evaluation_order s ->
  Forall WF.binary_min_max (Tape.t tp) ->
  Evaluator.specialize fuel p s = Ok s' ->
  exists x s1 new,
    Evaluator.eval fuel p s = Ok (x, s1)
    /\ Evaluator.result s' = Evaluator.result s1
    /\ Evaluator.cur s' = Ok new
    /\ forall c', c' ∈ Tape.t new ->
         Evaluator.is_min_max (Clause.op c') = true ->
         exists c fa fb,
           c ∈ Tape.t tp
           /\ Clause.id c = Clause.id c' /\ Clause.op c = Clause.op c'
           /\ Result.coeff (Result.f (Evaluator.result s1)) (Clause.a c) 0
              = Ok fa
           /\ Result.coeff (Result.f (Evaluator.result s1)) (Clause.b c) 0
              = Ok fb
           /\ F32.gt fa fb = false /\ F32.gt fb fa = false.
Proof.
  intros Hcur Hnd Hax Hord Hbin H. unfold Evaluator.specialize in H.
  apply bind_Ok in H as ([x s1] & He & H).
  destruct (eval_frame _ _ _ _ _ He) as [r1 Hs1]. subst s1.
  apply bind_Ok in H as (tp0 & Htp0 & H).
  change (Evaluator.cur s = Ok tp0) in Htp0.
  rewrite Hcur in Htp0. injection Htp0 as <-.
  apply bind_Ok in H as (dm0 & _ & H).
  apply bind_Ok in H as (dm & Hfold & H).
  apply pushTape_reduced in H
    as (prev & new & Hprev & Hnew & _ & _ & _ & Hres & _ & Hred).
  change (Evaluator.cur s = Ok prev) in Hprev.
  rewrite Hcur in Hprev. injection Hprev as <-.
  exists x, (Evaluator.with_result r1 s), new.
  split; [done|]. split; [done|]. split; [done|].
  intros c' Hc' Hmm. destruct Hred as [Hcl _]. simpl in Hcl.
  apply list_elem_of_lookup_1 in Hc' as [i Hi].
  destruct (Forall2_lookup_r _ _ _ _ _ Hcl Hi) as (c & Hc & Hop & Hid & _).
  apply list_elem_of_lookup_2, list_elem_of_filter in Hc as [Hlive Hc].
  rewrite Hop in Hmm.
  destruct (specialize_fold_decided _ _ _ _ Hfold) with (c := c)
    as (fa & fb & Hfa & Hfb & Hab & Hba); try done.
  - intros i' j' c1 c2 Hi' Hj' Hlt.
    apply (ordered_operands_later (WF.input s tp) (Tape.t tp))
      with (i := i') (j := j'); try done; [|by apply Hord|lia].
    intros k Hk. by apply (input_not_written s).
  - by exists c, fa, fb.
Qed.

End Decided.

Lemma specialize_drops_decided_min_max_witness :
  exists s' new,
    Evaluator.specialize 1 Examples.p121 Examples.max_min = Ok s'
    /\ Evaluator.cur s' = Ok new
    /\ Tape.t new = [Clause.mk Opcode.MAX 1 5 3]
    /\ forall c', c' ∈ Tape.t new ->
         Evaluator.is_min_max (Clause.op c') = true ->
         exists c fa fb,
           c ∈ Tape.t Examples.tape_max_min
           /\ Clause.id c = Clause.id c'
           /\ Result.coeff (Result.f (Evaluator.result s')) (Clause.a c) 0
              = Ok fa
           /\ Result.coeff (Result.f (Evaluator.result s')) (Clause.b c) 0
              = Ok fb
           /\ F32.gt fa fb = false /\ F32.gt fb fa = false.
Proof.
  assert (is_Ok (Evaluator.specialize 1 Examples.p121 Examples.max_min))
    as [s' Hs'] by (vm_compute; by eexists).
  destruct (specialize_drops_decided_min_max 1 Examples.p121
              Examples.max_min s' Examples.tape_max_min)
    as (x & s1 & new & _ & Hres & Hnew & Hall).
  - reflexivity.
  - simpl. apply NoDup_cons. split.
    + intros Hin. apply list_elem_of_singleton in Hin. discriminate.
    + apply NoDup_singleton.
  - split.
    + repeat (apply NoDup_cons; split;
              [intros Hin;
               repeat (apply elem_of_cons in Hin as [Hin|Hin];
                       [discriminate|]);
               by apply elem_of_nil in Hin|]).
      apply NoDup_nil_2.
    + simpl. intros k Hk Hin.
      repeat (apply elem_of_cons in Hk as [->|Hk];
              [repeat (apply elem_of_cons in Hin as [Hin|Hin];
                       [discriminate|]);
               by apply elem_of_nil in Hin|]).
      by apply elem_of_nil in Hk.
  - exact max_min_ordered.
  - repeat constructor; discriminate.
  - exact Hs'.
  - exists s', new. split; [exact Hs'|]. split; [exact Hnew|]. split.
    + vm_compute in Hs'. injection Hs' as <-.
      vm_compute in Hnew. by injection Hnew as <-.
    + intros c' Hc' Hmm.
      destruct (Hall c' Hc' Hmm)
        as (c & fa & fb & Hc & Hid & _ & Hfa & Hfb & Hab & Hba).
      exists c, fa, fb. rewrite Hres. by repeat split.
Defined.

(** ** What [push()] leaves of the min and max clauses *)

Section DecidedByBox.

Lemma push_clause_disabled (iv : list Interval.I) (c : Clause.Clause)
    (dm dm' : list bool * list N) (k : N) :
  Evaluator.push_clause iv dm c = Ok dm' ->
  k <> Clause.a c -> k <> Clause.b c ->
  dm.1 !! N.to_nat k = Some true -> dm'.1 !! N.to_nat k = Some true.
Proof.
  unfold Evaluator.push_clause. intros H Ha Hb Hk.
  apply bind_Ok in H as (dis & _ & H).
  destruct dis; [by injection H as <-|].
  apply bind_Ok in H as (dm1 & H1 & H).
  assert (dm1.1 !! N.to_nat k = Some true) as Hk1.
  { destruct (Clause.op c); try (by injection H1 as <-);
      apply bind_Ok in H1 as (ia & _ & H1);
      apply bind_Ok in H1 as (ib & _ & H1);
      repeat match type of H1 with
        | (if ?g then _ else _) = _ => destruct g
        end;
      try (by injection H1 as <-);
      apply collapse_Ok in H1 as (_ & _ & ->); simpl;
      rewrite list_lookup_insert_ne; try done; lia. }
  apply settle_Ok in H as (r & _ & H).
  destruct (decide (r = 0%N)).
  - destruct H as (_ & _ & ->). simpl.
    rewrite !list_lookup_insert_ne; try done; lia.
  - destruct H as (Hlt & ->). simpl.
    destruct (decide (N.to_nat (Clause.id c) = N.to_nat k)) as [->|Hne].
    + rewrite list_lookup_insert_eq; [done|]. by eapply lookup_lt_Some.
    + by rewrite list_lookup_insert_ne.
Qed.

Lemma push_fold_disabled (iv : list Interval.I)
    (l : list Clause.Clause) (dm dm' : list bool * list N) (k : N) :
  foldlM (Evaluator.push_clause iv) l dm = Ok dm' ->
  (forall c, c ∈ l -> k <> Clause.a c /\ k <> Clause.b c) ->
  dm.1 !! N.to_nat k = Some true -> dm'.1 !! N.to_nat k = Some true.
Proof.
  revert dm. induction l as [|c l IH]; intros dm H Hl Hk; simpl in H.
  - by injection H as <-.
  - apply bind_Ok in H as (dm1 & H1 & H).
    apply (IH dm1 H).
    + intros c' Hc'. apply Hl. by right.
    + destruct (Hl c) as [Ha Hb]; [by left|].
      by eapply push_clause_disabled.
Qed.

(** A step on a min or max clause either leaves the clause disabled or
    has found neither operand interval above the other. *)
Lemma push_clause_decided (iv : list Interval.I) (c : Clause.Clause)
    (dm dm' : list bool * list N) :
  Evaluator.push_clause iv dm c = Ok dm' ->
  Evaluator.is_min_max (Clause.op c) = true ->
  Clause.a c <> 0%N -> Clause.b c <> 0%N ->
  dm'.1 !! N.to_nat (Clause.id c) = Some true
  \/ exists ia ib,
       iv !! N.to_nat (Clause.a c) = Some ia
       /\ iv !! N.to_nat (Clause.b c) = Some ib
       /\ F32.gt (Interval.lower ia) (Interval.upper ib) = false
       /\ F32.gt (Interval.lower ib) (Interval.upper ia) = false.
Proof.
  unfold Evaluator.push_clause. intros H Hmm Ha0 Hb0.
  apply bind_Ok in H as (dis & Hdis & H). apply at_Ok in Hdis.
  destruct dis; [injection H as <-; by left|].
  apply bind_Ok in H as (dm1 & H1 & H).
  assert (forall r, r <> 0%N -> Evaluator.collapse c r dm = Ok dm1 ->
            dm'.1 !! N.to_nat (Clause.id c) = Some true) as Hcol.
  { intros r Hr Hc. apply collapse_Ok in Hc as (_ & Hlt & ->).
    apply settle_Ok in H as (r' & Hr' & H). simpl in Hr'.
    rewrite list_lookup_insert_eq in Hr' by done. injection Hr' as <-.
    rewrite decide_False in H by done. destruct H as [Hlt' ->]. simpl.
    by rewrite list_lookup_insert_eq. }
  destruct (Clause.op c); try discriminate;
    apply bind_Ok in H1 as (ia & Hia & H1);
    apply bind_Ok in H1 as (ib & Hib & H1);
    apply at_Ok in Hia, Hib;
    destruct (F32.gt (Interval.lower ia) (Interval.upper ib)) eqn:Hab;
    try (left; by eapply Hcol; [|exact H1]);
    destruct (F32.gt (Interval.lower ib) (Interval.upper ia)) eqn:Hba;
    try (left; by eapply Hcol; [|exact H1]);
    right; by exists ia, ib.
Qed.

Lemma push_fold_decided (iv : list Interval.I)
    (l : list Clause.Clause) (dm0 dm : list bool * list N) :
  foldlM (Evaluator.push_clause iv) l dm0 = Ok dm ->
  (forall i j c c2, l !! i = Some c -> l !! j = Some c2 -> (i < j)%nat ->
     Clause.id c <> Clause.a c2 /\ Clause.id c <> Clause.b c2) ->
  Forall WF.binary_min_max l ->
  forall c, c ∈ l -> Evaluator.is_min_max (Clause.op c) = true ->
    dm.1 !! N.to_nat (Clause.id c) = Some false ->
    exists ia ib,
      iv !! N.to_nat (Clause.a c) = Some ia
      /\ iv !! N.to_nat (Clause.b c) = Some ib
      /\ F32.gt (Interval.lower ia) (Interval.upper ib) = false
      /\ F32.gt (Interval.lower ib) (Interval.upper ia) = false.
Proof.
  revert dm0. induction l as [|c0 l IH]; intros dm0 H Hord Hbin c Hc Hmm Hd.
  - by apply elem_of_nil in Hc.
  - simpl in H. apply bind_Ok in H as (dm1 & H1 & H).
    apply Forall_cons in Hbin as [Hbin0 Hbin].
    apply elem_of_cons in Hc as [->|Hc].
    + destruct (Hbin0 Hmm) as [Ha0 Hb0].
      destruct (push_clause_decided _ _ _ _ H1 Hmm Ha0 Hb0)
        as [Htrue|Hfree]; [|done].
      assert (dm.1 !! N.to_nat (Clause.id c0) = Some true) as Hd'.
      { apply (push_fold_disabled iv l dm1 dm _ H); [|done].
        intros c2 Hc2. apply list_elem_of_lookup_1 in Hc2 as [j Hj].
        apply (Hord 0%nat (S j) c0 c2 eq_refl Hj). lia. }
      congruence.
    + apply (IH dm1 H); try done.
      intros i j c1 c2 Hi Hj Hle.
      apply (Hord (S i) (S j) c1 c2 Hi Hj). lia.
Qed.

(** X20.  [push()] leaves no min or max clause that the intervals
    decide: on a tape in evaluation order (distinct slots, the axes
    apart, min and max having two operands), every min or max clause of
    the pushed tape comes from a clause of the tape below whose operand
    intervals have neither lower bound strictly above the other's upper
    bound. *)
Theorem push_drops_decided_min_max (s s' : Evaluator.Evaluator)
    (tp : Tape.Tape) :
  Evaluator.cur s = Ok tp ->
  NoDup (Clause.id <$> Tape.t tp) ->
  WF.axes_ok s tp ->
  WF.evaluation_order s ->
  Forall WF.binary_min_max (Tape.t tp) ->
  Evaluator.push s = Ok s' ->
  exists new,
    Evaluator.cur s' = Ok new
    /\ forall c', c' ∈ Tape.t new ->
         Evaluator.is_min_max (Clause.op c') = true ->
         exists c,
           c ∈ Tape.t tp
           /\ Clause.id c = Clause.id c' /\ Clause.op c = Clause.op c'
           /\ WF.above (Result.i (Evaluator.result s))
                (Clause.a c) (Clause.b c) = false
           /\ WF.above (Result.i (Evaluator.result s))
                (Clause.b c) (Clause.a c) = false.
Proof.
  intros Hcur Hnd Hax Hord Hbin H. unfold Evaluator.push in H.
  apply bind_Ok in H as (tp0 & Htp0 & H).
  rewrite Hcur in Htp0. injection Htp0 as <-.
  apply bind_Ok in H as (dm0 & _ & H).
  apply bind_Ok in H as (dm & Hfold & H).
  apply bind_Ok in H as (s1 & Hs1 & H).
  apply bind_Ok in H as (x & _ & H). apply bind_Ok in H as (y & _ & H).
  apply bind_Ok in H as (z & _ & H).
  apply pushTape_reduced in Hs1
    as (prev & new & Hprev & Hnew & _ & _ & _ & _ & _ & Hred).
  change (Evaluator.cur s = Ok prev) in Hprev.
  rewrite Hcur in Hprev. injection Hprev as <-.
  apply set_box_Ok in H as (tp' & Htp' & ->).
  assert (tp' = new) as -> by congruence.
  eexists. split; [by eapply cur_with_tapes_insert|]. simpl.
  intros c' Hc' Hmm. destruct Hred as [Hcl _]. simpl in Hcl.
  apply list_elem_of_lookup_1 in Hc' as [i Hi].
  destruct (Forall2_lookup_r _ _ _ _ _ Hcl Hi) as (c & Hc & Hop & Hid & _).
  apply list_elem_of_lookup_2, list_elem_of_filter in Hc as [Hlive Hc].
  rewrite Hop in Hmm.
  destruct (push_fold_decided _ _ _ _ Hfold) with (c := c)
    as (ia & ib & Hia & Hib & Hab & Hba); try done.
  - intros i' j' c1 c2 Hi' Hj' Hlt.
    apply (ordered_operands_later (WF.input s tp) (Tape.t tp))
      with (i := i') (j := j'); try done; [|by apply Hord|lia].
    intros k Hk. by apply (input_not_written s).
  - exists c. unfold WF.above. rewrite Hia, Hib. by repeat split.
Qed.

End DecidedByBox.

Lemma push_drops_decided_min_max_witness :
  exists s' new,
    Evaluator.push Examples.max_min_mixed = Ok s'
    /\ Evaluator.cur s' = Ok new
    /\ Tape.t new = [Clause.mk Opcode.MAX 1 5 3]
    /\ forall c', c' ∈ Tape.t new ->
         Evaluator.is_min_max (Clause.op c') = true ->
         exists c,
           c ∈ Tape.t Examples.tape_max_min
           /\ Clause.id c = Clause.id c' /\ Clause.op c = Clause.op c'
           /\ WF.above (Result.i (Evaluator.result Examples.max_min_mixed))
                (Clause.a c) (Clause.b c) = false
           /\ WF.above (Result.i (Evaluator.result Examples.max_min_mixed))
                (Clause.b c) (Clause.a c) = false.
Proof.
  assert (is_Ok (Evaluator.push Examples.max_min_mixed))
    as [s' Hs'] by (vm_compute; by eexists).
  destruct (push_drops_decided_min_max Examples.max_min_mixed s'
              Examples.tape_max_min) as (new & Hnew & Hall).
  - reflexivity.
  - simpl. apply NoDup_cons. split.
    + intros Hin. apply list_elem_of_singleton in Hin. discriminate.
    + apply NoDup_singleton.
  - split.
    + repeat (apply NoDup_cons; split;
              [intros Hin;
               repeat (apply elem_of_cons in Hin as [Hin|Hin];
                       [discriminate|]);
               by apply elem_of_nil in Hin|]).
      apply NoDup_nil_2.
    + simpl. intros k Hk Hin.
      repeat (apply elem_of_cons in Hk as [->|Hk];
              [repeat (apply elem_of_cons in Hin as [Hin|Hin];
                       [discriminate|]);
               by apply elem_of_nil in Hin|]).
      by apply elem_of_nil in Hk.
  - intros tp Htp. injection Htp as <-. exact (max_min_ordered _ eq_refl).
  - repeat constructor; discriminate.
  - exact Hs'.
  - exists s', new. split; [exact Hs'|]. split; [exact Hnew|]. split.
    + vm_compute in Hs'. injection Hs' as <-.
      vm_compute in Hnew. by injection Hnew as <-.
    + exact Hall.
Defined.

(** ** [push()] on a live clause (C1) *)

Section PushCollapse.
Context {num : Numeric}.

(** [push()] is the loop over the tape, then [pushTape]: the scratch
    arrays it leaves are those the loop has built. *)
Lemma push_Ok_scratch (s s' : Evaluator.Evaluator) (tp : Tape.Tape) :
  Evaluator.cur s = Ok tp ->
  Evaluator.push s = Ok s' ->
  exists dm0 dm new,
    Evaluator.reset s (Tape.i tp) = Ok dm0
    /\ foldlM (Evaluator.push_clause (Result.i (Evaluator.result s)))
          (Tape.t tp) dm0 = Ok dm
    /\ Evaluator.disabled s' = dm.1
    /\ Evaluator.remap s' = dm.2
    /\ Evaluator.cur s' = Ok new
    /\ WF.reduced dm.1 dm.2 tp new.
Proof.
  intros Hcur H. unfold Evaluator.push in H.
  apply bind_Ok in H as (tp0 & Htp0 & H).
  rewrite Hcur in Htp0. injection Htp0 as <-.
  apply bind_Ok in H as (dm0 & Hdm0 & H).
  apply bind_Ok in H as (dm & Hfold & H).
  apply bind_Ok in H as (s1 & Hs1 & H).
  apply bind_Ok in H as (x & _ & H). apply bind_Ok in H as (y & _ & H).
  apply bind_Ok in H as (z & _ & H).
  apply pushTape_reduced in Hs1
    as (prev & new & Hprev & Hnew & _ & Hd & Hm & _ & _ & Hred).
  change (Evaluator.cur s = Ok prev) in Hprev.
  rewrite Hcur in Hprev. injection Hprev as <-.
  apply set_box_Ok in H as (tp' & Htp' & ->).
  assert (tp' = new) as -> by congruence.
  exists dm0, dm. eexists. split; [done|]. split; [done|].
  split; [exact Hd|]. split; [exact Hm|].
  split; [by eapply cur_with_tapes_insert|].
  destruct Hred as [Hcl Hroot]. by split.
Qed.

(** A slot that is enabled stays enabled, unless a clause that writes it
    collapses. *)
Lemma push_fold_enabled (iv : list Interval.I) (l : list Clause.Clause)
    (dm dm' : list bool * list N) (k : N) :
  foldlM (Evaluator.push_clause iv) l dm = Ok dm' ->
  k ∉ Clause.id <$> l ->
  dm.1 !! N.to_nat k = Some false -> dm'.1 !! N.to_nat k = Some false.
Proof.
  assert (forall (d : list bool) (i : N),
            d !! N.to_nat k = Some false ->
            <[N.to_nat i := false]> d !! N.to_nat k = Some false) as Hins.
  { intros d i Hd. destruct (decide (N.to_nat i = N.to_nat k)) as [->|Hne].
    - apply list_lookup_insert_eq. by eapply lookup_lt_Some.
    - by rewrite list_lookup_insert_ne. }
  revert dm. induction l as [|c l IH]; intros dm H Hk Hd; simpl in H.
  - by injection H as <-.
  - rewrite fmap_cons, not_elem_of_cons in Hk. destruct Hk as [Hne Hk].
    apply bind_Ok in H as (dm1 & H1 & H). apply (IH dm1 H Hk).
    clear H IH. unfold Evaluator.push_clause in H1.
    apply bind_Ok in H1 as (dis & _ & H1).
    destruct dis; [by injection H1 as <-|].
    apply bind_Ok in H1 as (dm2 & H2 & H1).
    assert (dm2.1 !! N.to_nat k = Some false) as Hd2.
    { destruct (Clause.op c); try (by injection H2 as <-);
        apply bind_Ok in H2 as (ia & _ & H2);
        apply bind_Ok in H2 as (ib & _ & H2);
        repeat match type of H2 with
          | (if ?g then _ else _) = _ => destruct g
          end;
        try (by injection H2 as <-);
        apply collapse_Ok in H2 as (_ & _ & ->); simpl; by apply Hins. }
    apply settle_Ok in H1 as (r & _ & H1).
    destruct (decide (r = 0%N)).
    + destruct H1 as (_ & _ & ->). simpl. by do 2 apply Hins.
    + destruct H1 as (_ & ->). simpl.
      rewrite list_lookup_insert_ne; [done|].
      intros Heq. apply N2Nat.inj in Heq. by subst.
Qed.

(** C1.  Take a well-formed evaluator whose tape is in evaluation order
    and a clause [c] of the tape that is live when the loop of [push()]
    reaches it.  The step of the loop returns; a MAX with
    [I[a].lower > I[b].upper] collapses to [a] ([a] is live,
    [remap[id] = a], [c] is disabled), a MAX with
    [I[b].lower > I[a].upper] collapses to [b], a MIN the other way
    round, and when [c] does not collapse both operands are live after
    the step.  [push()] itself returns, and what the step has done to
    [c] is what [push()] has done: a collapsed clause is still remapped
    and disabled when [push()] returns and is not in the tape it has
    pushed; a clause that has not collapsed is enabled and is in that
    tape, its operands replaced by the fixed points of their remap
    chains. *)
Theorem push_collapses_decided_min_max (s : Evaluator.Evaluator)
    (tp : Tape.Tape) (pre post : list Clause.Clause) (c : Clause.Clause)
    (dm : list bool * list N) :
  let iv := Result.i (Evaluator.result s) in
  WF.evaluator_ok s ->
  Forall WF.interval_ok iv ->
  WF.evaluation_order s ->
  Evaluator.cur s = Ok tp ->
  WF.axes_ok s tp ->
  Tape.t tp = pre ++ c :: post ->
  bind (Evaluator.reset s (Tape.i tp))
       (foldlM (Evaluator.push_clause iv) pre) = Ok dm ->
  dm.1 !! N.to_nat (Clause.id c) = Some false ->
  exists dm' s' new,
    Evaluator.push_clause iv dm c = Ok dm'
    /\ (Clause.op c = Opcode.MAX ->
        WF.above iv (Clause.a c) (Clause.b c) = true ->
        WF.collapsed_to dm' c (Clause.a c))
    /\ (Clause.op c = Opcode.MAX ->
        WF.above iv (Clause.b c) (Clause.a c) = true ->
        WF.collapsed_to dm' c (Clause.b c))
    /\ (Clause.op c = Opcode.MIN ->
        WF.above iv (Clause.a c) (Clause.b c) = true ->
        WF.collapsed_to dm' c (Clause.b c))
    /\ (Clause.op c = Opcode.MIN ->
        WF.above iv (Clause.b c) (Clause.a c) = true ->
        WF.collapsed_to dm' c (Clause.a c))
    /\ (~ (Evaluator.is_min_max (Clause.op c) = true
           /\ (WF.above iv (Clause.a c) (Clause.b c) = true
               \/ WF.above iv (Clause.b c) (Clause.a c) = true)) ->
        dm'.1 !! N.to_nat (Clause.a c) = Some false
        /\ dm'.1 !! N.to_nat (Clause.b c) = Some false)
    /\ Evaluator.push s = Ok s'
    /\ Evaluator.cur s' = Ok new
    /\ (forall r, WF.collapsed_to dm' c r ->
          Evaluator.remap s' !! N.to_nat (Clause.id c) = Some r
          /\ Evaluator.disabled s' !! N.to_nat (Clause.id c) = Some true
          /\ Clause.id c ∉ Clause.id <$> Tape.t new)
    /\ (~ (Evaluator.is_min_max (Clause.op c) = true
           /\ (WF.above iv (Clause.a c) (Clause.b c) = true
               \/ WF.above iv (Clause.b c) (Clause.a c) = true)) ->
        Evaluator.disabled s' !! N.to_nat (Clause.id c) = Some false
        /\ exists c', c' ∈ Tape.t new
                      /\ WF.rewritten (Evaluator.remap s') c c').
Proof.
  intros iv Hok Hiok Hord Hcur Hax Ht Hpre Hlive.
  pose proof Hok as [(tp' & Htp' & Htok) Hd Hiv _ _ _].
  rewrite Hcur in Htp'. injection Htp' as <-.
  set (n := length (Evaluator.remap s)) in *.
  destruct (push_clause_collapses s tp pre post c dm Hcur Htok Hd Hiv Hiok
              Ht Hpre Hlive) as (dm' & Hstep & H1 & H2 & H3 & H4 & H5).
  destruct (push_total s Hok) as [s' Hs'].
  destruct (push_Ok_scratch s s' tp Hcur Hs')
    as (dm0 & dmf & new & Hdm0 & Hfold & Hdf & Hmf & Hnew & Hcl & Hroot).
  exists dm', s', new. do 5 (split; [done|]).
  split; [intros Hno; by destruct (H5 Hno) as (? & ? & _)|].
  split; [done|]. split; [done|].
  (* the loop after [c] *)
  subst iv. rewrite Hdm0 in Hpre. simpl in Hpre.
  rewrite Ht, foldlM_app, Hpre in Hfold. simpl in Hfold.
  rewrite Hstep in Hfold. simpl in Hfold.
  destruct Htok as (Hclauses & Hnd & Hrt).
  assert (Clause.id c ∉ Clause.id <$> post) as Hfresh.
  { rewrite Ht, fmap_app, fmap_cons in Hnd.
    apply NoDup_app in Hnd as (_ & _ & Hnd).
    by apply NoDup_cons in Hnd as [Hnd _]. }
  assert (forall c2, c2 ∈ post ->
            Clause.id c <> Clause.a c2 /\ Clause.id c <> Clause.b c2)
    as Hlater.
  { intros c2 Hc2. apply list_elem_of_lookup_1 in Hc2 as [j Hj].
    apply (ordered_operands_later (WF.input s tp) (Tape.t tp))
      with (i := length pre) (j := (length pre + S j)%nat).
    - done.
    - intros k Hk. by apply (input_not_written s).
    - by apply Hord.
    - rewrite Ht. by apply list_lookup_middle.
    - rewrite Ht, lookup_app_r by lia.
      replace (length pre + S j - length pre)%nat with (S j) by lia.
      exact Hj.
    - lia. }
  assert (WF.scratch_sized n dm') as Hsz'.
  { apply reset_Ok in Hdm0 as [_ ->].
    assert (WF.scratch_sized n
              (<[N.to_nat (Tape.i tp) := false]>
                 (replicate (length (Evaluator.disabled s)) true),
               replicate (length (Evaluator.remap s)) 0%N)) as Hsz0.
    { unfold WF.scratch_sized. simpl.
      by rewrite length_insert, !length_replicate. }
    destruct (push_prefix_remap n (Result.i (Evaluator.result s)) pre _ dm
                Hsz0 Hpre) as [Hsz _].
    by destruct (push_clause_frame n (Result.i (Evaluator.result s)) c dm
                   dm' Hsz Hstep). }
  destruct (push_prefix_remap n (Result.i (Evaluator.result s)) post dm'
              dmf Hsz' Hfold) as [_ Hremap].
  split.
  - intros r (_ & Hmr & Hdr).
    assert (Evaluator.disabled s' !! N.to_nat (Clause.id c) = Some true)
      as Hdis.
    { rewrite Hdf.
      by apply (push_fold_disabled (Result.i (Evaluator.result s)) post
                  dm' dmf). }
    split; [by rewrite Hmf, Hremap|]. split; [done|].
    intros Hin. apply list_elem_of_fmap in Hin as (c' & Hid & Hc').
    apply list_elem_of_lookup_1 in Hc' as [i Hi].
    destruct (Forall2_lookup_r _ _ _ _ _ Hcl Hi) as (c0 & Hc0 & _ & Hid0 & _).
    apply list_elem_of_lookup_2, list_elem_of_filter in Hc0 as [Hlive0 _].
    rewrite <- Hid0, <- Hid, <- Hdf, Hdis in Hlive0. discriminate.
  - intros Hno.
    assert (Evaluator.disabled s' !! N.to_nat (Clause.id c) = Some false)
      as Hen.
    { rewrite Hdf.
      apply (push_fold_enabled (Result.i (Evaluator.result s)) post dm'
               dmf); [done|done|].
      by destruct (H5 Hno) as (_ & _ & Hc). }
    split; [done|].
    assert (c ∈ WF.kept dmf.1 tp) as Hkept.
    { apply list_elem_of_filter. split; [by rewrite <- Hdf|].
      rewrite Ht. apply elem_of_app. right. by left. }
    apply list_elem_of_lookup_1 in Hkept as [i Hi].
    destruct (Forall2_lookup_l _ _ _ _ _ Hcl Hi) as (c' & Hc' & Hrw).
    exists c'. split; [by eapply list_elem_of_lookup_2|]. by rewrite Hmf.
Qed.

End PushCollapse.

(** On max(min(x, y), z) with the intervals of the point (1, 2, 3), the
    root, a MAX whose second operand lies above the first, collapses to
    its second operand, and [push()] leaves it out of the new tape. *)
Lemma push_collapses_witness :
  exists dm' s' new,
    Evaluator.push_clause (Result.i (Evaluator.result Examples.max_min_boxed))
      (<[1%nat := false]> (replicate 7 true), replicate 7 0%N)
      (Clause.mk Opcode.MAX 1 2 3) = Ok dm'
    /\ WF.collapsed_to dm' (Clause.mk Opcode.MAX 1 2 3) 3
    /\ Evaluator.push Examples.max_min_boxed = Ok s'
    /\ Evaluator.cur s' = Ok new
    /\ Evaluator.remap s' !! 1%nat = Some 3%N
    /\ Evaluator.disabled s' !! 1%nat = Some true
    /\ 1%N ∉ Clause.id <$> Tape.t new.
Proof.
  destruct (push_collapses_decided_min_max Examples.max_min_boxed
              Examples.tape_max_min [] [Clause.mk Opcode.MIN 2 5 4]
              (Clause.mk Opcode.MAX 1 2 3)
              (<[1%nat := false]> (replicate 7 true), replicate 7 0%N))
    as (dm' & s' & new & Hstep & _ & Hb & _ & _ & _ & Hpush & Hnew & Hcol & _).
  - exact max_min_boxed_ok.
  - repeat constructor.
  - intros tp Htp. injection Htp as <-. exact (max_min_ordered _ eq_refl).
  - reflexivity.
  - split.
    + repeat (apply NoDup_cons; split;
              [intros Hin;
               repeat (apply elem_of_cons in Hin as [Hin|Hin];
                       [discriminate|]);
               by apply elem_of_nil in Hin|]).
      apply NoDup_nil_2.
    + simpl. intros k Hk Hin.
      repeat (apply elem_of_cons in Hk as [->|Hk];
              [repeat (apply elem_of_cons in Hin as [Hin|Hin];
                       [discriminate|]);
               by apply elem_of_nil in Hin|]).
      by apply elem_of_nil in Hk.
  - reflexivity.
  - reflexivity.
  - reflexivity.
  - specialize (Hb eq_refl eq_refl).
    destruct (Hcol 3%N Hb) as (Hm & Hd & Hout).
    exists dm', s', new. repeat split; try done; by destruct Hb as (? & ? & ?).
Defined.


(** ** The kernels on a well-formed arena *)

Section KernelTotal.
Context {num : Numeric}.
Variables (n cols : nat).

Lemma matrix_ok_lookup (m : list (list float)) (k : N) :
  WF.matrix_ok n cols m -> (N.to_nat k < n)%nat ->
  exists row, m !! N.to_nat k = Some row /\ (cols <= length row)%nat.
Proof.
  intros [Hlen Hrows] Hk.
  destruct (lookup_lt_is_Some_2 m (N.to_nat k)) as [row Hrow]; [lia|].
  exists row. split; [done|].
  by apply (proj1 (Forall_lookup _ _) Hrows (N.to_nat k)).
Qed.

Lemma matrix_ok_insert (m : list (list float)) (k : nat) (row : list float) :
  WF.matrix_ok n cols m -> (cols <= length row)%nat ->
  WF.matrix_ok n cols (<[k := row]> m).
Proof.
  intros [Hlen Hrows] Hrow. split; [by rewrite length_insert|].
  by apply Forall_insert.
Qed.

Lemma get_mat_ok (d : Evaluator.mat) (r : Result.Result) :
  WF.arena_ok n cols r -> WF.matrix_ok n cols (Evaluator.get_mat d r).
Proof. intros (? & ? & ? & ? & ?). by destruct d. Qed.

Lemma set_mat_ok (d : Evaluator.mat) (m : list (list float))
    (r : Result.Result) :
  WF.arena_ok n cols r -> WF.matrix_ok n cols m ->
  WF.arena_ok n cols (Evaluator.set_mat d m r).
Proof. intros (? & ? & ? & ? & ?) ?. by destruct d. Qed.

Lemma coeff_total (m : list (list float)) (k : N) :
  WF.matrix_ok n cols m -> (0 < cols)%nat -> (N.to_nat k < n)%nat ->
  exists x, Result.coeff m k 0 = Ok x.
Proof.
  intros Hm Hc Hk. destruct (matrix_ok_lookup m k Hm Hk) as (row & Hrow & Hl).
  unfold Result.coeff, at_. rewrite Hrow. simpl.
  destruct (lookup_lt_is_Some_2 row 0) as [x Hx]; [lia|].
  change (N.to_nat 0) with 0%nat. rewrite Hx. by exists x.
Qed.

Lemma set_coeff_total (m : list (list float)) (k : N) (x : float) :
  WF.matrix_ok n cols m -> (0 < cols)%nat -> (N.to_nat k < n)%nat ->
  exists m', Result.set_coeff m k 0 x = Ok m' /\ WF.matrix_ok n cols m'.
Proof.
  intros Hm Hc Hk. destruct (matrix_ok_lookup m k Hm Hk) as (row & Hrow & Hl).
  unfold Result.set_coeff, at_, store. rewrite Hrow. simpl.
  destruct (lookup_lt_is_Some_2 row 0) as [y Hy]; [lia|].
  change (N.to_nat 0) with 0%nat. rewrite Hy. simpl. rewrite ?Hrow.
  eexists. split; [done|]. apply matrix_ok_insert; [done|].
  by rewrite length_insert.
Qed.

Lemma rd_total (count : N) (src : Evaluator.mat * N) (r : Result.Result) :
  WF.arena_ok n cols r -> (N.to_nat count <= cols)%nat ->
  (N.to_nat src.2 < n)%nat ->
  exists v, Evaluator.rd count src r = Ok v /\ length v = N.to_nat count.
Proof.
  intros Hr Hc Hk.
  destruct (matrix_ok_lookup _ _ (get_mat_ok src.1 r Hr) Hk)
    as (row & Hrow & Hl).
  exists (take (N.to_nat count) row). split.
  - apply head_Ok. exists row. split; [done|]. split; [lia|done].
  - rewrite length_take. lia.
Qed.

Lemma wr_total (count : N) (dst : Evaluator.mat * N) (v : list float)
    (r : Result.Result) :
  WF.arena_ok n cols r -> (N.to_nat count <= cols)%nat ->
  (N.to_nat dst.2 < n)%nat -> length v = N.to_nat count ->
  exists r', Evaluator.wr count dst v r = Ok r' /\ WF.arena_ok n cols r'.
Proof.
  intros Hr Hc Hk Hv.
  destruct (matrix_ok_lookup _ _ (get_mat_ok dst.1 r Hr) Hk)
    as (row & Hrow & Hl).
  unfold Evaluator.wr.
  assert (Evaluator.set_head (Evaluator.get_mat dst.1 r) dst.2 count v
          = Ok (<[N.to_nat dst.2 := v ++ drop (N.to_nat count) row]>
                  (Evaluator.get_mat dst.1 r))) as ->.
  { apply set_head_Ok. exists row. split; [done|]. split; [lia|done]. }
  simpl. eexists. split; [done|]. apply set_mat_ok; [done|].
  apply matrix_ok_insert; [by apply get_mat_ok|].
  rewrite length_app, length_drop. lia.
Qed.

Ltac read_rows Hr Hc :=
  repeat match goal with
    | |- context [Evaluator.rd ?count ?src ?r] =>
        let v := fresh "v" in let E := fresh "E" in let L := fresh "L" in
        destruct (rd_total count src r Hr Hc) as (v & E & L);
        [simpl; lia|rewrite E; clear E; simpl]
    end.

Lemma assign1_total (count : N) (dst s1 : Evaluator.mat * N)
    (g : float -> float) (r : Result.Result) :
  WF.arena_ok n cols r -> (N.to_nat count <= cols)%nat ->
  (N.to_nat dst.2 < n)%nat -> (N.to_nat s1.2 < n)%nat ->
  exists r', Evaluator.assign1 count dst g s1 r = Ok r'
             /\ WF.arena_ok n cols r'.
Proof.
  intros Hr Hc Hd H1. unfold Evaluator.assign1. read_rows Hr Hc.
  apply wr_total; try done. by rewrite length_fmap.
Qed.

Lemma assign2_total (count : N) (dst s1 s2 : Evaluator.mat * N)
    (g : float -> float -> float) (r : Result.Result) :
  WF.arena_ok n cols r -> (N.to_nat count <= cols)%nat ->
  (N.to_nat dst.2 < n)%nat -> (N.to_nat s1.2 < n)%nat ->
  (N.to_nat s2.2 < n)%nat ->
  exists r', Evaluator.assign2 count dst g s1 s2 r = Ok r'
             /\ WF.arena_ok n cols r'.
Proof.
  intros Hr Hc Hd H1 H2. unfold Evaluator.assign2. read_rows Hr Hc.
  apply wr_total; try done. rewrite length_zip_with. lia.
Qed.

Lemma assign3_total (count : N) (dst s1 s2 s3 : Evaluator.mat * N)
    (g : float -> float -> float -> float) (r : Result.Result) :
  WF.arena_ok n cols r -> (N.to_nat count <= cols)%nat ->
  (N.to_nat dst.2 < n)%nat -> (N.to_nat s1.2 < n)%nat ->
  (N.to_nat s2.2 < n)%nat -> (N.to_nat s3.2 < n)%nat ->
  exists r', Evaluator.assign3 count dst g s1 s2 s3 r = Ok r'
             /\ WF.arena_ok n cols r'.
Proof.
  intros Hr Hc Hd H1 H2 H3. unfold Evaluator.assign3. read_rows Hr Hc.
  apply wr_total; try done. by apply length_map3.
Qed.

Lemma assign4_total (count : N) (dst s1 s2 s3 s4 : Evaluator.mat * N)
    (g : float -> float -> float -> float -> float) (r : Result.Result) :
  WF.arena_ok n cols r -> (N.to_nat count <= cols)%nat ->
  (N.to_nat dst.2 < n)%nat -> (N.to_nat s1.2 < n)%nat ->
  (N.to_nat s2.2 < n)%nat -> (N.to_nat s3.2 < n)%nat ->
  (N.to_nat s4.2 < n)%nat ->
  exists r', Evaluator.assign4 count dst g s1 s2 s3 s4 r = Ok r'
             /\ WF.arena_ok n cols r'.
Proof.
  intros Hr Hc Hd H1 H2 H3 H4. unfold Evaluator.assign4. read_rows Hr Hc.
  apply wr_total; try done. by apply length_map4.
Qed.

Lemma assign5_total (count : N) (dst s1 s2 s3 s4 s5 : Evaluator.mat * N)
    (g : float -> float -> float -> float -> float -> float)
    (r : Result.Result) :
  WF.arena_ok n cols r -> (N.to_nat count <= cols)%nat ->
  (N.to_nat dst.2 < n)%nat -> (N.to_nat s1.2 < n)%nat ->
  (N.to_nat s2.2 < n)%nat -> (N.to_nat s3.2 < n)%nat ->
  (N.to_nat s4.2 < n)%nat -> (N.to_nat s5.2 < n)%nat ->
  exists r', Evaluator.assign5 count dst g s1 s2 s3 s4 s5 r = Ok r'
             /\ WF.arena_ok n cols r'.
Proof.
  intros Hr Hc Hd H1 H2 H3 H4 H5. unfold Evaluator.assign5. read_rows Hr Hc.
  apply wr_total; try done. by apply length_map5.
Qed.

(** A chain of array statements runs through. *)
Ltac statements :=
  lazymatch goal with
  | |- exists r', bind ?m ?k = Ok r' /\ _ =>
      let r0 := fresh "r" in let E := fresh "E" in let H := fresh "H" in
      assert (exists r0, m = Ok r0 /\ WF.arena_ok n cols r0)
        as (r0 & E & H) by statements;
      rewrite E; cbn [bind]; statements
  | |- exists r', Evaluator.assign1 _ _ _ _ _ = Ok r' /\ _ =>
      apply assign1_total; simpl; (done || lia)
  | |- exists r', Evaluator.assign2 _ _ _ _ _ _ = Ok r' /\ _ =>
      apply assign2_total; simpl; (done || lia)
  | |- exists r', Evaluator.assign3 _ _ _ _ _ _ _ = Ok r' /\ _ =>
      apply assign3_total; simpl; (done || lia)
  | |- exists r', Evaluator.assign4 _ _ _ _ _ _ _ _ = Ok r' /\ _ =>
      apply assign4_total; simpl; (done || lia)
  | |- exists r', Evaluator.assign5 _ _ _ _ _ _ _ _ _ = Ok r' /\ _ =>
      apply assign5_total; simpl; (done || lia)
  end.

Lemma values_clause_total (fuel : nat) (count : N) (c : Clause.Clause)
    (r : Result.Result) :
  WF.clause_ok n c -> WF.total_op (Clause.op c) ->
  WF.arena_ok n cols r -> (N.to_nat count <= cols)%nat ->
  exists r', Evaluator.values_clause fuel count c r = Ok r'
             /\ WF.arena_ok n cols r'.
Proof.
  intros (Hid & Ha & Hb & _) [Hop Hmod] Hr Hc.
  unfold Evaluator.values_clause.
  destruct (Clause.op c); try discriminate; try done; statements.
Qed.

Lemma derivs_clause_total (count : N) (c : Clause.Clause)
    (r : Result.Result) :
  WF.clause_ok n c -> WF.operator (Clause.op c) = true ->
  WF.arena_ok n cols r -> (N.to_nat count <= cols)%nat ->
  exists r', Evaluator.derivs_clause count c r = Ok r'
             /\ WF.arena_ok n cols r'.
Proof.
  intros (Hid & Ha & Hb & _) Hop Hr Hc.
  unfold Evaluator.derivs_clause, Evaluator.each3. cbv zeta.
  destruct (Clause.op c); try discriminate; statements.
Qed.

End KernelTotal.


(** ** Evaluations and pushes on a well-formed evaluator *)

Section Runs.
Context {num : Numeric} {api : Feature.API}.

Lemma runs_with_result (n : nat) (s : Evaluator.Evaluator) (tp : Tape.Tape)
    (r : Result.Result) :
  WF.runs_ok n s tp -> WF.arena_ok n 1 r ->
  WF.runs_ok n (Evaluator.with_result r s) tp.
Proof. intros [] Hr. by split. Qed.

Lemma kernel_evaluator (s : Evaluator.Evaluator) (tp : Tape.Tape) :
  WF.runs_ok (length (Evaluator.remap s)) s tp -> WF.evaluator_ok s.
Proof.
  intros [Hcur Htp _ Hd _ (_ & _ & _ & _ & Hi) HX HY HZ].
  split; try done. by exists tp.
Qed.

Lemma set_total (n : nat) (p : Vector3f) (s : Evaluator.Evaluator)
    (tp : Tape.Tape) :
  WF.runs_ok n s tp ->
  exists r1, Evaluator.set p 0 s = Ok (Evaluator.with_result r1 s)
             /\ WF.arena_ok n 1 r1.
Proof.
  intros [_ _ _ _ _ (Hf & Hx & Hy & Hz & Hi) HX HY HZ].
  unfold Evaluator.set.
  destruct (set_coeff_total n 1 _ (Evaluator.X s) (vx p) Hf)
    as (f1 & -> & Hf1); [lia|done|]. simpl.
  destruct (set_coeff_total n 1 _ (Evaluator.Y s) (vy p) Hf1)
    as (f2 & -> & Hf2); [lia|done|]. simpl.
  destruct (set_coeff_total n 1 _ (Evaluator.Z s) (vz p) Hf2)
    as (f3 & -> & Hf3); [lia|done|]. simpl.
  eexists. split; [done|]. unfold WF.arena_ok. simpl. tauto.
Qed.

Lemma values_total (n fuel : nat) (count : N) (s : Evaluator.Evaluator)
    (tp : Tape.Tape) :
  WF.runs_ok n s tp -> (N.to_nat count <= 1)%nat ->
  exists r', Evaluator.values fuel count s
             = Ok (Tape.i tp, Evaluator.with_result r' s)
             /\ WF.arena_ok n 1 r'.
Proof.
  intros [Hcur (Hcl & _ & Hroot) Hops _ _ Hr _ _ _] Hc.
  unfold Evaluator.values. rewrite Hcur. simpl.
  destruct (foldlM_total (WF.arena_ok n 1)
              (fun r c => Evaluator.values_clause fuel count c r)
              (rev (Tape.t tp)) (Evaluator.result s))
    as (r' & -> & Hr'); [|done|].
  { intros r c Hin Har. apply (proj1 (elem_of_rev _ _)) in Hin.
    apply values_clause_total; try done.
    - by apply (proj1 (Forall_forall _ _) Hcl).
    - by apply (proj1 (Forall_forall _ _) Hops c). }
  simpl. pose proof Hr' as (Hf & _).
  destruct (coeff_total n 1 _ (Tape.i tp) Hf) as [x ->]; [lia|done|].
  simpl. by exists r'.
Qed.

Lemma derivs_total (n fuel : nat) (count : N) (s : Evaluator.Evaluator)
    (tp : Tape.Tape) :
  WF.runs_ok n s tp -> (N.to_nat count <= 1)%nat ->
  exists r', Evaluator.derivs fuel count s
             = Ok (Tape.i tp, Evaluator.with_result r' s)
             /\ WF.arena_ok n 1 r'.
Proof.
  intros Hs Hc. unfold Evaluator.derivs.
  destruct (values_total n fuel count s tp Hs Hc) as (r1 & -> & Hr1).
  simpl. destruct Hs as [Hcur (Hcl & _ & Hroot) Hops _ _ _ _ _ _].
  change (Evaluator.cur (Evaluator.with_result r1 s))
    with (Evaluator.cur s). rewrite Hcur. simpl.
  destruct (foldlM_total (WF.arena_ok n 1)
              (fun r c => Evaluator.derivs_clause count c r)
              (rev (Tape.t tp)) r1)
    as (r' & -> & Hr'); [|done|].
  { intros r c Hin Har. apply (proj1 (elem_of_rev _ _)) in Hin.
    apply derivs_clause_total; try done.
    - by apply (proj1 (Forall_forall _ _) Hcl).
    - by apply (proj1 (Forall_forall _ _) Hops c). }
  simpl. pose proof Hr' as (Hf & Hx & Hy & Hz & _).
  destruct (coeff_total n 1 _ (Tape.i tp) Hf) as [x0 ->]; [lia|done|].
  destruct (coeff_total n 1 _ (Tape.i tp) Hx) as [x1 ->]; [lia|done|].
  destruct (coeff_total n 1 _ (Tape.i tp) Hy) as [x2 ->]; [lia|done|].
  destruct (coeff_total n 1 _ (Tape.i tp) Hz) as [x3 ->]; [lia|done|].
  simpl. by exists r'.
Qed.

Lemma eval_total (n fuel : nat) (p : Vector3f) (s : Evaluator.Evaluator)
    (tp : Tape.Tape) :
  WF.runs_ok n s tp ->
  exists x r', Evaluator.eval fuel p s = Ok (x, Evaluator.with_result r' s)
               /\ WF.arena_ok n 1 r'.
Proof.
  intros Hs. unfold Evaluator.eval.
  destruct (set_total n p s tp Hs) as (r1 & -> & Hr1). simpl.
  destruct (values_total n fuel 1 (Evaluator.with_result r1 s) tp)
    as (r' & -> & Hr'); [by apply runs_with_result|simpl; lia|].
  simpl. pose proof Hr' as (Hf & _).
  destruct Hs as [_ (_ & _ & Hroot) _ _ _ _ _ _ _].
  destruct (coeff_total n 1 _ (Tape.i tp) Hf) as [x ->]; [lia|done|].
  simpl. by exists x, r'.
Qed.

(** The chain through [remap] climbs and stays among the slots. *)
Lemma reaches_range (n : nat) (m : list N) (r r' : N) :
  WF.remap_ok n m -> WF.reaches m r r' ->
  (N.to_nat r <= N.to_nat r' < n)%nat.
Proof.
  intros [Hlen Hm]. induction 1 as [r Hr|r r1 r' Hr Hne _ IH].
  - apply lookup_lt_Some in Hr. lia.
  - destruct (Hm _ _ Hr) as [->|Hlt]; [done|]. lia.
Qed.

Lemma rewritten_ids (m : list N) (l l' : list Clause.Clause) :
  Forall2 (WF.rewritten m) l l' -> Clause.id <$> l' = Clause.id <$> l.
Proof.
  induction 1 as [|c c' l l' (_ & Hid & _) _ IH]; [done|].
  by rewrite !fmap_cons, Hid, IH.
Qed.

(** A reduced tape is well formed, and its clauses have the opcodes of
    clauses of its parent. *)
Lemma reduced_tape_ok (n : nat) (d : list bool) (m : list N)
    (prev new : Tape.Tape) (P : Opcode.Opcode -> Prop) :
  WF.tape_ok n prev -> WF.remap_ok n m -> WF.reduced d m prev new ->
  Forall (fun c => P (Clause.op c)) (Tape.t prev) ->
  WF.tape_ok n new /\ Forall (fun c => P (Clause.op c)) (Tape.t new).
Proof.
  intros (Hcl & Hnd & Hroot) Hm [Hred Hrt] HP.
  assert (forall c', c' ∈ Tape.t new ->
            exists c, c ∈ Tape.t prev /\ WF.rewritten m c c') as Hfrom.
  { intros c' Hc'. apply list_elem_of_lookup_1 in Hc' as [i Hi].
    destruct (Forall2_lookup_r _ _ _ _ _ Hred Hi) as (c & Hc & Hrw).
    exists c. split; [|done].
    by apply list_elem_of_lookup_2, list_elem_of_filter in Hc as [_ Hc]. }
  split; [split; [|split]|].
  - apply Forall_forall. intros c' Hc'.
    destruct (Hfrom c' Hc') as (c & Hc & Hop & Hid & Ha & Hb).
    destruct (proj1 (Forall_forall _ _) Hcl c Hc) as (Hi & Hai & Hbi & Hmm).
    apply (reaches_range n) in Ha; [|done].
    apply (reaches_range n) in Hb; [|done].
    split; [by rewrite Hid|]. split; [lia|]. split; [lia|].
    rewrite Hop, Hid. intros Hmin. destruct (Hmm Hmin). lia.
  - rewrite (rewritten_ids _ _ _ Hred).
    apply (sublist_NoDup _ (Clause.id <$> Tape.t prev)); [exact Hnd|].
    apply fmap_sublist. apply sublist_filter.
  - apply (reaches_range n) in Hrt; [lia|done].
  - apply Forall_forall. intros c' Hc'.
    destruct (Hfrom c' Hc') as (c & Hc & Hop & _). rewrite Hop.
    by apply (proj1 (Forall_forall _ _) HP c).
Qed.

(** [pushTape] on a well-formed evaluator, with the scratch arrays a
    push has built. *)
Lemma pushTape_runs (n : nat) (t : Tape.Type_) (s : Evaluator.Evaluator)
    (tp : Tape.Tape) (dm : list bool * list N) :
  WF.runs_ok n s tp -> WF.scratch_ok n dm ->
  exists s' new,
    Evaluator.pushTape t (Evaluator.with_scratch dm.1 dm.2 s) = Ok s'
    /\ WF.runs_ok n s' new
    /\ WF.reduced dm.1 dm.2 tp new
    /\ Evaluator.tape s' = S (Evaluator.tape s)
    /\ Evaluator.tapes s' !! Evaluator.tape s
       = Evaluator.tapes s !! Evaluator.tape s
    /\ Evaluator.result s' = Evaluator.result s
    /\ Evaluator.X s' = Evaluator.X s /\ Evaluator.Y s' = Evaluator.Y s
    /\ Evaluator.Z s' = Evaluator.Z s.
Proof.
  intros [Hcur Htp Hops Hd Hmm Hr HX HY HZ] [[Hdd Hdm] Hrm].
  destruct (pushTape_total n t (Evaluator.with_scratch dm.1 dm.2 s) tp)
    as [s' Hs']; try done.
  exists s'.
  destruct (pushTape_reduced _ _ _ Hs')
    as (prev & new & Hprev & Hnew & Htape & Hd' & Hm' & Hres & _ & Hred).
  change (Evaluator.cur s = Ok prev) in Hprev.
  rewrite Hcur in Hprev. injection Hprev as <-.
  destruct (pushTape_stack _ _ _ Hs')
    as (_ & Hother & _ & _ & _ & HX' & HY' & HZ').
  simpl in *. exists new.
  destruct (reduced_tape_ok n dm.1 dm.2 tp new WF.total_op Htp Hrm Hred Hops)
    as [Hnew_ok Hnew_ops].
  split; [done|]. split.
  { split; try done; congruence. }
  split; [done|]. split; [done|]. split; [apply Hother; lia|done].
Qed.

Lemma specialize_clause_total (n : nat) (f : list (list float))
    (c : Clause.Clause) (dm : list bool * list N) :
  WF.matrix_ok n 1 f -> WF.scratch_ok n dm -> WF.clause_ok n c ->
  exists dm', Evaluator.specialize_clause f dm c = Ok dm'
              /\ WF.scratch_ok n dm'.
Proof.
  intros Hf Hdm Hc. unfold Evaluator.specialize_clause.
  pose proof Hdm as [[Hd Hm] _]. pose proof Hc as (Hid & Ha & Hb & _).
  destruct (lookup_lt_is_Some_2 dm.1 (N.to_nat (Clause.id c))) as [dis Hdis];
    [lia|].
  rewrite (proj2 (at_Ok _ _ _) Hdis). simpl.
  destruct dis; [by exists dm|].
  destruct (coeff_total n 1 f (Clause.a c) Hf) as [fa Hfa]; [lia|done|].
  destruct (coeff_total n 1 f (Clause.b c) Hf) as [fb Hfb]; [lia|done|].
  assert (Hgo : forall m1 : res (list bool * list N),
            (exists dm1, m1 = Ok dm1 /\ WF.scratch_ok n dm1) ->
            exists dm', bind m1 (Evaluator.settle c) = Ok dm'
                        /\ WF.scratch_ok n dm').
  { intros m1 (dm1 & -> & Hdm1). simpl. by apply settle_inv. }
  destruct (Clause.op c) eqn:Hop;
    try (apply Hgo; by exists dm);
    rewrite Hfa, Hfb; simpl; apply Hgo;
    (destruct (F32.gt fa fb);
       [apply collapse_inv; rewrite ?Hop; auto|]);
    (destruct (F32.gt fb fa);
       [apply collapse_inv; rewrite ?Hop; auto|]);
    by exists dm.
Qed.

Lemma push_Feature_clause_total (n : nat) (fv : list (list float))
    (f : Feature) (c : Clause.Clause) (itr : list Feature.Choice)
    (out : Feature) (dm : list bool * list N) :
  WF.matrix_ok n 1 fv -> WF.scratch_ok n dm -> WF.clause_ok n c ->
  exists itr' out' dm',
    Evaluator.push_Feature_clause fv f (itr, out, dm) c
    = Ok (itr', out', dm')
    /\ WF.scratch_ok n dm'.
Proof.
  intros Hf Hdm Hc. unfold Evaluator.push_Feature_clause.
  pose proof Hdm as [[Hd Hm] _]. pose proof Hc as (Hid & Ha & Hb & _).
  destruct (coeff_total n 1 fv (Clause.a c) Hf) as [fa ->]; [lia|done|].
  destruct (coeff_total n 1 fv (Clause.b c) Hf) as [fb ->]; [lia|done|].
  simpl.
  destruct (lookup_lt_is_Some_2 dm.1 (N.to_nat (Clause.id c))) as [dis Hdis];
    [lia|].
  rewrite (proj2 (at_Ok _ _ _) Hdis). simpl.
  destruct dis; [simpl; by eexists _, _, _|].
  destruct (Evaluator.matching fa fb c itr) as [ch|] eqn:Hmatch.
  - apply matching_Some in Hmatch as (itr' & -> & _ & Hmm & _).
    assert (exists dm1,
              (if decide (Feature.choice ch = 0%Z)
               then Evaluator.collapse c (Clause.a c) dm
               else Evaluator.collapse c (Clause.b c) dm) = Ok dm1
              /\ WF.scratch_ok n dm1) as (dm1 & -> & Hdm1).
    { destruct (decide (Feature.choice ch = 0%Z));
        apply collapse_inv; auto. }
    simpl. destruct (settle_inv n c dm1 Hdm1 Hc) as (dm2 & -> & Hdm2).
    simpl. by eexists _, _, _.
  - simpl. destruct (settle_inv n c dm Hdm Hc) as (dm2 & -> & Hdm2).
    simpl. by eexists _, _, _.
Qed.

End Runs.


(** ** [featuresAt] where every min and max is decided *)

Section Decided1.
Context {num : Numeric} {api : Feature.API}.

Lemma kernel_users_first (s : Evaluator.Evaluator) (tp : Tape.Tape) :
  WF.kernel_ok s tp -> WF.users_first (Tape.t tp).
Proof.
  intros [[Hcur (_ & Hnd & _) _ _ _ _ _ _ _] Hord Hax].
  intros i j c c2 Hi Hj Hle.
  apply (ordered_operands_later (WF.input s tp) (Tape.t tp))
    with (i := i) (j := j); try done; [|by apply Hord].
  intros k Hk. by apply (input_not_written s).
Qed.

Lemma clause_ok_binary (n : nat) (l : list Clause.Clause) :
  Forall (WF.clause_ok n) l -> Forall WF.binary_min_max l.
Proof.
  intros H. eapply Forall_impl; [exact H|].
  intros c (_ & _ & _ & Hmm) Hop. destruct (Hmm Hop). split; lia.
Qed.

(** [specialize(p)] on a well-formed evaluator. *)
Lemma specialize_runs (n fuel : nat) (p : Vector3f)
    (s : Evaluator.Evaluator) (tp : Tape.Tape) :
  WF.runs_ok n s tp ->
  exists x r1 dm0 dm s1 new,
    Evaluator.eval fuel p s = Ok (x, Evaluator.with_result r1 s)
    /\ Evaluator.reset s (Tape.i tp) = Ok dm0
    /\ foldlM (Evaluator.specialize_clause (Result.f r1)) (Tape.t tp) dm0
       = Ok dm
    /\ Evaluator.specialize fuel p s = Ok s1
    /\ WF.runs_ok n s1 new
    /\ WF.reduced dm.1 dm.2 tp new
    /\ Evaluator.tape s1 = S (Evaluator.tape s)
    /\ Evaluator.tapes s1 !! Evaluator.tape s
       = Evaluator.tapes s !! Evaluator.tape s
    /\ Evaluator.result s1 = r1
    /\ Evaluator.X s1 = Evaluator.X s /\ Evaluator.Y s1 = Evaluator.Y s
    /\ Evaluator.Z s1 = Evaluator.Z s.
Proof.
  intros Hs. unfold Evaluator.specialize.
  destruct (eval_total n fuel p s tp Hs) as (x & r1 & Hev & Hr1).
  rewrite Hev. simpl.
  pose proof (runs_with_result n s tp r1 Hs Hr1) as Hs1.
  pose proof Hs as [Hcur (Hcl & Hnd & Hroot) Hops Hd Hm _ _ _ _].
  change (Evaluator.cur (Evaluator.with_result r1 s))
    with (Evaluator.cur s). rewrite Hcur. simpl.
  destruct (reset_ok n s (Tape.i tp) Hd Hm Hroot) as (dm0 & Hdm0 & Hok0).
  change (Evaluator.reset (Evaluator.with_result r1 s) (Tape.i tp))
    with (Evaluator.reset s (Tape.i tp)). rewrite Hdm0. simpl.
  destruct (foldlM_total (WF.scratch_ok n)
              (Evaluator.specialize_clause (Result.f r1)) (Tape.t tp) dm0)
    as (dm & Hfold & Hok); [|done|].
  { intros b c Hc Hb. apply specialize_clause_total; [by destruct Hr1|done|].
    by apply (proj1 (Forall_forall _ _) Hcl). }
  change (Result.f (Evaluator.result (Evaluator.with_result r1 s)))
    with (Result.f r1). rewrite Hfold. simpl.
  destruct (pushTape_runs n Tape.SPECIALIZED _ tp dm Hs1 Hok)
    as (s1 & new & Hpush & Hruns & Hred & Htape & Htapes & Hres & HXYZ).
  exists x, r1, dm0, dm, s1, new. by repeat (split; [done|]).
Qed.

(** [push(f)] on a well-formed evaluator: the loop runs through, and the
    push returns unless a choice of [f] is left over. *)
Lemma push_Feature_runs (n : nat) (f : Feature) (s : Evaluator.Evaluator)
    (tp : Tape.Tape) :
  WF.runs_ok n s tp ->
  exists dm0 itr out dm,
    Evaluator.reset s (Tape.i tp) = Ok dm0
    /\ foldlM (Evaluator.push_Feature_clause
                 (Result.f (Evaluator.result s)) f) (Tape.t tp)
         (Feature.getChoices f,
          Feature.set_deriv (Feature.deriv f) Feature.new, dm0)
       = Ok (itr, out, dm)
    /\ (itr <> [] ->
        Evaluator.push_Feature f s = Err AssertionFailed)
    /\ (itr = [] ->
        exists s1 new,
          Evaluator.push_Feature f s = Ok (out, s1)
          /\ WF.runs_ok n s1 new
          /\ WF.reduced dm.1 dm.2 tp new
          /\ Evaluator.tape s1 = S (Evaluator.tape s)
          /\ Evaluator.tapes s1 !! Evaluator.tape s
             = Evaluator.tapes s !! Evaluator.tape s
          /\ Evaluator.result s1 = Evaluator.result s
          /\ Evaluator.X s1 = Evaluator.X s
          /\ Evaluator.Y s1 = Evaluator.Y s
          /\ Evaluator.Z s1 = Evaluator.Z s).
Proof.
  intros Hs. unfold Evaluator.push_Feature.
  pose proof Hs as [Hcur (Hcl & Hnd & Hroot) Hops Hd Hm Hr _ _ _].
  rewrite Hcur. simpl.
  destruct (reset_ok n s (Tape.i tp) Hd Hm Hroot) as (dm0 & Hdm0 & Hok0).
  rewrite Hdm0. simpl.
  destruct (foldlM_total (fun st => WF.scratch_ok n st.2)
              (Evaluator.push_Feature_clause
                 (Result.f (Evaluator.result s)) f) (Tape.t tp)
              (Feature.getChoices f,
               Feature.set_deriv (Feature.deriv f) Feature.new, dm0))
    as ([[itr out] dm] & Hfold & Hok); [|done|].
  { intros [[itr out] dm] c Hc Hb.
    destruct (push_Feature_clause_total n (Result.f (Evaluator.result s)) f
                c itr out dm) as (itr' & out' & dm' & Hstep & Hdm');
      [by destruct Hr|done|by apply (proj1 (Forall_forall _ _) Hcl)|].
    by exists (itr', out', dm'). }
  rewrite Hfold. simpl in *. exists dm0, itr, out, dm.
  split; [done|]. split; [done|]. split.
  - intros Hne. by rewrite bool_decide_false.
  - intros ->. rewrite bool_decide_true by done. simpl.
    destruct (pushTape_runs n Tape.FEATURE s tp dm Hs Hok)
      as (s1 & new & -> & Hruns & Hred & Htape & Htapes & Hres & HXYZ).
    simpl. by exists s1, new.
Qed.

(** After a push, an evaluation of the derivatives and a pop, the
    evaluator is as well formed as before, on the same tape. *)
Lemma push_derivs_pop_runs (n fuel : nat) (s s1 : Evaluator.Evaluator)
    (tp new : Tape.Tape) :
  WF.runs_ok n s tp -> WF.runs_ok n s1 new ->
  Evaluator.tape s1 = S (Evaluator.tape s) ->
  Evaluator.tapes s1 !! Evaluator.tape s
  = Evaluator.tapes s !! Evaluator.tape s ->
  Evaluator.X s1 = Evaluator.X s -> Evaluator.Y s1 = Evaluator.Y s ->
  Evaluator.Z s1 = Evaluator.Z s ->
  exists r2 s3,
    Evaluator.derivs fuel 1 s1
    = Ok (Tape.i new, Evaluator.with_result r2 s1)
    /\ WF.arena_ok n 1 r2
    /\ Evaluator.pop (Evaluator.with_result r2 s1) = Ok s3
    /\ WF.runs_ok n s3 tp
    /\ Evaluator.tape s3 = Evaluator.tape s
    /\ Evaluator.X s3 = Evaluator.X s /\ Evaluator.Y s3 = Evaluator.Y s
    /\ Evaluator.Z s3 = Evaluator.Z s.
Proof.
  intros Hs Hs1 Htape Htapes HX HY HZ.
  destruct (derivs_total n fuel 1 s1 new Hs1) as (r2 & Hd & Hr2);
    [simpl; lia|].
  exists r2, (Evaluator.with_tape (Evaluator.tape s)
                (Evaluator.with_result r2 s1)).
  split; [done|]. split; [done|]. split.
  { apply pop_Ok. simpl. rewrite Htape. split; [lia|done]. }
  destruct Hs as [Hcur Htp Hops Hdl Hml _ HXn HYn HZn].
  destruct Hs1 as [_ _ _ Hdl1 Hml1 _ _ _ _].
  split; [|by simpl].
  split; try done; simpl; try congruence.
  unfold Evaluator.cur in *. simpl. by rewrite Htapes.
Qed.

End Decided1.

(** ** One iteration of the worklist loop of [featuresAt] *)

Section Iteration.
Context {num : Numeric} {api : Feature.API}.

Lemma successor_cons (c : Clause.Clause) (l : list Clause.Clause)
    (f_ : Feature) (kids : list Feature) :
  Forall (WF.successor l f_) kids -> Forall (WF.successor (c :: l) f_) kids.
Proof.
  intros Hk. eapply Forall_impl; [exact Hk|].
  intros y (c' & ch & Hc' & H). exists c', ch.
  split; [by right|done].
Qed.

(** The scan returns on every arena that has the slots of the tape; it
    appends at most two features to [todo], and none exactly when it
    finds nothing ambiguous. *)
Lemma scan_total (n : nat) (r : Result.Result) (f_ : Feature)
    (l : list Clause.Clause) (todo : list Feature) :
  WF.arena_ok n 1 r -> Forall (WF.clause_ok n) l ->
  exists amb kids,
    Evaluator.featuresAt_scan r f_ l todo = Ok (amb, todo ++ kids)
    /\ (amb = true <-> kids <> [])
    /\ (length kids <= 2)%nat
    /\ Forall (WF.successor l f_) kids.
Proof.
  intros (Hf & Hdx & Hdy & Hdz & _) Hl.
  induction Hl as [|c l Hc Hl IH]; simpl.
  { exists false, []. rewrite app_nil_r. repeat split; try done.
    simpl. lia. }
  assert (Forall (WF.successor l f_) [] ) as Hnil by constructor.
  destruct IH as (amb & kids & IH & Hamb & Hlen & Hkids).
  assert (exists amb kids,
            Evaluator.featuresAt_scan r f_ l todo = Ok (amb, todo ++ kids)
            /\ (amb = true <-> kids <> [])
            /\ (length kids <= 2)%nat
            /\ Forall (WF.successor (c :: l) f_) kids) as Hrest.
  { exists amb, kids. repeat split; try tauto. by apply successor_cons. }
  destruct (Evaluator.is_min_max (Clause.op c)) eqn:Hmm; [|exact Hrest].
  destruct Hc as (Hid & Ha & Hb & _).
  case_decide as Hab.
  { exists true, [Feature.push_choice
                    (Feature.mk_choice (Clause.id c) 0) f_].
    split; [done|]. split; [split; done|]. split; [simpl; lia|].
    constructor; [|constructor].
    exists c, (Feature.mk_choice (Clause.id c) 0).
    split; [by left|]. split; [done|]. split; [done|by left]. }
  destruct (coeff_total n 1 _ (Clause.a c) Hf) as [va ->]; [lia|done|].
  destruct (coeff_total n 1 _ (Clause.b c) Hf) as [vb ->]; [lia|done|].
  simpl. destruct (F32.eq va vb); [|exact Hrest].
  destruct (coeff_total n 1 _ (Clause.b c) Hdx) as [bx ->]; [lia|done|].
  destruct (coeff_total n 1 _ (Clause.b c) Hdy) as [by_ ->]; [lia|done|].
  destruct (coeff_total n 1 _ (Clause.b c) Hdz) as [bz ->]; [lia|done|].
  destruct (coeff_total n 1 _ (Clause.a c) Hdx) as [ax ->]; [lia|done|].
  destruct (coeff_total n 1 _ (Clause.a c) Hdy) as [ay ->]; [lia|done|].
  destruct (coeff_total n 1 _ (Clause.a c) Hdz) as [az ->]; [lia|done|].
  simpl.
  set (epsilon := if decide (Clause.op c = Opcode.MIN)
                  then _ else _).
  assert (forall e k y,
            Feature.push e (Feature.mk_choice (Clause.id c) k) f_ = Some y ->
            WF.successor (c :: l) f_ y) as Hsucc.
  { intros e k y Hy. exists c, (Feature.mk_choice (Clause.id c) k).
    split; [by left|]. split; [done|]. split; [done|]. right. by exists e. }
  destruct (Feature.push epsilon (Feature.mk_choice (Clause.id c) 0) f_)
    as [fa|] eqn:Hfa;
    destruct (Feature.push (Vector3d_neg epsilon)
                (Feature.mk_choice (Clause.id c) 1) f_) as [fb|] eqn:Hfb;
    simpl.
  - exists true, [fa; fb]. rewrite <- app_assoc. simpl.
    split; [done|]. split; [split; done|]. split; [simpl; lia|].
    repeat constructor; by eapply Hsucc.
  - exists true, [fa].
    split; [done|]. split; [split; done|]. split; [simpl; lia|].
    repeat constructor; by eapply Hsucc.
  - exists true, [fb].
    split; [done|]. split; [split; done|]. split; [simpl; lia|].
    repeat constructor; by eapply Hsucc.
  - exact Hrest.
Qed.

(** One iteration of the loop on a well-formed evaluator: the push of
    the feature [x] walks the active tape; the iteration stops at the
    assertion if a choice of [x] is left over, and otherwise goes on to
    the next iteration with the successors the scan has found. *)
Lemma loop_step (n fuel k : nat) (x : Feature) (todo' done : list Feature)
    (seen : list (list Feature.Choice)) (s : Evaluator.Evaluator)
    (tp : Tape.Tape) :
  WF.runs_ok n s tp ->
  exists dm0 itr out dm,
    Evaluator.reset s (Tape.i tp) = Ok dm0
    /\ foldlM (Evaluator.push_Feature_clause
                 (Result.f (Evaluator.result s)) x) (Tape.t tp)
         (Feature.getChoices x,
          Feature.set_deriv (Feature.deriv x) Feature.new, dm0)
       = Ok (itr, out, dm)
    /\ (itr <> [] ->
        Evaluator.featuresAt_loop (S k) fuel (x :: todo') done seen s
        = Err AssertionFailed)
    /\ (itr = [] ->
        exists tf kids done' seen' s3,
          Evaluator.featuresAt_loop (S k) fuel (x :: todo') done seen s
          = Evaluator.featuresAt_loop k fuel (todo' ++ kids) done' seen' s3
          /\ WF.runs_ok n s3 tp
          /\ Evaluator.tape s3 = Evaluator.tape s
          /\ WF.reduced dm.1 dm.2 tp tf
          /\ (length kids <= 2)%nat
          /\ Forall (WF.successor (Tape.t tf) out) kids
          /\ (kids = [] ->
              exists d,
                (done', seen')
                = if bool_decide (Feature.getChoices out ∈ seen)
                  then (done, seen)
                  else (done ++ [Feature.set_deriv d out],
                        Feature.getChoices out :: seen))).
Proof.
  intros Hs.
  destruct (push_Feature_runs n x s tp Hs)
    as (dm0 & itr & out & dm & Hreset & Hfold & Hfail & Hok).
  exists dm0, itr, out, dm. split; [done|]. split; [done|]. split.
  { intros Hne. simpl. by rewrite (Hfail Hne). }
  intros Hnil.
  destruct (Hok Hnil)
    as (s1 & tf & Hpush & Hs1 & Hred & Htape & Htapes & Hres & HX & HY & HZ).
  destruct (push_derivs_pop_runs n fuel s s1 tp tf Hs Hs1 Htape Htapes
              HX HY HZ)
    as (r2 & s3 & Hd & Hr2 & Hpop & Hs3 & Htape3 & _).
  pose proof Hs1 as [Hcur1 (Hcl1 & _ & Hroot1) _ _ _ _ _ _ _].
  destruct (scan_total n r2 out (rev (Tape.t tf)) todo' Hr2)
    as (amb & kids & Hscan & Hamb & Hlen & Hkids).
  { apply Forall_forall. intros c Hc.
    apply (proj1 (elem_of_rev _ _)) in Hc.
    by apply (proj1 (Forall_forall _ _) Hcl1). }
  pose proof Hr2 as (_ & Hdx & Hdy & Hdz & _).
  destruct (coeff_total n 1 _ (Tape.i tf) Hdx) as [ddx Hddx]; [lia|done|].
  destruct (coeff_total n 1 _ (Tape.i tf) Hdy) as [ddy Hddy]; [lia|done|].
  destruct (coeff_total n 1 _ (Tape.i tf) Hdz) as [ddz Hddz]; [lia|done|].
  assert (Forall (WF.successor (Tape.t tf) out) kids) as Hkids'.
  { eapply Forall_impl; [exact Hkids|].
    intros y (c & ch & Hc & H). exists c, ch.
    split; [by apply (proj1 (elem_of_rev _ _))|done]. }
  simpl. rewrite Hpush. simpl. rewrite Hd. simpl.
  change (Evaluator.cur (Evaluator.with_result r2 s1))
    with (Evaluator.cur s1). rewrite Hcur1. simpl.
  rewrite Hscan. simpl.
  destruct amb.
  - simpl. rewrite Hpop. simpl.
    exists tf, kids, done, seen, s3. repeat (split; [done|]).
    intros Hk. exfalso. by apply (proj1 Hamb).
  - rewrite Hddx, Hddy, Hddz. simpl.
    set (d := Vector3d_of ddx ddy ddz).
    unfold Feature.getChoices. simpl.
    destruct (bool_decide (Feature.choices out ∈ seen)) eqn:Hseen;
      simpl; rewrite Hpop; simpl.
    + exists tf, kids, done, seen, s3.
      do 6 (split; [done|]). intros _. by exists d.
    + exists tf, kids, (done ++ [Feature.set_deriv d out]),
        (Feature.choices out :: seen), s3.
      do 6 (split; [done|]). intros _. by exists d.
Qed.

End Iteration.

(** ** [featuresAt] at a point where every min and max is decided *)

Section DecidedPoint.
Context {num : Numeric} {api : Feature.API}.

(** A clause of a reduced tape is a clause of the tape it was made
    from, with the same slot and opcode, that the push left enabled. *)
Lemma reduced_elem (d : list bool) (m : list N) (prev new : Tape.Tape)
    (c' : Clause.Clause) :
  WF.reduced d m prev new -> c' ∈ Tape.t new ->
  exists c, c ∈ Tape.t prev
            /\ Clause.op c' = Clause.op c /\ Clause.id c' = Clause.id c
            /\ d !! N.to_nat (Clause.id c) = Some false.
Proof.
  intros [Hall _] Hc'.
  apply list_elem_of_lookup_1 in Hc' as [i Hi].
  destruct (Forall2_lookup_r _ _ _ _ _ Hall Hi) as (c & Hc & Hop & Hid & _).
  apply list_elem_of_lookup_2 in Hc.
  apply list_elem_of_filter in Hc as [Hd Hc]. by exists c.
Qed.

Lemma featuresAt_decided (fuel : nat) (p : Vector3f)
    (s : Evaluator.Evaluator) (tp : Tape.Tape) :
  WF.kernel_ok s tp -> (1 <= fuel)%nat ->
  (forall x s1, Evaluator.eval fuel p s = Ok (x, s1) ->
     Forall (fun c => Evaluator.is_min_max (Clause.op c) = true ->
                      WF.decided (Result.f (Evaluator.result s1)) c)
            (Tape.t tp)) ->
  exists f s',
    Evaluator.featuresAt fuel p s = Ok ([f], s')
    /\ Feature.getChoices f = [].
Proof.
  intros Hk Hfuel Hdec.
  pose proof (kernel_users_first s tp Hk) as Huf.
  destruct Hk as [Hs _ _].
  set (n := length (Evaluator.remap s)) in *.
  destruct (specialize_runs n fuel p s tp Hs)
    as (x & r1 & dm0 & dm & s1 & new & Hev & Hreset & Hfold & Hspec & Hs1
        & Hred & Htape & _).
  specialize (Hdec x _ Hev). simpl in Hdec.
  pose proof Hs as [_ (Hcl & _ & _) _ _ _ _ _ _ _].
  assert (Forall (fun c => Evaluator.is_min_max (Clause.op c) = false)
                 (Tape.t new)) as Hnone.
  { apply Forall_forall. intros c' Hc'.
    destruct (reduced_elem _ _ _ _ _ Hred Hc') as (c & Hc & Hop & _ & Hd).
    rewrite Hop.
    destruct (Evaluator.is_min_max (Clause.op c)) eqn:Hmm; [|done].
    exfalso.
    destruct (specialize_fold_decided _ _ _ _ Hfold) with (c := c)
      as (fa & fb & Ha & Hb & Hab & Hba); try done.
    { intros i j c1 c2 Hi Hj Hlt. apply (Huf i j c1 c2 Hi Hj). lia. }
    { by apply (clause_ok_binary n). }
    destruct (proj1 (Forall_forall _ _) Hdec c Hc Hmm)
      as (fa' & fb' & Ha' & Hb' & Hgt).
    rewrite Ha in Ha'. rewrite Hb in Hb'.
    injection Ha' as <-. injection Hb' as <-.
    destruct Hgt; congruence. }
  destruct fuel as [|k]; [lia|].
  destruct (loop_step n (S k) k Feature.new [] [] [] s1 new Hs1)
    as (dm1 & itr & out & dm2 & _ & Hwalk & _ & Hok).
  assert (itr = []) as ->.
  { destruct (push_Feature_fold_itr _ _ _ _ _ _ _ _ _ Hwalk)
      as (used & cs & Hused & _).
    simpl in Hused. symmetry in Hused. by apply app_eq_nil in Hused as [_ ?]. }
  assert (out = Feature.set_deriv (Feature.deriv Feature.new) Feature.new)
    as ->.
  { by eapply push_Feature_fold_no_choices. }
  destruct (Hok eq_refl)
    as (tf & kids & done' & seen' & s3 & Hloop & Hs3 & Htape3 & Hred2 & _
        & Hkids & Hdone).
  assert (kids = []) as ->.
  { destruct kids as [|y kids]; [done|]. exfalso.
    apply Forall_cons in Hkids as [(c' & ch & Hc' & Hmm & _) _].
    destruct (reduced_elem _ _ _ _ _ Hred2 Hc') as (c & Hc & Hop & _).
    rewrite Hop in Hmm.
    pose proof (proj1 (Forall_forall _ _) Hnone c Hc). congruence. }
  destruct (Hdone eq_refl) as [d Hd].
  rewrite bool_decide_false in Hd by (intros Hin; by apply elem_of_nil in Hin).
  injection Hd as -> ->.
  replace (Evaluator.featuresAt_loop k (S k) ([] ++ []) _ _ s3)
    with (@Ok (list Feature * Evaluator.Evaluator)
            ([] ++ [Feature.set_deriv d
                      (Feature.set_deriv (Feature.deriv Feature.new)
                         Feature.new)], s3)) in Hloop
    by (by destruct k).
  exists (Feature.set_deriv d
            (Feature.set_deriv (Feature.deriv Feature.new) Feature.new)),
    (Evaluator.with_tape (Nat.pred (Evaluator.tape s3)) s3).
  split; [|done].
  unfold Evaluator.featuresAt. rewrite Hspec. cbn [bind].
  rewrite Hloop. cbn [bind app].
  erewrite (proj2 (pop_Ok s3 _)); [done|].
  split; [|done]. rewrite Htape3, Htape. lia.
Qed.

End DecidedPoint.

(** ** The walk of [push(f)] over the tape *)

Section Walks.
Context {num : Numeric} {api : Feature.API} {laws : Feature.Laws}.

(** A step of the loop of [push(f)]: either the clause matches no
    choice, and the step is the plain one; or it matches the next choice
    and is disabled, and nothing changes; or it matches and is live: the
    choice is recorded at the back of [out] and the clause is disabled. *)
Lemma push_Feature_clause_cases (fv : list (list float)) (f : Feature)
    (c : Clause.Clause) (itr itr' : list Feature.Choice) (out out' : Feature)
    (dm dm' : list bool * list N) :
  WF.binary_min_max c ->
  Evaluator.push_Feature_clause fv f (itr, out, dm) c = Ok (itr', out', dm') ->
  (itr' = itr /\ out' = out /\ WF.plain_step dm c = Ok dm')
  \/ exists ch, itr = ch :: itr' /\ Feature.id ch = Clause.id c
       /\ ((dm.1 !! N.to_nat (Clause.id c) = Some true
            /\ out' = out /\ dm' = dm)
           \/ (dm.1 !! N.to_nat (Clause.id c) = Some false
               /\ Feature.getChoices out' = Feature.getChoices out ++ [ch]
               /\ dm'.1 !! N.to_nat (Clause.id c) = Some true)).
Proof.
  unfold Evaluator.push_Feature_clause, WF.plain_step. intros Hbin H.
  apply bind_Ok in H as (fa & Hfa & H). apply bind_Ok in H as (fb & Hfb & H).
  apply bind_Ok in H as (dis & Hdis & H).
  apply bind_Ok in H as ([o d] & Hod & H).
  rewrite Hdis. simpl. apply at_Ok in Hdis.
  destruct (Evaluator.matching fa fb c itr) as [ch|] eqn:Hm.
  - apply matching_Some in Hm as (tl & -> & Hid & Hmm & _).
    simpl in H. injection H as <- <- <-. right. exists ch.
    split; [done|]. split; [done|].
    destruct dis.
    + left. by injection Hod as <- <-.
    + right. split; [done|]. simpl in Hod.
      apply bind_Ok in Hod as ([o1 d1] & H1 & Hod).
      apply bind_Ok in Hod as (d2 & Hset & Hod). injection Hod as <- <-.
      apply bind_Ok in H1 as (d1' & Hcol & H1). injection H1 as <- <-.
      split.
      * destruct (Feature.hasEpsilon f (Clause.id c));
          [apply Feature.push_raw_back|apply Feature.push_choice_raw_back].
      * destruct (Hbin Hmm) as [Ha Hb].
        assert (exists r, r <> 0%N /\ Evaluator.collapse c r dm = Ok d1')
          as (r & Hr & Hc).
        { destruct (decide (Feature.choice ch = 0%Z)); eauto. }
        apply collapse_Ok in Hc as (_ & Hlen & ->).
        apply settle_Ok in Hset as (r' & Hr' & Hset). simpl in Hr'.
        rewrite list_lookup_insert_eq in Hr' by done. injection Hr' as <-.
        rewrite decide_False in Hset by done. destruct Hset as [Hlt ->].
        simpl. by rewrite list_lookup_insert_eq.
  - left. simpl in H. injection H as <- <- <-.
    destruct dis.
    + by injection Hod as <- <-.
    + simpl in Hod. apply bind_Ok in Hod as (d2 & Hset & Hod).
      by injection Hod as <- <-.
Qed.

(** The choices a walk records: it appends them to [out], each names a
    clause of the walk, and a walk that records none goes by plain
    steps. *)
Lemma walk_records (fv : list (list float)) (f : Feature)
    (l : list Clause.Clause) (itr itr' : list Feature.Choice)
    (out out' : Feature) (dm dm' : list bool * list N) :
  Forall WF.binary_min_max l ->
  foldlM (Evaluator.push_Feature_clause fv f) l (itr, out, dm)
  = Ok (itr', out', dm') ->
  exists rec,
    Feature.getChoices out' = Feature.getChoices out ++ rec
    /\ Forall (fun ch => Feature.id ch ∈ Clause.id <$> l) rec
    /\ (rec = [] -> foldlM WF.plain_step l dm = Ok dm').
Proof.
  intros Hbin. revert itr out dm.
  induction Hbin as [|c l Hc _ IH]; intros itr out dm H; simpl in H.
  - injection H as _ <- <-. exists []. rewrite app_nil_r. by repeat split.
  - apply bind_Ok in H as ([[itr1 out1] dm1] & H1 & H).
    destruct (IH _ _ _ H) as (rec & Hrec & Hids & Hplain).
    assert (Forall (fun ch => Feature.id ch ∈ Clause.id <$> c :: l) rec)
      as Hids'.
    { eapply Forall_impl; [exact Hids|]. intros ch Hch.
      rewrite fmap_cons. by right. }
    apply (push_Feature_clause_cases _ _ _ _ _ _ _ _ _ Hc) in H1
      as [(-> & -> & Hstep)
         |(ch & -> & Hid & [(Hd & -> & ->)|(Hd & Hout & Hd')])].
    + exists rec. split; [done|]. split; [done|].
      intros Hnil. simpl. rewrite Hstep. simpl. by apply Hplain.
    + exists rec. split; [done|]. split; [done|].
      intros Hnil. simpl. unfold WF.plain_step at 1.
      rewrite (proj2 (at_Ok _ _ _) Hd). simpl. by apply Hplain.
    + exists (ch :: rec). split; [|split].
      * rewrite Hrec, Hout, <- app_assoc. done.
      * constructor; [|done]. rewrite Hid, fmap_cons. by left.
      * done.
Qed.

Lemma foldlM_cons {A B} (k : B -> A -> res B) (x : A) (l : list A)
    (acc : B) :
  foldlM k (x :: l) acc = bind (k acc x) (foldlM k l).
Proof. reflexivity. Qed.

(** Before the clause its next choice names, a walk goes by plain
    steps and records nothing. *)
Lemma walk_prefix (fv : list (list float)) (f : Feature)
    (l : list Clause.Clause) (ch : Feature.Choice)
    (rest itr' : list Feature.Choice)
    (out out' : Feature) (dm dm' : list bool * list N) :
  Forall WF.binary_min_max l ->
  (forall c, c ∈ l -> Clause.id c <> Feature.id ch) ->
  foldlM (Evaluator.push_Feature_clause fv f) l (ch :: rest, out, dm)
  = Ok (itr', out', dm') ->
  itr' = ch :: rest /\ out' = out /\ foldlM WF.plain_step l dm = Ok dm'.
Proof.
  intros Hbin. revert dm.
  induction Hbin as [|c l Hc _ IH]; intros dm Hne H.
  - simpl in H. by injection H as <- <- <-.
  - rewrite foldlM_cons in H. apply bind_Ok in H as ([[itr1 out1] dm1] & H1 & H).
    apply (push_Feature_clause_cases _ _ _ _ _ _ _ _ _ Hc) in H1
      as [(-> & -> & Hstep)|(ch' & Heq & Hid & _)].
    + destruct (IH dm1) as (-> & -> & Hplain); [|done|].
      { intros c' Hc'. apply Hne. by right. }
      repeat split. simpl. by rewrite Hstep.
    + injection Heq as <- _. exfalso. apply (Hne c); [by left|done].
Qed.

(** A slot that is disabled stays disabled along a walk, unless a
    clause of the walk reads it. *)
Lemma walk_disabled (fv : list (list float)) (f : Feature)
    (l : list Clause.Clause) (itr itr' : list Feature.Choice)
    (out out' : Feature) (dm dm' : list bool * list N) (k : N) :
  foldlM (Evaluator.push_Feature_clause fv f) l (itr, out, dm)
  = Ok (itr', out', dm') ->
  (forall c, c ∈ l -> k <> Clause.a c /\ k <> Clause.b c) ->
  dm.1 !! N.to_nat k = Some true -> dm'.1 !! N.to_nat k = Some true.
Proof.
  revert itr out dm. induction l as [|c l IH]; intros itr out dm H Hl Hk;
    simpl in H.
  - by injection H as _ _ <-.
  - apply bind_Ok in H as ([[itr1 out1] dm1] & H1 & H).
    apply (IH _ _ _ H); [intros c' Hc'; apply Hl; by right|].
    destruct (Hl c) as [Ha Hb]; [by left|].
    unfold Evaluator.push_Feature_clause in H1.
    apply bind_Ok in H1 as (fa & _ & H1). apply bind_Ok in H1 as (fb & _ & H1).
    apply bind_Ok in H1 as (dis & _ & H1).
    apply bind_Ok in H1 as ([o d] & Hod & H1). simpl in H1.
    injection H1 as _ _ <-.
    destruct dis; [by injection Hod as _ <-|].
    simpl in Hod. apply bind_Ok in Hod as ([o1 d1] & H1 & Hod).
    apply bind_Ok in Hod as (d2 & Hset & Hod). injection Hod as _ <-.
    assert (d1.1 !! N.to_nat k = Some true) as Hk1.
    { destruct (Evaluator.matching fa fb c itr) as [ch|];
        [|by injection H1 as _ <-].
      apply bind_Ok in H1 as (d1' & Hcol & H1). injection H1 as _ <-.
      destruct (decide (Feature.choice ch = 0%Z));
        apply collapse_Ok in Hcol as (_ & _ & ->); simpl;
        rewrite list_lookup_insert_ne; try done; lia. }
    apply settle_Ok in Hset as (r & _ & Hset).
    destruct (decide (r = 0%N)).
    + destruct Hset as (_ & _ & ->). simpl.
      rewrite !list_lookup_insert_ne; try done; lia.
    + destruct Hset as (Hlt & ->). simpl.
      destruct (decide (N.to_nat (Clause.id c) = N.to_nat k)) as [->|Hne].
      * rewrite list_lookup_insert_eq; [done|]. by eapply lookup_lt_Some.
      * by rewrite list_lookup_insert_ne.
Qed.

(** The place of a clause in a tape with distinct slots. *)
Lemma position_middle (pre post : list Clause.Clause) (c0 : Clause.Clause) :
  (forall c, c ∈ pre -> Clause.id c <> Clause.id c0) ->
  WF.position (pre ++ c0 :: post) (Clause.id c0) = length pre.
Proof.
  intros Hpre. unfold WF.position.
  assert (list_find (fun c => Clause.id c = Clause.id c0)
            (pre ++ c0 :: post) = Some (length pre, c0)) as ->; [|done].
  apply list_find_Some. split; [by apply list_lookup_middle|].
  split; [done|]. intros j y Hj Hlt Hy.
  rewrite lookup_app_l in Hj by done.
  apply (Hpre y); [by eapply list_elem_of_lookup_2|done].
Qed.

Lemma position_after (pre post : list Clause.Clause) (c0 : Clause.Clause)
    (k : N) :
  (forall c, c ∈ pre -> Clause.id c <> k) -> Clause.id c0 <> k ->
  (length pre < WF.position (pre ++ c0 :: post) k)%nat.
Proof.
  intros Hpre Hc0. unfold WF.position.
  destruct (list_find _ _) as [[i y]|] eqn:Hfind; simpl.
  - apply list_find_Some in Hfind as (Hi & Hy & _).
    destruct (decide (i < length pre)%nat) as [Hlt|Hge].
    { rewrite lookup_app_l in Hi by done. exfalso.
      apply (Hpre y); [by eapply list_elem_of_lookup_2|done]. }
    destruct (decide (i = length pre)) as [->|Hne]; [|lia].
    rewrite list_lookup_middle in Hi by done. injection Hi as <-. done.
  - rewrite length_app. simpl. lia.
Qed.

End Walks.

(** ** The successors of a feature stand earlier in the tape *)

Section Successors.
Context {num : Numeric} {api : Feature.API} {laws : Feature.Laws}.

Lemma bounded_mono (l : list Clause.Clause) (dm0 : list bool * list N)
    (x : Feature) (b b' : nat) :
  (b <= b')%nat -> WF.bounded l dm0 x b -> WF.bounded l dm0 x b'.
Proof.
  intros Hle Hb fv out dm Hw. destruct (Hb fv out dm Hw) as [Hr Hf].
  split; [lia|done].
Qed.

Lemma bounded_new (l : list Clause.Clause) (dm0 : list bool * list N) :
  WF.bounded l dm0 Feature.new (S (length l)).
Proof.
  intros fv out dm _. split; [unfold WF.rank; simpl; lia|].
  intros chx rest Hx. discriminate.
Qed.

(** The feature [y] the scan makes of the feature [out] that [push(x)]
    returned has a first choice that names a clause before the one the
    first choice of [x] names, and the walk of [push(y)] keeps it in
    front. *)
Lemma successor_bounded (l : list Clause.Clause) (dm0 : list bool * list N)
    (fv : list (list float)) (x y out : Feature) (dm : list bool * list N)
    (c0 : Clause.Clause) (ch : Feature.Choice) :
  NoDup (Clause.id <$> l) -> WF.users_first l ->
  Forall WF.binary_min_max l ->
  WF.feature_walk l dm0 fv x = Ok ([], out, dm) ->
  (forall chx rest, Feature.getChoices x = chx :: rest ->
     exists rest', Feature.getChoices out = chx :: rest') ->
  c0 ∈ l -> dm.1 !! N.to_nat (Clause.id c0) = Some false ->
  Feature.id ch = Clause.id c0 ->
  Feature.getChoices y = ch :: Feature.getChoices out ->
  WF.bounded l dm0 y (WF.rank l x).
Proof.
  intros Hnd Huf Hbin Hx Hfront Hc0 Hlive Hid Hy fv' out' dm' Hw.
  unfold WF.feature_walk in Hw, Hx. rewrite Hy in Hw.
  (* the clauses that consume the choices of [y] *)
  destruct (push_Feature_fold_itr _ _ _ _ _ _ _ _ _ Hw)
    as (used & cs & Hused & Hsub & Hall).
  rewrite app_nil_r in Hused. subst used.
  apply Forall2_cons_inv_l in Hall as (ca & cs' & (Hida & _) & Hall & ->).
  apply sublist_cons_l in Hsub as (pre & post & -> & Hsub).
  assert (ca = c0) as ->.
  { apply (NoDup_ids_eq (pre ++ ca :: post)); try done; [|congruence].
    apply elem_of_app. right. by left. }
  rewrite fmap_app, fmap_cons in Hnd.
  apply NoDup_app in Hnd as (_ & Hdisj & Hnd2).
  apply NoDup_cons in Hnd2 as [Hc0post _].
  assert (forall c, c ∈ pre -> Clause.id c <> Clause.id c0) as Hpre.
  { intros c Hc Heq. apply (Hdisj (Clause.id c));
      [by apply list_elem_of_fmap_2|]. rewrite Heq. by left. }
  assert (forall c, c ∈ post -> Clause.id c <> Clause.id c0) as Hpost.
  { intros c Hc Heq. apply Hc0post. rewrite <- Heq.
    by apply list_elem_of_fmap_2. }
  assert (Forall (fun ch' => Feature.id ch' ∈ Clause.id <$> post)
                 (Feature.getChoices out)) as Hlater.
  { apply Forall_forall. intros ch' Hch'.
    apply list_elem_of_lookup_1 in Hch' as [i Hi].
    destruct (Forall2_lookup_l _ _ _ _ _ Hall Hi) as (c & Hc & Hidc & _).
    rewrite Hidc. apply list_elem_of_fmap_2.
    apply list_elem_of_lookup_2 in Hc. by eapply elem_of_sublist. }
  assert (forall ch', ch' ∈ Feature.getChoices out ->
            (forall c, c ∈ pre -> Clause.id c <> Feature.id ch')
            /\ Clause.id c0 <> Feature.id ch') as Hnot.
  { intros ch' Hch'.
    pose proof (proj1 (Forall_forall _ _) Hlater ch' Hch') as Hin.
    split.
    - intros c Hc Heq. apply (Hdisj (Clause.id c));
        [by apply list_elem_of_fmap_2|]. rewrite Heq. by right.
    - intros Heq. apply Hc0post. by rewrite Heq. }
  apply Forall_app in Hbin as [Hbpre Hbpost].
  apply Forall_cons in Hbpost as [Hb0 Hbpost].
  split.
  { (* the rank *)
    unfold WF.rank. rewrite Hy, Hid, (position_middle _ _ _ Hpre).
    destruct (Feature.getChoices x) as [|chx rest] eqn:Hchx.
    - rewrite length_app. simpl. lia.
    - destruct (Hfront chx rest eq_refl) as [rest' Hout].
      destruct (Hnot chx) as [Hp H0]; [rewrite Hout; by left|].
      by apply position_after. }
  (* the first choice *)
  intros chx rest Heq. rewrite Hy in Heq. injection Heq as <- _.
  rewrite foldlM_app in Hw.
  apply bind_Ok in Hw as ([[itr1 out1] dm1] & Hw1 & Hw).
  apply walk_prefix in Hw1 as (-> & -> & Hplain); [|done|].
  2:{ intros c Hc. rewrite Hid. by apply Hpre. }
  rewrite foldlM_app in Hx.
  apply bind_Ok in Hx as ([[itrx1 outx1] dmx1] & Hx1 & Hx).
  destruct (walk_records _ _ _ _ _ _ _ _ _ Hbpre Hx1)
    as (rec1 & Hrec1 & Hids1 & Hplain1).
  rewrite foldlM_cons in Hx.
  apply bind_Ok in Hx as ([[itrx2 outx2] dmx2] & Hx2 & Hx).
  assert (Feature.getChoices outx2 = Feature.getChoices outx1
          \/ exists chm, Feature.getChoices outx2
                         = Feature.getChoices outx1 ++ [chm]) as Hout2.
  { apply (push_Feature_clause_cases _ _ _ _ _ _ _ _ _ Hb0) in Hx2
      as [(_ & -> & _)|(chm & _ & _ & [(_ & -> & _)|(_ & Ho & _)])];
      [by left|by left|right; by exists chm]. }
  destruct (walk_records _ _ _ _ _ _ _ _ _ Hbpost Hx)
    as (rec2 & Hrec2 & _ & _).
  assert (rec1 = []) as ->.
  { destruct rec1 as [|ch1 rec1]; [done|]. exfalso.
    apply Forall_cons in Hids1 as [Hin1 _].
    apply list_elem_of_fmap in Hin1 as (c1 & Hidc1 & Hc1).
    destruct (Hnot ch1) as [Hp _]; [|by apply (Hp c1)].
    rewrite Hrec2. destruct Hout2 as [->|[chm ->]]; rewrite Hrec1; simpl;
      by left. }
  rewrite (Hplain1 eq_refl) in Hplain. injection Hplain as <-.
  (* the clause was live when the walk of [x] came to it *)
  assert (forall c, c ∈ post ->
            Clause.id c0 <> Clause.a c /\ Clause.id c0 <> Clause.b c)
    as Hunread.
  { intros c Hc. apply list_elem_of_lookup_1 in Hc as [j Hj].
    apply (Huf (length pre) (length pre + S j)%nat c0 c);
      [by apply list_lookup_middle| |lia].
    rewrite lookup_app_r by lia.
    replace (length pre + S j - length pre)%nat with (S j) by lia. done. }
  assert (dmx1.1 !! N.to_nat (Clause.id c0) = Some false) as Hvisit.
  { assert (dmx2.1 !! N.to_nat (Clause.id c0) = Some true -> False) as Hno.
    { intros Ht.
      pose proof (walk_disabled _ _ _ _ _ _ _ _ _ _ Hx Hunread Ht).
      congruence. }
    apply (push_Feature_clause_cases _ _ _ _ _ _ _ _ _ Hb0) in Hx2
      as [(_ & _ & Hstep)|(chm & _ & _ & [(Ht & _ & ->)|(_ & _ & Ht)])];
      [|by destruct (Hno Ht)|by destruct (Hno Ht)].
    unfold WF.plain_step in Hstep.
    apply bind_Ok in Hstep as (dis & Hdis & Hstep). apply at_Ok in Hdis.
    destruct dis; [|done]. injection Hstep as <-. by destruct (Hno Hdis). }
  (* so the walk of [y] records its first choice there *)
  rewrite foldlM_cons in Hw.
  apply bind_Ok in Hw as ([[itr2 out2] dm2] & Hw2 & Hw).
  apply (push_Feature_clause_cases _ _ _ _ _ _ _ _ _ Hb0) in Hw2
    as [(-> & _ & _)|(chm & Heq & _ & [(Ht & _)|(_ & Ho & _)])].
  - apply walk_prefix in Hw as (Hitr & _); [done|done|].
    intros c Hc. rewrite Hid. by apply Hpost.
  - congruence.
  - injection Heq as <- _.
    destruct (walk_records _ _ _ _ _ _ _ _ _ Hbpost Hw)
      as (rec & Hrec & _ & _).
    exists rec. rewrite Hrec, Ho. done.
Qed.

End Successors.

(** ** The reduced tape keeps the users of a slot first *)

Section Order.
Context {num : Numeric}.

Lemma sublist_lookup_order {A} (k l : list A) (i j : nat) (x y : A) :
  k `sublist_of` l -> k !! i = Some x -> k !! j = Some y -> (i <= j)%nat ->
  exists i0 j0, l !! i0 = Some x /\ l !! j0 = Some y /\ (i0 <= j0)%nat.
Proof.
  intros Hsub. revert i j.
  induction Hsub as [|z k l Hsub IH|z k l Hsub IH]; intros i j Hi Hj Hle.
  - done.
  - destruct i as [|i]; destruct j as [|j]; simpl in *; try lia.
    + exists 0%nat, 0%nat. by repeat split.
    + apply list_elem_of_lookup_2 in Hj.
      apply (elem_of_sublist _ _ _ Hj) in Hsub.
      apply list_elem_of_lookup_1 in Hsub as [j0 Hj0].
      exists 0%nat, (S j0). repeat split; try done. lia.
    + destruct (IH i j Hi Hj) as (i0 & j0 & Hi0 & Hj0 & Hle0); [lia|].
      exists (S i0), (S j0). repeat split; try done. lia.
  - destruct (IH i j Hi Hj Hle) as (i0 & j0 & Hi0 & Hj0 & Hle0).
    exists (S i0), (S j0). repeat split; try done. lia.
Qed.

(** Following [remap] from a slot that none of the first clauses of the
    tape writes leads to such a slot: a slot is remapped to an operand
    of the clause that writes it. *)
Lemma reaches_unwritten (l : list Clause.Clause) (m : list N) (j0 : nat)
    (r r' : N) :
  WF.users_first l ->
  (forall k r, m !! N.to_nat k = Some r -> r <> 0%N ->
     exists c, c ∈ l /\ Clause.id c = k
               /\ (r = Clause.a c \/ r = Clause.b c)) ->
  WF.reaches m r r' ->
  (forall i c, (i <= j0)%nat -> l !! i = Some c -> Clause.id c <> r) ->
  forall i c, (i <= j0)%nat -> l !! i = Some c -> Clause.id c <> r'.
Proof.
  intros Huf Hprov. induction 1 as [r Hr|r r1 r' Hr Hne _ IH]; [done|].
  intros Hfree. apply IH.
  destruct (Hprov r r1 Hr Hne) as (ck & Hck & Hidk & Hop).
  apply list_elem_of_lookup_1 in Hck as [jk Hjk].
  assert (j0 < jk)%nat as Hlt.
  { destruct (decide (jk <= j0)%nat) as [Hle|]; [|lia].
    by destruct (Hfree jk ck Hle Hjk). }
  intros i c Hi Hc.
  destruct (Huf i jk c ck Hc Hjk) as [Ha Hb]; [lia|].
  destruct Hop as [-> | ->]; done.
Qed.

Lemma reduced_users_first (d : list bool) (m : list N)
    (prev new : Tape.Tape) :
  WF.users_first (Tape.t prev) ->
  (forall k r, m !! N.to_nat k = Some r -> r <> 0%N ->
     exists c, c ∈ Tape.t prev /\ Clause.id c = k
               /\ (r = Clause.a c \/ r = Clause.b c)) ->
  WF.reduced d m prev new ->
  WF.users_first (Tape.t new).
Proof.
  intros Huf Hprov [Hall _] i j c' c2' Hi Hj Hle.
  destruct (Forall2_lookup_r _ _ _ _ _ Hall Hi) as (c & Hc & _ & Hid & _).
  destruct (Forall2_lookup_r _ _ _ _ _ Hall Hj)
    as (c2 & Hc2 & _ & _ & Ha & Hb).
  destruct (sublist_lookup_order _ (Tape.t prev) i j c c2
              (sublist_filter _ _) Hc Hc2 Hle)
    as (i0 & j0 & Hi0 & Hj0 & Hle0).
  rewrite Hid.
  split.
  - apply (reaches_unwritten (Tape.t prev) m j0 _ _ Huf Hprov Ha)
      with (i := i0); try done.
    intros i1 c1 Hi1 Hc1. by apply (Huf i1 j0 c1 c2 Hc1 Hj0).
  - apply (reaches_unwritten (Tape.t prev) m j0 _ _ Huf Hprov Hb)
      with (i := i0); try done.
    intros i1 c1 Hi1 Hc1. by apply (Huf i1 j0 c1 c2 Hc1 Hj0).
Qed.

(** [specialize] remaps a slot only to an operand of the clause that
    writes it. *)
Lemma specialize_fold_operands (f : list (list float))
    (l : list Clause.Clause) (dm0 dm : list bool * list N) :
  (forall k r, dm0.2 !! k = Some r -> r = 0%N) ->
  foldlM (Evaluator.specialize_clause f) l dm0 = Ok dm ->
  forall k r, dm.2 !! N.to_nat k = Some r -> r <> 0%N ->
    exists c, c ∈ l /\ Clause.id c = k
              /\ (r = Clause.a c \/ r = Clause.b c).
Proof.
  intros Hzero H. revert H.
  apply (foldlM_inv
    (fun dm => forall k r, dm.2 !! N.to_nat k = Some r -> r <> 0%N ->
       exists c, c ∈ l /\ Clause.id c = k
                 /\ (r = Clause.a c \/ r = Clause.b c))).
  - intros b c b' Hc Hb Hstep k r Hk Hr.
    apply specialize_clause_remap in Hstep
      as [Heq|(r0 & fa & fb & Heq & _ & _ & Hcase)];
      rewrite Heq in Hk; [by apply Hb|].
    destruct (decide (Clause.id c = k)) as [<-|Hne].
    + assert (r0 = r) as ->.
      { destruct (decide (N.to_nat (Clause.id c) < length b.2)%nat).
        - rewrite list_lookup_insert_eq in Hk by done. congruence.
        - rewrite list_insert_ge in Hk by lia.
          apply lookup_lt_Some in Hk. lia. }
      exists c. split; [done|]. split; [done|].
      destruct Hcase as [(_ & _ & ->)|[(_ & _ & ->)|[(_ & _ & ->)
                        |(_ & _ & ->)]]]; tauto.
    + rewrite list_lookup_insert_ne in Hk; [by apply Hb|].
      intros Heq'. by apply N2Nat.inj in Heq'.
  - intros k r Hk Hr. by apply Hzero in Hk.
Qed.

End Order.

(** ** The worklist loop of [featuresAt] runs out of work *)

Section Worklist.
Context {num : Numeric} {api : Feature.API} {laws : Feature.Laws}.

Lemma cost_pos (b : nat) : (1 <= WF.cost b)%nat.
Proof. destruct b; simpl; lia. Qed.

Lemma cost_mono (b b' : nat) : (b <= b')%nat -> (WF.cost b <= WF.cost b')%nat.
Proof.
  induction 1 as [|b' _ IH]; [done|]. simpl. lia.
Qed.

Lemma sum_list_append (l1 l2 : list nat) :
  sum_list (l1 ++ l2) = (sum_list l1 + sum_list l2)%nat.
Proof. induction l1 as [|x l1 IH]; simpl; [done|]. rewrite IH. lia. Qed.

(** The loop comes to an end within the iterations counted by the
    bounds of the features in [todo]: it returns, or it stops at the
    assertion of a push. *)
Lemma loop_bounded (n fuel : nat) (tp : Tape.Tape)
    (dm0 : list bool * list N) :
  dm0 = (<[N.to_nat (Tape.i tp) := false]> (replicate n true),
         replicate n 0%N) ->
  WF.users_first (Tape.t tp) ->
  forall k todo bs done seen s,
    WF.runs_ok n s tp ->
    Forall2 (WF.bounded (Tape.t tp) dm0) todo bs ->
    (sum_list (WF.cost <$> bs) <= k)%nat ->
    (exists v, Evaluator.featuresAt_loop k fuel todo done seen s = Ok v)
    \/ Evaluator.featuresAt_loop k fuel todo done seen s
       = Err AssertionFailed.
Proof.
  intros Hdm0 Huf. induction k as [|k IH];
    intros todo bs done seen s Hs Hall Hsum.
  - destruct Hall as [|x b todo' bs' _ _]; [left; by eexists|].
    rewrite fmap_cons in Hsum. simpl in Hsum.
    pose proof (cost_pos b). lia.
  - destruct Hall as [|x b todo' bs' Hx Hrest]; [left; by eexists|].
    rewrite fmap_cons in Hsum. simpl in Hsum.
    destruct (loop_step n fuel k x todo' done seen s tp Hs)
      as (dm1 & itr & out & dm & Hreset & Hwalk & Hfail & Hok).
    pose proof Hs as [_ (Hcl & Hnd & _) _ Hdl Hml _ _ _ _].
    apply reset_Ok in Hreset as [_ Hdm1]. rewrite Hdl, Hml in Hdm1.
    rewrite <- Hdm0 in Hdm1. subst dm1.
    destruct itr as [|ch itr]; [|right; by apply Hfail].
    destruct (Hok eq_refl)
      as (tf & kids & done' & seen' & s3 & Hloop & Hs3 & _ & Hred & Hlen
          & Hkids & _).
    rewrite Hloop.
    destruct (Hx _ _ _ Hwalk) as [Hrank Hfront].
    apply (IH _ (bs' ++ replicate (length kids) (Nat.pred b))); [done| |].
    + apply Forall2_app; [done|].
      apply Forall2_replicate_r; [done|].
      eapply Forall_impl; [exact Hkids|].
      intros y (c & chy & Hc & _ & Hidy & Hy). simpl.
      destruct (reduced_elem _ _ _ _ _ Hred Hc) as (c0 & Hc0 & _ & Hid0 & Hd).
      apply (bounded_mono _ _ _ (WF.rank (Tape.t tp) x)); [lia|].
      apply (successor_bounded _ _ (Result.f (Evaluator.result s)) x y out dm
               c0 chy); try done.
      * by apply (clause_ok_binary n).
      * congruence.
      * destruct Hy as [->|[e He]];
          [apply Feature.push_choice_front|by eapply Feature.push_front].
    + rewrite fmap_app, sum_list_append, fmap_replicate, sum_list_replicate.
      destruct b as [|b0]; [lia|]. simpl in *. nia.
Qed.

(** [featuresAt] does not run on for ever: with enough fuel for the
    length of the tape it returns or stops at an assertion. *)
Lemma featuresAt_ends (fuel : nat) (p : Vector3f)
    (s : Evaluator.Evaluator) (tp : Tape.Tape) :
  WF.kernel_ok s tp ->
  (WF.cost (S (length (Tape.t tp))) <= fuel)%nat ->
  (exists v, Evaluator.featuresAt fuel p s = Ok v)
  \/ Evaluator.featuresAt fuel p s = Err AssertionFailed.
Proof.
  intros Hk Hfuel.
  pose proof (kernel_users_first s tp Hk) as Huf.
  destruct Hk as [Hs _ _].
  set (n := length (Evaluator.remap s)) in *.
  destruct (specialize_runs n fuel p s tp Hs)
    as (x & r1 & dm0 & dm & s1 & new & Hev & Hreset & Hfold & Hspec & Hs1
        & Hred & _).
  assert (WF.users_first (Tape.t new)) as Hufn.
  { apply (reduced_users_first dm.1 dm.2 tp new Huf); [|done].
    apply (specialize_fold_operands (Result.f r1) (Tape.t tp) dm0 dm);
      [|done].
    apply reset_Ok in Hreset as [_ ->]. simpl.
    intros k r Hk. by apply lookup_replicate in Hk as [-> _]. }
  assert (length (Tape.t new) <= length (Tape.t tp))%nat as Hlen.
  { destruct Hred as [Hall _]. rewrite <- (Forall2_length _ _ _ Hall).
    apply length_filter. }
  destruct (loop_bounded n fuel new _ eq_refl Hufn fuel [Feature.new]
              [S (length (Tape.t new))] [] [] s1 Hs1) as [[[done s2] Hl]|Hl].
  { constructor; [apply bounded_new|constructor]. }
  { simpl. pose proof (cost_mono (S (length (Tape.t new)))
                         (S (length (Tape.t tp)))). simpl in *. lia. }
  - unfold Evaluator.featuresAt. rewrite Hspec. cbn [bind]. rewrite Hl.
    cbn [bind]. unfold Evaluator.pop.
    destruct (bool_decide (Evaluator.tape s2 <> 0%nat)); [|by right].
    simpl. destruct (bool_decide (0 < length done)%nat); [|by right].
    left. by eexists.
  - right. unfold Evaluator.featuresAt. rewrite Hspec. cbn [bind].
    by rewrite Hl.
Qed.

End Worklist.

(** ** What [featuresAt] returns, and when *)

Lemma sample_feature_laws : @Feature.Laws Sample.feature.
Proof.
  split; try done.
  intros e ch f f'. simpl. destruct (Sample.compatible f e); [|done].
  by intros [= <-].
Qed.

Ltac distinct_slots :=
  repeat (apply NoDup_cons; split;
          [intros Hin;
           repeat (apply elem_of_cons in Hin as [Hin|Hin]; [discriminate|]);
           by apply elem_of_nil in Hin|]);
  apply NoDup_nil_2.

Lemma max_min_kernel_ok :
  WF.kernel_ok Examples.max_min Examples.tape_max_min.
Proof.
  split; [|exact max_min_ordered|].
  - split; simpl; try done; try lia.
    + split; [|split; [|simpl; lia]].
      * repeat constructor; simpl; lia.
      * simpl. distinct_slots.
    + repeat constructor; done.
    + unfold WF.arena_ok, WF.matrix_ok. simpl.
      repeat split; repeat constructor.
  - split; [distinct_slots|].
    simpl. intros k Hk Hin.
    repeat (apply elem_of_cons in Hk as [->|Hk];
            [repeat (apply elem_of_cons in Hin as [Hin|Hin];
                     [discriminate|]);
             by apply elem_of_nil in Hin|]).
    by apply elem_of_nil in Hk.
Qed.

Section FeaturesAt.
Context {num : Numeric} {api : Feature.API}.


End FeaturesAt.

